(** * The Query / Ui parsers of [copperfield/ui/src/parsers.ts]

    A shallow embedding of the two line-oriented parsers and of their
    reification passes, with the properties the specification states about
    them.

    Conventions of the embedding.
    - A JavaScript string is a [string]: one [ascii] per code unit.
    - A JavaScript object used as a record is a Rocq record whose optional
      members are [option]s ([None] is [undefined]); an object used as a
      dictionary is a [gmap string _], or an insertion-ordered association
      list where the source enumerates it, which holds the properties the
      object has of its own.  A read goes through [member], which finds the
      members inherited from [Object.prototype] where the object has none
      of its own by that name, and a write of a value that is no object
      through [put], which is lost on the key [__proto__].  An inherited
      member that the source takes for an identifier is kept as the string
      it makes when it is used as a key.  The dictionaries that are keyed by
      the identifiers of variables and of queries hold objects; there the
      embedding follows the source for every identifier that is no name of
      a member of [Object.prototype], and the statements that depend on it
      say so.
    - A function that can raise returns a [Res]: [Throw e] carries the
      [Error] raised, whose name is ["TypeError"] for an exception of the
      engine (a member read off [undefined]) and ["Parse Error"] or ["Error"]
      for one that the source makes, and [Diverge] says that a loop of the
      source did not come to an end.  An [Error] keeps the message given to
      [ParseError], without the position and the excerpt appended to it.
    - [Api.uuid ()] draws from a stream of identifiers through a counter
      that is threaded through the calls. *)

From stdpp Require Import base option list strings gmap pretty sorting.
From Stdlib Require Import Ascii ZArith Lia.

(* ------------------------------------------------------------------------- *)
(** ** String primitives *)
(* ------------------------------------------------------------------------- *)

Module JsString.

(** [s.startsWith(t)], the test [indexOf] repeats at every offset. *)
Fixpoint startsWith (t s : string) : bool :=
  match t, s with
  | EmptyString, _ => true
  | String a t', String b s' => if decide (a = b) then startsWith t' s' else false
  | String _ _, EmptyString => false
  end.

(** [s.indexOf(t)]; [None] is JavaScript's [-1]. *)
Fixpoint indexOf (s t : string) : option nat :=
  if startsWith t s then Some 0
  else match s with
       | EmptyString => None
       | String _ s' => S <$> indexOf s' t
       end.

(** [s.slice(0, n)]. *)
Fixpoint take (n : nat) (s : string) : string :=
  match n, s with
  | S n', String a s' => String a (take n' s')
  | _, _ => EmptyString
  end.

(** [s.slice(n)]. *)
Fixpoint drop (n : nat) (s : string) : string :=
  match n, s with
  | S n', String _ s' => drop n' s'
  | _, _ => s
  end.

(** [pieces.join("")]. *)
Definition join (pieces : list string) : string :=
  foldr String.append EmptyString pieces.

(** Truthiness of a string: only the empty string is falsy. *)
Definition truthy (s : string) : bool :=
  match s with EmptyString => false | String _ _ => true end.

End JsString.

(* ------------------------------------------------------------------------- *)
(** ** Tokenizer *)
(* ------------------------------------------------------------------------- *)

(** The [for(let token of tokens)] scan of [makeTokenizer]: [acc] is the pair
    [(minIx, minToken)]. *)
Definition tokenizer_pick (raw : string) (acc : nat * string) (token : string)
  : nat * string :=
  match JsString.indexOf raw token with
  | Some ix => if ix <? acc.1 then (ix, token) else acc
  | None => acc
  end.

(** One turn of the [while(raw.length)] loop: the pieces pushed and what is
    left of [raw]. *)
Definition tokenizer_step (tokens : list string) (raw : string)
  : list string * string :=
  let '(minIx, minToken) :=
    foldl (tokenizer_pick raw) (String.length raw, raw) tokens in
  let pushed :=
    if (0 <? minIx) && (minIx <? String.length raw)
    then [JsString.take minIx raw; minToken] else [minToken] in
  (pushed, JsString.drop (minIx + String.length minToken) raw).

(** The loop itself.  It has no bound of its own in the source; [fuel] counts
    the turns allowed, and [None] says they did not suffice. *)
Fixpoint tokenizer_loop (tokens : list string) (fuel : nat) (raw : string)
    (results : list string) : option (list string) :=
  match raw with
  | EmptyString => Some results
  | String _ _ =>
      match fuel with
      | 0 => None
      | S fuel' =>
          let '(pushed, rest) := tokenizer_step tokens raw in
          tokenizer_loop tokens fuel' rest (results ++ pushed)
      end
  end.

Definition makeTokenizer (tokens : list string) (fuel : nat) (raw : string)
  : option (list string) :=
  tokenizer_loop tokens fuel raw [].

(** The tokenizer never returns on [raw], however many turns it is given. *)
Definition tokenizer_diverges (tokens : list string) (raw : string) : Prop :=
  ∀ fuel, makeTokenizer tokens fuel raw = None.

(* ------------------------------------------------------------------------- *)
(** ** More of the string library, as the parsers use it *)
(* ------------------------------------------------------------------------- *)

Definition NL : string := String "010"%char EmptyString.
Definition TAB : string := String "009"%char EmptyString.

Module JsText.

(** [s.split(sep)] for a one-character separator given as a test. *)
Fixpoint split_at (sep : ascii → bool) (s : string) : list string :=
  match s with
  | EmptyString => [EmptyString]
  | String c s' =>
      if sep c then EmptyString :: split_at sep s'
      else match split_at sep s' with
           | l :: ls => String c l :: ls
           | [] => [String c EmptyString]
           end
  end.

Definition is_newline (c : ascii) : bool := bool_decide (c = "010"%char).

(** [raw.split("\n")]. *)
Definition split_lines (raw : string) : list string := split_at is_newline raw.

(** The line terminators that [^] and [$] stop at under the [m] flag. *)
Definition is_line_terminator (c : ascii) : bool :=
  bool_decide (c = "010"%char) || bool_decide (c = "013"%char).

Definition is_digit (c : ascii) : bool :=
  match Ascii.is_nat c with Some _ => true | None => false end.

Fixpoint skip_digits (s : string) : string :=
  match s with
  | String c s' => if is_digit c then skip_digits s' else s
  | EmptyString => EmptyString
  end.

(** Strips [[\d]+] off the front; [None] when there is no digit. *)
Definition digits_then (s : string) : option string :=
  match s with
  | String c s' => if is_digit c then Some (skip_digits s') else None
  | EmptyString => None
  end.

Definition strip_minus (s : string) : string :=
  match s with
  | String c s' => if bool_decide (c = "-"%char) then s' else s
  | EmptyString => s
  end.

(** [/^-?[\d]+$/] on one line. *)
Definition matches_int (line : string) : bool :=
  match digits_then (strip_minus line) with
  | Some EmptyString => true
  | _ => false
  end.

(** [/^-?[\d]+\.[\d]+$/] on one line. *)
Definition matches_float (line : string) : bool :=
  match digits_then (strip_minus line) with
  | Some (String c s') =>
      bool_decide (c = "."%char)
      && match digits_then s' with Some EmptyString => true | _ => false end
  | _ => false
  end.

(** [input.match(re)] for a [gim] expression anchored at both ends: some line
    of the input matches. *)
Definition match_some_line (re : string → bool) (input : string) : bool :=
  existsb re (split_at is_line_terminator input).

(** White space as [trim] sees it, among the code units below 256. *)
Definition is_white (c : ascii) : bool :=
  let n := Ascii.nat_of_ascii c in
  ((9 <=? n) && (n <=? 13)) || (n =? 32) || (n =? 160).

Fixpoint trimStart (s : string) : string :=
  match s with
  | String c s' => if is_white c then trimStart s' else s
  | EmptyString => EmptyString
  end.

Fixpoint trimEnd (s : string) : string :=
  match s with
  | EmptyString => EmptyString
  | String c s' =>
      match trimEnd s' with
      | EmptyString => if is_white c then EmptyString else String c EmptyString
      | r => String c r
      end
  end.

Definition trim (s : string) : string := trimEnd (trimStart s).

Definition lower_char (c : ascii) : ascii :=
  let n := Ascii.nat_of_ascii c in
  if ((65 <=? n) && (n <=? 90))
     || ((192 <=? n) && (n <=? 222) && negb (n =? 215))
  then Ascii.ascii_of_nat (n + 32) else c.

Fixpoint toLowerCase (s : string) : string :=
  match s with
  | EmptyString => EmptyString
  | String c s' => String (lower_char c) (toLowerCase s')
  end.

(** [new Array(n + 1).join(" ")]. *)
Fixpoint spaces (n : nat) : string :=
  match n with 0 => EmptyString | S n' => String " "%char (spaces n') end.

End JsText.

(* ------------------------------------------------------------------------- *)
(** ** Values and exceptions *)
(* ------------------------------------------------------------------------- *)

(** JavaScript numbers are IEEE doubles; the parsers only read them off a
    literal, test them for truth and print them, so they are kept abstract. *)
Class JsNumber := {
  number : Type;
  parseInt : string → number;
  parseFloat : string → number;
  number_truthy : number → bool;
  number_toString : number → string;
}.

(** The fact store and the identifier generator of the [Api] module, which
    the parsers only call.
    - [ixer_view_fingerprint fp]: the view of the row that
      [Api.ixer.findOne("view fingerprint", {fingerprint: fp})] returns;
    - [ixer_fingerprint_field fp]: the [(ix, field)] rows of
      [Api.ixer.find("fingerprint field", {fingerprint: fp})];
    - [uuid n]: the [n]-th identifier [Api.uuid()] hands out. *)
Record Api := {
  ixer_view_fingerprint : string → option string;
  ixer_fingerprint_field : string → list (Z * string);
  uuid : nat → string;
}.

Set Warnings "-register-all".

Section Model.
Context `{JsNumber}.

Inductive Scalar := SNum (n : number) | SBool (b : bool) | SStr (s : string).

Definition scalar_truthy (v : Scalar) : bool :=
  match v with
  | SNum n => number_truthy n
  | SBool b => b
  | SStr s => JsString.truthy s
  end.

Definition scalar_toString (v : Scalar) : string :=
  match v with
  | SNum n => number_toString n
  | SBool true => "true"
  | SBool false => "false"
  | SStr s => s
  end.

(** [coerceInput]. *)
Definition coerceInput (input : string) : Scalar :=
  if JsText.match_some_line JsText.matches_int input then SNum (parseInt input)
  else if JsText.match_some_line JsText.matches_float input
       then SNum (parseFloat input)
  else if String.eqb input "true" then SBool true
  else if String.eqb input "false" then SBool false
  else SStr input.

(* ------------------------------------------------------------------------- *)
(** ** Tokens *)
(* ------------------------------------------------------------------------- *)

(** Every AST node of the source is an object with a [type] tag and the
    members its interface adds ([Token], [LineAST], [TextAST], [FieldAST],
    [SourceAST], [OrdinalAST], [CalculationAST], [ElementAST],
    [AttributeAST], [BindingAST], [EventAST]).  The source retags and extends
    these objects in place, so one record holds the union of the members.
    [value] is [FieldAST.value], [attr_value] is [AttributeAST.value]. *)
Inductive Token : Type := mkToken {
  type : string;
  tokenIx : option nat;
  lineIx : option nat;
  indent : option nat;
  chunks : option (list Token);
  text : option string;
  grouped : option bool;
  alias : option string;
  value : option Scalar;
  negated : option bool;
  directions : option (list (option string));
  partIx : option nat;
  tag : option string;
  classes : option string;
  name : option string;
  property : option string;
  attr_value : option Token;
  static : option bool;
  event : option string;
  key : option Token;
}.

(** The object literal [{type: ty}]. *)
Definition obj (ty : string) : Token :=
  mkToken ty None None None None None None None None None None None None None
    None None None None None None.

Definition set_type (v : string) (t : Token) : Token :=
  mkToken v (tokenIx t) (lineIx t) (indent t) (chunks t) (text t) (grouped t)
    (alias t) (value t) (negated t) (directions t) (partIx t) (tag t) (classes
    t) (name t) (property t) (attr_value t) (static t) (event t) (key t).
Definition set_tokenIx (v : option nat) (t : Token) : Token :=
  mkToken (type t) v (lineIx t) (indent t) (chunks t) (text t) (grouped t)
    (alias t) (value t) (negated t) (directions t) (partIx t) (tag t) (classes
    t) (name t) (property t) (attr_value t) (static t) (event t) (key t).
Definition set_lineIx (v : option nat) (t : Token) : Token :=
  mkToken (type t) (tokenIx t) v (indent t) (chunks t) (text t) (grouped t)
    (alias t) (value t) (negated t) (directions t) (partIx t) (tag t) (classes
    t) (name t) (property t) (attr_value t) (static t) (event t) (key t).
Definition set_indent (v : option nat) (t : Token) : Token :=
  mkToken (type t) (tokenIx t) (lineIx t) v (chunks t) (text t) (grouped t)
    (alias t) (value t) (negated t) (directions t) (partIx t) (tag t) (classes
    t) (name t) (property t) (attr_value t) (static t) (event t) (key t).
Definition set_chunks (v : option (list Token)) (t : Token) : Token :=
  mkToken (type t) (tokenIx t) (lineIx t) (indent t) v (text t) (grouped t)
    (alias t) (value t) (negated t) (directions t) (partIx t) (tag t) (classes
    t) (name t) (property t) (attr_value t) (static t) (event t) (key t).
Definition set_text (v : option string) (t : Token) : Token :=
  mkToken (type t) (tokenIx t) (lineIx t) (indent t) (chunks t) v (grouped t)
    (alias t) (value t) (negated t) (directions t) (partIx t) (tag t) (classes
    t) (name t) (property t) (attr_value t) (static t) (event t) (key t).
Definition set_grouped (v : option bool) (t : Token) : Token :=
  mkToken (type t) (tokenIx t) (lineIx t) (indent t) (chunks t) (text t) v
    (alias t) (value t) (negated t) (directions t) (partIx t) (tag t) (classes
    t) (name t) (property t) (attr_value t) (static t) (event t) (key t).
Definition set_alias (v : option string) (t : Token) : Token :=
  mkToken (type t) (tokenIx t) (lineIx t) (indent t) (chunks t) (text t)
    (grouped t) v (value t) (negated t) (directions t) (partIx t) (tag t)
    (classes t) (name t) (property t) (attr_value t) (static t) (event t) (key
    t).
Definition set_value (v : option Scalar) (t : Token) : Token :=
  mkToken (type t) (tokenIx t) (lineIx t) (indent t) (chunks t) (text t)
    (grouped t) (alias t) v (negated t) (directions t) (partIx t) (tag t)
    (classes t) (name t) (property t) (attr_value t) (static t) (event t) (key
    t).
Definition set_negated (v : option bool) (t : Token) : Token :=
  mkToken (type t) (tokenIx t) (lineIx t) (indent t) (chunks t) (text t)
    (grouped t) (alias t) (value t) v (directions t) (partIx t) (tag t)
    (classes t) (name t) (property t) (attr_value t) (static t) (event t) (key
    t).
Definition set_directions (v : option (list (option string))) (t : Token) : Token :=
  mkToken (type t) (tokenIx t) (lineIx t) (indent t) (chunks t) (text t)
    (grouped t) (alias t) (value t) (negated t) v (partIx t) (tag t) (classes
    t) (name t) (property t) (attr_value t) (static t) (event t) (key t).
Definition set_partIx (v : option nat) (t : Token) : Token :=
  mkToken (type t) (tokenIx t) (lineIx t) (indent t) (chunks t) (text t)
    (grouped t) (alias t) (value t) (negated t) (directions t) v (tag t)
    (classes t) (name t) (property t) (attr_value t) (static t) (event t) (key
    t).
Definition set_tag (v : option string) (t : Token) : Token :=
  mkToken (type t) (tokenIx t) (lineIx t) (indent t) (chunks t) (text t)
    (grouped t) (alias t) (value t) (negated t) (directions t) (partIx t) v
    (classes t) (name t) (property t) (attr_value t) (static t) (event t) (key
    t).
Definition set_classes (v : option string) (t : Token) : Token :=
  mkToken (type t) (tokenIx t) (lineIx t) (indent t) (chunks t) (text t)
    (grouped t) (alias t) (value t) (negated t) (directions t) (partIx t) (tag
    t) v (name t) (property t) (attr_value t) (static t) (event t) (key t).
Definition set_name (v : option string) (t : Token) : Token :=
  mkToken (type t) (tokenIx t) (lineIx t) (indent t) (chunks t) (text t)
    (grouped t) (alias t) (value t) (negated t) (directions t) (partIx t) (tag
    t) (classes t) v (property t) (attr_value t) (static t) (event t) (key t).
Definition set_property (v : option string) (t : Token) : Token :=
  mkToken (type t) (tokenIx t) (lineIx t) (indent t) (chunks t) (text t)
    (grouped t) (alias t) (value t) (negated t) (directions t) (partIx t) (tag
    t) (classes t) (name t) v (attr_value t) (static t) (event t) (key t).
Definition set_attr_value (v : option Token) (t : Token) : Token :=
  mkToken (type t) (tokenIx t) (lineIx t) (indent t) (chunks t) (text t)
    (grouped t) (alias t) (value t) (negated t) (directions t) (partIx t) (tag
    t) (classes t) (name t) (property t) v (static t) (event t) (key t).
Definition set_static (v : option bool) (t : Token) : Token :=
  mkToken (type t) (tokenIx t) (lineIx t) (indent t) (chunks t) (text t)
    (grouped t) (alias t) (value t) (negated t) (directions t) (partIx t) (tag
    t) (classes t) (name t) (property t) (attr_value t) v (event t) (key t).
Definition set_event (v : option string) (t : Token) : Token :=
  mkToken (type t) (tokenIx t) (lineIx t) (indent t) (chunks t) (text t)
    (grouped t) (alias t) (value t) (negated t) (directions t) (partIx t) (tag
    t) (classes t) (name t) (property t) (attr_value t) (static t) v (key t).
Definition set_key (v : option Token) (t : Token) : Token :=
  mkToken (type t) (tokenIx t) (lineIx t) (indent t) (chunks t) (text t)
    (grouped t) (alias t) (value t) (negated t) (directions t) (partIx t) (tag
    t) (classes t) (name t) (property t) (attr_value t) (static t) (event t) v.

Definition tokenIsLine (token : Token) : bool :=
  match chunks token with Some _ => true | None => false end.
Definition tokenIsText (token : Token) : bool := String.eqb (type token) "text".
Definition tokenIsComment (token : Token) : bool :=
  String.eqb (type token) "comment".
Definition tokenIsKeyword (token : Token) : bool :=
  String.eqb (type token) "keyword".
Definition tokenIsField (token : Token) : bool :=
  String.eqb (type token) "field".
Definition tokenIsSource (token : Token) : bool :=
  String.eqb (type token) "source".
Definition tokenIsOrdinal (token : Token) : bool :=
  String.eqb (type token) "ordinal".
Definition tokenIsCalculation (token : Token) : bool :=
  String.eqb (type token) "calculation".
Definition tokenIsAction (token : Token) : bool :=
  String.eqb (type token) "action".
Definition tokenIsAttribute (token : Token) : bool :=
  String.eqb (type token) "attribute".
Definition tokenIsBinding (token : Token) : bool :=
  String.eqb (type token) "binding".
Definition tokenIsEvent (token : Token) : bool :=
  String.eqb (type token) "event".
Definition tokenIsElement (token : Token) : bool :=
  String.eqb (type token) "element".

(* ------------------------------------------------------------------------- *)
(** ** Errors and results *)
(* ------------------------------------------------------------------------- *)

(** An [Error] object.  [err_name] is ["Parse Error"] for the errors that
    [ParseError] builds, ["TypeError"] for those the engine raises when a
    member is read off [undefined], and ["Error"] for a plain [new Error].
    [message] is the message the source passes in; the position suffix and the
    underlined source line that [ParseError] appends to it are left out.
    [at_token] is the token the error points at. *)
Record Error := mkError {
  err_name : string;
  message : string;
  at_token : option Token;
}.

Definition TypeError (what : string) : Error := mkError "TypeError" what None.

(** The outcome of a call: a value, an exception, or a loop of the source that
    did not end within the turns the model allows it. *)
Inductive Res (A : Type) : Type :=
  | Ok (a : A)
  | Throw (e : Error)
  | Diverge.
Global Arguments Ok {A} a.
Global Arguments Throw {A} e.
Global Arguments Diverge {A}.

Global Instance Res_ret : MRet Res := λ A a, Ok a.
Global Instance Res_bind : MBind Res := λ A B f m,
  match m with
  | Ok a => f a
  | Throw e => Throw e
  | Diverge => Diverge
  end.
Global Instance Res_fmap : FMap Res := λ A B f m,
  match m with
  | Ok a => Ok (f a)
  | Throw e => Throw e
  | Diverge => Diverge
  end.

(** What a sub-parser hands back: [undefined], a node, or an [Error] value
    (which the caller tells apart with [instanceof Error]). *)
Inductive Parsed (A : Type) : Type :=
  | Nothing
  | Node (a : A)
  | Failure (e : Error).
Global Arguments Nothing {A}.
Global Arguments Node {A} a.
Global Arguments Failure {A} e.

(** [try { body } catch (err) { return err; }]. *)
Definition catch_as_value {A B : Type} (body : Res A) (k : A → Res (Parsed B))
  : Res (Parsed B) :=
  match body with
  | Ok a => k a
  | Throw e => Ok (Failure e)
  | Diverge => Diverge
  end.

(* ------------------------------------------------------------------------- *)
(** ** Printing tokens *)
(* ------------------------------------------------------------------------- *)

(** How a member that may be [undefined] prints inside a template or a
    concatenation. *)
Definition printed (o : option string) : string := default "undefined" o.

(** [o || ""] for a string member. *)
Definition or_empty (o : option string) : string := default "" o.

Definition truthy_opt (o : option string) : bool :=
  match o with Some s => JsString.truthy s | None => false end.

Definition join_with (sep : string) (pieces : list string) : string :=
  match pieces with
  | [] => ""
  | p :: ps => foldl (λ acc q, acc +:+ sep +:+ q) p ps
  end.

(** [tokenToString], for a token that is not [undefined]. *)
Fixpoint tokenToString (token : Token) : Res string :=
  match token with
  | mkToken ty _ _ ind cs txt grp al val _ _ _ tg cl nm prop av _ ev ky =>
    let padding := match ind with Some n => JsText.spaces n | None => "" end in
    if String.eqb ty "calculation" && truthy_opt txt then Ok (or_empty txt)
    else match cs with
    | Some cs =>
        (fix chunks_loop (cs : list Token) (prev : option (option nat))
             (res : string) {struct cs} : Res string :=
           match cs with
           | [] => Ok res
           | chunk :: cs' =>
               let res :=
                 match prev with
                 | Some p =>
                     if bool_decide (lineIx chunk = p) then res else res +:+ NL
                 | None => res
                 end in
               s ← tokenToString chunk;
               chunks_loop cs' (Some (lineIx chunk)) (res +:+ s)
           end) cs None padding
    | None =>
        if String.eqb ty "field" then
          match val with
          | Some v =>
              Ok ("`" +:+ (if scalar_truthy v then scalar_toString v else "")
                  +:+ "`")
          | None =>
              Ok ("?" +:+ (if default false grp then "?" else "")
                  +:+ or_empty al)
          end
        else if String.eqb ty "attribute" then
          v ← match av with
              | Some f => tokenToString f
              | None => Ok "undefined"
              end;
          Ok (padding +:+ "- " +:+ printed prop +:+ ": " +:+ v)
        else if String.eqb ty "element" then
          let res := padding +:+ or_empty tg in
          let res := if truthy_opt cl then res +:+ or_empty cl else res in
          let res := if truthy_opt nm then res +:+ "; " +:+ or_empty nm else res in
          Ok res
        else if String.eqb ty "binding" then
          match txt with
          | Some t =>
              Ok (padding +:+ "~ "
                  +:+ join_with (NL +:+ padding +:+ "~ ") (JsText.split_lines t))
          | None => Throw (TypeError "token.text is undefined")
          end
        else if String.eqb ty "event" then
          k ← match ky with
              | Some f => s ← tokenToString f; Ok (": " +:+ s)
              | None => Ok ""
              end;
          Ok (padding +:+ "@ " +:+ printed ev +:+ k)
        else if String.eqb ty "comment" then Ok (padding +:+ ";" +:+ printed txt)
        else if String.eqb ty "text" || String.eqb ty "keyword"
        then Ok (padding +:+ printed txt)
        else Throw (mkError "Error" "Unknown token type" (Some token))
    end
  end.

(** [ParseError(msg, token)]: the only way it can fail is the
    [tokenToString(token)] it calls to measure the underline. *)
Definition ParseError (msg : string) (token : option Token) : Res Error :=
  match token with
  | Some t => _ ← tokenToString t; Ok (mkError "Parse Error" msg token)
  | None => Ok (mkError "Parse Error" msg None)
  end.

(* ------------------------------------------------------------------------- *)
(** ** Consuming tokens *)
(* ------------------------------------------------------------------------- *)

(** [needles.indexOf(x) !== -1]. *)
Definition among (needles : list string) (x : string) : bool :=
  bool_decide (x ∈ needles).

(** The three consumers shift tokens off the array they are given; the model
    returns what is left of it beside the result. *)
Definition consume (needles tokens : list string) (err : option Error)
  : Res (option string * list string) :=
  match tokens with
  | head :: rest =>
      if among needles head then Ok (Some head, rest)
      else match err with Some e => Throw e | None => Ok (None, tokens) end
  | [] => match err with Some e => Throw e | None => Ok (None, []) end
  end.

Fixpoint consumeWhile_from (res : string) (needles tokens : list string)
    (err : option Error) : Res (string * list string) :=
  match tokens with
  | [] => match err with Some e => Throw e | None => Ok (res, []) end
  | head :: rest =>
      if among needles head
      then consumeWhile_from (res +:+ head) needles rest err
      else Ok (res, tokens)
  end.
Definition consumeWhile := consumeWhile_from "".

Fixpoint consumeUntil_from (res : string) (needles tokens : list string)
    (err : option Error) : Res (string * list string) :=
  match tokens with
  | [] => match err with Some e => Throw e | None => Ok (res, []) end
  | head :: rest =>
      if among needles head then Ok (res, tokens)
      else consumeUntil_from (res +:+ head) needles rest err
  end.
Definition consumeUntil := consumeUntil_from "".

Definition PUNCTUATION : list string := ["."; ","; ";"; ":"].

(** [parseField]; [parseError] is the method of the object it is called on
    ([Query.parseError] or [Ui.parseError]). *)
Definition parseField (parseError : string → option Token → Res Error)
    (tokens : list string) (tokenIx : nat)
  : Res (Parsed Token * list string) :=
  '(q1, tokens) ← consume ["?"] tokens None;
  if truthy_opt q1 then
    let field := set_tokenIx (Some tokenIx) (obj "field") in
    '(q2, tokens) ← consume ["?"] tokens None;
    let field := if truthy_opt q2 then set_grouped (Some true) field else field in
    match tokens with
    | head :: rest =>
        if JsString.truthy head && negb (String.eqb head " ")
           && negb (among PUNCTUATION head)
        then Ok (Node (set_alias (Some head) field), rest)
        else Ok (Node field, tokens)
    | [] => Ok (Node field, tokens)
    end
  else
    '(bq, tokens) ← consume ["`"] tokens None;
    if truthy_opt bq then
      let field := set_tokenIx (Some tokenIx) (obj "field") in
      match parseError "Unterminated quoted literal." (Some field) with
      | Ok err =>
          match consumeUntil ["`"] tokens (Some err) with
          | Ok (literal, tokens) =>
              Ok (Node (set_value (Some (coerceInput literal)) field),
                  tail tokens)
          | Throw e => Ok (Failure e, [])
          | Diverge => Diverge
          end
      | Throw e => Ok (Failure e, tokens)
      | Diverge => Diverge
      end
    else Ok (Nothing, tokens).


(* ------------------------------------------------------------------------- *)
(** ** The Query IR and the Query object *)
(* ------------------------------------------------------------------------- *)

Record FieldIR := mkFieldIR {
  field : string;
  f_grouped : option bool;
  f_alias : option string;
  f_value : option Scalar;
  f_ordinal : option bool;
}.

(** An entry of [SourceIR.sort]: [{ix, field, direction}]. *)
Record SortIR := mkSortIR {
  sort_ix : nat;
  sort_field : string;
  direction : string;
}.

(** [SourceIR.ordinal]: the ordinal's alias, or [true]. *)
Inductive OrdinalTag := OrdinalAlias (a : string) | OrdinalTrue.

Record SourceIR := mkSourceIR {
  source : string;
  sourceView : string;
  fields : list FieldIR;
  s_negated : option bool;
  chunked : option bool;
  sort : option (list SortIR);
  ordinal : option OrdinalTag;
  s_lineIx : option nat;
}.

(** [bindings] holds the [{source, field}] pairs. *)
Record VariableIR := mkVariableIR {
  selected : option string;
  v_alias : option string;
  v_value : option Scalar;
  ordinals : option (list string);
  bindings : list (string * string);
}.

(** [aliases] is enumerated by [Ui.reify], so it keeps its insertion order;
    [variables] is only read by key. *)
Record QueryIR := mkQueryIR {
  ir_id : string;
  sources : list SourceIR;
  aliases : list (string * string);
  variables : gmap string VariableIR;
  actions : list Token;
}.

(** The members of a [Query] instance.  [errors] is [undefined] until the
    first [parse] or load assigns it, and is never read before; it starts as
    the empty list here. *)
Record Query := mkQuery {
  raw : option string;
  ast : option Token;
  reified : option QueryIR;
  failed : option QueryIR;
  errors : list Error;
  q_id : option string;
  q_name : option string;
  q_tags : option (list string);
  prev : option QueryIR;
  q_lineIx : option nat;
}.

(** [new Query(initializer)]. *)
Definition new_Query (initializer : option QueryIR) : Query :=
  mkQuery None None None None [] None None None initializer None.

Definition set_fields (v : list FieldIR) (r : SourceIR) : SourceIR :=
  mkSourceIR (source r) (sourceView r) v (s_negated r) (chunked r) (sort r)
    (ordinal r) (s_lineIx r).
Definition set_chunked (v : option bool) (r : SourceIR) : SourceIR :=
  mkSourceIR (source r) (sourceView r) (fields r) (s_negated r) v (sort r)
    (ordinal r) (s_lineIx r).
Definition set_sort (v : option (list SortIR)) (r : SourceIR) : SourceIR :=
  mkSourceIR (source r) (sourceView r) (fields r) (s_negated r) (chunked r) v
    (ordinal r) (s_lineIx r).
Definition set_ordinal (v : option OrdinalTag) (r : SourceIR) : SourceIR :=
  mkSourceIR (source r) (sourceView r) (fields r) (s_negated r) (chunked r)
    (sort r) v (s_lineIx r).
Definition set_selected (v : option string) (r : VariableIR) : VariableIR :=
  mkVariableIR v (v_alias r) (v_value r) (ordinals r) (bindings r).
Definition set_v_value (v : option Scalar) (r : VariableIR) : VariableIR :=
  mkVariableIR (selected r) (v_alias r) v (ordinals r) (bindings r).
Definition set_ordinals (v : option (list string)) (r : VariableIR) : VariableIR :=
  mkVariableIR (selected r) (v_alias r) (v_value r) v (bindings r).
Definition set_bindings (v : list (string * string)) (r : VariableIR) : VariableIR :=
  mkVariableIR (selected r) (v_alias r) (v_value r) (ordinals r) v.
Definition set_sources (v : list SourceIR) (r : QueryIR) : QueryIR :=
  mkQueryIR (ir_id r) v (aliases r) (variables r) (actions r).
Definition set_aliases (v : list (string * string)) (r : QueryIR) : QueryIR :=
  mkQueryIR (ir_id r) (sources r) v (variables r) (actions r).
Definition set_variables (v : gmap string VariableIR) (r : QueryIR) : QueryIR :=
  mkQueryIR (ir_id r) (sources r) (aliases r) v (actions r).
Definition set_raw (v : option string) (r : Query) : Query :=
  mkQuery v (ast r) (reified r) (failed r) (errors r) (q_id r) (q_name r)
    (q_tags r) (prev r) (q_lineIx r).
Definition set_ast (v : option Token) (r : Query) : Query :=
  mkQuery (raw r) v (reified r) (failed r) (errors r) (q_id r) (q_name r)
    (q_tags r) (prev r) (q_lineIx r).
Definition set_reified (v : option QueryIR) (r : Query) : Query :=
  mkQuery (raw r) (ast r) v (failed r) (errors r) (q_id r) (q_name r) (q_tags
    r) (prev r) (q_lineIx r).
Definition set_failed (v : option QueryIR) (r : Query) : Query :=
  mkQuery (raw r) (ast r) (reified r) v (errors r) (q_id r) (q_name r) (q_tags
    r) (prev r) (q_lineIx r).
Definition set_errors (v : list Error) (r : Query) : Query :=
  mkQuery (raw r) (ast r) (reified r) (failed r) v (q_id r) (q_name r) (q_tags
    r) (prev r) (q_lineIx r).
Definition set_q_id (v : option string) (r : Query) : Query :=
  mkQuery (raw r) (ast r) (reified r) (failed r) (errors r) v (q_name r)
    (q_tags r) (prev r) (q_lineIx r).
Definition set_prev (v : option QueryIR) (r : Query) : Query :=
  mkQuery (raw r) (ast r) (reified r) (failed r) (errors r) (q_id r) (q_name
    r) (q_tags r) v (q_lineIx r).
Definition set_q_lineIx (v : option nat) (r : Query) : Query :=
  mkQuery (raw r) (ast r) (reified r) (failed r) (errors r) (q_id r) (q_name
    r) (q_tags r) (prev r) v.

(* ------------------------------------------------------------------------- *)
(** ** Objects used as dictionaries *)
(* ------------------------------------------------------------------------- *)

(** The members that an object made by [{}] inherits from
    [Object.prototype].  A read of one of these names gives the inherited
    member unless the object has a property of its own by that name. *)
Definition Object_prototype : list string :=
  ["__proto__"; "constructor"; "hasOwnProperty"; "isPrototypeOf";
   "propertyIsEnumerable"; "toLocaleString"; "toString"; "valueOf";
   "__defineGetter__"; "__defineSetter__"; "__lookupGetter__";
   "__lookupSetter__"].

Definition inherited (key : string) : bool := among Object_prototype key.

(** What [obj[key]] gives: the property the object has of its own, a member
    of [Object.prototype], or [undefined]. *)
Inductive Member (V : Type) : Type :=
  | Own (v : V)
  | Inherited (key : string)
  | Absent.
Global Arguments Own {V} v.
Global Arguments Inherited {V} key.
Global Arguments Absent {V}.

Definition member {V : Type} (own : option V) (key : string) : Member V :=
  match own with
  | Some v => Own v
  | None => if inherited key then Inherited key else Absent
  end.

(** The string that an inherited member makes when it is used as a key in
    its turn: [Object.prototype] itself for [__proto__], and a built-in
    function for the other names, printed as V8 prints it. *)
Definition member_key (key : string) : string :=
  if String.eqb key "__proto__" then "[object Object]"
  else "function "
       +:+ (if String.eqb key "constructor" then "Object" else key)
       +:+ "() { [native code] }".

(** [obj[key] = v] for a [v] that is no object takes effect unless [key] is
    [__proto__] and the object has no property of its own by that name:
    [__proto__] is an accessor of [Object.prototype], whose setter ignores
    such a value. *)
Definition settable (own : bool) (key : string) : bool :=
  own || negb (String.eqb key "__proto__").

Definition put {V : Type} (key : string) (v : V) (d : gmap string V)
  : gmap string V :=
  if settable (bool_decide (is_Some (d !! key))) key then <[key := v]> d
  else d.

(** A dictionary that remembers the order in which its keys were added. *)
Definition dict_get {V : Type} (d : list (string * V)) (k : string) : option V :=
  snd <$> List.find (λ kv, String.eqb kv.1 k) d.

Fixpoint dict_set {V : Type} (k : string) (v : V) (d : list (string * V))
  : list (string * V) :=
  match d with
  | [] => [(k, v)]
  | (k', v') :: d' =>
      if String.eqb k' k then (k, v) :: d' else (k', v') :: dict_set k v d'
  end.

(** [d[k] = v] on such a dictionary. *)
Definition dict_put {V : Type} (k : string) (v : V) (d : list (string * V))
  : list (string * V) :=
  if settable (bool_decide (is_Some (dict_get d k))) k then dict_set k v d
  else d.

(* ------------------------------------------------------------------------- *)
(** ** Query: parsing a line *)
(* ------------------------------------------------------------------------- *)

Definition Q_ACTION_TOKENS : list string := ["+"].
Definition Q_KEYWORD_TOKENS : list string :=
  ["!"; "("; ")"; "$="; "#"; ";"; "?"; "`"] ++ Q_ACTION_TOKENS.
Definition Q_TOKENS : list string :=
  [" "; TAB] ++ Q_KEYWORD_TOKENS ++ PUNCTUATION.

(** A tokenizer made by [makeTokenizer], run for as many turns as the line
    has characters. *)
Definition tokenize (alphabet : list string) (line : string)
  : Res (list string) :=
  match makeTokenizer alphabet (String.length line) line with
  | Some pieces => Ok pieces
  | None => Diverge
  end.

Definition Query_tokenize : string → Res (list string) := tokenize Q_TOKENS.

(** [Query.parseError]: it reads [this.raw] and [token.lineIx] before it
    calls [ParseError]. *)
Definition Query_parseError (q : Query) (msg : string) (token : option Token)
  : Res Error :=
  match raw q with
  | None => Throw (TypeError "this.raw is undefined")
  | Some _ =>
      match token with
      | None => Throw (TypeError "token is undefined")
      | Some _ => ParseError msg token
      end
  end.

(** [line.chunks], read for its elements or its length. *)
Definition chunks_of (line : Token) : Res (list Token) :=
  match chunks line with
  | Some cs => Ok cs
  | None => Throw (TypeError "chunks is undefined")
  end.

(** [line.chunks.map(this.stringify).join("")]. *)
Fixpoint stringify_all (cs : list Token) : Res string :=
  match cs with
  | [] => Ok ""
  | c :: cs' => s ← tokenToString c; r ← stringify_all cs'; Ok (s +:+ r)
  end.

Definition text_token (s : string) : Token := set_text (Some s) (obj "text").

(** [Query.parseKeyword]. *)
Definition Query_parseKeyword (tokens : list string) (tokenIx : nat)
  : Parsed Token * list string :=
  match tokens with
  | head :: rest =>
      if among Q_KEYWORD_TOKENS head
      then (Node (set_tokenIx (Some tokenIx)
                    (set_text (Some head) (obj "keyword"))), rest)
      else (Nothing, tokens)
  | [] => (Nothing, [])
  end.

(** [Query.parseStructure]. *)
Definition Query_parseStructure (tokens : list string) (tokenIx : nat)
  : Res (Parsed Token * list string) :=
  '(text, tokens) ← consumeUntil Q_KEYWORD_TOKENS tokens None;
  if JsString.truthy text
  then Ok (Node (set_tokenIx (Some tokenIx) (text_token text)), tokens)
  else Ok (Nothing, tokens).

(** The [while(tokens.length)] loop of [Query.parseLine]; every turn shifts a
    token or returns, so [fuel] is the number of tokens. *)
Fixpoint Query_parseLine_loop (q : Query) (fuel tokensLength lineIx : nat)
    (tokens : list string) (chunks : list Token) : Res (Parsed (list Token)) :=
  match tokens with
  | [] => Ok (Node chunks)
  | _ :: _ =>
      match fuel with
      | 0 => Diverge
      | S fuel' =>
          let tokenIx := tokensLength - length tokens + 1 in
          '(token, tokens) ← parseField (Query_parseError q) tokens tokenIx;
          '(token, tokens) ←
             match token with
             | Nothing =>
                 match Query_parseKeyword tokens tokenIx with
                 | (Nothing, tokens) => Query_parseStructure tokens tokenIx
                 | found => Ok found
                 end
             | _ => Ok (token, tokens)
             end;
          match token with
          | Nothing =>
              err ← Query_parseError q "Unrecognized token sequence."
                      (Some (set_lineIx (Some lineIx)
                               (set_tokenIx (Some tokenIx)
                                  (text_token (JsString.join tokens)))));
              Ok (Failure err)
          | Failure e => Ok (Failure e)
          | Node t =>
              Query_parseLine_loop q fuel' tokensLength lineIx tokens
                (chunks ++ [t])
          end
      end
  end.

(** [Query.parseLine]. *)
Definition Query_parseLine (q : Query) (tokens : list string) (lineIx : nat)
  : Res (Query * Parsed Token) :=
  let q := set_q_lineIx (Some lineIx) q in
  let tokensLength := length tokens in
  '(padding, tokens) ← consumeWhile [" "; TAB] tokens None;
  r ← Query_parseLine_loop q (length tokens) tokensLength lineIx tokens [];
  match r with
  | Node [] => Ok (q, Nothing)
  | Node cs =>
      Ok (q, Node (set_indent (Some (String.length padding))
                     (set_lineIx (Some lineIx)
                        (set_chunks (Some cs) (obj "")))))
  | Failure e => Ok (q, Failure e)
  | Nothing => Ok (q, Nothing)
  end.

(* ------------------------------------------------------------------------- *)
(** ** Query: structural classification of a parsed line *)
(* ------------------------------------------------------------------------- *)

(** [among needles x.text] where [text] may be [undefined]. *)
Definition text_among (needles : list string) (t : Token) : bool :=
  match text t with Some s => among needles s | None => false end.

Definition text_is (s : string) (t : Token) : bool :=
  bool_decide (text t = Some s).

(** The alias check of [processAction]. *)
Fixpoint first_unaliased_field (cs : list Token) : option Token :=
  match cs with
  | [] => None
  | token :: cs' =>
      if tokenIsField token && negb (truthy_opt (alias token)) then Some token
      else first_unaliased_field cs'
  end.

(** [Query.processAction]. *)
Definition Query_processAction (q : Query) (line : Token) : Res (Parsed Token) :=
  cs ← chunks_of line;
  match cs with
  | [] => Ok Nothing
  | kw :: _ =>
      if negb (tokenIsKeyword kw) || negb (text_among Q_ACTION_TOKENS kw)
      then Ok Nothing
      else
        let line := set_type "action" line in
        match first_unaliased_field cs with
        | Some token =>
            err ← Query_parseError q
                    "All action fields must be aliased to a query field."
                    (Some token);
            Ok (Failure err)
        | None => Ok (Node line)
        end
  end.

(** A part of a calculation: [{type: "source", chunks: [], partIx, lineIx}]. *)
Definition calc_part (partIx : nat) (lineIx : option nat) : Token :=
  set_lineIx lineIx
    (set_partIx (Some partIx) (set_chunks (Some []) (obj "source"))).

Definition push_chunks (new : list Token) (part : Token) : Token :=
  set_chunks (Some (default [] (chunks part) ++ new)) part.

(** The loop of [processCalculation] over [line.chunks.slice(4)].  [cur] is
    the top of the stack and [below] the rest of it, innermost first.  The
    result is the stack and the closed parts, or the error returned. *)
Fixpoint calc_loop (q : Query) (line : Token) (resultAlias : option string)
    (tokens : list Token) (cur : Token) (below : list Token) (nextIx : nat)
    (lines : list Token) : Res (Parsed (Token * list Token * list Token)) :=
  match tokens with
  | [] => Ok (Node (cur, below, lines))
  | token :: rest =>
      if tokenIsKeyword token && text_is "(" token then
        calc_loop q line resultAlias rest (calc_part nextIx (lineIx line))
          (cur :: below) (S nextIx) lines
      else if tokenIsKeyword token && text_is ")" token then
        match below with
        | [] =>
            err ← Query_parseError q "Too many close parens" (Some line);
            Ok (Failure err)
        | prev :: below' =>
            let alias := "_" +:+ printed resultAlias +:+ "-"
                         +:+ printed (pretty <$> partIx cur) in
            let field := set_alias (Some alias) (obj "field") in
            let cur := push_chunks [text_token " = "; field] cur in
            let prev := push_chunks [field] prev in
            calc_loop q line resultAlias rest prev below' nextIx
              (lines ++ [cur])
        end
      else
        calc_loop q line resultAlias rest (push_chunks [token] cur) below
          nextIx lines
  end.

(** [Query.processCalculation]. *)
Definition Query_processCalculation (q : Query) (line : Token)
  : Res (Parsed Token) :=
  cs ← chunks_of line;
  match cs !! 2 with
  | None => Ok Nothing
  | Some kw =>
      if negb (tokenIsKeyword kw) || negb (text_is "$=" kw) then Ok Nothing
      else
        text ← stringify_all cs;
        match cs with
        | [] => Ok Nothing
        | resultField :: _ =>
            if negb (tokenIsField resultField) then
              err ← Query_parseError q
                      "Calculations must be formatted as '?field $= <calculation>"
                      (Some line);
              Ok (Failure err)
            else
              r ← calc_loop q line (alias resultField) (drop 4 cs)
                    (calc_part 0 (lineIx line)) [] 1 [];
              match r with
              | Node (bottom, [], lines) =>
                  let bottom :=
                    push_chunks [text_token " = "; resultField] bottom in
                  Ok (Node (set_text (Some text)
                              (set_chunks (Some (lines ++ [bottom]))
                                 (obj "calculation"))))
              | Node (_, _ :: _, _) =>
                  err ← Query_parseError q "Too few close parens" (Some line);
                  Ok (Failure err)
              | Failure e => Ok (Failure e)
              | Nothing => Ok Nothing
              end
        end
  end.

(** [this.ast.chunks]. *)
Definition ast_chunks (q : Query) : Res (list Token) :=
  match ast q with
  | Some a => chunks_of a
  | None => Throw (TypeError "this.ast is undefined")
  end.

(** [line.directions[i] = v], on an array that may be shorter than [i]. *)
Fixpoint set_at {A : Type} (i : nat) (v : A) (l : list (option A))
  : list (option A) :=
  match i, l with
  | 0, [] => [Some v]
  | 0, _ :: l' => Some v :: l'
  | S i', [] => None :: set_at i' v []
  | S i', x :: l' => x :: set_at i' v l'
  end.

(** The loop of [processOrdinal] over the chunks from index 3 on: the
    directions and the number of sort fields, or the field that has no
    alias. *)
Fixpoint ordinal_loop (cs : list Token) (sortFieldCount : nat)
    (directions : list (option string))
  : Res (Token + list (option string) * nat) :=
  match cs with
  | [] => Ok (inr (directions, sortFieldCount))
  | token :: cs' =>
      if tokenIsField token then
        if negb (truthy_opt (alias token)) then Ok (inl token)
        else ordinal_loop cs' (S sortFieldCount) directions
      else if tokenIsText token && (0 <? sortFieldCount) then
        match text token with
        | None => Throw (TypeError "token.text is undefined")
        | Some t =>
            let t := JsText.toLowerCase (JsText.trim t) in
            if JsString.startsWith "ascending" t then
              ordinal_loop cs' sortFieldCount
                (set_at (sortFieldCount - 1) "ascending" directions)
            else if JsString.startsWith "descending" t then
              ordinal_loop cs' sortFieldCount
                (set_at (sortFieldCount - 1) "descending" directions)
            else ordinal_loop cs' sortFieldCount directions
        end
      else ordinal_loop cs' sortFieldCount directions
  end.

(** [Query.processOrdinal]. *)
Definition Query_processOrdinal (q : Query) (parsedLine : Token)
  : Res (Parsed Token) :=
  cs ← chunks_of parsedLine;
  match cs with
  | [] => Ok Nothing
  | kw :: _ =>
      if negb (tokenIsKeyword kw) || negb (text_is "#" kw) then Ok Nothing
      else
        let parsedLine := set_type "ordinal" parsedLine in
        prior ← ast_chunks q;
        if match last prior with
           | Some prevChunk => negb (tokenIsSource prevChunk)
           | None => true
           end
        then
          text ← stringify_all cs;
          err ← Query_parseError q "Ordinal must immediately follow a source."
                  (Some (text_token text));
          Ok (Failure err)
        else if match cs !! 2 with
                | Some c2 => negb (tokenIsField c2)
                | None => true
                end
        then
          err ← Query_parseError q
                  "Ordinal requires a field to bind to ('?' or '?foo')."
                  (cs !! 2);
          Ok (Failure err)
        else
          misformatted ←
            match cs !! 3 with
            | Some c3 =>
                match text c3 with
                | Some t =>
                    Ok (negb (bool_decide (JsString.indexOf t "by" = Some 1)))
                | None => Throw (TypeError "chunks[3].text is undefined")
                end
            | None => Ok false
            end;
          if misformatted : bool then
            err ← Query_parseError q
                    "Ordinals are formatted as '# ? by ?... <dir>'" (cs !! 3);
            Ok (Failure err)
          else
            let line :=
              set_directions (Some [])
                (set_alias ((cs !! 2) ≫= alias) parsedLine) in
            r ← ordinal_loop (drop 3 cs) 0 [];
            match r with
            | inl token =>
                err ← Query_parseError q
                        "Ordinal sorting fields must be aliased to a query field."
                        (Some token);
                Ok (Failure err)
            | inr (directions, sortFieldCount) =>
                if sortFieldCount =? 0 then
                  text ← stringify_all cs;
                  err ← Query_parseError q
                          "Ordinal requires at least one sorting field."
                          (Some (text_token text));
                  Ok (Failure err)
                else Ok (Node (set_directions (Some directions) line))
            end
  end.

(** [Query.processSource]. *)
Definition Query_processSource (line : Token) : Res Token :=
  cs ← chunks_of line;
  match cs with
  | [] => Throw (TypeError "kw is undefined")
  | kw :: _ =>
      let line :=
        if tokenIsText kw && text_is "!" kw
        then set_negated (Some true) line else line in
      Ok (set_type "source" line)
  end.

(* ------------------------------------------------------------------------- *)
(** ** Query: the line loop of [parse] *)
(* ------------------------------------------------------------------------- *)

(** [this.ast.chunks.push(c)]. *)
Definition push_chunk (c : Token) (q : Query) : Res Query :=
  match ast q with
  | Some a =>
      cs ← chunks_of a;
      Ok (set_ast (Some (set_chunks (Some (cs ++ [c])) a)) q)
  | None => Throw (TypeError "this.ast is undefined")
  end.

(** [this.errors.push(e)]. *)
Definition push_error (e : Error) (q : Query) : Query :=
  set_errors (errors q ++ [e]) q.

(** [processAction(parsed) || processCalculation(parsed)
     || processOrdinal(parsed) || processSource(parsed)]. *)
Definition Query_classify (q : Query) (parsed : Token) : Res (Token + Error) :=
  r ← Query_processAction q parsed;
  r ← match r with Nothing => Query_processCalculation q parsed | _ => Ok r end;
  r ← match r with Nothing => Query_processOrdinal q parsed | _ => Ok r end;
  match r with
  | Nothing => l ← Query_processSource parsed; Ok (inl l)
  | Node l => Ok (inl l)
  | Failure e => Ok (inr e)
  end.

(** What a turn of the [for(let line of lines)] loop of [Query.parse] ends
    with: a chunk pushed on [this.ast.chunks], or an error pushed on
    [this.errors]. *)
Definition Query_line_outcome (q : Query) (lineIx : nat) (line : string)
  : Res (Query * (Token + Error)) :=
  tokens ← Query_tokenize line;
  match tokens with
  | [] => Ok (q, inl (set_lineIx (Some lineIx) (text_token "")))
  | _ :: _ =>
      '(q, maybeParsed) ← Query_parseLine q tokens lineIx;
      match maybeParsed with
      | Failure e => Ok (q, inr e)
      | Nothing => Throw (TypeError "parsed is undefined")
      | Node parsed =>
          cs ← chunks_of parsed;
          match cs with
          | [] => Throw (TypeError "parsed.chunks[0] is undefined")
          | kw :: _ =>
              if tokenIsKeyword kw && text_is ";" kw then
                text ← tokenToString parsed;
                Ok (q, inl (set_type "comment" (set_text (Some text) parsed)))
              else
                maybeParsed ← Query_classify q parsed;
                Ok (q, maybeParsed)
          end
      end
  end.

(** One turn of that loop. *)
Definition Query_parse_line (q : Query) (lineIx : nat) (line : string)
  : Res Query :=
  '(q, outcome) ← Query_line_outcome q lineIx line;
  match outcome with
  | inl parsed => push_chunk parsed q
  | inr e => Ok (push_error e q)
  end.

Fixpoint Query_parse_lines (q : Query) (lineIx : nat) (lines : list string)
  : Res Query :=
  match lines with
  | [] => Ok q
  | line :: lines' =>
      q ← Query_parse_line q lineIx line;
      Query_parse_lines q (S lineIx) lines'
  end.

(* ------------------------------------------------------------------------- *)
(** ** Query: reification *)
(* ------------------------------------------------------------------------- *)

Context (api : Api).

(** [fingerprintSource]. *)
Fixpoint fingerprint_from (fingerprint : string) (cs : list Token)
  : Res string :=
  match cs with
  | [] => Ok fingerprint
  | token :: cs' =>
      piece ← (if tokenIsField token then Ok "?" else tokenToString token);
      fingerprint_from (fingerprint +:+ piece) cs'
  end.

Definition fingerprintSource (ast : Token) : Res string :=
  cs ← chunks_of ast;
  match cs with
  | [] => Throw (TypeError "head is undefined")
  | head :: rest =>
      if tokenIsText head then
        match text head with
        | None => Throw (TypeError "head.text is undefined")
        | Some (String "!" (String " " stripped)) => fingerprint_from stripped rest
        | Some _ => fingerprint_from "" cs
        end
      else fingerprint_from "" cs
  end.

(** [o || Api.uuid()]: the identifier and the counter after the call. *)
Definition or_uuid (o : option string) (n : nat) : string * nat :=
  if truthy_opt o then (or_empty o, n) else (uuid api n, S n).

Definition starts_with_underscore (o : option string) : bool :=
  match o with
  | Some (String c _) => bool_decide (c = "_"%char)
  | _ => false
  end.

(** [getVariable].  The source returns the variable object, which lives in
    [ast.variables]; the model returns its key, the IR after the writes and
    the counter of [Api.uuid].  [ast.aliases[alias]] can be a member that
    [ast.aliases] inherits, which then stands for the identifier. *)
Definition getVariable (alias : option string) (ast : QueryIR)
    (varId fieldId : option string) (n : nat) : string * QueryIR * nat :=
  let '(varId, n) :=
    if truthy_opt varId then (or_empty varId, n)
    else
      match member (dict_get (aliases ast) (printed alias)) (printed alias) with
      | Own v => or_uuid (Some v) n
      | Inherited key => (member_key key, n)
      | Absent => or_uuid None n
      end in
  let variable :=
    match variables ast !! varId with
    | Some variable => variable
    | None => mkVariableIR fieldId alias None None []
    end in
  let '(variable, n) :=
    if negb (truthy_opt (selected variable)) && truthy_opt alias
       && negb (starts_with_underscore alias)
    then (set_selected (Some (uuid api n)) variable, S n)
    else (variable, n) in
  let ast := set_variables (<[varId := variable]> (variables ast)) ast in
  let ast :=
    if truthy_opt alias
    then set_aliases (dict_put (or_empty alias) varId (aliases ast)) ast
    else ast in
  (varId, ast, n).

(** A write through the variable object that [getVariable] returned. *)
Definition with_variable (varId : string) (f : VariableIR → VariableIR)
    (ast : QueryIR) : QueryIR :=
  set_variables (alter f varId (variables ast)) ast.

(** [ir.variables[varId].selected]: a member read off [undefined] raises,
    and a built-in has no [selected]. *)
Definition selected_of (ir : QueryIR) (varId : string)
  : Res (option string) :=
  match member (variables ir !! varId) varId with
  | Own variable => Ok (selected variable)
  | Inherited _ => Ok None
  | Absent => Throw (TypeError "variable is undefined")
  end.

(** [varId = prev && prev.aliases[alias]] and
    [varId && prev.variables[varId].selected]. *)
Definition previous_variable (prev : option QueryIR) (alias : option string)
  : Res (option string * option string) :=
  match prev with
  | None => Ok (None, None)
  | Some p =>
      match member (dict_get (aliases p) (printed alias)) (printed alias) with
      | Absent => Ok (None, None)
      | Own varId =>
          if JsString.truthy varId then
            sel ← selected_of p varId;
            Ok (Some varId, sel)
          else Ok (Some varId, Some varId)
      | Inherited key =>
          sel ← selected_of p (member_key key);
          Ok (Some (member_key key), sel)
      end
  end.

(** [rows.slice().sort((a, b) => a.ix - b.ix)], a stable sort. *)
Fixpoint insert_by_ix (row : Z * string) (sorted : list (Z * string))
  : list (Z * string) :=
  match sorted with
  | [] => [row]
  | r :: sorted' =>
      if (r.1 <=? row.1)%Z then r :: insert_by_ix row sorted'
      else row :: sorted
  end.
Definition sort_by_ix (rows : list (Z * string)) : list (Z * string) :=
  foldl (λ sorted row, insert_by_ix row sorted) [] rows.

(** What a turn of a loop asks for next. *)
Inductive Flow (S : Type) : Type := Next (s : S) | Break (s : S).
Global Arguments Next {S} s.
Global Arguments Break {S} s.

(** The [for(let token of line.chunks)] loop of a source line.  The state is
    the source under construction, the rows of the fingerprint not yet used,
    the IR, the Query (for its errors) and the counter. *)
Fixpoint reify_fields (prev : option QueryIR) (fingerprint : string)
    (cs : list Token) (src : SourceIR) (fieldIxes : list (Z * string))
    (ir : QueryIR) (q : Query) (n : nat)
  : Res (Flow (SourceIR * QueryIR * Query * nat)) :=
  match cs with
  | [] => Ok (Next (src, ir, q, n))
  | token :: cs' =>
      if tokenIsField token then
        let fieldId := snd <$> head fieldIxes in
        let fieldIxes := tail fieldIxes in
        if negb (truthy_opt fieldId) then
          err ← Query_parseError q
                  ("Fingerprint '" +:+ fingerprint +:+ "' is missing for field.")
                  (Some token);
          Ok (Break (src, ir, push_error err q, n))
        else
          let entry :=
            mkFieldIR (or_empty fieldId) (grouped token) (alias token)
              (value token) None in
          let src := set_fields (fields src ++ [entry]) src in
          '(varId, selectedId) ← previous_variable prev (f_alias entry);
          let '(varId, ir, n) :=
            getVariable (f_alias entry) ir varId selectedId n in
          let src :=
            if default false (f_grouped entry)
            then set_chunked (Some true) src else src in
          let ir :=
            match f_value entry with
            | Some v => with_variable varId (set_v_value (Some v)) ir
            | None => ir
            end in
          let ir :=
            with_variable varId
              (λ variable,
                 set_bindings (bindings variable ++ [(source src, field entry)])
                   variable) ir in
          reify_fields prev fingerprint cs' src fieldIxes ir q n
      else reify_fields prev fingerprint cs' src fieldIxes ir q n
  end.

(** The source branch of the line loop of [Query.reify]. *)
Definition reify_source (prev : option QueryIR) (line : Token) (ir : QueryIR)
    (q : Query) (n : nat) : Res (Flow (QueryIR * Query * nat)) :=
  fingerprint ← fingerprintSource line;
  let view := ixer_view_fingerprint api fingerprint in
  if negb (truthy_opt view) then
    err ← Query_parseError q
            ("Fingerprint '" +:+ fingerprint +:+ "' matches no known views.")
            (Some line);
    Ok (Next (ir, push_error err q, n))
  else
    let view := or_empty view in
    let sourceId := uuid api n in
    let n := S n in
    let prevSource := prev ≫= (λ p, sources p !! length (sources ir)) in
    let sourceId :=
      match prevSource with
      | Some prevSource =>
          if String.eqb (sourceView prevSource) view
          then source prevSource else sourceId
      | None => sourceId
      end in
    let src :=
      mkSourceIR sourceId view [] (negated line) None None None (lineIx line) in
    let fieldIxes := sort_by_ix (ixer_fingerprint_field api fingerprint) in
    cs ← chunks_of line;
    r ← reify_fields prev fingerprint cs src fieldIxes ir q n;
    match r with
    | Break (_, ir, q, n) => Ok (Break (ir, q, n))
    | Next (src, ir, q, n) =>
        Ok (Next (set_sources (sources ir ++ [src]) ir, q, n))
    end.

(** [unsorted.splice(unsorted.indexOf(x), 1)]: an index of [-1] removes the
    last element. *)
Fixpoint remove_first (x : string) (l : list string) : option (list string) :=
  match l with
  | [] => None
  | y :: l' =>
      if String.eqb y x then Some l' else (y ::.) <$> remove_first x l'
  end.
Definition splice_out (x : string) (l : list string) : list string :=
  match remove_first x l with
  | Some l' => l'
  | None => removelast l
  end.

(** [line.directions[i] || "ascending"]. *)
Definition direction_at (line : Token) (i : nat) : Res string :=
  match directions line with
  | None => Throw (TypeError "line.directions is undefined")
  | Some ds =>
      let d := mjoin (ds !! i) in
      Ok (if truthy_opt d then or_empty d else "ascending")
  end.

(** The loop of an ordinal line over its chunks from index 3 on. *)
Fixpoint reify_sort_fields (line : Token) (src : SourceIR) (cs : list Token)
    (sorted : list SortIR) (unsorted : list string) (sortFieldIx : nat)
    (q : Query) : Res (list SortIR * list string * nat * Query) :=
  match cs with
  | [] => Ok (sorted, unsorted, sortFieldIx, q)
  | chunk :: cs' =>
      if tokenIsField chunk then
        match List.find (λ f, bool_decide (f_alias f = alias chunk))
                (fields src) with
        | Some f =>
            d ← direction_at line sortFieldIx;
            reify_sort_fields line src cs'
              (sorted ++ [mkSortIR sortFieldIx (field f) d])
              (splice_out (field f) unsorted) (S sortFieldIx) q
        | None =>
            err ← Query_parseError q
                    ("Ordinal alias '" +:+ printed (alias chunk)
                     +:+ "' does not match any aliased fields of the ordinated source.")
                    (Some chunk);
            reify_sort_fields line src cs' sorted unsorted sortFieldIx
              (push_error err q)
        end
      else reify_sort_fields line src cs' sorted unsorted sortFieldIx q
  end.

(** [for(let fieldId of unsorted) source.sort.push({ix: sortFieldIx++, ...})]. *)
Fixpoint default_sort (unsorted : list string) (sortFieldIx : nat)
  : list SortIR :=
  match unsorted with
  | [] => []
  | fieldId :: rest =>
      mkSortIR sortFieldIx fieldId "ascending" :: default_sort rest (S sortFieldIx)
  end.

(** The ordinal branch of the line loop of [Query.reify]. *)
Definition reify_ordinal (prev : option QueryIR) (line : Token) (ir : QueryIR)
    (q : Query) (n : nat) : Res (QueryIR * Query * nat) :=
  match last (sources ir) with
  | None =>
      err ← Query_parseError q "Ordinals must follow a valid source."
              (Some line);
      Ok (ir, push_error err q, n)
  | Some src =>
      let src :=
        set_ordinal
          (Some (if truthy_opt (alias line)
                 then OrdinalAlias (or_empty (alias line)) else OrdinalTrue))
          src in
      '(varId, selectedId) ← previous_variable prev (alias line);
      let '(varId, ir, n) := getVariable (alias line) ir varId selectedId n in
      let ir :=
        with_variable varId
          (λ variable,
             set_ordinals
               (Some (default [] (ordinals variable) ++ [source src])) variable)
          ir in
      let unsorted := field <$> fields src in
      cs ← chunks_of line;
      '(sorted, unsorted, sortFieldIx, q) ←
         reify_sort_fields line src (drop 3 cs) [] unsorted 0 q;
      let src := set_sort (Some (sorted ++ default_sort unsorted sortFieldIx)) src in
      Ok (set_sources (removelast (sources ir) ++ [src]) ir, q, n)
  end.

(** The [LINE_LOOP] of [Query.reify]. *)
Fixpoint reify_lines (prev : option QueryIR) (lines : list Token)
    (ir : QueryIR) (q : Query) (n : nat) : Res (QueryIR * Query * nat) :=
  match lines with
  | [] => Ok (ir, q, n)
  | line :: rest =>
      let q := set_q_lineIx (lineIx line) q in
      if tokenIsSource line then
        r ← reify_source prev line ir q n;
        match r with
        | Next (ir, q, n) => reify_lines prev rest ir q n
        | Break st => Ok st
        end
      else if tokenIsOrdinal line then
        '(ir, q, n) ← reify_ordinal prev line ir q n;
        reify_lines prev rest ir q n
      else if tokenIsAction line then
        err ← Query_parseError q "@TODO: Add support for reifying actions"
                (Some line);
        reify_lines prev rest ir (push_error err q) n
      else reify_lines prev rest ir q n
  end.

(** The lines that [reify] walks: a calculation stands for its parts. *)
Definition reify_chunks (cs : list Token) : list Token :=
  cs ≫= (λ line,
    if tokenIsCalculation line then default [] (chunks line) else [line]).

(** [Query.reify]. *)
Definition Query_reify (q : Query) (n : nat) : Res (Query * nat) :=
  match ast q with
  | None => Ok (q, n)
  | Some a =>
      let q := match reified q with
               | Some r => set_prev (Some r) q
               | None => q
               end in
      let '(id, n) := or_uuid (ir_id <$> prev q) n in
      let ir := mkQueryIR id [] [] ∅ [] in
      let q := set_reified (Some ir) q in
      cs ← chunks_of a;
      '(ir, q, n) ← reify_lines (prev q) (reify_chunks cs) ir q n;
      match errors q with
      | [] => Ok (set_q_id (Some (ir_id ir)) (set_reified (Some ir) q), n)
      | _ :: _ => Ok (set_reified None (set_failed (Some ir) q), n)
      end
  end.

(** What a method hands back to its caller: [this], or nothing. *)
Inductive Returned := ReturnsThis | ReturnsUndefined.

(** The assignments [Query.parse] starts with when the text is new. *)
Definition Query_parse_reset (q : Query) (raw' : string) : Query :=
  let q := set_errors [] q in
  let q := set_raw (Some raw') q in
  let q := set_ast (Some (set_chunks (Some []) (obj "query"))) q in
  let q := set_prev (match reified q with
                     | Some r => Some r
                     | None => prev q
                     end) q in
  set_reified None q.

(** [Query.parse]: the instance after the call, the counter of [Api.uuid]
    and the value returned. *)
Definition Query_parse (q : Query) (raw' : string) (n : nat)
  : Res (Query * nat * Returned) :=
  if bool_decide (raw q = Some raw') then Ok (q, n, ReturnsThis)
  else
    q ← Query_parse_lines (Query_parse_reset q raw') 0 (JsText.split_lines raw');
    '(q, n) ← match errors q with
              | [] => Query_reify q n
              | _ :: _ => Ok (q, n)
              end;
    Ok (q, n, ReturnsThis).

(* ------------------------------------------------------------------------- *)
(** ** The Ui IR and the Ui object *)
(* ------------------------------------------------------------------------- *)

(** [ElementIR].  An identifier is a string unless a static [id] or [parent]
    attribute put a literal of another type in its place, so [element] and
    [parent] are scalars, or [undefined].  [e_ix] is [None] when the source
    computes [NaN] for it.  An attribute is entered in its dictionary with
    whatever value the line carries, and a bound attribute or event before
    the source checks that it resolved, so the entries are optional. *)
Record ElementIR := mkElementIR {
  element : option Scalar;
  e_tag : option string;
  e_ix : option nat;
  e_name : option string;
  parent : option Scalar;
  attributes : gmap string (option Scalar);
  boundAttributes : gmap string (option string);
  events : list (option string);
  boundEvents : gmap string (option string);
  boundView : option string;
  e_bindings : option (gmap string string);
}.

Definition set_element (v : option Scalar) (r : ElementIR) : ElementIR :=
  mkElementIR v (e_tag r) (e_ix r) (e_name r) (parent r) (attributes r)
    (boundAttributes r) (events r) (boundEvents r) (boundView r) (e_bindings
    r).
Definition set_e_name (v : option string) (r : ElementIR) : ElementIR :=
  mkElementIR (element r) (e_tag r) (e_ix r) v (parent r) (attributes r)
    (boundAttributes r) (events r) (boundEvents r) (boundView r) (e_bindings
    r).
Definition set_parent (v : option Scalar) (r : ElementIR) : ElementIR :=
  mkElementIR (element r) (e_tag r) (e_ix r) (e_name r) v (attributes r)
    (boundAttributes r) (events r) (boundEvents r) (boundView r) (e_bindings
    r).
Definition set_attributes (v : gmap string (option Scalar)) (r : ElementIR) : ElementIR :=
  mkElementIR (element r) (e_tag r) (e_ix r) (e_name r) (parent r) v
    (boundAttributes r) (events r) (boundEvents r) (boundView r) (e_bindings
    r).
Definition set_boundAttributes (v : gmap string (option string)) (r : ElementIR) : ElementIR :=
  mkElementIR (element r) (e_tag r) (e_ix r) (e_name r) (parent r) (attributes
    r) v (events r) (boundEvents r) (boundView r) (e_bindings r).
Definition set_events (v : list (option string)) (r : ElementIR) : ElementIR :=
  mkElementIR (element r) (e_tag r) (e_ix r) (e_name r) (parent r) (attributes
    r) (boundAttributes r) v (boundEvents r) (boundView r) (e_bindings r).
Definition set_boundEvents (v : gmap string (option string)) (r : ElementIR) : ElementIR :=
  mkElementIR (element r) (e_tag r) (e_ix r) (e_name r) (parent r) (attributes
    r) (boundAttributes r) (events r) v (boundView r) (e_bindings r).
Definition set_boundView (v : option string) (r : ElementIR) : ElementIR :=
  mkElementIR (element r) (e_tag r) (e_ix r) (e_name r) (parent r) (attributes
    r) (boundAttributes r) (events r) (boundEvents r) v (e_bindings r).
Definition set_e_bindings (v : option (gmap string string)) (r : ElementIR) : ElementIR :=
  mkElementIR (element r) (e_tag r) (e_ix r) (e_name r) (parent r) (attributes
    r) (boundAttributes r) (events r) (boundEvents r) (boundView r) v.

(** [UiIR]. *)
Record UiIR := mkUiIR {
  elements : list ElementIR;
  root : ElementIR;
  boundQueries : gmap string Query;
}.

Definition set_elements (v : list ElementIR) (r : UiIR) : UiIR :=
  mkUiIR v (root r) (boundQueries r).
Definition set_root (v : ElementIR) (r : UiIR) : UiIR :=
  mkUiIR (elements r) v (boundQueries r).
Definition set_boundQueries (v : gmap string Query) (r : UiIR) : UiIR :=
  mkUiIR (elements r) (root r) v.

(** The members of a [Ui] instance. *)
Record Ui := mkUi {
  u_raw : option string;
  u_ast : option Token;
  u_reified : option UiIR;
  u_failed : option UiIR;
  u_errors : list Error;
  u_id : option Scalar;
  u_name : option string;
  u_tags : option (list string);
  u_prev : option UiIR;
  u_lineIx : option Z;
}.

Definition set_u_raw (v : option string) (r : Ui) : Ui :=
  mkUi v (u_ast r) (u_reified r) (u_failed r) (u_errors r) (u_id r) (u_name r)
    (u_tags r) (u_prev r) (u_lineIx r).
Definition set_u_ast (v : option Token) (r : Ui) : Ui :=
  mkUi (u_raw r) v (u_reified r) (u_failed r) (u_errors r) (u_id r) (u_name r)
    (u_tags r) (u_prev r) (u_lineIx r).
Definition set_u_reified (v : option UiIR) (r : Ui) : Ui :=
  mkUi (u_raw r) (u_ast r) v (u_failed r) (u_errors r) (u_id r) (u_name r)
    (u_tags r) (u_prev r) (u_lineIx r).
Definition set_u_failed (v : option UiIR) (r : Ui) : Ui :=
  mkUi (u_raw r) (u_ast r) (u_reified r) v (u_errors r) (u_id r) (u_name r)
    (u_tags r) (u_prev r) (u_lineIx r).
Definition set_u_errors (v : list Error) (r : Ui) : Ui :=
  mkUi (u_raw r) (u_ast r) (u_reified r) (u_failed r) v (u_id r) (u_name r)
    (u_tags r) (u_prev r) (u_lineIx r).
Definition set_u_id (v : option Scalar) (r : Ui) : Ui :=
  mkUi (u_raw r) (u_ast r) (u_reified r) (u_failed r) (u_errors r) v (u_name
    r) (u_tags r) (u_prev r) (u_lineIx r).
Definition set_u_prev (v : option UiIR) (r : Ui) : Ui :=
  mkUi (u_raw r) (u_ast r) (u_reified r) (u_failed r) (u_errors r) (u_id r)
    (u_name r) (u_tags r) v (u_lineIx r).
Definition set_u_lineIx (v : option Z) (r : Ui) : Ui :=
  mkUi (u_raw r) (u_ast r) (u_reified r) (u_failed r) (u_errors r) (u_id r)
    (u_name r) (u_tags r) (u_prev r) v.

(** [new Ui(initializer)]. *)
Definition new_Ui (initializer : option UiIR) : Ui :=
  mkUi None None None None [] None None None initializer None.

(** The key a value makes when it indexes an object. *)
Definition key_of (v : option Scalar) : string := printed (scalar_toString <$> v).

(** Elements are objects shared between [this.reified] and the [ancestors]
    stack; a reference says where the object lives in the IR. *)
Inductive Ref := RootRef | ElemRef (i : nat).

Definition deref (ir : UiIR) (r : Ref) : option ElementIR :=
  match r with
  | RootRef => Some (root ir)
  | ElemRef i => elements ir !! i
  end.

(** A write through a reference. *)
Definition update (r : Ref) (f : ElementIR → ElementIR) (ir : UiIR) : UiIR :=
  match r with
  | RootRef => set_root (f (root ir)) ir
  | ElemRef i => set_elements (alter f i (elements ir)) ir
  end.

(* ------------------------------------------------------------------------- *)
(** ** Ui: parsing a line *)
(* ------------------------------------------------------------------------- *)

Definition U_TOKENS : list string :=
  [";"; ":"; "@"; "~"; "-"; " "; TAB; "`"; "?"].

Definition Ui_tokenize : string → Res (list string) := tokenize U_TOKENS.

(** [lines[this.lineIx]]. *)
Definition line_at (lines : list string) (lineIx : option Z) : option string :=
  match lineIx with
  | Some z => if (0 <=? z)%Z then lines !! Z.to_nat z else None
  | None => None
  end.

(** [Ui.parseError]: without a token it points at the current line. *)
Definition Ui_parseError (ui : Ui) (msg : string) (token : option Token)
  : Res Error :=
  match u_raw ui with
  | None => Throw (TypeError "this.raw is undefined")
  | Some raw =>
      let token :=
        match token with
        | Some t => t
        | None =>
            set_text (line_at (JsText.split_lines raw) (u_lineIx ui))
              (obj "text")
        end in
      ParseError msg (Some token)
  end.

Definition ui_ast_chunks (ui : Ui) : Res (list Token) :=
  match u_ast ui with
  | Some a => chunks_of a
  | None => Throw (TypeError "this.ast is undefined")
  end.

Definition set_ui_chunks (cs : list Token) (ui : Ui) : Res Ui :=
  match u_ast ui with
  | Some a => Ok (set_u_ast (Some (set_chunks (Some cs) a)) ui)
  | None => Throw (TypeError "this.ast is undefined")
  end.

Definition ui_push_chunk (c : Token) (ui : Ui) : Res Ui :=
  cs ← ui_ast_chunks ui;
  set_ui_chunks (cs ++ [c]) ui.

Definition ui_push_error (e : Error) (ui : Ui) : Ui :=
  set_u_errors (u_errors ui ++ [e]) ui.

(** [this.errors.push(this.parseError(msg, token)); continue;]. *)
Definition ui_fail (ui : Ui) (msg : string) (token : option Token) : Res Ui :=
  err ← Ui_parseError ui msg token;
  Ok (ui_push_error err ui).

Definition WHITE : list string := [" "; TAB].

(** The token that the "extraneous" and "must be a field" errors point at. *)
Definition rest_token (tokens : list string) (tokensLength : nat) : Token :=
  set_tokenIx (Some (tokensLength - length tokens))
    (text_token (JsString.join tokens)).

(** The attribute branch of [Ui.parse]. *)
Definition Ui_parse_attribute (ui : Ui) (line : Token) (tokens : list string)
    (tokensLength : nat) : Res Ui :=
  '(_, tokens) ← consumeWhile WHITE tokens None;
  match (err ← Ui_parseError ui
                 "Attributes are formatted as '- <property>: <value or field>'."
                 None;
         consumeUntil [":"] tokens (Some err)) with
  | Throw e => Ok (ui_push_error e ui)
  | Diverge => Diverge
  | Ok (property, tokens) =>
      let line := set_property (Some property) line in
      let tokens := tail tokens in
      '(_, tokens) ← consumeWhile WHITE tokens None;
      '(field, tokens) ←
         parseField (Ui_parseError ui) tokens (tokensLength - length tokens);
      match field with
      | Nothing =>
          ui_fail ui
            "Value of attribute must be a field (either ' ?foo ' or ' `100` ')"
            (Some (rest_token tokens tokensLength))
      | Failure e => Ok (ui_push_error e ui)
      | Node f =>
          let line :=
            set_static (Some (bool_decide (is_Some (value f))))
              (set_attr_value (Some f) line) in
          match tokens with
          | _ :: _ =>
              ui_fail ui "Extraneous tokens after value."
                (Some (rest_token tokens tokensLength))
          | [] => ui_push_chunk line ui
          end
      end
  end.

(** The binding branch of [Ui.parse]. *)
Definition Ui_parse_binding (ui : Ui) (line : Token) (tokens : list string)
  : Res Ui :=
  cs ← ui_ast_chunks ui;
  let fresh :=
    '(_, tokens) ← consumeWhile WHITE tokens None;
    ui_push_chunk (set_text (Some (JsString.join tokens)) line) ui in
  match last cs with
  | None => fresh
  | Some prevLine =>
      if tokenIsElement prevLine then fresh
      else if tokenIsBinding prevLine then
        '(_, tokens) ← consumeWhile WHITE tokens None;
        let prevLine :=
          set_text (Some (printed (text prevLine) +:+ NL +:+ JsString.join tokens))
            prevLine in
        set_ui_chunks (removelast cs ++ [prevLine]) ui
      else
        let line := set_text (Some (JsString.join tokens)) line in
        ui_fail ui "Binding must immediately follow an element or a binding."
          (Some line)
  end.

(** The event branch of [Ui.parse]. *)
Definition Ui_parse_event (ui : Ui) (line : Token) (tokens : list string)
    (tokensLength : nat) : Res Ui :=
  '(_, tokens) ← consumeWhile WHITE tokens None;
  '(event, tokens) ← consumeUntil [":"] tokens None;
  let line := set_event (Some event) line in
  let tokens := tail tokens in
  '(_, tokens) ← consumeWhile WHITE tokens None;
  let extraneous (line : Token) (tokens : list string) : Res Ui :=
    match tokens with
    | _ :: _ =>
        ui_fail ui "Extraneous tokens after value."
          (Some (rest_token tokens tokensLength))
    | [] => ui_push_chunk line ui
    end in
  match tokens with
  | [] => extraneous line tokens
  | _ :: _ =>
      '(field, tokens) ←
         parseField (Ui_parseError ui) tokens (tokensLength - length tokens);
      match field with
      | Nothing =>
          ui_fail ui
            "Value of attribute must be a field (either ' ?foo ' or ' `100` ')"
            (Some (rest_token tokens tokensLength))
      | Failure e => Ok (ui_push_error e ui)
      | Node f =>
          let line := set_key (Some f) line in
          if negb (truthy_opt (alias f)) then
            ui_fail ui "Event keys must be aliased to a bound field." (Some f)
          else extraneous line tokens
      end
  end.

(** The element branch of [Ui.parse]. *)
Definition Ui_parse_element (ui : Ui) (line : Token) (head : string)
    (tokens : list string) : Res Ui :=
  let line := if JsString.truthy head then set_tag (Some head) line else line in
  '(classes, tokens) ← consumeUntil [";"] tokens None;
  let line := set_classes (Some classes) line in
  let tokens :=
    match tokens with
    | t :: rest => if String.eqb t ";" then rest else tokens
    | [] => tokens
    end in
  let line :=
    match tokens with
    | _ :: _ => set_name (Some (JsText.trim (JsString.join tokens))) line
    | [] => line
    end in
  ui_push_chunk line ui.

(** One turn of the [for(let rawLine of lines)] loop of [Ui.parse]. *)
Definition Ui_parse_line (ui : Ui) (lineIx : nat) (rawLine : string) : Res Ui :=
  let ui := set_u_lineIx (Some (Z.of_nat lineIx)) ui in
  tokens ← Ui_tokenize rawLine;
  let tokensLength := length tokens in
  '(consumed, tokens) ← consumeWhile WHITE tokens None;
  let indent := tokensLength - length tokens in
  let line := set_indent (Some indent) (set_lineIx (Some lineIx) (obj "")) in
  match tokens with
  | [] => ui_push_chunk (set_text (Some "") (set_type "text" line)) ui
  | head :: tokens =>
      if String.eqb head ";" then
        ui_push_chunk
          (set_text (Some (JsString.join tokens)) (set_type "comment" line)) ui
      else if String.eqb head "-" then
        Ui_parse_attribute ui (set_type "attribute" line) tokens tokensLength
      else if String.eqb head "~" then
        Ui_parse_binding ui (set_type "binding" line) tokens
      else if String.eqb head "@" then
        Ui_parse_event ui (set_type "event" line) tokens tokensLength
      else Ui_parse_element ui (set_type "element" line) head tokens
  end.

Fixpoint Ui_parse_lines (ui : Ui) (lineIx : nat) (lines : list string)
  : Res Ui :=
  match lines with
  | [] => Ok ui
  | rawLine :: lines' =>
      ui ← Ui_parse_line ui lineIx rawLine;
      Ui_parse_lines ui (S lineIx) lines'
  end.

(* ------------------------------------------------------------------------- *)
(** ** Ui: reification *)
(* ------------------------------------------------------------------------- *)

(** The local state of [Ui.reify]: the IR under construction, the [indent]
    and [childCount] dictionaries, the [ancestors] stack (innermost first, so
    the head is [ancestors[ancestors.length - 1]]), the instance and the
    counter of [Api.uuid].  An entry of [None] in [indent] or [childCount]
    is a value that is no number ([undefined] or [NaN]), which the source
    does not tell apart: it compares false and counts as [NaN]. *)
Record ReifyState := mkReifyState {
  rs_ir : UiIR;
  rs_indent : gmap string (option Z);
  rs_childCount : gmap string (option nat);
  rs_ancestors : list Ref;
  rs_ui : Ui;
  rs_next : nat;
}.

(** A reference always points into the IR it was made for; the model has no
    element to give for one that does not. *)
Definition get (ir : UiIR) (r : Ref) : Res ElementIR :=
  match deref ir r with
  | Some e => Ok e
  | None => Throw (TypeError "no such element")
  end.

(** [indent[id] < line.indent], false when either side is no number: an
    [undefined], or a member that [indent] inherits. *)
Definition indent_below (indent : gmap string (option Z)) (id : option Scalar)
    (lineIndent : option nat) : bool :=
  match mjoin (indent !! key_of id), lineIndent with
  | Some i, Some l => (i <? Z.of_nat l)%Z
  | _, _ => false
  end.

(** The [while(ancestors.length)] loop: the parent found, which stays
    [undefined] only if the stack was empty to begin with, and the stack. *)
Fixpoint pop_ancestors (ir : UiIR) (indent : gmap string (option Z))
    (lineIndent : option nat) (parentElem : option Ref) (ancestors : list Ref)
  : Res (option Ref * list Ref) :=
  match ancestors with
  | [] => Ok (parentElem, [])
  | top :: rest =>
      e ← get ir top;
      if indent_below indent (element e) lineIndent
      then Ok (Some top, ancestors)
      else pop_ancestors ir indent lineIndent (Some top) rest
  end.

(** [scope.reified.variables[varId]] and the test of its [selected]. *)
Definition selected_binding (scope : QueryIR) (varId : string)
  : Res (option string) :=
  sel ← selected_of scope varId;
  if negb (truthy_opt sel) then
    err ← ParseError "UI Properties can only be bound to selected aliases."
            None;
    Throw err
  else Ok sel.

(** [getScopedBinding]; [ancestors] is innermost first. *)
Fixpoint getScopedBinding (ir : UiIR) (alias : string) (ancestors : list Ref)
    (boundViews : gmap string Query) : Res (option string) :=
  match ancestors with
  | [] => Ok None
  | r :: outer =>
      parent ← get ir r;
      if negb (truthy_opt (boundView parent))
      then getScopedBinding ir alias outer boundViews
      else
        match boundViews !! or_empty (boundView parent) ≫= reified with
        | None => Throw (TypeError "scope.reified is undefined")
        | Some scope =>
            match member (dict_get (aliases scope) alias) alias with
            | Own varId =>
                if negb (JsString.truthy varId)
                then getScopedBinding ir alias outer boundViews
                else selected_binding scope varId
            | Inherited key => selected_binding scope (member_key key)
            | Absent => getScopedBinding ir alias outer boundViews
            end
        end
  end.

(** The order in which [for(... in ...)] visits the keys of an object: the
    array indices in ascending order, then the other keys as they were
    added. *)
Fixpoint decimal (s : string) (acc : N) : option N :=
  match s with
  | EmptyString => Some acc
  | String c s' =>
      match Ascii.is_nat c with
      | Some d => decimal s' (acc * 10 + N.of_nat d)%N
      | None => None
      end
  end.

Definition array_index (key : string) : option N :=
  match key with
  | EmptyString => None
  | String c rest =>
      if bool_decide (c = "0"%char) && JsString.truthy rest then None
      else match decimal key 0%N with
           | Some v => if (v <=? 4294967294)%N then Some v else None
           | None => None
           end
  end.

Fixpoint insert_index (k : N * string) (sorted : list (N * string))
  : list (N * string) :=
  match sorted with
  | [] => [k]
  | k' :: sorted' =>
      if (k'.1 <=? k.1)%N then k' :: insert_index k sorted' else k :: sorted
  end.

Definition for_in_keys {V : Type} (d : list (string * V)) : list string :=
  let keys := d.*1 in
  let indices :=
    foldr insert_index []
      (omap (λ key, (λ v, (v, key)) <$> array_index key) keys) in
  indices.*2 ++ List.filter (λ key, negb (bool_decide (is_Some (array_index key)))) keys.

Definition rs_fail (st : ReifyState) (msg : string) (token : option Token)
  : Res ReifyState :=
  err ← Ui_parseError (rs_ui st) msg token;
  Ok (mkReifyState (rs_ir st) (rs_indent st) (rs_childCount st)
        (rs_ancestors st) (ui_push_error err (rs_ui st)) (rs_next st)).

Definition rs_with_ir (ir : UiIR) (st : ReifyState) : ReifyState :=
  mkReifyState ir (rs_indent st) (rs_childCount st) (rs_ancestors st)
    (rs_ui st) (rs_next st).

(** [if(childCount[old])]: a count above zero, or a member that
    [childCount] inherits. *)
Definition has_children (childCount : gmap string (option nat)) (old : string)
  : bool :=
  match member (childCount !! old) old with
  | Own (Some (S _)) => true
  | Own _ => false
  | Inherited _ => true
  | Absent => false
  end.

(** [!!bound[key]], read back after the write: the entry, or a member that
    the dictionary inherits. *)
Definition resolved (bound : gmap string (option string)) (key : string)
  : bool :=
  match member (bound !! key) key with
  | Own b => truthy_opt b
  | Inherited _ => true
  | Absent => false
  end.

(** The element branch of [Ui.reify]. *)
Definition reify_element (prev : option UiIR) (line : Token)
    (parentElem : option Ref) (st : ReifyState) : Res ReifyState :=
  match parentElem with
  | None => Throw (TypeError "parentElem is undefined")
  | Some p =>
      parent ← get (rs_ir st) p;
      let prevElem :=
        prev ≫= (λ prev, elements prev !! length (elements (rs_ir st))) in
      let '(elemId, n) :=
        match prevElem with
        | Some prevElem => (element prevElem, rs_next st)
        | None => (Some (SStr (uuid api (rs_next st))), S (rs_next st))
        end in
      let parentKey := key_of (element parent) in
      let ix := mjoin (rs_childCount st !! parentKey) in
      let childCount := put parentKey (S <$> ix) (rs_childCount st) in
      let elem :=
        mkElementIR elemId (tag line) ix None (element parent) ∅ ∅ [] ∅ None
          None in
      let indent := put (key_of elemId) (Z.of_nat <$> indent line)
                      (rs_indent st) in
      let childCount := put (key_of elemId) (Some 0) childCount in
      let ancestors := ElemRef (length (elements (rs_ir st))) :: rs_ancestors st in
      let elem :=
        if truthy_opt (classes line)
        then set_attributes (<["c" := SStr <$> classes line]> (attributes elem))
               elem
        else elem in
      let elem :=
        if truthy_opt (name line) then set_e_name (name line) elem else elem in
      Ok (mkReifyState
            (set_elements (elements (rs_ir st) ++ [elem]) (rs_ir st))
            indent childCount ancestors (rs_ui st) n)
  end.

(** The body of the [for(let alias in query.reified.aliases)] loop. *)
Fixpoint join_scopes (query : QueryIR) (outer : list Ref) (keys : list string)
    (joinedFields : gmap string string) (scopeJoined : bool)
    (st : ReifyState) : Res (gmap string string * bool * ReifyState) :=
  match keys with
  | [] => Ok (joinedFields, scopeJoined, st)
  | alias :: keys' =>
      scopedField ← getScopedBinding (rs_ir st) alias outer
                      (boundQueries (rs_ir st));
      selected ← selected_of query (printed (dict_get (aliases query) alias));
      if negb (truthy_opt scopedField)
      then join_scopes query outer keys' joinedFields scopeJoined st
      else if negb (truthy_opt selected) then
        st ← rs_fail st
               ("Cannot join nested views on unselected alias '" +:+ alias
                +:+ "'") None;
        join_scopes query outer keys' joinedFields scopeJoined st
      else
        join_scopes query outer keys'
          (put (or_empty selected) (or_empty scopedField) joinedFields) true
          st
  end.

(** The binding branch of [Ui.reify]. *)
Definition reify_binding (line : Token) (parentElem : option Ref)
    (st : ReifyState) : Res ReifyState :=
  match parentElem with
  | None => rs_fail st "Bindings must follow an element." (Some line)
  | Some p =>
      '(query, n, returned) ←
         match text line with
         | Some t => Query_parse (new_Query None) t (rs_next st)
         | None => Ok (new_Query None, rs_next st, ReturnsThis)
         end;
      match returned with
      | ReturnsUndefined => Throw (TypeError "query is undefined")
      | ReturnsThis =>
          let ir := rs_ir st in
          let ir :=
            set_boundQueries (<[printed (q_id query) := query]> (boundQueries ir))
              ir in
          let ir := update p (set_boundView (q_id query)) ir in
          let st :=
            mkReifyState ir (rs_indent st) (rs_childCount st)
              (rs_ancestors st) (rs_ui st) n in
          match reified query with
          | None => Throw (TypeError "query.reified is undefined")
          | Some qir =>
              '(joinedFields, scopeJoined, st) ←
                 join_scopes qir (tail (rs_ancestors st))
                   (for_in_keys (aliases qir)) ∅ false st;
              if scopeJoined : bool
              then Ok (rs_with_ir
                         (update p (set_e_bindings (Some joinedFields))
                            (rs_ir st)) st)
              else Ok st
          end
      end
  end.

(** [line.value.value] and [line.value.alias]. *)
Definition attr_field (line : Token) : Res Token :=
  match attr_value line with
  | Some v => Ok v
  | None => Throw (TypeError "line.value is undefined")
  end.

(** The attribute branch of [Ui.reify]. *)
Definition reify_attribute (line : Token) (parentElem : option Ref)
    (st : ReifyState) : Res ReifyState :=
  match parentElem with
  | None => rs_fail st "Attributes must follow an element." (Some line)
  | Some p =>
      if default false (static line) then
        if bool_decide (property line = Some "parent") then
          v ← attr_field line;
          Ok (rs_with_ir (update p (set_parent (value v)) (rs_ir st)) st)
        else if bool_decide (property line = Some "id") then
          parent ← get (rs_ir st) p;
          let old := key_of (element parent) in
          if has_children (rs_childCount st) old then
            err ← ParseError
                    "ID must be set prior to including child elements." None;
            Throw err
          else
            v ← attr_field line;
            let new := key_of (value v) in
            Ok (mkReifyState
                  (update p (set_element (value v)) (rs_ir st))
                  (put new (mjoin (rs_indent st !! old)) (rs_indent st))
                  (put new (mjoin (rs_childCount st !! old))
                     (rs_childCount st))
                  (rs_ancestors st) (rs_ui st) (rs_next st))
        else
          v ← attr_field line;
          Ok (rs_with_ir
                (update p
                   (λ e, set_attributes
                           (put (printed (property line)) (value v)
                              (attributes e)) e)
                   (rs_ir st)) st)
      else
        v ← attr_field line;
        bound ← getScopedBinding (rs_ir st) (printed (alias v))
                  (rs_ancestors st) (boundQueries (rs_ir st));
        parent ← get (rs_ir st) p;
        let bounds :=
          put (printed (property line)) bound (boundAttributes parent) in
        let st :=
          rs_with_ir (update p (set_boundAttributes bounds) (rs_ir st)) st in
        if negb (resolved bounds (printed (property line))) then
          rs_fail st
            ("Could not resolve alias '" +:+ printed (alias v)
             +:+ "' for bound attribute '" +:+ printed (property line)
             +:+ "'") None
        else Ok st
  end.

(** The event branch of [Ui.reify]; it reads [parentElem.boundEvents] or
    [parentElem.events] without a check of [parentElem]. *)
Definition reify_event (line : Token) (parentElem : option Ref)
    (st : ReifyState) : Res ReifyState :=
  match parentElem with
  | None => Throw (TypeError "parentElem is undefined")
  | Some p =>
      match key line with
      | Some k =>
          bound ← getScopedBinding (rs_ir st) (printed (alias k))
                    (rs_ancestors st) (boundQueries (rs_ir st));
          parent ← get (rs_ir st) p;
          let bounds :=
            put (printed (event line)) bound (boundEvents parent) in
          let st :=
            rs_with_ir (update p (set_boundEvents bounds) (rs_ir st)) st in
          if negb (resolved bounds (printed (event line))) then
            rs_fail st
              ("Could not resolve alias '" +:+ printed (alias k)
               +:+ "' for bound event '" +:+ printed (event line) +:+ "'")
              None
          else Ok st
      | None =>
          Ok (rs_with_ir
                (update p (λ e, set_events (events e ++ [event line]) e)
                   (rs_ir st)) st)
      end
  end.

(** One turn of the [for(let line of this.ast.chunks)] loop of [Ui.reify]. *)
Definition Ui_reify_line (prev : option UiIR) (line : Token) (st : ReifyState)
  : Res ReifyState :=
  if tokenIsComment line || tokenIsText line then Ok st
  else
    '(parentElem, ancestors) ←
       pop_ancestors (rs_ir st) (rs_indent st) (indent line) None
         (rs_ancestors st);
    let st :=
      mkReifyState (rs_ir st) (rs_indent st) (rs_childCount st) ancestors
        (rs_ui st) (rs_next st) in
    if tokenIsElement line then reify_element prev line parentElem st
    else if tokenIsBinding line then reify_binding line parentElem st
    else if tokenIsAttribute line then reify_attribute line parentElem st
    else if tokenIsEvent line then reify_event line parentElem st
    else Ok st.

Fixpoint Ui_reify_lines (prev : option UiIR) (lines : list Token)
    (st : ReifyState) : Res ReifyState :=
  match lines with
  | [] => Ok st
  | line :: rest =>
      st ← Ui_reify_line prev line st;
      Ui_reify_lines prev rest st
  end.

(** The state [Ui.reify] starts its loop in.  The two dictionaries are made
    by object literals with a computed key, which define the key as a
    property of the object whatever its name. *)
Definition Ui_reify_init (ui : Ui) (n : nat) : ReifyState :=
  let '(rootId, n) :=
    match u_prev ui with
    | Some prev => (element (root prev), n)
    | None => (Some (SStr (uuid api n)), S n)
    end in
  let root := mkElementIR rootId (Some "div") (Some 0) None None ∅ ∅ [] ∅ None
                None in
  mkReifyState (mkUiIR [] root ∅) {[key_of rootId := Some (-1)%Z]}
    {[key_of rootId := Some 0]} [RootRef]
    (set_u_reified (Some (mkUiIR [] root ∅)) ui) n.

(** [Ui.reify]. *)
Definition Ui_reify (ui : Ui) (n : nat) : Res (Ui * nat) :=
  match u_ast ui with
  | None => Ok (ui, n)
  | Some a =>
      let ui := match u_reified ui with
                | Some r => set_u_prev (Some r) ui
                | None => ui
                end in
      let st := Ui_reify_init ui n in
      let rootId := element (root (rs_ir st)) in
      cs ← chunks_of a;
      st ← Ui_reify_lines (u_prev ui) cs st;
      match u_errors (rs_ui st) with
      | [] =>
          Ok (set_u_id rootId (set_u_reified (Some (rs_ir st)) (rs_ui st)),
              rs_next st)
      | _ :: _ =>
          Ok (set_u_reified None (set_u_failed (Some (rs_ir st)) (rs_ui st)),
              rs_next st)
      end
  end.

(** The assignments [Ui.parse] starts with when the text is new. *)
Definition Ui_parse_reset (ui : Ui) (raw' : string) : Ui :=
  let ui := set_u_errors [] ui in
  let ui := set_u_raw (Some raw') ui in
  let ui := set_u_ast (Some (set_chunks (Some []) (obj "ui"))) ui in
  let ui := set_u_prev (match u_reified ui with
                        | Some r => Some r
                        | None => u_prev ui
                        end) ui in
  let ui := set_u_reified None ui in
  set_u_lineIx (Some (-1)%Z) ui.

(** [Ui.parse]: after the loop the method falls off its end, so whenever it
    gets that far it hands back nothing. *)
Definition Ui_parse (ui : Ui) (raw' : string) (n : nat)
  : Res (Ui * nat * Returned) :=
  if bool_decide (u_raw ui = Some raw') then Ok (ui, n, ReturnsThis)
  else
    ui ← Ui_parse_lines (Ui_parse_reset ui raw') 0 (JsText.split_lines raw');
    '(ui, n) ← match u_errors ui with
               | [] => Ui_reify ui n
               | _ :: _ => Ok (ui, n)
               end;
    Ok (ui, n, ReturnsUndefined).

(* ------------------------------------------------------------------------- *)
(** ** Utilities: [repeat], [underline], [unravel], [tokenToChar] *)
(* ------------------------------------------------------------------------- *)

(** The test [ix < length / str.length] of the loop of [repeat], for a
    [length] that is an integer: the quotient is [Infinity] when [str] is
    empty and [length] is positive, and [NaN] or [-Infinity], below which no
    [ix] is, when [str] is empty and [length] is not. *)
Definition repeat_goes_on (ix : nat) (length : Z) (str : string) : bool :=
  match String.length str with
  | 0 => (0 <? length)%Z
  | S _ as l => (Z.of_nat (ix * l) <? length)%Z
  end.

(** [for(let ix = 0; ix < len; ix++) res += str]; the loop has no bound of
    its own, [fuel] counts the turns allowed. *)
Fixpoint repeat_loop (fuel : nat) (length : Z) (str : string) (ix : nat)
    (res : string) : option string :=
  if repeat_goes_on ix length str then
    match fuel with
    | 0 => None
    | S fuel' => repeat_loop fuel' length str (S ix) (res +:+ str)
    end
  else Some res.

(** [res.slice(0, end)]: a negative [end] counts from the end of [res]. *)
Definition slice_to (res : string) (end_ : Z) : string :=
  if (0 <=? end_)%Z then JsString.take (Z.to_nat end_) res
  else JsString.take (Z.to_nat (Z.of_nat (String.length res) + end_)) res.

(** [repeat(length, str)]. *)
Definition repeat (fuel : nat) (length : Z) (str : string) : option string :=
  res ← repeat_loop fuel length str 0 "";
  Some (if (length <? Z.of_nat (String.length res))%Z
        then slice_to res length else res).

(** [underline(startIx, length)]. *)
Definition underline (fuel : nat) (startIx length : Z) : option string :=
  padding ← repeat fuel startIx " ";
  tildes ← repeat fuel (length - 1) "~";
  Some (padding +:+ "^" +:+ tildes).

(** [unravel(cur, tangle, unraveled)]: [fuel] bounds the depth of the
    recursion, which the source does not.  The recursive calls take the
    default, empty, [unraveled]. *)
Fixpoint unravel (fuel : nat) (cur : string) (tangle : gmap string (list string))
    (unraveled : list string) : Res (list string) :=
  match fuel with
  | 0 => Diverge
  | S fuel' =>
      let unraveled := unraveled ++ [cur] in
      match tangle !! cur with
      | None => Throw (TypeError "tangle[cur] is not iterable")
      | Some children =>
          (fix each (children : list string) (unraveled : list string)
             : Res (list string) :=
             match children with
             | [] => Ok unraveled
             | child :: rest =>
                 sub ← unravel fuel' child tangle [];
                 each rest (unraveled ++ sub)
             end) children unraveled
      end
  end.

(** [pieces.slice(0, end)] on an array. *)
Definition slice_front {A : Type} (pieces : list A) (end_ : Z) : list A :=
  if (0 <=? end_)%Z then take (Z.to_nat end_) pieces
  else take (Z.to_nat (Z.of_nat (length pieces) + end_)) pieces.

(** [tokenToChar], the static method of [Query] and of [Ui], which differ in
    the tokenizer they call. *)
Definition tokenToChar (tokenize : string → Res (list string))
    (token : Token) (line : string) : Res nat :=
  match tokenIx token with
  | Some ix =>
      pieces ← tokenize line;
      Ok (String.length (JsString.join (slice_front pieces (Z.of_nat ix - 1))))
  | None => Ok 0
  end.

Definition Query_tokenToChar : Token → string → Res nat :=
  tokenToChar Query_tokenize.
Definition Ui_tokenToChar : Token → string → Res nat :=
  tokenToChar Ui_tokenize.

(** [Query.getSourceIR]. *)
Definition Query_getSourceIR (q : Query) (sourceId : string)
  : Res (option SourceIR) :=
  match reified q with
  | None => Throw (TypeError "this.reified is undefined")
  | Some ir =>
      Ok (List.find (λ s, String.eqb (source s) sourceId) (sources ir))
  end.

(** [Query.getSourceAST]. *)
Definition Query_getSourceAST (q : Query) (src : SourceIR)
  : Res (option Token) :=
  match s_lineIx src with
  | None => Ok None
  | Some k => cs ← ast_chunks q; Ok (cs !! k)
  end.

End Model.

(* ------------------------------------------------------------------------- *)
(** ** A store and a number model to run the parsers on *)
(* ------------------------------------------------------------------------- *)

(** Numbers kept as the text they were read from. *)
Definition lexeme_numbers : JsNumber :=
  {| number := string;
     parseInt := λ s, s;
     parseFloat := λ s, s;
     number_truthy := λ s, negb (String.eqb s "0");
     number_toString := λ s, s |}.

(** A store with one view, ["V"], whose fingerprint is ["age ?"] and whose
    only field is ["F"]; the identifiers handed out are [u0], [u1], ... *)
Definition demo_api : Api :=
  {| ixer_view_fingerprint :=
       λ fp, if String.eqb fp "age ?" then Some "V" else None;
     ixer_fingerprint_field :=
       λ fp, if String.eqb fp "age ?" then [(0%Z, "F")] else [];
     uuid := λ n, "u" +:+ pretty n |}.

(** A store with one view, [V], whose fingerprint is ["age ?"] and whose
    only field is [F]; the identifiers handed out are [u0], [u1], ... *)
Definition single_view_api (V F : string) : Api :=
  {| ixer_view_fingerprint :=
       λ fp, if String.eqb fp "age ?" then Some V else None;
     ixer_fingerprint_field :=
       λ fp, if String.eqb fp "age ?" then [(0%Z, F)] else [];
     uuid := λ n, "u" +:+ pretty n |}.

(** Lines joined by newlines. *)
Definition text_of (lines : list string) : string := join_with NL lines.

(** The instance after a first parse, of the one source line [age ?x]. *)
Definition parsed_once : Query :=
  match Query_parse (H := lexeme_numbers) demo_api (new_Query None) "age ?x" 0
  with
  | Ok (q, _, _) => q
  | _ => new_Query None
  end.

(** A store that knows the fingerprint a negated line really has. *)
Definition negation_api : Api :=
  {| ixer_view_fingerprint :=
       λ fp, if String.eqb fp "! age ?" then Some "V" else None;
     ixer_fingerprint_field :=
       λ fp, if String.eqb fp "! age ?" then [(0%Z, "F")] else [];
     uuid := λ n, "u" +:+ pretty n |}.

(** A line with the given chunks, as [fingerprintSource] takes it. *)
Definition line_of `{JsNumber} (cs : list Token) : Token :=
  set_chunks (Some cs) (obj "source").

(** The field token [?alias]. *)
Definition field_token `{JsNumber} (a : option string) : Token :=
  set_alias a (obj "field").

(** The Ui that [Ui.parse] has made of four nested element lines when it
    calls [Ui.reify]. *)
Definition nested_ui : Ui :=
  let raw := text_of ["div"; "  span"; "    p"; "  b"] in
  match Ui_parse_lines (H := lexeme_numbers) (Ui_parse_reset (new_Ui None) raw)
          0 (JsText.split_lines raw) with
  | Ok ui => ui
  | _ => new_Ui None
  end.

(** The Ui that [Ui.parse] has made of an element that is given an
    identifier of its own and then two nested elements, when it calls
    [Ui.reify]. *)
Definition renamed_ui : Ui :=
  let raw := text_of ["div"; "  - id: `a`"; "  span"; "    p"; "  b"] in
  match Ui_parse_lines (H := lexeme_numbers) (Ui_parse_reset (new_Ui None) raw)
          0 (JsText.split_lines raw) with
  | Ok ui => ui
  | _ => new_Ui None
  end.


(* ------------------------------------------------------------------------- *)
(** ** Indentation and ancestry, stated on the lines of a Ui AST *)
(* ------------------------------------------------------------------------- *)

Section Ancestry.
Context `{JsNumber}.

(** The lines that [Ui.reify] does not skip. *)
Definition significant (line : Token) : bool :=
  negb (tokenIsComment line || tokenIsText line).

(** The positions of the element lines, in order: the [k]-th of them is the
    line that the [k]-th element of the IR is made from. *)
Fixpoint element_lines_from (i : nat) (cs : list Token) : list nat :=
  match cs with
  | [] => []
  | line :: cs' =>
      if tokenIsElement line then i :: element_lines_from (S i) cs'
      else element_lines_from (S i) cs'
  end.
Definition element_lines : list Token → list nat := element_lines_from 0.

(** The indent of the line at position [j]. *)
Definition line_depth (cs : list Token) (j : nat) : nat :=
  default 0 (cs !! j ≫= indent).

(** The element line at [j] is still open just before position [pos]: every
    line between them that is not skipped is indented deeper than it. *)
Definition still_open (cs : list Token) (j pos : nat) : Prop :=
  j < pos
  ∧ (∃ line, cs !! j = Some line ∧ tokenIsElement line = true)
  ∧ ∀ m line, j < m < pos → cs !! m = Some line → significant line = true →
      line_depth cs j < line_depth cs m.

(** The element line at [j] encloses the line at [i]: it comes before it, it
    is indented less, and no line in between has closed it. *)
Definition encloses (cs : list Token) (j i : nat) : Prop :=
  j < i ∧ still_open cs j (S i).

End Ancestry.

(** The source that the line [age ?x] is read as. *)
Definition age_line : Token :=
  match Query_line_outcome (H := lexeme_numbers) (new_Query None) 0 "age ?x"
  with
  | Ok (_, inl line) => line
  | _ => obj ""
  end.

Section TreeInvariant.
Context `{JsNumber}.

(** A static [parent] or [id] attribute: the two lines that write an
    identifier. *)
Definition overrides (line : Token) : bool :=
  tokenIsAttribute line && default false (static line)
  && (bool_decide (property line = Some "parent")
      || bool_decide (property line = Some "id")).

(** A static [parent] attribute: the line that writes a parent link. *)
Definition sets_parent (line : Token) : bool :=
  tokenIsAttribute line && default false (static line)
  && bool_decide (property line = Some "parent").

(** A static [id] attribute: the line that renames an element. *)
Definition sets_id (line : Token) : bool :=
  tokenIsAttribute line && default false (static line)
  && negb (bool_decide (property line = Some "parent"))
  && bool_decide (property line = Some "id").

(** The lines a tree can be read off: each carries an indent and none
    writes a parent link. *)
Definition tree_line (line : Token) : Prop :=
  is_Some (indent line) ∧ sets_parent line = false.

(** The identifier and the parent link of an element. *)
Definition link (e : ElementIR) : option Scalar * option Scalar :=
  (element e, parent e).

(** The parent link of the [k]-th element, whose line is at position [i],
    is as the indentation says: it names the innermost element line that
    encloses line [i], or the root when none does.  [lines] are the positions
    of the element lines, [links] the links of the elements made from them. *)
Definition parent_ok (cs : list Token) (lines : list nat)
    (links : list (option Scalar * option Scalar)) (rootId : option Scalar)
    (k : nat) : Prop :=
  ∀ i l, lines !! k = Some i → links !! k = Some l →
    (∀ j, encloses cs j i → (∀ j', encloses cs j' i → j' ≤ j) →
       ∃ kj lj, kj < k ∧ lines !! kj = Some j ∧ links !! kj = Some lj
                ∧ l.2 = lj.1)
    ∧ ((∀ j, ¬ encloses cs j i) → l.2 = rootId).

(** The keys under which the identifiers index [indent] and [childCount]. *)
Definition keys (links : list (option Scalar * option Scalar))
    (rootId : option Scalar) : list string :=
  key_of rootId :: (key_of ∘ fst <$> links).

(** The identifiers in use: the root's and those of the elements. *)
Definition ids (links : list (option Scalar * option Scalar))
    (rootId : option Scalar) : list (option Scalar) :=
  rootId :: links.*1.

(** Where the identifier of the element behind a reference stands among
    the identifiers in use. *)
Definition ref_pos (r : Ref) : nat :=
  match r with RootRef => 0 | ElemRef k => S k end.

(** The identifiers of a state are told apart by the dictionaries: they
    make pairwise distinct keys, none of which is [__proto__]. *)
Definition distinct_ids (st : ReifyState) : Prop :=
  let ks := keys (link <$> elements (rs_ir st)) (element (root (rs_ir st))) in
  NoDup ks ∧ "__proto__" ∉ ks.

(** What holds of the state of [Ui.reify] when it reaches position [pos] of
    the lines [cs]: one element per element line so far; [indent] holds the
    indent of each of them and [-1] for the root; the [ancestors] stack holds,
    innermost first, the elements whose lines are still open, above the root;
    every parent link is as the indentation says, and names an identifier in
    use; and [childCount] holds a count for every identifier, which is not
    zero when a parent link names it. *)
Definition tree_invariant (cs : list Token) (pos : nat) (st : ReifyState)
  : Prop :=
  let lines := element_lines (take pos cs) in
  let links := link <$> elements (rs_ir st) in
  let rootId := element (root (rs_ir st)) in
  length links = length lines
  ∧ rs_indent st !! key_of rootId = Some (Some (-1)%Z)
  ∧ (∀ k l j, links !! k = Some l → lines !! k = Some j →
       rs_indent st !! key_of l.1 = Some (Some (Z.of_nat (line_depth cs j))))
  ∧ (∃ ks, rs_ancestors st = (ElemRef <$> ks) ++ [RootRef]
           ∧ StronglySorted gt ks
           ∧ ∀ k, k ∈ ks ↔ ∃ j, lines !! k = Some j ∧ still_open cs j pos)
  ∧ (∀ k, parent_ok cs lines links rootId k)
  ∧ (∀ i id, ids links rootId !! i = Some id →
       ∃ c, rs_childCount st !! key_of id = Some (Some c)
            ∧ (c = 0 → ∀ l, l ∈ links → l.2 ≠ id))
  ∧ (∀ l, l ∈ links → l.2 ∈ ids links rootId).

(** The state of [Ui.reify] after the lines [lines]: the loop is entered as
    [Ui.reify] enters it, and run over these lines. *)
Definition Ui_reify_upto (api : Api) (ui : Ui) (n : nat) (lines : list Token)
  : Res ReifyState :=
  let ui := match u_reified ui with
            | Some r => set_u_prev (Some r) ui
            | None => ui
            end in
  Ui_reify_lines api (u_prev ui) lines (Ui_reify_init api ui n).

(** Throughout the pass of [Ui.reify] over the lines [cs], the identifiers
    in use are told apart by the dictionaries: they are after every line. *)
Definition distinct_throughout (api : Api) (ui : Ui) (n : nat)
    (cs : list Token) : Prop :=
  ∀ m st, Ui_reify_upto api ui n (take m cs) = Ok st → distinct_ids st.

End TreeInvariant.

(* ------------------------------------------------------------------------- *)
(** ** Predicates and auxiliary functions of the statements *)
(* ------------------------------------------------------------------------- *)

Section Predicates.
Context `{JsNumber}.
Context (api : Api).

(** The members of the instance that only [parse] itself and [reify]
    assign. *)
Definition same_outside_ast (q q' : Query) : Prop :=
  raw q' = raw q ∧ reified q' = reified q ∧ failed q' = failed q
  ∧ q_id q' = q_id q ∧ prev q' = prev q.

(** The line loop of [Ui.parse] writes [ast.chunks], [errors] and [lineIx]
    only. *)
Definition ui_same_outside_ast (ui ui' : Ui) : Prop :=
  u_raw ui' = u_raw ui ∧ u_reified ui' = u_reified ui
  ∧ u_failed ui' = u_failed ui ∧ u_id ui' = u_id ui ∧ u_prev ui' = u_prev ui
  ∧ (is_Some (u_ast ui) → is_Some (u_ast ui')).

(** [Ui.reify] only adds to the errors of the instance while it walks the
    lines. *)
Definition more_errors (ui ui' : Ui) : Prop :=
  ∃ es, ui' = set_u_errors (u_errors ui ++ es) ui.

(** The part of the state that decides the shape of the tree. *)
Definition same_structure (st st' : ReifyState) : Prop :=
  more_errors (rs_ui st) (rs_ui st')
  ∧ rs_indent st' = rs_indent st
  ∧ rs_childCount st' = rs_childCount st
  ∧ rs_ancestors st' = rs_ancestors st
  ∧ link (root (rs_ir st')) = link (root (rs_ir st))
  ∧ link <$> elements (rs_ir st') = link <$> elements (rs_ir st).

(** The state the branches of the loop start from, once the ancestors that
    the line closes are popped. *)
Definition popped_state (st : ReifyState) (ancestors : list Ref) : ReifyState :=
  mkReifyState (rs_ir st) (rs_indent st) (rs_childCount st) ancestors
    (rs_ui st) (rs_next st).

(** The IR that a parse of new text takes for the previous one:
    [this.reified ? this.reified : this.prev], the IR reified by the last
    parse or, when there is none, the one the instance was made with or the
    one an earlier parse left in [prev]. *)
Definition previous_ir (q : Query) : option QueryIR :=
  match reified q with
  | Some r => Some r
  | None => prev q
  end.

(** What the loops of [Query.reify] do to the instance: they push errors and
    move [lineIx], nothing else. *)
Definition reify_touches (q q' : Query) : Prop :=
  raw q' = raw q ∧ ast q' = ast q ∧ reified q' = reified q
  ∧ failed q' = failed q ∧ prev q' = prev q
  ∧ ∃ es, errors q' = errors q ++ es.

(** What a turn of the line loop of [Ui.parse] does to the errors: it keeps
    those recorded and adds at most one. *)
Definition adds_an_error_at_most (ui ui' : Ui) : Prop :=
  ∃ es, u_errors ui' = u_errors ui ++ es ∧ length es ≤ 1.

(** What a piece of the tokenizer is: not empty, and either a token of the
    alphabet or a stretch of text in which no token occurs. *)
Definition piece_ok (tokens : list string) (p : string) : Prop :=
  p ≠ "" ∧ (p ∈ tokens ∨ ∀ t, t ∈ tokens → JsString.indexOf p t = None).

(** A field token with nothing but its type. *)
Definition bare_field (t : Token) : Token :=
  if tokenIsField t then obj "field" else t.


(** An identifier that is no name of a member of [Object.prototype]: the
    dictionaries keyed by identifiers hold it as a property of their own. *)
Definition ordinary (id : string) : Prop := inherited id = false.

(** The identifiers that the store hands out are ordinary. *)
Definition ordinary_uuids : Prop := ∀ k, ordinary (uuid api k).


(** The call returns or throws: its loops come to an end. *)
Definition halts {A : Type} (r : Res A) : Prop := r ≠ Diverge.

(** A sub-parser that hands back a node has shifted a token off; one that
    hands back nothing has not added any. *)
Definition makes_progress (tokens : list string)
    (r : Parsed Token * list string) : Prop :=
  match r.1 with
  | Node _ => length r.2 < length tokens
  | Nothing => length r.2 ≤ length tokens
  | Failure _ => True
  end.

(** [k] copies of [str], one after the other. *)
Definition copies (k : nat) (str : string) : string :=
  Nat.iter k (λ res, res +:+ str) "".

(** The loop over the children, as [unravel] runs it. *)
Fixpoint unravel_each (fuel : nat) (tangle : gmap string (list string))
    (children unraveled : list string) : Res (list string) :=
  match children with
  | [] => Ok unraveled
  | child :: rest =>
      sub ← unravel fuel child tangle [];
      unravel_each fuel tangle rest (unraveled ++ sub)
  end.

(** What a source of the IR keeps of the line it was reified from: the view
    that the fingerprint of the line resolves to, and the index of the
    line. *)
Definition source_of_line (line : Token) (s : SourceIR) : Prop :=
  (∃ fp, fingerprintSource line = Ok fp
         ∧ ixer_view_fingerprint api fp = Some (sourceView s))
  ∧ s_lineIx s = lineIx line.

(** What [reify] reads of a source once it is made. *)
Definition origin (s : SourceIR) : string * option nat :=
  (sourceView s, s_lineIx s).

(** The lines of a text, the sources of the IR made of them, and what each
    source keeps of its line. *)
Inductive sources_of_lines : list Token → list (string * option nat) → Prop :=
  | no_lines : sources_of_lines [] []
  | source_line line lines s origins :
      tokenIsSource line = true → source_of_line line s →
      sources_of_lines lines origins →
      sources_of_lines (line :: lines) (origin s :: origins)
  | other_line line lines origins :
      tokenIsSource line = false →
      sources_of_lines lines origins →
      sources_of_lines (line :: lines) origins.

(** The loop of [tokenToString] over the chunks of a line. *)
Fixpoint chunks_string (cs : list Token) (prev : option (option nat))
    (res : string) : Res string :=
  match cs with
  | [] => Ok res
  | chunk :: cs' =>
      let res :=
        match prev with
        | Some p => if bool_decide (lineIx chunk = p) then res else res +:+ NL
        | None => res
        end in
      s ← tokenToString chunk;
      chunks_string cs' (Some (lineIx chunk)) (res +:+ s)
  end.

(** A field whose value, if it has one, is a string: the literal it was read
    from was not coerced to a number or a boolean. *)
Definition reads_back (c : Token) : Prop :=
  match value c with
  | Some (SStr _) | None => True
  | Some _ => False
  end.

(** A chunk as the sub-parsers of a line make it, and the text it prints
    as if it reads back. *)
Definition chunk_prints (c : Token) (s : string) : Prop :=
  lineIx c = None ∧ (reads_back c → tokenToString c = Ok s).

(** What a sub-parser that hands back a node has done: it has taken tokens
    off the front, and the node prints as those tokens. *)
Definition prints_consumed (tokens : list string)
    (r : Parsed Token * list string) : Prop :=
  match r.1 with
  | Node c =>
      ∃ consumed, tokens = consumed ++ r.2
        ∧ lineIx c = None
        ∧ (reads_back c → tokenToString c = Ok (JsString.join consumed))
  | _ => True
  end.

(** A chunk of a Query AST that stands at the index of its line: a source
    line carries that index, and so do the parts of a calculation. *)
Definition at_line (k : nat) (c : Token) : Prop :=
  (tokenIsSource c = true → lineIx c = Some k)
  ∧ (tokenIsCalculation c = true →
     Forall (λ part, lineIx part = Some k) (default [] (chunks c))).

(** A chunk of a source line as the fingerprint reads it: a field, or a text
    or keyword token that carries its text and nothing else to print. *)
Definition plain_chunk (c : Token) : Prop :=
  tokenIsField c = true
  ∨ ((tokenIsText c = true ∨ tokenIsKeyword c = true)
     ∧ chunks c = None ∧ indent c = None ∧ is_Some (text c)).

(** What a chunk adds to a fingerprint, in the words of the specification:
    a field is a [?], whatever its alias, and any other chunk is its
    text. *)
Definition spelled (c : Token) : string :=
  if tokenIsField c then "?" else or_empty (text c).

(** A text without the mark of negation, [! ], at its front. *)
Definition unmarked (s : string) : string :=
  match s with
  | String "!" (String " " rest) => rest
  | _ => s
  end.

(** The fingerprint of a line, in the words of the specification: the chunks
    spelled one after the other, without the mark of negation when the line
    starts with a text that carries it. *)
Definition spelled_fingerprint (cs : list Token) : string :=
  match cs with
  | [] => ""
  | head :: rest =>
      (if tokenIsText head then unmarked (spelled head) else spelled head)
      +:+ JsString.join (spelled <$> rest)
  end.

(** The store has a field for every field of the line: the rows of the
    fingerprint, taken in order, give each field chunk a field. *)
Fixpoint fields_found (cs : list Token) (rows : list (Z * string)) : bool :=
  match cs with
  | [] => true
  | c :: cs' =>
      if tokenIsField c then
        match rows with
        | (_, f) :: rows' => JsString.truthy f && fields_found cs' rows'
        | [] => false
        end
      else fields_found cs' rows
  end.

(** The sources that [reify] has made when it stops, line by line: a source
    line whose fingerprint names a view gives one, bound to that view and
    carrying the index of the line, unless the store lacks a field for it,
    at which the pass ends; a source line whose fingerprint names no view
    gives none, and neither does any other line. *)
Inductive partial_sources : list Token → list (string * option nat) → Prop :=
  | no_more_lines : partial_sources [] []
  | resolved_line line lines fp cs s origins :
      tokenIsSource line = true → fingerprintSource line = Ok fp →
      ixer_view_fingerprint api fp = Some (sourceView s) →
      JsString.truthy (sourceView s) = true →
      s_lineIx s = lineIx line →
      chunks line = Some cs →
      fields_found cs (sort_by_ix (ixer_fingerprint_field api fp)) = true →
      partial_sources lines origins →
      partial_sources (line :: lines) (origin s :: origins)
  | unknown_line line lines fp origins :
      tokenIsSource line = true → fingerprintSource line = Ok fp →
      truthy_opt (ixer_view_fingerprint api fp) = false →
      partial_sources lines origins →
      partial_sources (line :: lines) origins
  | short_line line lines fp cs :
      tokenIsSource line = true → fingerprintSource line = Ok fp →
      truthy_opt (ixer_view_fingerprint api fp) = true →
      chunks line = Some cs →
      fields_found cs (sort_by_ix (ixer_fingerprint_field api fp)) = false →
      partial_sources (line :: lines) []
  | passed_line line lines origins :
      tokenIsSource line = false →
      partial_sources lines origins →
      partial_sources (line :: lines) origins.

(** The call returns a value: it neither throws nor goes on forever. *)
Definition returns {A : Type} (r : Res A) : Prop := ∃ a, r = Ok a.

(** A line of Ui text that starts, after its indentation, with [~]: the
    lines that [Ui.parse] can append to the binding before them. *)
Definition binding_line (rawLine : string) : bool :=
  match tokens ← Ui_tokenize rawLine; consumeWhile WHITE tokens None with
  | Ok (_, head :: _) => String.eqb head "~"
  | _ => false
  end.

(** The tokens that [Ui.parse] reports an error at. *)
Definition reportable (token : option Token) : Prop :=
  match token with
  | None => True
  | Some t =>
      chunks t = None
      ∧ (tokenIsField t = true ∨ tokenIsText t = true
         ∨ (tokenIsBinding t = true ∧ is_Some (text t)))
  end.

(** The number of blank tokens that a line of Ui text starts with: its
    indentation as [Ui.parse] measures it. *)
Definition line_indent (rawLine : string) : nat :=
  match tokens ← Ui_tokenize rawLine;
        '(_, rest) ← consumeWhile WHITE tokens None;
        Ok (length tokens - length rest) with
  | Ok n => n
  | _ => 0
  end.

(** What a turn of the line loop of [Ui.parse] comes to: the call returns,
    and it has added a chunk to the AST, which carries the index [k] and the
    indentation [ind] of the line, or an error to the list, or -- on a line
    that [merge] allows it -- rewritten the last chunk, keeping its index
    and its indentation. *)
Definition line_done (raw : string) (ui : Ui) (cs : list Token) (merge : bool)
    (k ind : nat) (r : Res Ui) : Prop :=
  ∃ ui', r = Ok ui' ∧ u_raw ui' = Some raw
    ∧ ((∃ c, ui_ast_chunks ui' = Ok (cs ++ [c]) ∧ u_errors ui' = u_errors ui
             ∧ lineIx c = Some k ∧ indent c = Some ind)
       ∨ (∃ e, ui_ast_chunks ui' = Ok cs ∧ u_errors ui' = u_errors ui ++ [e])
       ∨ (merge = true
          ∧ ∃ front b b',
              cs = front ++ [b] ∧ ui_ast_chunks ui' = Ok (front ++ [b'])
              ∧ lineIx b' = lineIx b ∧ indent b' = indent b
              ∧ u_errors ui' = u_errors ui)).

(** Whether a character is a blank: a space or a tab. *)
Definition is_blank (c : ascii) : bool :=
  bool_decide (c = " "%char) || bool_decide (c = "009"%char).

(** The number of blanks that a line of text starts with. *)
Fixpoint leading_blanks (s : string) : nat :=
  match s with
  | String c s' => if is_blank c then S (leading_blanks s') else 0
  | EmptyString => 0
  end.

(** A chunk of a Ui AST stands for the line [k] of the text: it carries the
    index of that line, and as its indent the number of blanks the line
    starts with. *)
Definition stands_at (lines : list string) (c : Token) (k : nat) : Prop :=
  lineIx c = Some k
  ∧ ∃ l, lines !! k = Some l ∧ indent c = Some (leading_blanks l).

(** A line of text that [Query.parse] reads as a source whose only field is
    aliased [x]: whatever the instance, the first turn of the line loop ends
    with the chunk [line], which is a source, and among the chunks of [line]
    one is a field, whose alias is [x]. *)
Definition reads_source (src x : string) (line : Token) : Prop :=
  JsText.split_lines src = [src]
  ∧ (∀ q : Query, ∃ q', Query_line_outcome q 0 src = Ok (q', inl line))
  ∧ tokenIsSource line = true
  ∧ ∃ cs f, chunks line = Some cs ∧ List.filter tokenIsField cs = [f]
            ∧ alias f = Some x.

(** The store knows the source [line]: its fingerprint is that of the view
    [V], and the first field of the fingerprint, in the order of their
    indices, is [F]. *)
Definition resolves (line : Token) (V F : string) : Prop :=
  V ≠ "" ∧ F ≠ ""
  ∧ ∃ fp ix rows,
      fingerprintSource line = Ok fp
      ∧ ixer_view_fingerprint api fp = Some V
      ∧ sort_by_ix (ixer_fingerprint_field api fp) = (ix, F) :: rows.

(** The chunks of the line [# ?r by ?y ascending]. *)
Definition ordinal_chunks (y : string) : list Token :=
  [set_tokenIx (Some 1) (set_text (Some "#") (obj "keyword"));
   set_tokenIx (Some 2) (text_token " ");
   set_tokenIx (Some 3) (set_alias (Some "r") (obj "field"));
   set_tokenIx (Some 5) (text_token " by ");
   set_tokenIx (Some 8) (set_alias (Some y) (obj "field"));
   set_tokenIx (Some 10) (text_token " ascending")].

(** The ordinal that the second line [# ?r by ?y ascending] of a text is
    read as. *)
Definition ordinal_by (y : string) : Token :=
  set_directions (Some [Some "ascending"])
    (set_alias (Some "r")
       (set_type "ordinal"
          (set_indent (Some 0)
             (set_lineIx (Some 1)
                (set_chunks (Some (ordinal_chunks y)) (obj "")))))).

End Predicates.

(* ========================================================================= *)
(** * Properties *)
(* ========================================================================= *)

(* ------------------------------------------------------------------------- *)
(** ** The tokenizer *)
(* ------------------------------------------------------------------------- *)

(** [simpl] may unfold an append whose first string starts with a
    character. *)
Local Arguments String.append !_ _ / : simpl nomatch.

Section TokenizerProofs.

Lemma string_app_length (s t : string) :
  String.length (s +:+ t) = String.length s + String.length t.
Proof. induction s as [|c s IH]; simpl; [done | by rewrite IH]. Qed.

Lemma string_app_nil_r (s : string) : s +:+ "" = s.
Proof. induction s as [|c s IH]; simpl; [done | by rewrite IH]. Qed.

Lemma string_app_assoc (s t u : string) : (s +:+ t) +:+ u = s +:+ (t +:+ u).
Proof. induction s as [|c s IH]; simpl; [done | by rewrite IH]. Qed.

Lemma join_app (l k : list string) :
  JsString.join (l ++ k) = JsString.join l +:+ JsString.join k.
Proof.
  induction l as [|x l IH]; simpl; [done|].
  unfold JsString.join in *. simpl. by rewrite IH, string_app_assoc.
Qed.

Lemma take_drop (n : nat) (s : string) :
  JsString.take n s +:+ JsString.drop n s = s.
Proof.
  revert s; induction n as [|n IH]; intros [|c s]; simpl; try done.
  by rewrite IH.
Qed.

Lemma drop_length (n : nat) (s : string) :
  String.length (JsString.drop n s) = String.length s - n.
Proof.
  revert s; induction n as [|n IH]; intros [|c s]; simpl; try done.
Qed.

Lemma drop_add (n m : nat) (s : string) :
  JsString.drop (n + m) s = JsString.drop m (JsString.drop n s).
Proof.
  revert s; induction n as [|n IH]; intros [|c s]; simpl; try done.
  by destruct m.
Qed.

(** A prefix can be split off. *)
Lemma startsWith_split (t s : string) :
  JsString.startsWith t s = true →
  s = t +:+ JsString.drop (String.length t) s.
Proof.
  revert s; induction t as [|a t IH]; intros [|b s] Hp; simpl in *; try done.
  destruct (decide (a = b)) as [->|]; [|done]. by rewrite <- IH.
Qed.

(** Where [indexOf] finds the token, the token stands. *)
Lemma indexOf_split (s t : string) (ix : nat) :
  JsString.indexOf s t = Some ix →
  JsString.take ix s +:+ t +:+ JsString.drop (ix + String.length t) s = s.
Proof.
  revert ix; induction s as [|c s IH]; intros ix; simpl.
  - destruct (JsString.startsWith t "") eqn:Hp; [|done].
    intros [= <-]. simpl. by rewrite <- (startsWith_split t "").
  - destruct (JsString.startsWith t (String c s)) eqn:Hp.
    + intros [= <-]. simpl. by rewrite <- (startsWith_split t (String c s)).
    + destruct (JsString.indexOf s t) as [i|] eqn:Hi; [|done].
      intros [= <-]. simpl. by rewrite (IH i).
Qed.

(** What the scan over the alphabet ends with: nothing found, or the first
    occurrence of one of the tokens. *)
Lemma tokenizer_scan (tokens : list string) (raw : string) :
  let r := foldl (tokenizer_pick raw) (String.length raw, raw) tokens in
  r = (String.length raw, raw)
  ∨ (r.2 ∈ tokens ∧ JsString.indexOf raw r.2 = Some r.1
     ∧ r.1 < String.length raw).
Proof.
  induction tokens as [|t tokens IH] using rev_ind; simpl; [by left|].
  rewrite foldl_app. simpl.
  set (acc := foldl (tokenizer_pick raw) (String.length raw, raw) tokens) in *.
  assert (acc.1 ≤ String.length raw) as Hle.
  { destruct IH as [->|(_ & _ & ?)]; simpl; lia. }
  unfold tokenizer_pick.
  destruct (JsString.indexOf raw t) as [ix|] eqn:Hix.
  - destruct (ix <? acc.1) eqn:Hlt.
    + right. simpl. apply Nat.ltb_lt in Hlt.
      split; [|split; [done | lia]].
      apply elem_of_app; right. by apply list_elem_of_singleton.
    + destruct IH as [->|(? & ? & ?)]; [by left | right].
      split; [|done]. apply elem_of_app; by left.
  - destruct IH as [->|(? & ? & ?)]; [by left | right].
    split; [|done]. apply elem_of_app; by left.
Qed.

(** One turn keeps the text and, when no token is empty, shortens it. *)
Lemma tokenizer_step_spec (tokens : list string) (raw : string) :
  let '(pushed, rest) := tokenizer_step tokens raw in
  JsString.join pushed +:+ rest = raw
  ∧ (Forall (λ t, t ≠ "") tokens → raw ≠ "" →
     String.length rest < String.length raw).
Proof.
  unfold tokenizer_step.
  pose proof (tokenizer_scan tokens raw) as Hscan. simpl in Hscan.
  destruct (foldl (tokenizer_pick raw) (String.length raw, raw) tokens)
    as [minIx minToken].
  destruct Hscan as [[= -> ->]|(Hin & Hix & Hlt)]; simpl in *.
  - rewrite Nat.ltb_irrefl, andb_false_r.
    assert (JsString.drop (String.length raw + String.length raw) raw = "")
      as ->.
    { rewrite drop_add.
      assert (∀ s, JsString.drop (String.length s) s = "") as Hd
        by (induction s; simpl; done).
      rewrite Hd. by destruct (String.length raw). }
    unfold JsString.join; simpl. rewrite !string_app_nil_r.
    split; [done|]. intros _ Hne. destruct raw; [done | simpl; lia].
  - apply Nat.ltb_lt in Hlt as Hlt'. rewrite Hlt', andb_true_r.
    pose proof (indexOf_split _ _ _ Hix) as Hsplit.
    split.
    + destruct (0 <? minIx) eqn:H0; unfold JsString.join; simpl;
        rewrite string_app_nil_r.
      * by rewrite string_app_assoc.
      * apply Nat.ltb_ge in H0. assert (minIx = 0) as -> by lia.
        by simpl in Hsplit.
    + intros Hall _. rewrite drop_length.
      rewrite Forall_forall in Hall. specialize (Hall _ Hin).
      destruct minToken; [done | simpl; lia].
Qed.

(** The loop ends within one turn per character, and then every larger
    allowance gives the same pieces. *)
Lemma tokenizer_loop_total (tokens : list string) :
  Forall (λ t, t ≠ "") tokens →
  ∀ (bound : nat) (raw : string), String.length raw ≤ bound →
  ∃ pieces, JsString.join pieces = raw
    ∧ ∀ fuel results, String.length raw ≤ fuel →
        tokenizer_loop tokens fuel raw results = Some (results ++ pieces).
Proof.
  intros Hall bound; induction bound as [|bound IH]; intros raw Hlen.
  - destruct raw; [|simpl in Hlen; lia].
    exists []. split; [done|]. intros [|fuel] results _; simpl;
      by rewrite app_nil_r.
  - destruct raw as [|c raw'] eqn:Hraw.
    { exists []. split; [done|]. intros [|fuel] results _; simpl;
        by rewrite app_nil_r. }
    rewrite <- Hraw in *.
    pose proof (tokenizer_step_spec tokens raw) as Hstep.
    destruct (tokenizer_step tokens raw) as [pushed rest] eqn:Hs.
    destruct Hstep as [Hjoin Hshort].
    assert (String.length rest < String.length raw) as Hlt
      by (apply Hshort; [done | by rewrite Hraw]).
    destruct (IH rest) as (pieces & Hp & Hloop); [lia|].
    exists (pushed ++ pieces). split.
    + by rewrite join_app, Hp.
    + intros fuel results Hfuel. destruct fuel as [|fuel]; [lia|].
      rewrite Hraw. simpl. rewrite <- Hraw, Hs.
      rewrite Hloop by lia. by rewrite app_assoc.
Qed.

Lemma tokenizer_empty_token_loops (fuel : nat) (results : list string) :
  tokenizer_loop [""] fuel "a" results = None.
Proof.
  revert results; induction fuel as [|fuel IH]; intros results; [done|].
  simpl. apply IH.
Qed.

End TokenizerProofs.

(** C4 (as the spec states it, refuted): [[""]] is a non-empty alphabet, and
    on the input ["a"] the tokenizer made from it never returns: every turn
    pushes the empty token and leaves the text as it was. *)
Lemma tokenizer_not_total_with_empty_token :
  [""] ≠ @nil string ∧ tokenizer_diverges [""] "a".
Proof.
  split; [done|]. intros fuel. apply tokenizer_empty_token_loops.
Qed.

(** C4 (amended): for every alphabet whose tokens are all non-empty strings
    and every input string, the tokenizer returns within one turn per
    character of the input, any larger allowance gives the same pieces, and
    the pieces joined in order are the input; the empty line gives the empty
    sequence, whatever the alphabet. *)
Theorem makeTokenizer_total_and_lossless (tokens : list string) (raw : string) :
  Forall (λ t, t ≠ "") tokens →
  (∃ pieces,
     (∀ fuel, String.length raw ≤ fuel →
        makeTokenizer tokens fuel raw = Some pieces)
     ∧ JsString.join pieces = raw)
  ∧ (∀ alphabet fuel, makeTokenizer alphabet fuel "" = Some []).
Proof.
  intros Hall. split.
  - destruct (tokenizer_loop_total tokens Hall (String.length raw) raw)
      as (pieces & Hjoin & Hloop); [done|].
    exists pieces. split; [|done].
    intros fuel Hfuel. unfold makeTokenizer. by rewrite Hloop.
  - by intros alphabet [|fuel].
Qed.

Lemma makeTokenizer_total_and_lossless_witness :
  (∃ pieces,
     (∀ fuel, String.length "age ?x" ≤ fuel →
        makeTokenizer [" "; "?"; "$="] fuel "age ?x" = Some pieces)
     ∧ JsString.join pieces = "age ?x")
  ∧ (∀ alphabet fuel, makeTokenizer alphabet fuel "" = Some []).
Proof.
  apply (makeTokenizer_total_and_lossless [" "; "?"; "$="] "age ?x").
  repeat constructor; discriminate.
Defined.

(* ------------------------------------------------------------------------- *)
(** ** Fingerprints, negation and blank lines *)
(* ------------------------------------------------------------------------- *)

Section QueryFacts.
Context `{JsNumber}.

Lemma tokenToString_plain (c : Token) :
  plain_chunk c → tokenIsField c = false → tokenToString c = Ok (spelled c).
Proof.
  intros [Hf|(Hty & Hcs & Hind & [s Hs])] Hnf; [congruence|].
  unfold spelled. rewrite Hnf.
  destruct c as [ty tix lix ind cs' txt grp al val ng dirs pix tg cl nm
                 prop av st ev ky].
  unfold tokenIsText, tokenIsKeyword in Hty. simpl in *. subst.
  destruct Hty as [->%String.eqb_eq| ->%String.eqb_eq]; done.
Qed.

Lemma fingerprint_from_spelled cs : ∀ fp,
  Forall plain_chunk cs →
  fingerprint_from fp cs = Ok (fp +:+ JsString.join (spelled <$> cs)).
Proof.
  induction cs as [|c cs IH]; intros fp Hall; simpl.
  { by rewrite string_app_nil_r. }
  apply Forall_cons in Hall as [Hc Hall].
  assert ((if tokenIsField c then Ok "?" else tokenToString c)
          = Ok (spelled c)) as ->.
  { destruct (tokenIsField c) eqn:Hf; [by unfold spelled; rewrite Hf|].
    by apply tokenToString_plain. }
  simpl. rewrite IH by done. unfold JsString.join. simpl.
  by rewrite string_app_assoc.
Qed.

(** C8: on the chunks [[TextToken("age"), FieldToken(alias = "x")]] the
    fingerprint is ["age?"]; on [[TextToken("! age"), FieldToken()]] the
    leading ["! "] is stripped, the rest of that chunk's text is kept, and
    the fingerprint is ["age?"] again; in general a leading text chunk
    ["! " ++ t] contributes [t], after which every chunk is spelled in its
    turn, a field as [?] and a text or keyword as its text; and a line that
    starts with no such mark is spelled whole. *)
Theorem fingerprintSource_examples :
  fingerprintSource (line_of [text_token "age"; field_token (Some "x")])
    = Ok "age?"
  ∧ fingerprintSource (line_of [text_token "! age"; field_token None])
    = Ok "age?"
  ∧ (∀ (t : string) (rest : list Token),
      Forall plain_chunk rest →
      fingerprintSource (line_of (text_token ("! " +:+ t) :: rest))
      = Ok (t +:+ JsString.join (spelled <$> rest)))
  ∧ (∀ cs : list Token,
      cs ≠ [] → Forall plain_chunk cs →
      fingerprintSource (line_of cs) = Ok (spelled_fingerprint cs)).
Proof.
  split; [by vm_compute|]. split; [by vm_compute|].
  assert (∀ cs : list Token,
      cs ≠ [] → Forall plain_chunk cs →
      fingerprintSource (line_of cs) = Ok (spelled_fingerprint cs)) as Hgen.
  { intros [|head rest] Hne Hall; [done|].
    unfold fingerprintSource, line_of, chunks_of. simpl.
    pose proof Hall as Hall'.
    apply Forall_cons in Hall' as [Hhead Hrest].
    pose proof (fingerprint_from_spelled (head :: rest) "" Hall) as Hwhole.
    rewrite fmap_cons in Hwhole.
    change (JsString.join (spelled head :: (spelled <$> rest)))
      with (spelled head +:+ JsString.join (spelled <$> rest)) in Hwhole.
    change ("" +:+ ?x) with x in Hwhole.
    destruct (tokenIsText head) eqn:Ht; [|exact Hwhole].
    assert (tokenIsField head = false) as Hnf.
    { unfold tokenIsText in Ht. apply String.eqb_eq in Ht.
      unfold tokenIsField. by rewrite Ht. }
    destruct Hhead as [Hf|(_ & _ & _ & [s Hs])]; [congruence|].
    assert (spelled head = s) as Hsp by (by unfold spelled; rewrite Hnf, Hs).
    rewrite Hsp in *. rewrite Hs.
    assert ((∃ r, s = String "!" (String " " r))
            ∨ ¬ (∃ r, s = String "!" (String " " r))) as [[r ->]|Hno].
    { destruct s as [|c1 [|c2 r]]; [right; by intros [? ?]..|].
      destruct (decide (c1 = "!"%char)) as [->|];
        [|right; intros [? ?]; congruence].
      destruct (decide (c2 = " "%char)) as [->|];
        [left; eauto | right; intros [? ?]; congruence]. }
    - simpl. by rewrite fingerprint_from_spelled.
    - assert (unmarked s = s) as ->.
      { unfold unmarked. repeat case_match; try done.
        destruct Hno. eexists. by simplify_eq. }
      rewrite <- Hwhole.
      cbn [fingerprint_from]. change ("" +:+ ?x) with x.
      set (whole := _ ≫= _).
      destruct s as [|c1 [|c2 r]]; repeat case_match; try done.
      destruct Hno. subst. by eexists. }
  split; [|exact Hgen].
  intros t rest Hrest.
  rewrite Hgen; [done | done |].
  constructor; [|done]. right. split; [by left|]. done.
Qed.

(** C7 (what the code does): a line of one space is tokenized to one
    token, [parseLine] consumes it as padding and returns [undefined] —
    no node, no error -- and [parse] then reads [parsed.chunks] off that
    [undefined]: it raises a [TypeError] instead of going on to the next
    line. *)
Theorem blank_line_crashes_parse (api : Api) (prev : option QueryIR) (n : nat) :
  Query_tokenize " " = Ok [" "]
  ∧ (∀ q k, Query_parseLine q [" "] k
            = Ok (set_q_lineIx (Some k) q, Nothing))
  ∧ Query_parse api (new_Query prev) " " n
    = Throw (TypeError "parsed is undefined").
Proof. split; [by vm_compute | split; [done | by vm_compute]]. Qed.

(** C5 (what the code does): the line [! age ?x] starts with the token [!],
    which [parseKeyword] turns into a keyword chunk; [processSource] looks
    for a text chunk, so the line is classified as a source with [negated]
    left unset and with the [!] inside its fingerprint; and when the store
    knows that fingerprint, the reified source carries no [negated] flag
    either. *)
Theorem negation_is_not_recognised :
  (∀ q : Query, ∃ q' l kw rest,
     Query_line_outcome q 0 "! age ?x" = Ok (q', inl l)
     ∧ tokenIsSource l = true
     ∧ chunks l = Some (kw :: rest)
     ∧ tokenIsKeyword kw = true ∧ text kw = Some "!"
     ∧ negated l = None
     ∧ fingerprintSource l = Ok "! age ?")
  ∧ ∃ q' n' r ir s,
      Query_parse negation_api (new_Query None) "! age ?x" 0 = Ok (q', n', r)
      ∧ errors q' = []
      ∧ reified q' = Some ir
      ∧ sources ir = [s]
      ∧ sourceView s = "V"
      ∧ s_negated s = None.
Proof.
  split.
  - intros q.
    destruct (Query_line_outcome q 0 "! age ?x") as [[q' [l|e]]|e|] eqn:Hl;
      vm_compute in Hl; try discriminate Hl.
    injection Hl as <- <-.
    eexists _, _, _, _. split; [reflexivity|]. by vm_compute.
  - destruct (Query_parse negation_api (new_Query None) "! age ?x" 0)
      as [[[q' n'] r]|e|] eqn:Hp; vm_compute in Hp; try discriminate Hp.
    injection Hp as <- <- <-.
    eexists _, _, _, _, _. split; [reflexivity|]. by vm_compute.
Qed.

End QueryFacts.

(* ------------------------------------------------------------------------- *)
(** ** Reasoning about results *)
(* ------------------------------------------------------------------------- *)

Section ResultLemmas.
Context `{JsNumber}.

Lemma bind_Ok {A B : Type} (m : Res A) (f : A → Res B) (b : B) :
  m ≫= f = Ok b ↔ ∃ a, m = Ok a ∧ f a = Ok b.
Proof.
  destruct m as [a|e|]; simpl; split; try done.
  - intros Hf; by exists a.
  - by intros (a' & [= <-] & Hf).
  - by intros (? & ? & ?).
  - by intros (? & ? & ?).
Qed.

Lemma bind_Ok_l {A B : Type} (a : A) (f : A → Res B) : Ok a ≫= f = f a.
Proof. done. Qed.

End ResultLemmas.

(** Takes apart the hypotheses that say a sequence of calls returned. *)
Ltac invert_result :=
  repeat match goal with
    | H : _ ≫= _ = Ok _ |- _ =>
        apply bind_Ok in H as (? & ? & H)
    | H : Ok _ = Ok _ |- _ => injection H as H
    | H : Throw _ = Ok _ |- _ => discriminate H
    | H : Diverge = Ok _ |- _ => discriminate H
    | H : (let '(_, _) := ?x in _) = Ok _ |- _ => destruct x
    | H : (match ?x with _ => _ end) = Ok _ |- _ =>
        destruct x eqn:?
    | H : (if ?x then _ else _) = Ok _ |- _ => destruct x eqn:?
    end; simplify_eq/=.

(* ------------------------------------------------------------------------- *)
(** ** What the line loop of [Query.parse] leaves alone *)
(* ------------------------------------------------------------------------- *)

Section QueryFrame.
Context `{JsNumber}.

Lemma same_outside_ast_refl (q : Query) : same_outside_ast q q.
Proof. by repeat split. Qed.

Lemma same_outside_ast_trans (q1 q2 q3 : Query) :
  same_outside_ast q1 q2 → same_outside_ast q2 q3 → same_outside_ast q1 q3.
Proof.
  intros (? & ? & ? & ? & ?) (? & ? & ? & ? & ?).
  repeat split; congruence.
Qed.

Lemma Query_parseLine_instance (q q' : Query) tokens k r :
  Query_parseLine q tokens k = Ok (q', r) → q' = set_q_lineIx (Some k) q.
Proof. unfold Query_parseLine. intros Hp. by invert_result. Qed.

Lemma Query_line_outcome_instance (q q' : Query) k line o :
  Query_line_outcome q k line = Ok (q', o) →
  q' = q ∨ q' = set_q_lineIx (Some k) q.
Proof.
  unfold Query_line_outcome. intros Hp.
  apply bind_Ok in Hp as (tokens & _ & Hp).
  destruct tokens as [|t tokens]; [left; by invert_result|].
  apply bind_Ok in Hp as ([q1 r] & Hline & Hp).
  apply Query_parseLine_instance in Hline as ->.
  right. by invert_result.
Qed.

Lemma push_chunk_frame (c : Token) (q q' : Query) :
  push_chunk c q = Ok q' →
  same_outside_ast q q' ∧ errors q' = errors q
  ∧ ast_chunks q' = (λ cs, cs ++ [c]) <$> ast_chunks q.
Proof.
  unfold push_chunk, ast_chunks. intros Hp.
  destruct (ast q) as [a|] eqn:Ha; [|done].
  apply bind_Ok in Hp as (cs & Hcs & [= <-]). simpl.
  rewrite Hcs. by repeat split.
Qed.

Lemma Query_parse_line_frame (q q' : Query) k line :
  Query_parse_line q k line = Ok q' → same_outside_ast q q'.
Proof.
  unfold Query_parse_line. intros Hp.
  apply bind_Ok in Hp as ([q1 o] & Ho & Hp).
  apply Query_line_outcome_instance in Ho.
  assert (same_outside_ast q q1) as Hq1
    by (destruct Ho as [->| ->]; by repeat split).
  destruct o as [c|e].
  - apply push_chunk_frame in Hp as [Hp _].
    by eapply same_outside_ast_trans.
  - injection Hp as <-. eapply same_outside_ast_trans; [done|].
    by repeat split.
Qed.

Lemma Query_parse_lines_frame lines : ∀ (q q' : Query) k,
  Query_parse_lines q k lines = Ok q' → same_outside_ast q q'.
Proof.
  induction lines as [|line lines IH]; intros q q' k Hp; simpl in Hp.
  - injection Hp as <-. apply same_outside_ast_refl.
  - apply bind_Ok in Hp as (q1 & H1 & Hp).
    eapply same_outside_ast_trans;
      [by eapply Query_parse_line_frame | by eapply IH].
Qed.

End QueryFrame.

(* ------------------------------------------------------------------------- *)
(** ** What the pieces of [Query.reify] leave alone *)
(* ------------------------------------------------------------------------- *)

Section ReifyFrame.
Context `{JsNumber}.
Context (api : Api).

Lemma getVariable_sources alias (ast : QueryIR) varId fieldId n :
  sources (getVariable api alias ast varId fieldId n).1.2 = sources ast.
Proof.
  unfold getVariable. repeat case_match; simplify_eq/=; done.
Qed.

Lemma last_snoc_removelast {A : Type} (l : list A) (x : A) :
  last l = Some x → l = removelast l ++ [x].
Proof.
  intros (l' & ->)%last_Some. by rewrite removelast_last.
Qed.

(** An ordinal line leaves the views and the line indices of the sources
    alone. *)
Lemma reify_ordinal_origin prev line ir q n ir' q' n' :
  reify_ordinal api prev line ir q n = Ok (ir', q', n') →
  (origin <$> sources ir') = (origin <$> sources ir).
Proof.
  unfold reify_ordinal. intros Hr.
  destruct (last (sources ir)) as [src|] eqn:Hlast.
  2: { by apply bind_Ok in Hr as (err & _ & [= <- <- <-]). }
  apply bind_Ok in Hr as ([varId selectedId] & _ & Hr).
  match type of Hr with
  | context [getVariable api ?a ?i ?v ?s ?m] =>
      pose proof (getVariable_sources a i v s m) as Hsources;
      destruct (getVariable api a i v s m) as [[varId' ir1] n1]
  end.
  simpl in Hsources.
  apply bind_Ok in Hr as (cs & _ & Hr).
  apply bind_Ok in Hr as ([[[sorted unsorted] k] q1] & _ & [= <- <- <-]).
  simpl. rewrite Hsources.
  rewrite (last_snoc_removelast _ _ Hlast) at 2.
  by rewrite !fmap_app.
Qed.

End ReifyFrame.

(* ------------------------------------------------------------------------- *)
(** ** The store of the examples *)
(* ------------------------------------------------------------------------- *)

Lemma demo_uuids_ordinary : ordinary_uuids demo_api.
Proof.
  intros k. unfold ordinary, inherited, among. simpl. reflexivity.
Qed.

(* ------------------------------------------------------------------------- *)
(** ** Errors, [reified] and [failed] *)
(* ------------------------------------------------------------------------- *)

Section FailedIR.
Context `{JsNumber}.
Context (api : Api).

Lemma with_variable_sources varId f (ir : QueryIR) :
  sources (with_variable varId f ir) = sources ir.
Proof. done. Qed.

(** The loop over the fields of a source line ends early exactly when the
    store lacks a field; it leaves the sources made so far alone. *)
Lemma reify_fields_found prev fingerprint cs : ∀ src rows ir q n r,
  reify_fields api prev fingerprint cs src rows ir q n = Ok r →
  match r with
  | Next (src', ir', _, _) =>
      fields_found cs rows = true ∧ origin src' = origin src
      ∧ sources ir' = sources ir
  | Break (_, ir', _, _) =>
      fields_found cs rows = false ∧ sources ir' = sources ir
  end.
Proof.
  induction cs as [|token cs IH]; intros src rows ir q n r Hr; simpl in Hr.
  { by injection Hr as <-. }
  simpl. destruct (tokenIsField token); [|by apply IH in Hr].
  destruct rows as [|[ix f] rows]; simpl in Hr.
  { by apply bind_Ok in Hr as (err & _ & [= <-]). }
  destruct (JsString.truthy f); simpl in *.
  2: { by apply bind_Ok in Hr as (err & _ & [= <-]). }
  apply bind_Ok in Hr as ([varId selectedId] & _ & Hr).
  match type of Hr with
  | context [getVariable api ?a ?i ?v ?s ?m] =>
      pose proof (getVariable_sources api a i v s m) as Hsources;
      destruct (getVariable api a i v s m) as [[varId' ir1] n1]
  end.
  simpl in Hsources. apply IH in Hr.
  destruct r as [[[[src' ir'] ?] ?]|[[[? ir'] ?] ?]].
  - destruct Hr as (-> & -> & ->). split; [done|].
    split; [by destruct (default false _)|].
    rewrite <- Hsources. by destruct (value token).
  - destruct Hr as (-> & ->). split; [done|].
    rewrite <- Hsources. by destruct (value token).
Qed.

(** What a source line adds to the sources. *)
Lemma reify_source_partial prev line ir q n r :
  reify_source api prev line ir q n = Ok r →
  ∃ fp, fingerprintSource line = Ok fp
    ∧ match r with
      | Next (ir', _, _) =>
          (truthy_opt (ixer_view_fingerprint api fp) = false
           ∧ sources ir' = sources ir)
          ∨ (∃ src cs,
               ixer_view_fingerprint api fp = Some (sourceView src)
               ∧ JsString.truthy (sourceView src) = true
               ∧ s_lineIx src = lineIx line
               ∧ chunks line = Some cs
               ∧ fields_found cs (sort_by_ix (ixer_fingerprint_field api fp))
                 = true
               ∧ sources ir' = sources ir ++ [src])
      | Break (ir', _, _) =>
          truthy_opt (ixer_view_fingerprint api fp) = true
          ∧ (∃ cs, chunks line = Some cs
               ∧ fields_found cs (sort_by_ix (ixer_fingerprint_field api fp))
                 = false)
          ∧ sources ir' = sources ir
      end.
Proof.
  unfold reify_source. intros Hr.
  apply bind_Ok in Hr as (fp & Hfp & Hr). exists fp. split; [done|].
  destruct (negb (truthy_opt (ixer_view_fingerprint api fp))) eqn:Hview.
  { apply bind_Ok in Hr as (err & _ & [= <-]). left.
    by apply negb_true_iff in Hview. }
  apply negb_false_iff in Hview.
  destruct (ixer_view_fingerprint api fp) as [view|] eqn:Hv; [|done].
  simpl in Hview, Hr.
  apply bind_Ok in Hr as (cs & Hcs & Hr).
  assert (chunks line = Some cs) as Hchunks.
  { unfold chunks_of in Hcs. by destruct (chunks line); simplify_eq. }
  apply bind_Ok in Hr as (rf & Hfields & Hr).
  apply reify_fields_found in Hfields.
  destruct rf as [[[[src' ir1] q1] n1]|[[[? ir1] ?] ?]]; injection Hr as <-.
  - destruct Hfields as (Hfound & Horigin & Hsources). right.
    exists src', cs. injection Horigin as Hv' Hl.
    rewrite Hv', Hl. simpl. by rewrite Hsources.
  - destruct Hfields as [Hfound Hsources]. split; [done|].
    split; [by exists cs | done].
Qed.

Lemma reify_lines_partial prev lines : ∀ ir q n ir' q' n',
  reify_lines api prev lines ir q n = Ok (ir', q', n') →
  ∃ origins, (origin <$> sources ir') = (origin <$> sources ir) ++ origins
             ∧ partial_sources api lines origins.
Proof.
  induction lines as [|line lines IH]; intros ir q n ir' q' n' Hr;
    simpl in Hr.
  { injection Hr as <- <- <-. exists []. rewrite app_nil_r.
    split; [done | constructor]. }
  destruct (tokenIsSource line) eqn:Hsource.
  { apply bind_Ok in Hr as (r & Hsrc & Hr).
    apply reify_source_partial in Hsrc as (fp & Hfp & Hsrc).
    destruct r as [[[ir1 q1] n1]|[[ir1 q1] n1]].
    - apply IH in Hr as (origins & Heq & Hlines).
      destruct Hsrc as [[Hview Hsources]
                       |(src & cs & Hview & Ht & Hl & Hcs & Hfound & Hsources)].
      + exists origins. rewrite Heq, Hsources. split; [done|].
        by eapply unknown_line.
      + exists (origin src :: origins). rewrite Heq, Hsources, fmap_app.
        simpl. rewrite <- app_assoc. split; [done|].
        by eapply resolved_line.
    - injection Hr as <- <- <-.
      destruct Hsrc as (Hview & (cs & Hcs & Hfound) & Hsources).
      exists []. rewrite app_nil_r, Hsources. split; [done|].
      by eapply short_line. }
  destruct (tokenIsOrdinal line).
  { apply bind_Ok in Hr as ([[ir1 q1] n1] & Hord & Hr).
    apply reify_ordinal_origin in Hord.
    apply IH in Hr as (origins & Heq & Hlines).
    exists origins. rewrite Heq, Hord. split; [done|]. by constructor. }
  destruct (tokenIsAction line).
  { apply bind_Ok in Hr as (err & _ & Hr).
    apply IH in Hr as (origins & Heq & Hlines).
    exists origins. split; [done|]. by constructor. }
  apply IH in Hr as (origins & Heq & Hlines).
  exists origins. split; [done|]. by constructor.
Qed.


(** [reify], run on an instance without errors whose [reified] is unset,
    and ending with errors: [failed] holds the IR that the line loop has
    built. *)
Lemma Query_reify_with_errors (q q' : Query) (n n' : nat) :
  Query_reify api q n = Ok (q', n') →
  reified q = None → errors q = [] → errors q' ≠ [] →
  reified q' = None
  ∧ ∃ a cs ir q2,
      ast q = Some a ∧ chunks a = Some cs
      ∧ (let start := mkQueryIR (or_uuid api (ir_id <$> prev q) n).1 [] [] ∅ [] in
         reify_lines api (prev q) (reify_chunks cs) start
           (set_reified (Some start) q) (or_uuid api (ir_id <$> prev q) n).2
         = Ok (ir, q2, n'))
      ∧ failed q' = Some ir
      ∧ partial_sources api (reify_chunks cs) (origin <$> sources ir).
Proof.
  unfold Query_reify. intros Hr Hreified Hnone Hsome.
  destruct (ast q) as [a|]; [|by simplify_eq].
  rewrite Hreified in Hr.
  destruct (or_uuid _ _ _) as [id n1].
  apply bind_Ok in Hr as (cs & Hcs & Hr).
  apply bind_Ok in Hr as ([[ir q2] n2] & Hloop & Hr).
  assert (chunks a = Some cs) as Hchunks.
  { unfold chunks_of in Hcs. by destruct (chunks a); simplify_eq. }
  pose proof (reify_lines_partial _ _ _ _ _ _ _ _ Hloop) as (os & Hos & Hpart).
  destruct (errors q2) eqn:He; injection Hr as <- <-; simpl in *; [done|].
  split; [done|]. exists a, cs, ir, q2. by rewrite Hos.
Qed.

(** C2 (amended): when a parse of new text ends with a non-empty error list,
    [reified] is unset.  If the errors arose while the lines were parsed,
    [reify] is not run and [failed] is left as it was before the call; if the
    lines parsed cleanly and the errors arose during reification, [failed]
    holds the IR built so far: the IR that the line loop of [reify] has
    built when it ends, with one source for every source line that it has
    resolved.  In particular [foo $= (bar + )] parses cleanly -- its third
    chunk is not [$=], so it is classified as a source -- and, when the store
    has no view for the fingerprint [foo $= (bar + )], reification records
    "matches no known views", leaves [reified] unset and keeps an IR without
    sources in [failed]; and a known source line followed by an unknown one
    leaves the source of the first in [failed]. *)
Theorem errors_unset_reified (q q' : Query) (raw' : string)
    (n n' : nat) (r : Returned) :
  raw q ≠ Some raw' →
  Query_parse api q raw' n = Ok (q', n', r) →
  errors q' ≠ [] →
  (reified q' = None
   ∧ ∃ q1, Query_parse_lines (Query_parse_reset q raw') 0
             (JsText.split_lines raw') = Ok q1
       ∧ match errors q1 with
         | [] =>
             ∃ a cs ir q2,
               ast q1 = Some a ∧ chunks a = Some cs
               ∧ (let start :=
                    mkQueryIR (or_uuid api (ir_id <$> prev q1) n).1 [] [] ∅ []
                  in
                  reify_lines api (prev q1) (reify_chunks cs) start
                    (set_reified (Some start) q1)
                    (or_uuid api (ir_id <$> prev q1) n).2
                  = Ok (ir, q2, n'))
               ∧ failed q' = Some ir
               ∧ partial_sources api (reify_chunks cs) (origin <$> sources ir)
         | _ :: _ => q' = q1 ∧ failed q' = failed q
         end)
  ∧ (ixer_view_fingerprint api "foo $= (bar + )" = None →
     ∀ m, ∃ q2 e,
       Query_parse api (new_Query None) "foo $= (bar + )" m
         = Ok (q2, S m, ReturnsThis)
       ∧ errors q2 = [e]
       ∧ message e = "Fingerprint 'foo $= (bar + )' matches no known views."
       ∧ reified q2 = None
       ∧ failed q2 = Some (mkQueryIR (uuid api m) [] [] ∅ []))
  ∧ ∃ q2 n2 e ir s,
      Query_parse (H := lexeme_numbers) demo_api (new_Query None)
        (text_of ["age ?x"; "zzz"]) 0 = Ok (q2, n2, ReturnsThis)
      ∧ errors q2 = [e]
      ∧ message e = "Fingerprint 'zzz' matches no known views."
      ∧ reified q2 = None
      ∧ failed q2 = Some ir
      ∧ sources ir = [s]
      ∧ sourceView s = "V" ∧ s_lineIx s = Some 0
      ∧ (field <$> fields s) = ["F"]
      ∧ dict_get (aliases ir) "x" = Some "u2".
Proof.
  intros Hnew Hparse Herr. split; [|split].
  - unfold Query_parse in Hparse.
    rewrite bool_decide_eq_false_2 in Hparse by done.
    apply bind_Ok in Hparse as (q1 & Hlines & Hparse).
    apply bind_Ok in Hparse as ([q2 n2] & Hreify & [= <- <- <-]).
    pose proof (Query_parse_lines_frame _ _ _ _ Hlines)
      as (_ & Hreified & Hfailed & _).
    destruct (errors q1) as [|e es] eqn:He.
    + destruct (Query_reify_with_errors _ _ _ _ Hreify Hreified He Herr)
        as [? ?].
      split; [done|]. exists q1. by rewrite He.
    + injection Hreify as <- <-. split; [by rewrite Hreified|].
      exists q1. by rewrite He.
  - intros Hview m. destruct api as [views rows ids]; simpl in *.
    destruct (Query_parse _ (new_Query None) "foo $= (bar + )" m)
      as [[[q2 n2] r2]|e|] eqn:Hp;
      vm_compute in Hp; rewrite Hview in Hp; vm_compute in Hp;
      try discriminate Hp.
    injection Hp as <- <- <-.
    eexists _, _. split; [reflexivity|]. by vm_compute.
  - destruct (Query_parse (H := lexeme_numbers) demo_api (new_Query None)
                (text_of ["age ?x"; "zzz"]) 0) as [[[q2 n2] r2]|e|] eqn:Hp;
      vm_compute in Hp; try discriminate Hp.
    injection Hp as <- <- <-.
    eexists _, _, _, _, _. split; [reflexivity|]. by vm_compute.
Qed.

End FailedIR.

(** C2 (as the spec states it, refuted): the text of one unterminated
    literal ends the parse pass with an error, and [failed] is left unset:
    nothing of the partial structure is kept. *)
Lemma parse_error_leaves_failed_unset :
  ∃ q' n' r,
    Query_parse (H := lexeme_numbers) demo_api (new_Query None) "`abc" 0
      = Ok (q', n', r)
    ∧ (message <$> errors q') = ["Unterminated quoted literal."]
    ∧ reified q' = None
    ∧ failed q' = None.
Proof.
  destruct (Query_parse (H := lexeme_numbers) demo_api (new_Query None)
              "`abc" 0) as [[[q' n'] r]|e|] eqn:Hp;
    vm_compute in Hp; try discriminate Hp.
  injection Hp as <- <- <-. eexists _, _, _. split; [reflexivity|].
  by vm_compute.
Qed.

Lemma errors_unset_reified_witness :
  ∃ q', Query_parse (H := lexeme_numbers) demo_api (new_Query None) "zzz" 0
          = Ok (q', 1, ReturnsThis)
    ∧ reified q' = None ∧ ∃ ir, failed q' = Some ir.
Proof.
  destruct (Query_parse (H := lexeme_numbers) demo_api (new_Query None)
              "zzz" 0) as [[[q' n'] r]|e|] eqn:Hp.
  2, 3: vm_compute in Hp; discriminate Hp.
  assert (n' = 1 ∧ r = ReturnsThis ∧ errors q' ≠ []) as (-> & -> & Herr).
  { vm_compute in Hp. injection Hp as <- <- <-. by vm_compute. }
  exists q'. split; [reflexivity|].
  destruct (errors_unset_reified (H := lexeme_numbers) demo_api
              (new_Query None) q' "zzz" 0 1 ReturnsThis)
    as [[Hr (q1 & Hq1 & Hfailed)] _]; [discriminate | exact Hp | exact Herr |].
  split; [exact Hr|].
  vm_compute in Hq1. injection Hq1 as <-. simpl in Hfailed.
  destruct Hfailed as (a & cs & ir & q2 & _ & _ & _ & Hf & _). by exists ir.
Defined.

(* ------------------------------------------------------------------------- *)
(** ** What the loops of [Ui.parse] and [Ui.reify] leave alone *)
(* ------------------------------------------------------------------------- *)

Section UiFrame.
Context `{JsNumber}.

Lemma ui_same_refl (ui : Ui) : ui_same_outside_ast ui ui.
Proof. by repeat split. Qed.

Lemma ui_same_trans (u1 u2 u3 : Ui) :
  ui_same_outside_ast u1 u2 → ui_same_outside_ast u2 u3 →
  ui_same_outside_ast u1 u3.
Proof.
  intros (? & ? & ? & ? & ? & ?) (? & ? & ? & ? & ? & ?).
  repeat split; try congruence. auto.
Qed.

Lemma set_ui_chunks_frame (cs : list Token) (ui ui' : Ui) :
  set_ui_chunks cs ui = Ok ui' → ui_same_outside_ast ui ui'.
Proof.
  unfold set_ui_chunks. destruct (u_ast ui); [|done].
  intros [= <-]. by repeat split.
Qed.

Lemma ui_push_chunk_frame (c : Token) (ui ui' : Ui) :
  ui_push_chunk c ui = Ok ui' → ui_same_outside_ast ui ui'.
Proof.
  unfold ui_push_chunk. intros Hp.
  apply bind_Ok in Hp as (cs & _ & Hp). by eapply set_ui_chunks_frame.
Qed.

Lemma ui_push_error_frame (e : Error) (ui : Ui) :
  ui_same_outside_ast ui (ui_push_error e ui).
Proof. by repeat split. Qed.

Lemma ui_fail_frame (ui ui' : Ui) msg token :
  ui_fail ui msg token = Ok ui' → ui_same_outside_ast ui ui'.
Proof.
  unfold ui_fail. intros Hp. apply bind_Ok in Hp as (e & _ & [= <-]).
  apply ui_push_error_frame.
Qed.

Create HintDb ui_frame.
Hint Resolve ui_same_refl ui_push_error_frame : ui_frame.
Hint Extern 1 (ui_same_outside_ast _ _) =>
  (eapply ui_fail_frame; eassumption) : ui_frame.
Hint Extern 1 (ui_same_outside_ast _ _) =>
  (eapply ui_push_chunk_frame; eassumption) : ui_frame.
Hint Extern 1 (ui_same_outside_ast _ _) =>
  (eapply set_ui_chunks_frame; eassumption) : ui_frame.

Lemma Ui_parse_attribute_frame (ui ui' : Ui) line tokens len :
  Ui_parse_attribute ui line tokens len = Ok ui' → ui_same_outside_ast ui ui'.
Proof.
  unfold Ui_parse_attribute. intros Hp.
  invert_result; eauto with ui_frame.
Qed.

Lemma Ui_parse_binding_frame (ui ui' : Ui) line tokens :
  Ui_parse_binding ui line tokens = Ok ui' → ui_same_outside_ast ui ui'.
Proof.
  unfold Ui_parse_binding. intros Hp.
  invert_result; eauto with ui_frame.
Qed.

Lemma Ui_parse_event_frame (ui ui' : Ui) line tokens len :
  Ui_parse_event ui line tokens len = Ok ui' → ui_same_outside_ast ui ui'.
Proof.
  unfold Ui_parse_event. intros Hp.
  invert_result; eauto with ui_frame.
Qed.

Lemma Ui_parse_element_frame (ui ui' : Ui) line head tokens :
  Ui_parse_element ui line head tokens = Ok ui' → ui_same_outside_ast ui ui'.
Proof.
  unfold Ui_parse_element. intros Hp.
  invert_result; eauto with ui_frame.
Qed.

Lemma Ui_parse_line_frame (ui ui' : Ui) k rawLine :
  Ui_parse_line ui k rawLine = Ok ui' → ui_same_outside_ast ui ui'.
Proof.
  unfold Ui_parse_line. intros Hp.
  apply bind_Ok in Hp as (tokens & _ & Hp).
  apply bind_Ok in Hp as ([consumed rest] & _ & Hp).
  eapply (ui_same_trans _ (set_u_lineIx (Some (Z.of_nat k)) ui));
    [by repeat split|].
  destruct rest as [|head rest]; [eauto with ui_frame|].
  repeat case_match;
    eauto using Ui_parse_attribute_frame, Ui_parse_binding_frame,
      Ui_parse_event_frame, Ui_parse_element_frame with ui_frame.
Qed.

Lemma Ui_parse_lines_frame lines : ∀ (ui ui' : Ui) k,
  Ui_parse_lines ui k lines = Ok ui' → ui_same_outside_ast ui ui'.
Proof.
  induction lines as [|line lines IH]; intros ui ui' k Hp; simpl in Hp.
  - injection Hp as <-. apply ui_same_refl.
  - apply bind_Ok in Hp as (u1 & H1 & Hp).
    eapply ui_same_trans; [by eapply Ui_parse_line_frame | by eapply IH].
Qed.

Lemma more_errors_refl (ui : Ui) : more_errors ui ui.
Proof. exists []. rewrite app_nil_r. by destruct ui. Qed.

Lemma more_errors_trans (u1 u2 u3 : Ui) :
  more_errors u1 u2 → more_errors u2 u3 → more_errors u1 u3.
Proof.
  intros [es ->] [es' ->]. exists (es ++ es'). simpl.
  by rewrite app_assoc.
Qed.

Lemma rs_fail_errors (st st' : ReifyState) msg token :
  rs_fail st msg token = Ok st' →
  more_errors (rs_ui st) (rs_ui st')
  ∧ rs_ir st' = rs_ir st ∧ rs_indent st' = rs_indent st
  ∧ rs_childCount st' = rs_childCount st
  ∧ rs_ancestors st' = rs_ancestors st ∧ rs_next st' = rs_next st
  ∧ u_errors (rs_ui st') ≠ [].
Proof.
  unfold rs_fail. intros Hp. apply bind_Ok in Hp as (e & _ & [= <-]).
  simpl. split; [by exists [e]|]. repeat split.
  by destruct (u_errors (rs_ui st)).
Qed.

End UiFrame.

Section UiReifyFrame.
Context `{JsNumber}.
Context (api : Api).

Lemma same_structure_refl (st : ReifyState) : same_structure st st.
Proof. split; [apply more_errors_refl | done]. Qed.

Lemma same_structure_trans (s1 s2 s3 : ReifyState) :
  same_structure s1 s2 → same_structure s2 s3 → same_structure s1 s3.
Proof.
  intros (? & ? & ? & ? & ? & ?) (? & ? & ? & ? & ? & ?).
  split; [by eapply more_errors_trans|]. repeat split; congruence.
Qed.

Lemma rs_fail_structure (st st' : ReifyState) msg token :
  rs_fail st msg token = Ok st' → same_structure st st'.
Proof.
  intros Hf. apply rs_fail_errors in Hf as (? & Hir & ? & ? & ? & _).
  split; [done|]. by rewrite Hir.
Qed.

Lemma alter_link (f : ElementIR → ElementIR) (i : nat) (l : list ElementIR) :
  (∀ e, link (f e) = link e) → link <$> alter f i l = link <$> l.
Proof.
  intros Hf. revert i; induction l as [|e l IH]; intros [|i]; csimpl;
    try done.
  - by rewrite Hf.
  - f_equal. apply IH.
Qed.

(** A write that changes neither identifier leaves every link as it was. *)
Lemma update_link (p : Ref) (f : ElementIR → ElementIR) (ir : UiIR) :
  (∀ e, link (f e) = link e) →
  link (root (update p f ir)) = link (root ir)
  ∧ link <$> elements (update p f ir) = link <$> elements ir.
Proof.
  intros Hf. destruct p as [|i]; simpl; [by rewrite Hf|].
  by rewrite alter_link.
Qed.

Lemma rs_with_ir_structure (st : ReifyState) (p : Ref)
    (f : ElementIR → ElementIR) :
  (∀ e, link (f e) = link e) →
  same_structure st (rs_with_ir (update p f (rs_ir st)) st).
Proof.
  intros Hf. destruct (update_link p f (rs_ir st) Hf) as [? ?].
  split; [apply more_errors_refl | done].
Qed.

Lemma join_scopes_structure query outer keys : ∀ joined flag st joined' flag' st',
  join_scopes query outer keys joined flag st = Ok (joined', flag', st') →
  same_structure st st' ∧ rs_ir st' = rs_ir st ∧ rs_next st' = rs_next st.
Proof.
  induction keys as [|alias keys IH]; intros joined flag st joined' flag' st' Hj;
    simpl in Hj.
  - injection Hj as <- <- <-. split; [apply same_structure_refl | done].
  - apply bind_Ok in Hj as (scoped & _ & Hj).
    apply bind_Ok in Hj as (sel & _ & Hj).
    destruct (negb (truthy_opt scoped)); [by eapply IH|].
    destruct (negb (truthy_opt sel)); [|by eapply IH].
    apply bind_Ok in Hj as (st1 & Hfail & Hj).
    apply IH in Hj as (Hs & Hir & Hn).
    pose proof (rs_fail_structure _ _ _ _ Hfail) as Hs1.
    apply rs_fail_errors in Hfail as (_ & Hir1 & _ & _ & _ & Hn1 & _).
    split; [by eapply same_structure_trans|]. split; congruence.
Qed.

Lemma reify_binding_structure line parentElem (st st' : ReifyState) :
  reify_binding api line parentElem st = Ok st' → same_structure st st'.
Proof.
  unfold reify_binding. intros Hb.
  destruct parentElem as [p|]; [|by eapply rs_fail_structure].
  apply bind_Ok in Hb as ([[query n] returned] & _ & Hb).
  destruct returned; [|done].
  destruct (reified query) as [qir|]; [|done].
  apply bind_Ok in Hb as ([[joined flag] st1] & Hj & Hb).
  apply join_scopes_structure in Hj as [Hs _].
  assert (same_structure st st1) as Hst1.
  { eapply same_structure_trans; [|exact Hs].
    destruct (update_link p (set_boundView (q_id query))
                (set_boundQueries
                   (<[printed (q_id query) := query]> (boundQueries (rs_ir st)))
                   (rs_ir st))) as [? ?]; [done|].
    split; [apply more_errors_refl | done]. }
  destruct flag; injection Hb as <-; [|done].
  eapply same_structure_trans; [exact Hst1|].
  by apply rs_with_ir_structure.
Qed.

Lemma reify_attribute_structure line parentElem (st st' : ReifyState) :
  tokenIsAttribute line = true → overrides line = false →
  reify_attribute line parentElem st = Ok st' → same_structure st st'.
Proof.
  unfold reify_attribute, overrides. intros -> Hno Ha. simpl in Hno.
  destruct parentElem as [p|]; [|by eapply rs_fail_structure].
  destruct (default false (static line)); simpl in Hno.
  - apply orb_false_iff in Hno as [Hparent Hid].
    rewrite Hparent, Hid in Ha.
    apply bind_Ok in Ha as (v & _ & [= <-]).
    by apply rs_with_ir_structure.
  - apply bind_Ok in Ha as (v & _ & Ha).
    apply bind_Ok in Ha as (bound & _ & Ha).
    apply bind_Ok in Ha as (parent & _ & Ha).
    match type of Ha with
    | (if _ then rs_fail ?s _ _ else _) = _ =>
        assert (same_structure st s) as Hs
          by (by apply rs_with_ir_structure)
    end.
    destruct (negb (resolved _ _)).
    + eapply same_structure_trans; [exact Hs | by eapply rs_fail_structure].
    + by injection Ha as <-.
Qed.

Lemma reify_event_structure line parentElem (st st' : ReifyState) :
  reify_event line parentElem st = Ok st' → same_structure st st'.
Proof.
  unfold reify_event. intros He.
  destruct parentElem as [p|]; [|done].
  destruct (key line) as [k|].
  - apply bind_Ok in He as (bound & _ & He).
    apply bind_Ok in He as (parent & _ & He).
    match type of He with
    | (if _ then rs_fail ?s _ _ else _) = _ =>
        assert (same_structure st s) as Hs
          by (by apply rs_with_ir_structure)
    end.
    destruct (negb (resolved _ _)).
    + eapply same_structure_trans; [exact Hs | by eapply rs_fail_structure].
    + by injection He as <-.
  - injection He as <-. by apply rs_with_ir_structure.
Qed.

End UiReifyFrame.

(* ------------------------------------------------------------------------- *)
(** ** The element tree that [Ui.reify] builds *)
(* ------------------------------------------------------------------------- *)

Section TreeLemmas.
Context `{JsNumber}.

Lemma element_lines_from_app (p q : list Token) : ∀ i,
  element_lines_from i (p ++ q)
  = element_lines_from i p ++ element_lines_from (i + length p) q.
Proof.
  induction p as [|l p IH]; intros i; simpl.
  - by rewrite Nat.add_0_r.
  - rewrite IH, <- Nat.add_succ_comm. by destruct (tokenIsElement l).
Qed.

(** The next line adds its position when it is an element line. *)
Lemma element_lines_step (cs : list Token) (pos : nat) (line : Token) :
  cs !! pos = Some line →
  element_lines (take (S pos) cs)
  = element_lines (take pos cs)
    ++ (if tokenIsElement line then [pos] else []).
Proof.
  intros Hl. rewrite (take_S_r _ _ _ Hl). unfold element_lines.
  rewrite element_lines_from_app. simpl.
  rewrite length_take_le by (apply lookup_lt_Some in Hl; lia).
  by destruct (tokenIsElement line).
Qed.

Lemma element_lines_from_bounds (cs : list Token) : ∀ i k j,
  element_lines_from i cs !! k = Some j →
  i + k ≤ j < i + length cs
  ∧ ∃ line, cs !! (j - i) = Some line ∧ tokenIsElement line = true.
Proof.
  induction cs as [|l cs IH]; intros i k j Hk; simpl in *; [done|].
  destruct (tokenIsElement l) eqn:Hl.
  - destruct k as [|k]; simpl in Hk.
    + injection Hk as <-. split; [lia|]. exists l. by rewrite Nat.sub_diag.
    + apply IH in Hk as (? & line & Hline & ?). split; [lia|].
      exists line. split; [|done].
      by replace (j - i) with (S (j - S i)) by lia.
  - apply IH in Hk as (? & line & Hline & ?). split; [lia|].
    exists line. split; [|done].
    by replace (j - i) with (S (j - S i)) by lia.
Qed.

(** Every element line has its number. *)
Lemma element_lines_from_complete (cs : list Token) : ∀ i j line,
  cs !! j = Some line → tokenIsElement line = true →
  ∃ k, element_lines_from i cs !! k = Some (i + j).
Proof.
  induction cs as [|l cs IH]; intros i j line Hj Hl; [done|].
  destruct j as [|j]; simpl in *.
  - injection Hj as ->. rewrite Hl. exists 0. by rewrite Nat.add_0_r.
  - destruct (IH (S i) j line Hj Hl) as [k Hk].
    rewrite <- Nat.add_succ_comm.
    destruct (tokenIsElement l); [by exists (S k) | by exists k].
Qed.

(** The numbering goes up with the positions. *)
Lemma element_lines_from_mono (cs : list Token) : ∀ i k1 k2 j1 j2,
  element_lines_from i cs !! k1 = Some j1 →
  element_lines_from i cs !! k2 = Some j2 →
  k1 < k2 → j1 < j2.
Proof.
  induction cs as [|l cs IH]; intros i k1 k2 j1 j2 H1 H2 Hlt; simpl in *;
    [done|].
  destruct (tokenIsElement l); [|by eapply IH].
  destruct k2 as [|k2]; [lia|]. simpl in H2.
  destruct k1 as [|k1]; simpl in H1.
  - injection H1 as <-. apply element_lines_from_bounds in H2. lia.
  - eapply IH; [done..|lia].
Qed.

Lemma element_lines_lt (cs : list Token) (pos k j : nat) :
  element_lines (take pos cs) !! k = Some j → j < pos ∧ j < length cs.
Proof.
  intros Hk. apply element_lines_from_bounds in Hk as [Hb _].
  rewrite length_take in Hb. lia.
Qed.

Lemma element_lines_inj (cs : list Token) (k1 k2 j : nat) :
  element_lines cs !! k1 = Some j → element_lines cs !! k2 = Some j → k1 = k2.
Proof.
  intros H1 H2. destruct (Nat.lt_trichotomy k1 k2) as [Hlt|[->|Hlt]]; [|done|].
  - pose proof (element_lines_from_mono _ _ _ _ _ _ H1 H2 Hlt). lia.
  - pose proof (element_lines_from_mono _ _ _ _ _ _ H2 H1 Hlt). lia.
Qed.

(** An open element line before [pos] has a number among the first [pos]
    lines. *)
Lemma still_open_numbered (cs : list Token) (j pos : nat) :
  still_open cs j pos → pos ≤ length cs →
  ∃ k, element_lines (take pos cs) !! k = Some j.
Proof.
  intros (Hlt & (line & Hj & Hl) & _) Hpos.
  destruct (element_lines_from_complete (take pos cs) 0 j line) as [k Hk];
    [by rewrite lookup_take_lt | done | by exists k].
Qed.

(** Going one line further: an open line stays open if the new line is
    skipped or indented deeper. *)
Lemma still_open_step (cs : list Token) (j pos : nat) (line : Token) :
  cs !! pos = Some line → j < pos →
  still_open cs j (S pos)
  ↔ still_open cs j pos
    ∧ (significant line = true → line_depth cs j < line_depth cs pos).
Proof.
  intros Hline Hj. split.
  - intros (_ & He & Hopen). split.
    + split; [done|]. split; [done|].
      intros m lm Hm. apply Hopen. lia.
    + intros Hs. by apply (Hopen pos line); [lia|..].
  - intros [(_ & He & Hopen) Hnew]. split; [lia|]. split; [done|].
    intros m lm Hm Hlm Hs. destruct (decide (m = pos)) as [->|].
    + rewrite Hline in Hlm. injection Hlm as <-. by apply Hnew.
    + apply (Hopen m lm); [lia | done..].
Qed.

Lemma still_open_self (cs : list Token) (pos : nat) (line : Token) :
  cs !! pos = Some line → tokenIsElement line = true →
  still_open cs pos (S pos).
Proof.
  intros Hline He. split; [lia|]. split; [by exists line|].
  intros m lm Hm. lia.
Qed.

(** The [while] loop pops the elements that are not indented less than the
    line, and stops at the first that is, or at the root. *)
Lemma pop_ancestors_spec (ir : UiIR) (indent : gmap string (option Z))
    (dep : nat → nat) (d : nat) (ks : list nat) :
  indent !! key_of (element (root ir)) = Some (Some (-1)%Z) →
  (∀ k, k ∈ ks → ∃ e, elements ir !! k = Some e
     ∧ indent !! key_of (element e) = Some (Some (Z.of_nat (dep k)))) →
  ∀ parentElem, ∃ top popped ks',
    pop_ancestors ir indent (Some d) parentElem ((ElemRef <$> ks) ++ [RootRef])
    = Ok (Some top, (ElemRef <$> ks') ++ [RootRef])
    ∧ ks = popped ++ ks'
    ∧ Forall (λ k, d ≤ dep k) popped
    ∧ match ks' with
      | k :: _ => dep k < d ∧ top = ElemRef k
      | [] => top = RootRef
      end.
Proof.
  intros Hroot. induction ks as [|k ks IH]; intros Hks parentElem.
  - exists RootRef, [], []. simpl.
    unfold indent_below. rewrite Hroot. simpl.
    assert ((-1 <? Z.of_nat d)%Z = true) as -> by (apply Z.ltb_lt; lia).
    done.
  - destruct (Hks k) as (e & He & Hind); [by left|].
    simpl. unfold get at 1. simpl. rewrite He. simpl.
    unfold indent_below at 1. rewrite Hind. simpl.
    destruct (Z.of_nat (dep k) <? Z.of_nat d)%Z eqn:Hlt.
    + exists (ElemRef k), [], (k :: ks). simpl. repeat split; [done|].
      apply Z.ltb_lt in Hlt. lia.
    + destruct (IH (λ k' Hk', Hks k' (list_elem_of_further _ _ _ Hk'))
                  (Some (ElemRef k)))
        as (top & popped & ks' & Hpop & Heq & Hall & Htop).
      exists top, (k :: popped), ks'.
      split; [exact Hpop|]. split; [by rewrite Heq|]. split; [|done].
      constructor; [|done]. apply Z.ltb_ge in Hlt. lia.
Qed.

(** What the element branch does to the shape of the tree. *)
Lemma reify_element_spec (api : Api) prev line parentElem (st st' : ReifyState) :
  reify_element api prev line parentElem st = Ok st' →
  ∃ top pe elemId,
    parentElem = Some top ∧ get (rs_ir st) top = Ok pe
    ∧ link <$> elements (rs_ir st')
      = (link <$> elements (rs_ir st)) ++ [(elemId, element pe)]
    ∧ root (rs_ir st') = root (rs_ir st)
    ∧ rs_indent st'
      = put (key_of elemId) (Z.of_nat <$> indent line) (rs_indent st)
    ∧ rs_childCount st'
      = put (key_of elemId) (Some 0)
          (put (key_of (element pe))
             (S <$> mjoin (rs_childCount st !! key_of (element pe)))
             (rs_childCount st))
    ∧ rs_ancestors st'
      = ElemRef (length (elements (rs_ir st))) :: rs_ancestors st
    ∧ rs_ui st' = rs_ui st.
Proof.
  unfold reify_element. intros Hr.
  destruct parentElem as [top|]; [|done].
  apply bind_Ok in Hr as (pe & Hpe & Hr).
  destruct (match prev ≫= _ with Some _ => _ | None => _ end) as [elemId n].
  injection Hr as <-. simpl.
  exists top, pe, elemId. repeat split; [done|].
  rewrite fmap_app. simpl. f_equal. unfold link.
  by repeat case_match.
Qed.

(** What a static [id] attribute does: it renames the element the line
    belongs to, which has no child yet as far as [childCount] tells, and
    copies its entries in the two dictionaries. *)
Lemma reify_rename_spec line parentElem (st st' : ReifyState) :
  sets_id line = true →
  reify_attribute line parentElem st = Ok st' →
  match parentElem with
  | None => same_structure st st'
  | Some top =>
      ∃ pe v,
        get (rs_ir st) top = Ok pe
        ∧ has_children (rs_childCount st) (key_of (element pe)) = false
        ∧ st' = mkReifyState
                  (update top (set_element (value v)) (rs_ir st))
                  (put (key_of (value v))
                     (mjoin (rs_indent st !! key_of (element pe)))
                     (rs_indent st))
                  (put (key_of (value v))
                     (mjoin (rs_childCount st !! key_of (element pe)))
                     (rs_childCount st))
                  (rs_ancestors st) (rs_ui st) (rs_next st)
  end.
Proof.
  unfold sets_id, reify_attribute.
  intros (((_ & Hstatic)%andb_true_iff & Hnp%negb_true_iff)%andb_true_iff
          & Hid)%andb_true_iff Ha.
  destruct parentElem as [top|]; [|by eapply rs_fail_structure].
  rewrite Hstatic, Hnp, Hid in Ha.
  apply bind_Ok in Ha as (pe & Hpe & Ha).
  destruct (has_children _ _) eqn:Hc.
  { by apply bind_Ok in Ha as (? & _ & ?). }
  apply bind_Ok in Ha as (v & _ & [= <-]).
  by exists pe, v.
Qed.

(** A turn of the loop, on a line that overrides no identifier: the line
    is skipped, or it closes ancestors and then either makes an element or
    leaves the shape of the tree alone. *)
Lemma Ui_reify_line_cases (api : Api) prev line (st st' : ReifyState) :
  overrides line = false →
  Ui_reify_line api prev line st = Ok st' →
  (significant line = false ∧ st' = st)
  ∨ (significant line = true
     ∧ ∃ parentElem ancestors,
         pop_ancestors (rs_ir st) (rs_indent st) (indent line) None
           (rs_ancestors st) = Ok (parentElem, ancestors)
         ∧ if tokenIsElement line
           then reify_element api prev line parentElem
                  (popped_state st ancestors) = Ok st'
           else same_structure (popped_state st ancestors) st').
Proof.
  unfold Ui_reify_line, significant. intros Hno Hr.
  destruct (tokenIsComment line || tokenIsText line); simpl.
  { left. split; [done|]. by injection Hr. }
  right. split; [done|].
  apply bind_Ok in Hr as ([parentElem ancestors] & Hpop & Hr).
  exists parentElem, ancestors. split; [done|]. fold (popped_state st ancestors) in Hr.
  destruct (tokenIsElement line); [done|].
  destruct (tokenIsBinding line); [by eapply reify_binding_structure|].
  destruct (tokenIsAttribute line) eqn:Ha;
    [by eapply reify_attribute_structure|].
  destruct (tokenIsEvent line); [by eapply reify_event_structure|].
  injection Hr as <-. apply same_structure_refl.
Qed.

(** The same for a line that writes no parent link: it can also rename the
    element it belongs to. *)
Lemma Ui_reify_line_tree_cases (api : Api) prev line (st st' : ReifyState) :
  sets_parent line = false →
  Ui_reify_line api prev line st = Ok st' →
  (significant line = false ∧ st' = st)
  ∨ (significant line = true
     ∧ ∃ parentElem ancestors,
         pop_ancestors (rs_ir st) (rs_indent st) (indent line) None
           (rs_ancestors st) = Ok (parentElem, ancestors)
         ∧ if tokenIsElement line
           then reify_element api prev line parentElem
                  (popped_state st ancestors) = Ok st'
           else if sets_id line
           then reify_attribute line parentElem (popped_state st ancestors)
                = Ok st'
           else same_structure (popped_state st ancestors) st').
Proof.
  intros Hnp Hr. destruct (sets_id line) eqn:Hid.
  - unfold Ui_reify_line, significant in *.
    assert (tokenIsAttribute line = true) as Ha.
    { unfold sets_id in Hid. by destruct (tokenIsAttribute line). }
    assert (tokenIsComment line || tokenIsText line = false
            ∧ tokenIsElement line = false ∧ tokenIsBinding line = false)
      as (Hs & He & Hb).
    { revert Ha. unfold tokenIsAttribute, tokenIsComment, tokenIsText,
        tokenIsElement, tokenIsBinding. by intros ->%String.eqb_eq. }
    rewrite Hs in *. right. split; [done|].
    apply bind_Ok in Hr as ([parentElem ancestors] & Hpop & Hr).
    exists parentElem, ancestors. split; [done|].
    by rewrite He, Hb, Ha in *.
  - assert (overrides line = false) as Hno.
    { unfold overrides, sets_parent, sets_id in *.
      destruct (tokenIsAttribute line), (default false (static line)),
        (bool_decide (property line = Some "parent")); simpl in *; done. }
    destruct (Ui_reify_line_cases _ _ _ _ _ Hno Hr)
      as [?|(? & parentElem & ancestors & ? & ?)]; [by left|].
    right. split; [done|]. exists parentElem, ancestors. split; [done|].
    by destruct (tokenIsElement line).
Qed.

End TreeLemmas.

(* ------------------------------------------------------------------------- *)
(** ** Lines that override no identifier only add elements *)
(* ------------------------------------------------------------------------- *)

Section TreeLinks.
Context `{JsNumber}.
Context (api : Api).



End TreeLinks.


(* ------------------------------------------------------------------------- *)
(** ** One turn of the loop of [Ui.reify] keeps the tree invariant *)
(* ------------------------------------------------------------------------- *)

Section TreeStep.
Context `{JsNumber}.

Lemma tokenIsElement_significant (line : Token) :
  tokenIsElement line = true → significant line = true.
Proof.
  unfold tokenIsElement, significant, tokenIsComment, tokenIsText.
  intros ->%String.eqb_eq. done.
Qed.

Lemma open_depth_mono (cs : list Token) (j1 j2 pos : nat) :
  still_open cs j1 pos → still_open cs j2 pos → j1 < j2 →
  line_depth cs j1 < line_depth cs j2.
Proof.
  intros (_ & _ & Hopen) (Hlt & (line & Hline & He) & _) H12.
  apply (Hopen j2 line); [lia | done | by apply tokenIsElement_significant].
Qed.

(** The stack after the pop: the open elements that are indented less than
    the line. *)
Lemma popped_stack (cs : list Token) (pos d : nat) (line : Token)
    (lines : list nat) (ks popped ks' : list nat) :
  cs !! pos = Some line → significant line = true → indent line = Some d →
  (∀ k j, lines !! k = Some j → j < pos) →
  (∀ k1 k2 j1 j2, lines !! k1 = Some j1 → lines !! k2 = Some j2 → k1 < k2 → j1 < j2) →
  StronglySorted gt ks →
  (∀ k, k ∈ ks ↔ ∃ j, lines !! k = Some j ∧ still_open cs j pos) →
  ks = popped ++ ks' →
  Forall (λ k, d ≤ line_depth cs (default 0 (lines !! k))) popped →
  match ks' with
  | k :: _ => line_depth cs (default 0 (lines !! k)) < d
  | [] => True
  end →
  StronglySorted gt ks'
  ∧ ∀ k, k ∈ ks' ↔ ∃ j, lines !! k = Some j ∧ still_open cs j (S pos).
Proof.
  intros Hline Hsig Hd Hlt Hmono Hsorted Hmem -> Hpopped Htop.
  assert (line_depth cs pos = d) as Hdepth
    by (unfold line_depth; by rewrite Hline; simpl; rewrite Hd).
  split; [by apply StronglySorted_app_1_r in Hsorted|].
  assert (∀ k, k ∈ ks' → line_depth cs (default 0 (lines !! k)) < d) as Hless.
  { destruct ks' as [|k0 ks']; [by intros k ?%elem_of_nil|].
    intros k [->|Hk]%elem_of_cons; [done|].
    apply StronglySorted_app_1_r in Hsorted.
    apply StronglySorted_inv in Hsorted as [_ Hall].
    rewrite Forall_forall in Hall. specialize (Hall k Hk).
    destruct (proj1 (Hmem k)) as (j & Hj & Hopen);
      [apply elem_of_app; right; by right|].
    destruct (proj1 (Hmem k0)) as (j0 & Hj0 & Hopen0);
      [apply elem_of_app; right; by left|].
    rewrite Hj0 in Htop. rewrite Hj. simpl in *.
    pose proof (Hmono _ _ _ _ Hj Hj0 Hall).
    pose proof (open_depth_mono _ _ _ _ Hopen Hopen0). lia. }
  intros k. split.
  - intros Hk. destruct (proj1 (Hmem k)) as (j & Hj & Hopen);
      [apply elem_of_app; by right|].
    exists j. split; [done|].
    apply (still_open_step cs j pos line); [done | by eapply Hlt |].
    split; [done|]. intros _. specialize (Hless k Hk).
    rewrite Hj in Hless. simpl in Hless. lia.
  - intros (j & Hj & Hopen).
    apply (still_open_step cs j pos line) in Hopen as [Hopen Hdeeper];
      [|done | by eapply Hlt].
    specialize (Hdeeper Hsig).
    assert (k ∈ popped ++ ks') as [Hk|Hk]%elem_of_app
      by (apply Hmem; by exists j); [|done].
    rewrite Forall_forall in Hpopped. specialize (Hpopped k Hk).
    rewrite Hj in Hpopped. simpl in Hpopped. lia.
Qed.

Lemma keys_ids links (rootId : option Scalar) :
  keys links rootId = key_of <$> ids links rootId.
Proof. unfold keys, ids. simpl. f_equal. by rewrite <- list_fmap_compose. Qed.

Lemma ids_snoc links (x : option Scalar * option Scalar) rootId :
  ids (links ++ [x]) rootId = ids links rootId ++ [x.1].
Proof. unfold ids. by rewrite fmap_app. Qed.

Lemma ids_length links (rootId : option Scalar) :
  length (ids links rootId) = S (length links).
Proof. unfold ids. simpl. by rewrite length_fmap. Qed.

Lemma put_ordinary {V : Type} (key : string) (v : V) (d : gmap string V) :
  key ≠ "__proto__" → put key v d = <[key := v]> d.
Proof.
  intros Hk%String.eqb_neq. unfold put, settable. rewrite Hk.
  by rewrite orb_true_r.
Qed.

(** Identifiers at different places make different keys. *)
Lemma distinct_keys (I : list (option Scalar)) (i j : nat) (a b : option Scalar) :
  NoDup (key_of <$> I) → I !! i = Some a → I !! j = Some b → i ≠ j →
  key_of a ≠ key_of b.
Proof.
  intros Hnd Hi Hj Hij Heq. apply Hij.
  apply (NoDup_lookup _ i j (key_of a) Hnd).
  - by rewrite list_lookup_fmap, Hi.
  - by rewrite list_lookup_fmap, Hj, Heq.
Qed.

Lemma ids_get (ir : UiIR) (top : Ref) (pe : ElementIR) :
  get ir top = Ok pe →
  ids (link <$> elements ir) (element (root ir)) !! ref_pos top
  = Some (element pe).
Proof.
  unfold get, ids. destruct top as [|k]; simpl.
  - by intros [= <-].
  - rewrite !list_lookup_fmap. destruct (elements ir !! k); [|done].
    by intros [= <-].
Qed.

(** A renaming writes one identifier and no parent link. *)
Lemma ids_rename (ir : UiIR) (top : Ref) (new : option Scalar) :
  let ir' := update top (set_element new) ir in
  ids (link <$> elements ir') (element (root ir'))
  = <[ref_pos top := new]> (ids (link <$> elements ir) (element (root ir)))
  ∧ (link <$> elements ir').*2 = (link <$> elements ir).*2
  ∧ link <$> elements ir'
    = match top with
      | RootRef => link <$> elements ir
      | ElemRef k => alter (λ l, (new, l.2)) k (link <$> elements ir)
      end.
Proof.
  unfold ids. destruct top as [|k]; simpl; [done|].
  assert (link <$> alter (set_element new) k (elements ir)
          = alter (λ l, (new, l.2)) k (link <$> elements ir)) as ->.
  { revert k. induction (elements ir) as [|e es IH]; intros [|k]; csimpl;
      try done. f_equal. apply IH. }
  split; [|split; [|done]].
  - f_equal. revert k.
    induction (link <$> elements ir) as [|e es IH]; intros [|k]; csimpl;
      try done. f_equal. apply IH.
  - revert k.
    induction (link <$> elements ir) as [|e es IH]; intros [|k]; csimpl;
      try done. f_equal. apply IH.
Qed.

(** An element line keeps the invariant. *)
Lemma tree_invariant_element (api : Api) prev cs pos line d
    (st st' : ReifyState) (ks popped ks' : list nat) (top : Ref) :
  cs !! pos = Some line → indent line = Some d →
  tokenIsElement line = true →
  tree_invariant cs pos st →
  rs_ancestors st = (ElemRef <$> ks) ++ [RootRef] →
  StronglySorted gt ks' →
  (∀ k, k ∈ ks' ↔ ∃ j, element_lines (take pos cs) !! k = Some j
                        ∧ still_open cs j (S pos)) →
  match ks' with
  | k :: _ => top = ElemRef k
  | [] => top = RootRef
  end →
  reify_element api prev line (Some top)
    (popped_state st ((ElemRef <$> ks') ++ [RootRef])) = Ok st' →
  distinct_ids st' →
  tree_invariant cs (S pos) st'.
Proof.
  intros Hline Hd He Hinv Hstack Hsorted' Hmem' Htop Hbranch [Hnodup Hproto].
  unfold tree_invariant in Hinv; cbv zeta in Hinv.
  destruct Hinv as (Hlen & Hroot & Hind & _ & Hpar & Hcount & Hnamed).
  pose proof (element_lines_step cs pos line Hline) as Hlines.
  assert (∀ k j, element_lines (take pos cs) !! k = Some j → j < pos)
    as Hltpos by (intros ?? ?%element_lines_lt; lia).
  assert (line_depth cs pos = d) as Hdepth
    by (unfold line_depth; by rewrite Hline; simpl; rewrite Hd).
  set (lines := element_lines (take pos cs)) in *.
  apply reify_element_spec in Hbranch
    as (top' & pe & elemId & [= <-] & Hget & Hlinks & Hrootir & Hindent
        & Hcc & Hanc & _).
  simpl in Hget, Hlinks, Hrootir, Hindent, Hcc, Hanc.
  rewrite Hd in Hindent. simpl in Hindent.
  rewrite Hlinks, Hrootir in Hnodup, Hproto.
  set (links := link <$> elements (rs_ir st)) in *.
  set (rootId := element (root (rs_ir st))) in *.
  pose proof (ids_get _ _ _ Hget) as Hppos. fold links rootId in Hppos.
  rewrite keys_ids, ids_snoc, fmap_app in Hnodup, Hproto.
  change (key_of <$> [(elemId, element pe).1]) with [key_of elemId] in *.
  assert (length (elements (rs_ir st)) = length lines) as Hlcount
    by (by rewrite <- Hlen; unfold links; rewrite length_fmap).
  apply NoDup_app in Hnodup as (Hnd & Hfresh & _).
  assert (∀ id, id ∈ ids links rootId → key_of id ≠ key_of elemId) as Hfresh'.
  { intros id Hid Heq. apply (Hfresh (key_of id)).
    - apply list_elem_of_fmap. by exists id.
    - rewrite Heq. by left. }
  assert (key_of elemId ≠ "__proto__") as Hek.
  { intros Heq. apply Hproto. apply elem_of_app. right. rewrite Heq. by left. }
  assert (∀ id, id ∈ ids links rootId → key_of id ≠ "__proto__") as Hordinary.
  { intros id Hid Heq. apply Hproto. apply elem_of_app. left.
    apply list_elem_of_fmap. by exists id. }
  assert (element pe ∈ ids links rootId) as Hpin
    by (by eapply list_elem_of_lookup_2).
  rewrite put_ordinary in Hindent by done.
  rewrite (put_ordinary (key_of (element pe))) in Hcc by by apply Hordinary.
  rewrite put_ordinary in Hcc by done.
  assert (rootId ∈ ids links rootId) as Hrin by by left.
  assert (∀ k l, links !! k = Some l → l.1 ∈ ids links rootId) as Hlin.
  { intros k l Hl. right. apply list_elem_of_fmap. exists l. split; [done|].
    by eapply list_elem_of_lookup_2. }
  assert (∀ k, k ∈ ks' → k < length lines) as Hbound.
  { intros k (j & Hj & _)%Hmem'. by eapply lookup_lt_Some. }
  unfold tree_invariant; cbv zeta.
  rewrite Hlines, He, Hlinks, Hrootir, Hindent, Hcc, Hanc.
  fold lines links rootId.
  split; [by rewrite !length_app, Hlen|].
  split; [rewrite lookup_insert_ne; [done|]; apply not_eq_sym; by apply Hfresh'|].
  split; [|split; [|split; [|split]]].
  - intros k l j Hl Hj.
    destruct (decide (k < length links)) as [Hk|Hk].
    + rewrite lookup_app_l in Hl by done.
      rewrite lookup_app_l in Hj by lia.
      rewrite lookup_insert_ne; [by eapply Hind|].
      apply not_eq_sym, Hfresh'. by eapply Hlin.
    + assert (k = length links) as ->.
      { apply lookup_lt_Some in Hl. rewrite length_app in Hl.
        simpl in Hl. lia. }
      rewrite list_lookup_middle in Hl by done.
      rewrite Hlen, list_lookup_middle in Hj by done.
      injection Hl as <-. injection Hj as <-. simpl.
      by rewrite lookup_insert_eq, Hdepth.
  - exists (length (elements (rs_ir st)) :: ks'). split; [done|]. split.
    + constructor; [done|]. apply Forall_forall.
      intros k Hk%Hbound. unfold gt. lia.
    + intros k. rewrite elem_of_cons, Hmem'. split.
      * intros [->|(j & Hj & Hopen)].
        -- exists pos. rewrite Hlcount, list_lookup_middle by done.
           split; [done | by eapply still_open_self].
        -- exists j. split; [|done].
           by apply lookup_app_l_Some.
      * intros (j & Hj & Hopen).
        destruct (decide (k < length lines)) as [Hk|Hk].
        -- right. exists j. by rewrite lookup_app_l in Hj by done.
        -- left. apply lookup_lt_Some in Hj as Hj'.
           rewrite length_app in Hj'. simpl in Hj'. lia.
  - intros k i l Hi Hl.
    destruct (decide (k < length links)) as [Hk|Hk].
    + rewrite lookup_app_l in Hl by done.
      rewrite lookup_app_l in Hi by lia.
      destruct (Hpar k i l Hi Hl) as [Hin Hout].
      split; [|done].
      intros j Hj Hmax.
      destruct (Hin j Hj Hmax) as (kj & lj & Hkj & Hlj & Hllj & Heq).
      exists kj, lj. split; [done|].
      split; [by apply lookup_app_l_Some|].
      split; [by apply lookup_app_l_Some | done].
    + assert (k = length links) as ->.
      { apply lookup_lt_Some in Hl. rewrite length_app in Hl.
        simpl in Hl. lia. }
      rewrite list_lookup_middle in Hl by done.
      rewrite Hlen, list_lookup_middle in Hi by done.
      injection Hl as <-. injection Hi as <-. simpl.
      assert (∀ j, encloses cs j pos
                   ↔ ∃ kj, kj ∈ ks' ∧ lines !! kj = Some j) as Henc.
      { intros j. split.
        - intros [Hjlt Hopen].
          destruct (still_open_numbered cs j pos) as [kj Hkj].
          { by apply (still_open_step cs j pos line) in Hopen as [? _]. }
          { apply lookup_lt_Some in Hline. lia. }
          exists kj. split; [|done]. apply Hmem'. by exists j.
        - intros (kj & Hkj & Hj).
          apply Hmem' in Hkj as (j' & Hj' & Hopen).
          fold lines in Hj'. rewrite Hj in Hj'. injection Hj' as <-.
          split; [by eapply Hltpos | done]. }
      destruct ks' as [|k0 ks''].
      * subst top. injection Hget as <-.
        split; [|done]. intros j Hj _.
        apply Henc in Hj as (kj & Hkj & _). by apply elem_of_nil in Hkj.
      * subst top. unfold get in Hget. simpl in Hget.
        destruct (elements (rs_ir st) !! k0) as [e0|] eqn:Hk0; [|done].
        injection Hget as <-.
        destruct (proj1 (Hmem' k0)) as (j0 & Hj0 & Hopen0); [by left|].
        assert (encloses cs j0 pos) as Henc0
          by (split; [by eapply Hltpos | done]).
        split; [|intros Hnone; by destruct (Hnone j0)].
        intros j Hj Hmax.
        pose proof (Hmax j0 Henc0) as Hle.
        apply Henc in Hj as (kj & Hkj & Hkjl).
        assert (kj ≤ k0) as Hkle.
        { apply elem_of_cons in Hkj as [->|Hkj]; [done|].
          apply StronglySorted_inv in Hsorted' as [_ Hall].
          rewrite Forall_forall in Hall. specialize (Hall _ Hkj).
          unfold gt in Hall. lia. }
        assert (j = j0) as ->.
        { destruct (decide (kj = k0)) as [->|]; [congruence|].
          assert (kj < k0) as Hklt by lia.
          pose proof (element_lines_from_mono _ _ _ _ _ _ Hkjl Hj0 Hklt).
          lia. }
        exists k0, (link e0).
        split; [rewrite Hlen; apply Hbound; by left|].
        split; [by apply lookup_app_l_Some|].
        split; [|done]. apply lookup_app_l_Some.
        unfold links. by rewrite list_lookup_fmap, Hk0.
  - intros i id Hi. rewrite ids_snoc in Hi.
    destruct (decide (i < length (ids links rootId))) as [Hlt|Hge].
    + rewrite lookup_app_l in Hi by done.
      assert (id ∈ ids links rootId) as Hid
        by (by eapply list_elem_of_lookup_2).
      rewrite lookup_insert_ne by (apply not_eq_sym; by apply Hfresh').
      destruct (decide (i = ref_pos top)) as [->|Hne].
      * rewrite Hppos in Hi. injection Hi as <-.
        destruct (Hcount _ _ Hppos) as (c & Hc & _).
        exists (S c). rewrite lookup_insert_eq, Hc. by split.
      * rewrite lookup_insert_ne
          by (by eapply (distinct_keys _ _ _ _ _ Hnd Hppos Hi)).
        destruct (Hcount _ _ Hi) as (c & Hc & Hzero).
        exists c. split; [done|].
        intros Hc0 l [Hl| ->%list_elem_of_singleton]%elem_of_app;
          [by apply Hzero|].
        simpl. intros Heq.
        apply (distinct_keys _ _ _ _ _ Hnd Hppos Hi); [by apply not_eq_sym|].
        by rewrite Heq.
    + assert (i = length (ids links rootId)) as ->.
      { apply lookup_lt_Some in Hi. rewrite length_app in Hi.
        change (length [(elemId, element pe).1]) with 1 in Hi. lia. }
      rewrite list_lookup_middle in Hi by done. injection Hi as <-. simpl.
      exists 0. rewrite lookup_insert_eq. split; [done|].
      intros _ l [Hl| ->%list_elem_of_singleton]%elem_of_app Heq.
      * apply (Hfresh' l.2); [by apply Hnamed | by rewrite Heq].
      * simpl in Heq. apply (Hfresh' (element pe)); [done | by rewrite Heq].
  - intros l [Hl| ->%list_elem_of_singleton]%elem_of_app;
      rewrite ids_snoc; apply elem_of_app; left; [by apply Hnamed | done].
Qed.

Lemma links_rename (links : list (option Scalar * option Scalar))
    (top : Ref) (new : option Scalar) (k : nat) :
  let links' := match top with
                | RootRef => links
                | ElemRef k0 => alter (λ l, (new, l.2)) k0 links
                end in
  links' !! k
  = (λ l, if decide (ref_pos top = S k) then (new, l.2) else l) <$> links !! k.
Proof.
  destruct top as [|k0]; simpl.
  - by destruct (links !! k).
  - destruct (decide (k0 = k)) as [->|Hne].
    + rewrite list_lookup_alter_eq. destruct (links !! k); [|done].
      simpl. by rewrite decide_True.
    + rewrite list_lookup_alter_ne by done. destruct (links !! k); [|done].
      simpl. rewrite decide_False; [done|]. by intros [= ?].
Qed.

Lemma ref_pos_elem (top : Ref) (k : nat) : ref_pos top = S k → top = ElemRef k.
Proof. destruct top; simpl; [done|]. by intros [= ->]. Qed.

(** A static [id] attribute keeps the invariant: it renames an element
    that has no child, so no parent link is left behind. *)
Lemma tree_invariant_rename cs pos line (st st' : ReifyState)
    (ks' : list nat) (top : Ref) :
  cs !! pos = Some line → tokenIsElement line = false →
  sets_id line = true →
  tree_invariant cs pos st →
  StronglySorted gt ks' →
  (∀ k, k ∈ ks' ↔ ∃ j, element_lines (take pos cs) !! k = Some j
                        ∧ still_open cs j (S pos)) →
  reify_attribute line (Some top)
    (popped_state st ((ElemRef <$> ks') ++ [RootRef])) = Ok st' →
  distinct_ids st' →
  tree_invariant cs (S pos) st'.
Proof.
  intros Hline He Hid Hinv Hsorted' Hmem' Hbranch [Hnodup Hproto].
  unfold tree_invariant in Hinv; cbv zeta in Hinv.
  destruct Hinv as (Hlen & Hroot & Hind & _ & Hpar & Hcount & Hnamed).
  pose proof (element_lines_step cs pos line Hline) as Hlines.
  rewrite He, app_nil_r in Hlines.
  apply (reify_rename_spec line (Some top)) in Hbranch
    as (pe & v & Hget & Hnc & ->); [|done].
  simpl in Hget, Hnc, Hnodup, Hproto.
  set (new := value v) in *.
  destruct (ids_rename (rs_ir st) top new) as (Hids & Hparents & Hlinks).
  pose proof (ids_get _ _ _ Hget) as Hppos.
  pose proof (links_rename (link <$> elements (rs_ir st)) top new) as Hlk.
  simpl in Hlk. rewrite <- Hlinks in Hlk. clear Hlinks.
  rewrite keys_ids, Hids in Hnodup, Hproto.
  set (ir' := update top (set_element new) (rs_ir st)) in *.
  set (links := link <$> elements (rs_ir st)) in *.
  set (links' := link <$> elements ir') in *.
  set (rootId := element (root (rs_ir st))) in *.
  set (I := ids links rootId) in *.
  assert (ref_pos top < length I) as Hip by (by eapply lookup_lt_Some).
  assert (key_of new ≠ "__proto__") as Hnk.
  { intros Heq. apply Hproto. rewrite <- Heq. apply list_elem_of_fmap.
    exists new. split; [done|]. eapply list_elem_of_lookup_2.
    by apply list_lookup_insert_eq. }
  assert (∀ i id, i ≠ ref_pos top → I !! i = Some id →
            key_of id ≠ key_of new) as Hother.
  { intros i id Hne Hi.
    apply (distinct_keys _ i (ref_pos top) id new Hnodup); [|
      by apply list_lookup_insert_eq | done].
    by rewrite list_lookup_insert_ne. }
  destruct (Hcount _ _ Hppos) as (c & Hc & Hzero).
  assert (c = 0) as ->.
  { unfold has_children, member in Hnc. rewrite Hc in Hnc. by destruct c. }
  specialize (Hzero eq_refl).
  assert (∀ l, l ∈ links → ∃ i, i ≠ ref_pos top ∧ I !! i = Some l.2) as Hpos.
  { intros l Hl. destruct (list_elem_of_lookup_1 _ _ (Hnamed l Hl)) as [i Hi].
    exists i. split; [|done]. intros ->. rewrite Hppos in Hi.
    injection Hi as Heq. by apply (Hzero l Hl). }
  assert (∀ l', l' ∈ links' → ∃ l, l ∈ links ∧ l.2 = l'.2) as Hback.
  { intros l' Hl'.
    assert (l'.2 ∈ links'.*2) as Hin
      by (apply list_elem_of_fmap; by exists l').
    rewrite Hparents in Hin. apply list_elem_of_fmap in Hin as (l & Heq & Hl).
    by exists l. }
  unfold tree_invariant, popped_state; cbv zeta.
  cbn [rs_ir rs_indent rs_childCount rs_ancestors].
  rewrite !put_ordinary by done. rewrite Hc. simpl mjoin. rewrite Hlines.
  fold ir' links' links rootId.
  assert (length links' = length links) as Hlen'.
  { unfold links', links, ir'. rewrite !length_fmap.
    destruct top; simpl; [done | by rewrite length_alter]. }
  split; [by rewrite Hlen'|].
  split; [|split; [|split; [|split; [|split]]]].
  - destruct top as [|k0]; simpl.
    + injection Hget as <-. rewrite lookup_insert_eq.
      fold rootId. by rewrite Hroot.
    + rewrite lookup_insert_ne; [done|].
      apply not_eq_sym. by apply (Hother 0).
  - intros k l' j Hl' Hj. rewrite Hlk in Hl'.
    destruct (links !! k) as [l|] eqn:Hl; [|done].
    simpl in Hl'. injection Hl' as <-.
    destruct (decide (ref_pos top = S k)) as [->%ref_pos_elem|Hne]; simpl.
    + rewrite lookup_insert_eq.
      assert (element pe = l.1) as ->.
      { unfold get in Hget. simpl in Hget. unfold links in Hl.
        rewrite list_lookup_fmap in Hl.
        destruct (elements (rs_ir st) !! k); [|done].
        injection Hget as <-. by injection Hl as <-. }
      by rewrite (Hind k l j Hl Hj).
    + rewrite lookup_insert_ne; [by eapply Hind|].
      apply not_eq_sym. apply (Hother (S k)); [done|].
      unfold I, ids. simpl. by rewrite list_lookup_fmap, Hl.
  - by exists ks'.
  - intros k i l' Hi Hl'. rewrite Hlk in Hl'.
    destruct (links !! k) as [l|] eqn:Hl; [|done].
    simpl in Hl'. injection Hl' as <-.
    assert ((if decide (ref_pos top = S k) then (new, l.2) else l).2 = l.2)
      as -> by by destruct (decide _).
    destruct (Hpar k i l Hi Hl) as [Hin Hout].
    assert (l ∈ links) as Hlin by (by eapply list_elem_of_lookup_2).
    split.
    + intros j Hj Hmax.
      destruct (Hin j Hj Hmax) as (kj & lj & Hkj & Hlj & Hllj & Heq).
      exists kj, lj. split; [done|]. split; [done|]. split; [|done].
      rewrite Hlk, Hllj. simpl.
      destruct (decide (ref_pos top = S kj)) as [->%ref_pos_elem|]; [|done].
      exfalso. apply (Hzero l Hlin). rewrite Heq.
      unfold get in Hget. simpl in Hget. unfold links in Hllj.
      rewrite list_lookup_fmap in Hllj.
      destruct (elements (rs_ir st) !! kj); [|done].
      injection Hget as <-. by injection Hllj as <-.
    + intros Hnone. specialize (Hout Hnone).
      destruct top as [|k0]; simpl; [|done].
      exfalso. apply (Hzero l Hlin). rewrite Hout.
      by injection Hget as <-.
  - intros i id Hi. fold I. rewrite Hids in Hi. fold I in Hi.
    destruct (decide (i = ref_pos top)) as [->|Hne].
    + rewrite list_lookup_insert_eq in Hi by done. injection Hi as <-.
      exists 0. rewrite lookup_insert_eq. split; [done|].
      intros _ l' Hl' Heq. destruct (Hback l' Hl') as (l & Hl & Hl2).
      destruct (Hpos l Hl) as (i2 & Hi2 & Hl2').
      apply (Hother i2 l.2 Hi2 Hl2'). by rewrite Hl2, Heq.
    + rewrite list_lookup_insert_ne in Hi by done.
      rewrite lookup_insert_ne by (apply not_eq_sym; by eapply Hother).
      destruct (Hcount _ _ Hi) as (c & Hc' & Hzero').
      exists c. split; [done|]. intros Hc0 l' Hl' Heq.
      destruct (Hback l' Hl') as (l & Hl & Hl2).
      apply (Hzero' Hc0 l Hl). by rewrite Hl2.
  - intros l' Hl'. rewrite Hids. fold I.
    destruct (Hback l' Hl') as (l & Hl & <-).
    destruct (Hpos l Hl) as (i2 & Hi2 & Hl2).
    eapply list_elem_of_lookup_2. by rewrite list_lookup_insert_ne.
Qed.

Lemma tree_invariant_step (api : Api) prev cs pos line (st st' : ReifyState) :
  cs !! pos = Some line →
  tree_line line →
  tree_invariant cs pos st →
  Ui_reify_line api prev line st = Ok st' →
  distinct_ids st' →
  tree_invariant cs (S pos) st'.
Proof.
  intros Hline [[d Hd] Hnp] Hinv Hr Hdist.
  pose proof Hinv as Hinv0.
  unfold tree_invariant in Hinv; cbv zeta in Hinv.
  destruct Hinv as (Hlen & Hroot & Hind & (ks & Hstack & Hsorted & Hmem)
                    & Hpar & Hcount & Hnamed).
  pose proof (element_lines_step cs pos line Hline) as Hlines.
  assert (∀ k j, element_lines (take pos cs) !! k = Some j → j < pos)
    as Hltpos by (intros ?? ?%element_lines_lt; lia).
  destruct (Ui_reify_line_tree_cases _ _ _ _ _ Hnp Hr)
    as [[Hsig ->]|(Hsig & parentElem & ancestors & Hpop & Hbranch)].
  - assert (tokenIsElement line = false) as He.
    { destruct (tokenIsElement line) eqn:E; [|done].
      apply tokenIsElement_significant in E. congruence. }
    unfold tree_invariant; cbv zeta. rewrite Hlines, He, app_nil_r.
    split; [done|]. split; [done|]. split; [done|]. split; [|done].
    exists ks. split; [done|]. split; [done|].
    intros k. rewrite Hmem.
    split; intros (j & Hj & Hopen); exists j; (split; [done|]).
    + apply (still_open_step cs j pos line); [done | by eapply Hltpos|].
      split; [done|]. intros; congruence.
    + apply (still_open_step cs j pos line) in Hopen;
        [tauto | done | by eapply Hltpos].
  - set (lines := element_lines (take pos cs)) in *.
    set (dep := λ k, line_depth cs (default 0 (lines !! k))).
    destruct (pop_ancestors_spec (rs_ir st) (rs_indent st) dep d ks Hroot)
      with (parentElem := @None Ref)
      as (top & popped & ks' & Hpop' & Hks & Hpopped & Htop).
    { intros k Hk. apply Hmem in Hk as (j & Hj & _).
      assert (is_Some (elements (rs_ir st) !! k)) as [e He].
      { apply lookup_lt_is_Some. rewrite <- (length_fmap link), Hlen.
        by eapply lookup_lt_Some. }
      exists e. split; [done|]. unfold dep. rewrite Hj. simpl.
      apply (Hind k (link e) j); [by rewrite list_lookup_fmap, He | done]. }
    rewrite Hd, Hstack, Hpop' in Hpop. injection Hpop as <- <-.
    destruct (popped_stack cs pos d line lines ks popped ks')
      as [Hsorted' Hmem']; try done.
    { intros k1 k2 j1 j2. apply element_lines_from_mono. }
    { by destruct ks' as [|k0 ks']; [|destruct Htop]. }
    destruct (tokenIsElement line) eqn:He.
    + eapply (tree_invariant_element api prev cs pos line d st st' ks popped
                ks' top); try done.
      by destruct ks' as [|k0 ks']; [|destruct Htop].
    + destruct (sets_id line) eqn:Hid.
      { by eapply (tree_invariant_rename cs pos line st st' ks' top). }
      destruct Hbranch as (_ & Hi & Hc & Ha & Hrl & Hlinks).
      simpl in Hi, Hc, Ha, Hrl, Hlinks.
      assert (element (root (rs_ir st')) = element (root (rs_ir st))) as Hre
        by (by injection Hrl).
      unfold tree_invariant; cbv zeta.
      rewrite Hlines, app_nil_r, Hlinks, Hre, Hi, Hc, Ha. fold lines.
      split; [done|]. split; [done|]. split; [done|]. split; [|done].
      by exists ks'.
Qed.

End TreeStep.

(* ------------------------------------------------------------------------- *)
(** ** The element tree follows the indentation *)
(* ------------------------------------------------------------------------- *)

Section TreeTheorem.
Context `{JsNumber}.
Context (api : Api).

Lemma Ui_reify_lines_tree prev rest : ∀ pre (st st' : ReifyState),
  Forall tree_line rest →
  tree_invariant (pre ++ rest) (length pre) st →
  Ui_reify_lines api prev rest st = Ok st' →
  (∀ m stm, Ui_reify_lines api prev (take m rest) st = Ok stm →
            distinct_ids stm) →
  tree_invariant (pre ++ rest) (length (pre ++ rest)) st'.
Proof.
  induction rest as [|line rest IH]; intros pre st st' Hall Hinv Hr Hdist;
    simpl in Hr.
  { injection Hr as <-. by rewrite app_nil_r in *. }
  apply bind_Ok in Hr as (st1 & H1 & Hr).
  apply Forall_cons in Hall as [Htree Hall].
  rewrite (cons_middle line pre rest), app_assoc in *.
  apply (IH (pre ++ [line]) st1 st' Hall); [|done|].
  - rewrite length_app. simpl. rewrite Nat.add_1_r.
    apply (tree_invariant_step api prev _ _ line st st1); try done.
    + rewrite <- app_assoc. by apply list_lookup_middle.
    + apply (Hdist 1). simpl. by rewrite H1.
  - intros m stm Hm. apply (Hdist (S m)). simpl. by rewrite H1.
Qed.

Lemma tree_invariant_init (cs : list Token) (ui : Ui) (n : nat) :
  tree_invariant cs 0 (Ui_reify_init api ui n).
Proof.
  unfold tree_invariant, Ui_reify_init; cbv zeta.
  destruct (match u_prev ui with Some _ => _ | None => _ end) as [rootId n'].
  simpl. rewrite take_0. unfold element_lines. simpl.
  split; [done|]. split; [by rewrite lookup_singleton_eq|].
  split; [done|]. split; [|split; [|split]].
  - exists []. split; [done|]. split; [constructor|].
    intros k. split; [by intros ?%elem_of_nil | by intros (? & ? & _)].
  - by intros k i l ?.
  - intros [|i] id Hi; [|done]. injection Hi as <-.
    exists 0. rewrite lookup_singleton_eq. split; [done|].
    by intros _ l ?%elem_of_nil.
  - by intros l ?%elem_of_nil.
Qed.

(** C9 (amended): let every line of the AST carry its indent and none be a
    static [parent] attribute, and let the identifiers in use be told apart
    by the dictionaries of [Ui.reify] throughout the pass: after every line
    they make pairwise distinct keys, none of which is [__proto__].  Then
    [Ui.reify], when it reifies an IR, has made one element per element
    line, in order, and the parent of each is the element of the innermost
    element line that encloses its line -- an earlier element -- or the
    root when no line encloses it. *)
Theorem Ui_reify_indentation_tree (ui ui' : Ui) (n n' : nat) (a : Token)
    (cs : list Token) (ir : UiIR) :
  u_ast ui = Some a → chunks a = Some cs →
  Forall tree_line cs →
  Ui_reify api ui n = Ok (ui', n') →
  u_reified ui' = Some ir →
  distinct_throughout api ui n cs →
  length (elements ir) = length (element_lines cs)
  ∧ ∀ k i e, element_lines cs !! k = Some i → elements ir !! k = Some e →
      (∀ j, encloses cs j i → (∀ j', encloses cs j' i → j' ≤ j) →
         ∃ kj ej, kj < k ∧ element_lines cs !! kj = Some j
                  ∧ elements ir !! kj = Some ej ∧ parent e = element ej)
      ∧ ((∀ j, ¬ encloses cs j i) → parent e = element (root ir)).
Proof.
  intros Hast Hcs Htree Hr Hir Hdist.
  unfold Ui_reify in Hr. rewrite Hast in Hr.
  unfold chunks_of in Hr. rewrite Hcs in Hr. simpl in Hr.
  apply bind_Ok in Hr as (st & Hlines & Hr).
  assert (rs_ir st = ir) as Hst.
  { destruct (u_errors (rs_ui st)); injection Hr as <- _; simpl in Hir;
      congruence. }
  subst ir.
  pose proof (Ui_reify_lines_tree _ cs [] _ st Htree
                (tree_invariant_init _ _ _) Hlines Hdist) as Hinv.
  simpl in Hinv. unfold tree_invariant in Hinv; cbv zeta in Hinv.
  rewrite take_ge in Hinv by done.
  destruct Hinv as (Hlen & _ & _ & _ & Hpar & _).
  rewrite length_fmap in Hlen. split; [done|].
  intros k i e Hi He.
  destruct (Hpar k i (link e) Hi) as [Hin Hout];
    [by rewrite list_lookup_fmap, He|].
  split; [|done].
  intros j Hj Hmax. destruct (Hin j Hj Hmax) as (kj & lj & Hlt & Hkj & Hlj & Heq).
  rewrite list_lookup_fmap in Hlj.
  destruct (elements (rs_ir st) !! kj) as [ej|] eqn:Hej; [|done].
  injection Hlj as <-. by exists kj, ej.
Qed.

End TreeTheorem.

Lemma Ui_reify_indentation_tree_witness :
  ∃ ui' ir cs,
    Ui_reify (H := lexeme_numbers) demo_api renamed_ui 0 = Ok (ui', 5)
    ∧ u_reified ui' = Some ir
    ∧ u_ast renamed_ui ≫= chunks = Some cs
    ∧ (element <$> elements ir) !! 0 = Some (Some (SStr "a"))
    ∧ length (elements ir) = length (element_lines cs)
    ∧ ∀ k i e, element_lines cs !! k = Some i → elements ir !! k = Some e →
        (∀ j, encloses cs j i → (∀ j', encloses cs j' i → j' ≤ j) →
           ∃ kj ej, kj < k ∧ element_lines cs !! kj = Some j
                    ∧ elements ir !! kj = Some ej ∧ parent e = element ej)
        ∧ ((∀ j, ¬ encloses cs j i) → parent e = element (root ir)).
Proof.
  destruct (Ui_reify (H := lexeme_numbers) demo_api renamed_ui 0)
    as [[ui' n']|e|] eqn:Hr.
  2, 3: vm_compute in Hr; discriminate Hr.
  assert (n' = 5 ∧ ∃ ir, u_reified ui' = Some ir
          ∧ (element <$> elements ir) !! 0 = Some (Some (SStr "a")))
    as (-> & ir & Hir & Hid).
  { vm_compute in Hr. injection Hr as <- <-. split; [reflexivity|].
    eexists. split; reflexivity. }
  destruct (u_ast renamed_ui) as [a|] eqn:Hast; [|by vm_compute in Hast].
  destruct (chunks a) as [cs|] eqn:Hcs.
  2: { vm_compute in Hast. injection Hast as <-. by vm_compute in Hcs. }
  exists ui', ir, cs. split; [reflexivity|]. split; [exact Hir|].
  split; [exact Hcs|]. split; [exact Hid|].
  apply (Ui_reify_indentation_tree (H := lexeme_numbers) demo_api renamed_ui
           ui' 0 5 a cs ir Hast Hcs); [|exact Hr|exact Hir|].
  - vm_compute in Hast. injection Hast as <-.
    vm_compute in Hcs. injection Hcs as <-.
    repeat constructor; by eexists.
  - vm_compute in Hast. injection Hast as <-.
    vm_compute in Hcs. injection Hcs as <-.
    intros m st Hm.
    do 6 (destruct m as [|m];
          [vm_compute in Hm; injection Hm as <-;
           apply (bool_decide_unpack _); by vm_compute|]).
    vm_compute in Hm; injection Hm as <-;
      apply (bool_decide_unpack _); by vm_compute.
Defined.

(** C9 (as the spec states it, refuted): a pass over three lines ends with no
    error and an element that is its own parent. *)
Lemma static_parent_makes_a_loop :
  ∃ ui' n' r ir e,
    Ui_parse (H := lexeme_numbers) demo_api (new_Ui None)
      (text_of ["div"; "  - id: `a`"; "  - parent: `a`"]) 0 = Ok (ui', n', r)
    ∧ u_errors ui' = []
    ∧ u_reified ui' = Some ir
    ∧ e ∈ elements ir
    ∧ parent e = element e.
Proof.
  destruct (Ui_parse (H := lexeme_numbers) demo_api (new_Ui None)
              (text_of ["div"; "  - id: `a`"; "  - parent: `a`"]) 0)
    as [[[ui' n'] r]|e|] eqn:Hp;
    vm_compute in Hp; try discriminate Hp.
  injection Hp as <- <- <-. eexists _, _, _, _, _.
  split; [reflexivity|]. split; [reflexivity|]. split; [reflexivity|].
  split; [by left | reflexivity].
Qed.

(** The same with indentation alone: an attribute line at the margin closes
    every open element, so the element after it hangs from the root although
    the nearest preceding element line of lower indent is the second. *)
Lemma margin_line_closes_ancestors :
  ∃ ui' n' r ir,
    Ui_parse (H := lexeme_numbers) demo_api (new_Ui None)
      (text_of ["div"; "  span"; "- x: `1`"; "    p"]) 0 = Ok (ui', n', r)
    ∧ u_errors ui' = []
    ∧ u_reified ui' = Some ir
    ∧ (parent <$> elements ir) !! 2 = Some (element (root ir)).
Proof.
  destruct (Ui_parse (H := lexeme_numbers) demo_api (new_Ui None)
              (text_of ["div"; "  span"; "- x: `1`"; "    p"]) 0)
    as [[[ui' n'] r]|e|] eqn:Hp;
    vm_compute in Hp; try discriminate Hp.
  injection Hp as <- <- <-. eexists _, _, _, _.
  split; [reflexivity|]. split; [reflexivity|]. split; [reflexivity|].
  reflexivity.
Qed.

(* ------------------------------------------------------------------------- *)
(** ** What [Ui.parse] and [Query.parse] hand back *)
(* ------------------------------------------------------------------------- *)

Section Returned.
Context `{JsNumber}.
Context (api : Api).

(** The attribute branch leaves the instance alone but for its errors, also
    when the attribute writes an identifier. *)
Lemma reify_attribute_errors line parentElem (st st' : ReifyState) :
  tokenIsAttribute line = true →
  reify_attribute line parentElem st = Ok st' →
  more_errors (rs_ui st) (rs_ui st').
Proof.
  intros Ha Hr. destruct (overrides line) eqn:Hover.
  - unfold overrides in Hover. rewrite Ha in Hover. simpl in Hover.
    unfold reify_attribute in Hr.
    destruct parentElem as [p|]; [|by eapply rs_fail_errors].
    destruct (default false (static line)); [|done].
    destruct (bool_decide (property line = Some "parent")).
    { apply bind_Ok in Hr as (v & _ & [= <-]). apply more_errors_refl. }
    destruct (bool_decide (property line = Some "id")); [|done].
    apply bind_Ok in Hr as (pe & _ & Hr).
    destruct (has_children _ _).
    + by apply bind_Ok in Hr as (err & _ & ?).
    + apply bind_Ok in Hr as (v & _ & [= <-]). apply more_errors_refl.
  - by eapply reify_attribute_structure.
Qed.

(** A turn of the loop of [Ui.reify] touches nothing of the instance but its
    errors. *)
Lemma Ui_reify_line_errors prev line (st st' : ReifyState) :
  Ui_reify_line api prev line st = Ok st' →
  more_errors (rs_ui st) (rs_ui st').
Proof.
  unfold Ui_reify_line. intros Hr.
  destruct (tokenIsComment line || tokenIsText line).
  { injection Hr as <-. apply more_errors_refl. }
  apply bind_Ok in Hr as ([parentElem ancestors] & _ & Hr).
  fold (popped_state st ancestors) in Hr.
  change (rs_ui st) with (rs_ui (popped_state st ancestors)).
  destruct (tokenIsElement line).
  { apply reify_element_spec in Hr as (? & ? & ? & _ & _ & _ & _ & _ & _ & _ & ->).
    apply more_errors_refl. }
  destruct (tokenIsBinding line); [by eapply reify_binding_structure|].
  destruct (tokenIsAttribute line) eqn:Ha; [by eapply reify_attribute_errors|].
  destruct (tokenIsEvent line); [by eapply reify_event_structure|].
  injection Hr as <-. apply more_errors_refl.
Qed.

Lemma Ui_reify_lines_errors prev lines : ∀ (st st' : ReifyState),
  Ui_reify_lines api prev lines st = Ok st' →
  more_errors (rs_ui st) (rs_ui st').
Proof.
  induction lines as [|line lines IH]; intros st st' Hr; simpl in Hr.
  { injection Hr as <-. apply more_errors_refl. }
  apply bind_Ok in Hr as (st1 & H1 & Hr).
  eapply more_errors_trans; [by eapply Ui_reify_line_errors | by eapply IH].
Qed.

(** [Ui.reify], called on an instance whose [reified] is unset, keeps the
    text, the AST and [prev], and sets [reified] exactly when it ends
    without errors. *)
Lemma Ui_reify_frame (ui ui' : Ui) (n n' : nat) :
  u_reified ui = None → is_Some (u_ast ui) →
  Ui_reify api ui n = Ok (ui', n') →
  u_raw ui' = u_raw ui ∧ u_ast ui' = u_ast ui ∧ u_prev ui' = u_prev ui
  ∧ (is_Some (u_reified ui') ↔ u_errors ui' = []).
Proof.
  unfold Ui_reify. intros Hnone [a Ha] Hr. rewrite Ha, Hnone in Hr.
  apply bind_Ok in Hr as (cs & _ & Hr).
  apply bind_Ok in Hr as (st & Hlines & Hr).
  apply Ui_reify_lines_errors in Hlines as [es Hes].
  unfold Ui_reify_init in Hes.
  destruct (match u_prev ui with Some _ => _ | None => _ end) as [rootId m].
  simpl in Hes.
  rewrite Hes in Hr. simpl in Hr.
  destruct (u_errors _ ++ es) eqn:Herr; injection Hr as <- <-; simpl;
    rewrite ?Herr.
  all: split; [done|]. all: split; [done|]. all: split; [done|].
  - done.
  - split; [by intros [? ?] | done].
Qed.

Lemma Ui_parse_reset_fields (ui : Ui) (raw' : string) :
  let ui' := Ui_parse_reset ui raw' in
  u_raw ui' = Some raw' ∧ is_Some (u_ast ui') ∧ u_reified ui' = None
  ∧ u_prev ui' = match u_reified ui with Some r => Some r | None => u_prev ui end.
Proof. by repeat split. Qed.

End Returned.

(** C10: [Ui.parse] hands back the instance on the memoized path, where the
    text is the cached one, and nothing is touched; on any other text, a call
    that completes hands back nothing, having set [raw] to the text, [ast],
    [prev] to what [reified] was (or left it), and [reified] exactly when no
    error is recorded; and such calls do complete.  A call of [Query.parse]
    that completes hands back the instance. *)
Theorem Ui_parse_returns_this_only_when_memoized :
  (∀ `{JsNumber} (api : Api) (ui : Ui) raw n,
     u_raw ui = Some raw → Ui_parse api ui raw n = Ok (ui, n, ReturnsThis))
  ∧ (∀ `{JsNumber} (api : Api) (ui ui' : Ui) raw n n' r,
       u_raw ui ≠ Some raw → Ui_parse api ui raw n = Ok (ui', n', r) →
       r = ReturnsUndefined
       ∧ u_raw ui' = Some raw
       ∧ is_Some (u_ast ui')
       ∧ u_prev ui' = match u_reified ui with
                      | Some ir => Some ir
                      | None => u_prev ui
                      end
       ∧ (is_Some (u_reified ui') ↔ u_errors ui' = []))
  ∧ (∃ (ui' : Ui) n',
       Ui_parse (H := lexeme_numbers) demo_api (new_Ui None) "div" 0
       = Ok (ui', n', ReturnsUndefined))
  ∧ (∀ `{JsNumber} (api : Api) (q q' : Query) raw n n' r,
       Query_parse api q raw n = Ok (q', n', r) → r = ReturnsThis).
Proof.
  split; [|split; [|split]].
  - intros ? api ui raw n Hraw. unfold Ui_parse.
    by rewrite bool_decide_eq_true_2.
  - intros ? api ui ui' raw n n' r Hraw Hp. unfold Ui_parse in Hp.
    rewrite bool_decide_eq_false_2 in Hp by done.
    apply bind_Ok in Hp as (ui1 & Hlines & Hp).
    apply bind_Ok in Hp as ([ui2 n2] & Hreify & [= <- <- <-]).
    split; [done|].
    apply Ui_parse_lines_frame in Hlines
      as (Hraw1 & Hreified1 & _ & _ & Hprev1 & Hast1).
    destruct (Ui_parse_reset_fields ui raw) as (Hraw0 & Hast0 & Hreified0 & Hprev0).
    destruct (u_errors ui1) eqn:Herr.
    + apply Ui_reify_frame in Hreify as (Hraw2 & Hast2 & Hprev2 & Hiff);
        [|congruence | by apply Hast1].
      split; [congruence|]. split; [rewrite Hast2; by apply Hast1|].
      split; [congruence | done].
    + injection Hreify as <- <-.
      split; [congruence|]. split; [by apply Hast1|]. split; [congruence|].
      rewrite Hreified1, Hreified0, Herr. split; [by intros [? ?] | done].
  - destruct (Ui_parse (H := lexeme_numbers) demo_api (new_Ui None) "div" 0)
      as [[[ui' n'] r]|e|] eqn:Hp;
      vm_compute in Hp; try discriminate Hp.
    injection Hp as <- <- <-. by eexists _, _.
  - intros ? api q q' raw n n' r Hp. unfold Query_parse in Hp.
    destruct (bool_decide _); [by injection Hp|].
    apply bind_Ok in Hp as (q1 & _ & Hp).
    by apply bind_Ok in Hp as ([q2 n2] & _ & [= _ _ <-]).
Qed.


(* ------------------------------------------------------------------------- *)
(** ** Ordinal lines *)
(* ------------------------------------------------------------------------- *)

Section OrdinalLines.
Context `{JsNumber}.
Context (api : Api).

Lemma splice_out_only (x : string) : splice_out x [x] = [].
Proof. unfold splice_out. simpl. by rewrite String.eqb_refl. Qed.

Lemma split_lines_cons (src t : string) :
  JsText.split_lines src = [src] →
  JsText.split_lines (src +:+ NL +:+ t) = src :: JsText.split_lines t.
Proof.
  unfold JsText.split_lines, NL. induction src as [|c src IH]; simpl; [done|].
  simpl in IH. destruct (JsText.is_newline c); [done|].
  destruct (JsText.split_at JsText.is_newline src) as [|l ls] eqn:Hs; [|].
  { destruct src; simpl in Hs; [done|]. by repeat case_match. }
  intros [= -> ->]. by rewrite IH.
Qed.

Ltac run t := let r := eval vm_compute in t in change t with r.

(** The second line of a text, when it is an ordinal that follows a
    source. *)
Ltac ordinal_after_source Hast Hlast Hsrc :=
  unfold Query_line_outcome;
  match goal with |- context [Query_tokenize ?s] => run (Query_tokenize s) end;
  cbv beta iota delta [mbind Res_bind];
  match goal with |- context [Query_parseLine ?a ?b ?c] =>
    run (Query_parseLine a b c) end;
  cbv beta iota;
  match goal with |- context [chunks_of ?a] => run (chunks_of a) end;
  cbv beta iota;
  match goal with |- context [tokenIsKeyword ?a && text_is ?b ?c] =>
    run (tokenIsKeyword a && text_is b c) end;
  cbv beta iota; unfold Query_classify;
  match goal with |- context [Query_processAction ?a ?b] =>
    run (Query_processAction a b) end;
  cbv beta iota delta [mbind Res_bind];
  match goal with |- context [Query_processCalculation ?a ?b] =>
    run (Query_processCalculation a b) end;
  cbv beta iota; unfold Query_processOrdinal;
  match goal with |- context [chunks_of ?a] => run (chunks_of a) end;
  cbv beta iota delta [mbind Res_bind];
  match goal with
  | |- context [negb (tokenIsKeyword ?a) || negb (text_is ?b ?c)] =>
    run (negb (tokenIsKeyword a) || negb (text_is b c)) end;
  cbv beta iota;
  match goal with |- context [ast_chunks ?a] =>
    match type of Hast with ast_chunks ?q = _ =>
      change (ast_chunks a) with (ast_chunks q) end end;
  rewrite Hast; cbv beta iota; rewrite Hlast, Hsrc;
  vm_compute; reflexivity.

Lemma ordinal_after_source_x (q : Query) prior l :
  ast_chunks q = Ok prior → last prior = Some l → tokenIsSource l = true →
  Query_line_outcome q 1 "# ?r by ?x ascending"
  = Ok (set_q_lineIx (Some 1) q, inl (ordinal_by "x")).
Proof. intros Hast Hlast Hsrc. ordinal_after_source Hast Hlast Hsrc. Qed.

Lemma ordinal_after_source_y (q : Query) prior l :
  ast_chunks q = Ok prior → last prior = Some l → tokenIsSource l = true →
  Query_line_outcome q 1 "# ?r by ?y ascending"
  = Ok (set_q_lineIx (Some 1) q, inl (ordinal_by "y")).
Proof. intros Hast Hlast Hsrc. ordinal_after_source Hast Hlast Hsrc. Qed.

(** The two lines of the text, parsed by a fresh instance. *)
Lemma source_then_ordinal (src x y o : string) (line : Token) (raw' : string) :
  reads_source src x line →
  (∀ q prior l, ast_chunks q = Ok prior → last prior = Some l →
     tokenIsSource l = true →
     Query_line_outcome q 1 y = Ok (set_q_lineIx (Some 1) q, inl (ordinal_by o))) →
  ∃ q2 a,
    Query_parse_lines (Query_parse_reset (new_Query None) raw') 0 [src; y]
    = Ok q2
    ∧ ast q2 = Some a ∧ chunks a = Some [line; ordinal_by o]
    ∧ errors q2 = [] ∧ raw q2 = Some raw' ∧ reified q2 = None
    ∧ prev q2 = None.
Proof.
  intros (_ & Hread & Hsrc & _) Hord. simpl. unfold Query_parse_line.
  destruct (Hread (Query_parse_reset (new_Query None) raw')) as [q1 Hq1].
  rewrite Hq1. simpl.
  apply Query_line_outcome_instance in Hq1.
  assert (∃ q1' a1, push_chunk line q1 = Ok q1'
            ∧ ast q1' = Some a1 ∧ chunks a1 = Some [line] ∧ errors q1' = []
            ∧ raw q1' = Some raw' ∧ reified q1' = None ∧ prev q1' = None)
    as (q1' & a1 & -> & Ha1 & Hcs & Herr & Hraw & Hre & Hprev).
  { destruct Hq1 as [-> | ->]; eexists _, _; (split; [reflexivity|done]). }
  simpl. rewrite (Hord q1' [line] line); [|by unfold ast_chunks; rewrite Ha1; unfold chunks_of; rewrite Hcs|done..].
  simpl. unfold push_chunk. simpl. rewrite Ha1. unfold chunks_of. rewrite Hcs.
  simpl. eexists _, _. split; [reflexivity|]. simpl. done.
Qed.

Lemma reify_fields_no_field fp cs : ∀ src rows ir q n,
  List.filter tokenIsField cs = [] →
  reify_fields api None fp cs src rows ir q n = Ok (Next (src, ir, q, n)).
Proof.
  induction cs as [|t cs IH]; intros src rows ir q n Hcs; simpl in *; [done|].
  destruct (tokenIsField t); [done|]. by apply IH.
Qed.

(** The loop over the chunks of a source line with one field: the source
    gets the first field of the fingerprint, under the alias of the chunk. *)
Lemma reify_fields_only_field fp cs f : ∀ src ix F rows ir q n,
  List.filter tokenIsField cs = [f] → F ≠ "" →
  ∃ src' ir' n',
    reify_fields api None fp cs src ((ix, F) :: rows) ir q n
    = Ok (Next (src', ir', q, n'))
    ∧ fields src' = fields src ++ [mkFieldIR F (grouped f) (alias f) (value f) None]
    ∧ sourceView src' = sourceView src
    ∧ sort src' = sort src ∧ ordinal src' = ordinal src
    ∧ sources ir' = sources ir.
Proof.
  induction cs as [|t cs IH]; intros src ix F rows ir q n Hcs HF;
    simpl in Hcs; [done|]. simpl.
  destruct (tokenIsField t) eqn:Ht; [|by apply IH].
  injection Hcs as -> Hcs. destruct F as [|c F]; [done|]. simpl.
  match goal with
  | |- context [getVariable api ?a ?i ?v ?s ?m] =>
      pose proof (getVariable_sources api a i v s m) as Hsources;
      destruct (getVariable api a i v s m) as [[varId' ir1] n1]
  end.
  simpl in Hsources. rewrite reify_fields_no_field by done.
  eexists _, _, _. split; [reflexivity|].
  split_and!; try by destruct (default false (grouped f)).
  rewrite <- Hsources. by destruct (value f).
Qed.

Lemma reify_source_only_field (line : Token) (x V F : string) ir q n :
  (∃ cs f, chunks line = Some cs ∧ List.filter tokenIsField cs = [f]
           ∧ alias f = Some x) →
  resolves api line V F →
  ∃ s e ir' n',
    reify_source api None line ir q n = Ok (Next (ir', q, n'))
    ∧ sources ir' = sources ir ++ [s]
    ∧ sourceView s = V ∧ fields s = [e] ∧ f_alias e = Some x ∧ field e = F
    ∧ sort s = None ∧ ordinal s = None.
Proof.
  intros (cs & f & Hcs & Hf & Hx) (HV & HF & fp & ix & rows & Hfp & Hview & Hrows).
  unfold reify_source. rewrite Hfp. simpl. rewrite Hview.
  destruct V as [|c V]; [done|]. simpl. rewrite Hrows.
  unfold chunks_of. rewrite Hcs. simpl.
  match goal with
  | |- context [reify_fields api None fp cs ?src ((ix, F) :: rows) ir q ?m] =>
      destruct (reify_fields_only_field fp cs f src ix F rows ir q m Hf HF)
        as (src' & ir' & n' & -> & Hfields & Hsv & Hsort & Hord & Hsources)
  end.
  simpl in *. eexists src', _, _, n'. split; [reflexivity|]. simpl.
  rewrite Hsources. split; [done|]. split; [done|]. split; [exact Hfields|].
  by rewrite Hx.
Qed.

Lemma getVariable_sources' alias (ast ast' : QueryIR) varId fieldId n id n' :
  getVariable api alias ast varId fieldId n = (id, ast', n') →
  sources ast' = sources ast.
Proof.
  intros Hg. pose proof (getVariable_sources api alias ast varId fieldId n) as Hs.
  by rewrite Hg in Hs.
Qed.

(** The ordinal [# ?r by ?x ascending] after a source whose one field is
    aliased [x]. *)
Lemma reify_ordinal_found (s : SourceIR) (e : FieldIR) ir q n :
  sources ir = [s] → fields s = [e] → f_alias e = Some "x" →
  ∃ ir' n',
    reify_ordinal api None (ordinal_by "x") ir q n = Ok (ir', q, n')
    ∧ sources ir'
      = [set_sort (Some [mkSortIR 0 (field e) "ascending"])
           (set_ordinal (Some (OrdinalAlias "r")) s)].
Proof.
  intros Hs He Hx. unfold reify_ordinal. rewrite Hs. simpl.
  match goal with
  | |- context [getVariable api ?a ?i ?v ?f ?m] =>
      destruct (getVariable api a i v f m) as [[varId' ir1] n1] eqn:Hg
  end.
  apply getVariable_sources' in Hg. simpl. rewrite He. simpl. rewrite Hx.
  simpl. rewrite splice_out_only. simpl.
  eexists _, _. split; [reflexivity|]. simpl. by rewrite Hg, Hs.
Qed.

(** The ordinal [# ?r by ?y ascending] after a source whose one field is
    aliased [x]. *)
Lemma reify_ordinal_missing (s : SourceIR) (e : FieldIR) ir (q : Query) n :
  sources ir = [s] → fields s = [e] → f_alias e = Some "x" →
  is_Some (raw q) →
  ∃ ir' err n',
    reify_ordinal api None (ordinal_by "y") ir q n
    = Ok (ir', push_error err q, n')
    ∧ message err
      = "Ordinal alias 'y' does not match any aliased fields of the ordinated source.".
Proof.
  intros Hs He Hx [raw' Hraw]. unfold reify_ordinal. rewrite Hs. simpl.
  match goal with
  | |- context [getVariable api ?a ?i ?v ?f ?m] =>
      destruct (getVariable api a i v f m) as [[varId' ir1] n1] eqn:Hg
  end.
  simpl. rewrite He. simpl. rewrite Hx. simpl.
  unfold Query_parseError. rewrite Hraw. simpl.
  eexists _, _, _. split; [reflexivity|]. done.
Qed.

Lemma source_type (line : Token) :
  tokenIsSource line = true →
  tokenIsCalculation line = false ∧ tokenIsOrdinal line = false.
Proof.
  unfold tokenIsSource, tokenIsCalculation, tokenIsOrdinal.
  by intros ->%String.eqb_eq.
Qed.

(** The pass of [Query.reify] over a source line and an ordinal line, on an
    instance that has parsed them without an error. *)
Lemma Query_reify_source_ordinal (q : Query) a (line ord : Token) n :
  ast q = Some a → chunks a = Some [line; ord] →
  reified q = None → prev q = None →
  tokenIsSource line = true →
  tokenIsSource ord = false → tokenIsOrdinal ord = true →
  tokenIsCalculation ord = false →
  let ir0 := mkQueryIR (uuid api n) [] [] ∅ [] in
  let q0 := set_reified (Some ir0) q in
  Query_reify api q n
  = '(ir, q1, n1) ←
      (r ← reify_source api None line ir0 (set_q_lineIx (lineIx line) q0) (S n);
       match r with
       | Next (ir, q1, n1) =>
           reify_ordinal api None ord ir (set_q_lineIx (lineIx ord) q1) n1
       | Break st => Ok st
       end);
    match errors q1 with
    | [] => Ok (set_q_id (Some (ir_id ir)) (set_reified (Some ir) q1), n1)
    | _ :: _ => Ok (set_reified None (set_failed (Some ir) q1), n1)
    end.
Proof.
  intros Ha Hcs Hre Hprev Hsrc Hns Hord Hnc ir0 q0.
  destruct (source_type line Hsrc) as [Hcalc _].
  unfold Query_reify. rewrite Ha, Hre, Hprev. simpl.
  unfold chunks_of. rewrite Hcs. simpl.
  unfold reify_chunks. simpl. rewrite Hcalc, Hnc. simpl.
  rewrite Hsrc, Hprev.
  destruct (reify_source api None line _ _ _) as [[[[ir1 q1] n1]|[[ir1 q1] n1]]|e|];
    simpl; try done.
  rewrite Hns, Hord.
  by destruct (reify_ordinal api None ord ir1 _ n1) as [[[ir2 q2] n2]|e|].
Qed.

(** [Query.parse] on the two lines, by a fresh instance: the lines are
    parsed without an error, and the rest is [Query.reify]. *)
Lemma Query_parse_source_ordinal (src x y o : string) (line : Token) n :
  reads_source src x line →
  JsText.split_lines y = [y] →
  (∀ q prior l, ast_chunks q = Ok prior → last prior = Some l →
     tokenIsSource l = true →
     Query_line_outcome q 1 y = Ok (set_q_lineIx (Some 1) q, inl (ordinal_by o))) →
  ∃ q2 a,
    ast q2 = Some a ∧ chunks a = Some [line; ordinal_by o]
    ∧ errors q2 = [] ∧ is_Some (raw q2) ∧ reified q2 = None ∧ prev q2 = None
    ∧ Query_parse api (new_Query None) (text_of [src; y]) n
      = '(q, n) ← Query_reify api q2 n; Ok (q, n, ReturnsThis).
Proof.
  intros Hline Hy Hord.
  destruct (source_then_ordinal src x y o line (text_of [src; y]) Hline Hord)
    as (q2 & a & Hp & Ha & Hcs & Herr & Hraw & Hre & Hprev).
  exists q2, a. split_and!; try done.
  unfold Query_parse. simpl bool_decide. cbv iota.
  change (text_of [src; y]) with (src +:+ NL +:+ y) in *.
  rewrite split_lines_cons, Hy by by destruct Hline.
  rewrite Hp. simpl. by rewrite Herr.
Qed.

(** C6 (amended): let the line [src] be one that [Query.parse] reads as a
    source whose only field is aliased [x], and let the store know it as
    the view [V], with [F] the first field of its fingerprint, and hand out
    ordinary identifiers.  A fresh instance parses [src] followed by
    [# ?r by ?x ascending] and reifies it without an error: the one source
    is of the view [V], its one field is [F] under the alias [x], and its
    sort list has the sole entry of rank 0, field [F] and direction
    ["ascending"].  The ordinal line alone is turned down by the parser,
    with the message ["Ordinal must immediately follow a source."], and
    nothing is reified; and with [?y] for [?x] the pass records ["Ordinal
    alias 'y' does not match any aliased fields of the ordinated source."]
    and [reified] is unset. *)
Theorem ordinal_line_scenarios (src : string) (line : Token) (V F : string)
    (n : nat) :
  ordinary_uuids api →
  reads_source src "x" line →
  resolves api line V F →
  let parse := Query_parse api (new_Query None) in
  (∃ q' n', parse (text_of [src; "# ?r by ?x ascending"]) n
            = Ok (q', n', ReturnsThis)
     ∧ errors q' = []
     ∧ ∃ ir s, reified q' = Some ir ∧ sources ir = [s]
         ∧ sourceView s = V
         ∧ (f_alias <$> fields s) = [Some "x"]
         ∧ (field <$> fields s) = [F]
         ∧ sort s = Some [mkSortIR 0 F "ascending"]
         ∧ ordinal s = Some (OrdinalAlias "r"))
  ∧ (∃ q', parse "# ?r by ?x ascending" n = Ok (q', n, ReturnsThis)
       ∧ (message <$> errors q') = ["Ordinal must immediately follow a source."]
       ∧ reified q' = None)
  ∧ (∃ q' n', parse (text_of [src; "# ?r by ?y ascending"]) n
              = Ok (q', n', ReturnsThis)
       ∧ (message <$> errors q')
         = ["Ordinal alias 'y' does not match any aliased fields of the ordinated source."]
       ∧ reified q' = None).
Proof.
  intros _ Hline Hres parse. subst parse.
  pose proof Hline as (_ & _ & Hsrc & Hfield).
  split; [|split].
  - destruct (Query_parse_source_ordinal src "x" "# ?r by ?x ascending" "x" line n
                Hline eq_refl ordinal_after_source_x)
      as (q2 & a & Ha & Hcs & Herr & Hraw & Hre & Hprev & ->).
    rewrite (Query_reify_source_ordinal q2 a line (ordinal_by "x") n)
      by done.
    match goal with
    | |- context [reify_source api None line ?ir ?q ?m] =>
        destruct (reify_source_only_field line "x" V F ir q m Hfield Hres)
          as (s & e & ir1 & n1 & -> & Hs & HV & He & Hx & HF & _ & _)
    end.
    simpl in Hs. simpl.
    match goal with
    | |- context [reify_ordinal api None _ ir1 ?q ?m] =>
        destruct (reify_ordinal_found s e ir1 q m Hs He Hx)
          as (ir2 & n2 & -> & Hs2)
    end.
    simpl. rewrite Herr. eexists _, _. split; [reflexivity|]. simpl.
    split; [done|]. eexists ir2, _. split; [done|]. split; [exact Hs2|].
    simpl. rewrite He. simpl. by rewrite Hx, HF.
  - eexists. split; [vm_compute; reflexivity|]. by vm_compute.
  - destruct (Query_parse_source_ordinal src "x" "# ?r by ?y ascending" "y" line n
                Hline eq_refl ordinal_after_source_y)
      as (q2 & a & Ha & Hcs & Herr & Hraw & Hre & Hprev & ->).
    rewrite (Query_reify_source_ordinal q2 a line (ordinal_by "y") n)
      by done.
    match goal with
    | |- context [reify_source api None line ?ir ?q ?m] =>
        destruct (reify_source_only_field line "x" V F ir q m Hfield Hres)
          as (s & e & ir1 & n1 & -> & Hs & HV & He & Hx & HF & _ & _)
    end.
    simpl in Hs. simpl.
    match goal with
    | |- context [reify_ordinal api None _ ir1 ?q ?m] =>
        destruct (reify_ordinal_missing s e ir1 q m Hs He Hx Hraw)
          as (ir2 & err & n2 & -> & Hmsg)
    end.
    simpl. rewrite Herr. simpl. eexists _, _. split; [reflexivity|]. simpl.
    rewrite Herr. simpl. by rewrite Hmsg.
Qed.

End OrdinalLines.

Lemma ordinal_line_scenarios_witness :
  ∃ q' n',
    Query_parse (H := lexeme_numbers) demo_api (new_Query None)
      (text_of ["age ?x"; "# ?r by ?x ascending"]) 0 = Ok (q', n', ReturnsThis)
    ∧ errors q' = []
    ∧ ∃ ir s, reified q' = Some ir ∧ sources ir = [s]
        ∧ sort s = Some [mkSortIR 0 "F" "ascending"].
Proof.
  destruct (ordinal_line_scenarios (H := lexeme_numbers) demo_api "age ?x"
              age_line "V" "F" 0)
    as [(q' & n' & Hp & Herr & ir & s & Hir & Hs & _ & _ & _ & Hsort & _) _].
  - exact demo_uuids_ordinary.
  - split; [reflexivity|]. split.
    { intros q. exists (set_q_lineIx (Some 0) q). vm_compute. reflexivity. }
    split; [reflexivity|]. eexists _, _. split; [reflexivity|].
    split; reflexivity.
  - split; [discriminate|]. split; [discriminate|].
    exists "age ?", 0%Z, []. split; [reflexivity|]. split; reflexivity.
  - exists q', n'. split; [exact Hp|]. split; [exact Herr|].
    exists ir, s. split; [exact Hir|]. split; [exact Hs | exact Hsort].
Defined.

(** C6 (as the spec states it, refuted): the ordinal line alone is turned
    down when it is parsed, with a message of its own; the message of
    [reify], which the spec quotes, is not recorded. *)
Lemma lone_ordinal_fails_at_parse :
  ∃ q' n' r,
    Query_parse (H := lexeme_numbers) demo_api (new_Query None)
      "# ?r by ?x ascending" 0 = Ok (q', n', r)
    ∧ (message <$> errors q') = ["Ordinal must immediately follow a source."]
    ∧ Forall (λ m, JsString.indexOf m "must follow a valid source" = None)
        (message <$> errors q').
Proof.
  destruct (Query_parse (H := lexeme_numbers) demo_api (new_Query None)
              "# ?r by ?x ascending" 0) as [[[q' n'] r]|e|] eqn:Hp;
    vm_compute in Hp; try discriminate Hp.
  injection Hp as <- <- <-. eexists _, _, _. split; [reflexivity|].
  split; [reflexivity|]. repeat constructor.
Qed.

(* ------------------------------------------------------------------------- *)
(** ** The identifiers of sources across reifications *)
(* ------------------------------------------------------------------------- *)

Section SourceIds.
Context `{JsNumber}.
Context (api : Api).

Lemma reify_touches_refl (q : Query) : reify_touches q q.
Proof. repeat split. exists []. by rewrite app_nil_r. Qed.

Lemma reify_touches_trans (q1 q2 q3 : Query) :
  reify_touches q1 q2 → reify_touches q2 q3 → reify_touches q1 q3.
Proof.
  intros (? & ? & ? & ? & ? & es & Hes) (? & ? & ? & ? & ? & es' & Hes').
  repeat split; try congruence.
  exists (es ++ es'). by rewrite Hes', Hes, app_assoc.
Qed.

Lemma push_error_touches (e : Error) (q : Query) :
  reify_touches q (push_error e q).
Proof. repeat split. by exists [e]. Qed.

Lemma set_q_lineIx_touches (k : option nat) (q : Query) :
  reify_touches q (set_q_lineIx k q).
Proof. repeat split. exists []. by rewrite app_nil_r. Qed.

Lemma push_error_nonempty (e : Error) (q : Query) : errors (push_error e q) ≠ [].
Proof. simpl. by destruct (errors q). Qed.

Lemma touches_nonempty (q q' : Query) :
  reify_touches q q' → errors q ≠ [] → errors q' ≠ [].
Proof.
  intros (_ & _ & _ & _ & _ & es & ->) Hne. by destruct (errors q).
Qed.


(** The loop over the fields of a source line keeps the identifier of the
    source and the sources made so far; when it breaks off it has recorded
    an error. *)
Lemma reify_fields_spec prev fingerprint cs : ∀ src fieldIxes ir q n r,
  reify_fields api prev fingerprint cs src fieldIxes ir q n = Ok r →
  match r with
  | Next (src', ir', q', n') =>
      source src' = source src ∧ sourceView src' = sourceView src
      ∧ sources ir' = sources ir ∧ q' = q
  | Break (_, _, q', _) => reify_touches q q' ∧ errors q' ≠ []
  end.
Proof.
  induction cs as [|token cs IH]; intros src fieldIxes ir q n r Hr;
    simpl in Hr.
  { by injection Hr as <-. }
  destruct (tokenIsField token); [|by apply IH in Hr].
  destruct (negb (truthy_opt (snd <$> head fieldIxes))).
  { apply bind_Ok in Hr as (err & _ & [= <-]).
    split; [apply push_error_touches | apply push_error_nonempty]. }
  apply bind_Ok in Hr as ([varId selectedId] & _ & Hr).
  match type of Hr with
  | context [getVariable api ?a ?i ?v ?s ?m] =>
      pose proof (getVariable_sources api a i v s m) as Hsources;
      destruct (getVariable api a i v s m) as [[varId' ir1] n1]
  end.
  simpl in Hsources.
  apply IH in Hr. destruct r as [[[[src' ir'] q'] n']|[[[? ?] q'] ?]]; [|done].
  destruct Hr as (Hsrc & Hview & Hir & ->).
  split; [|split; [|split; [|done]]].
  - rewrite Hsrc. by destruct (default false _).
  - rewrite Hview. by destruct (default false _).
  - rewrite Hir. by destruct (value token).
Qed.

(** A source line: either no view has its fingerprint and an error is
    recorded, or a source is added for the view, under the identifier of the
    source at the same position of the previous IR when that one is of the
    same view. *)
Lemma reify_source_spec prev line ir q n r :
  reify_source api prev line ir q n = Ok r →
  match r with
  | Next (ir', q', n') =>
      (sources ir' = sources ir ∧ reify_touches q q' ∧ errors q' ≠ [])
      ∨ (q' = q
         ∧ ∃ fp view src,
             fingerprintSource line = Ok fp
             ∧ ixer_view_fingerprint api fp = Some view
             ∧ sources ir' = sources ir ++ [src]
             ∧ sourceView src = view
             ∧ ∀ s0, prev ≫= (λ p, sources p !! length (sources ir)) = Some s0 →
                     sourceView s0 = view → source src = source s0)
  | Break (ir', q', n') => reify_touches q q' ∧ errors q' ≠ []
  end.
Proof.
  unfold reify_source. intros Hr.
  apply bind_Ok in Hr as (fp & Hfp & Hr).
  destruct (ixer_view_fingerprint api fp) as [view|] eqn:Hview; simpl in Hr.
  2: { apply bind_Ok in Hr as (err & _ & [= <-]). left.
       split; [done|]. split; [apply push_error_touches|].
       apply push_error_nonempty. }
  destruct (negb (JsString.truthy view)) eqn:Htruthy.
  { apply bind_Ok in Hr as (err & _ & [= <-]). left.
    split; [done|]. split; [apply push_error_touches|].
    apply push_error_nonempty. }
  apply bind_Ok in Hr as (cs & _ & Hr).
  apply bind_Ok in Hr as (rf & Hfields & Hr).
  apply reify_fields_spec in Hfields.
  destruct rf as [[[[src' ir'] q'] n']|[[[? ?] q'] ?]]; injection Hr as <-;
    [|done].
  destruct Hfields as (Hsrc & Hsrcview & Hir & ->). right. split; [done|].
  exists fp, view, src'. split; [done|]. split; [done|].
  simpl in *. rewrite Hir. split; [done|]. split; [done|].
  intros s0 Hs0 Hv. rewrite Hsrc, Hs0. by apply String.eqb_eq in Hv as ->.
Qed.

Lemma reify_sort_fields_touches line src cs : ∀ sorted unsorted k q r,
  reify_sort_fields line src cs sorted unsorted k q = Ok r →
  reify_touches q r.2.
Proof.
  induction cs as [|chunk cs IH]; intros sorted unsorted k q r Hr;
    simpl in Hr.
  { injection Hr as <-. apply reify_touches_refl. }
  destruct (tokenIsField chunk); [|by eapply IH].
  destruct (List.find _ _).
  - apply bind_Ok in Hr as (d & _ & Hr). by eapply IH.
  - apply bind_Ok in Hr as (err & _ & Hr). apply IH in Hr.
    eapply reify_touches_trans; [apply push_error_touches | done].
Qed.


(** An ordinal line rewrites the last source and keeps its identifier. *)
Lemma reify_ordinal_spec prev line ir q n ir' q' n' :
  reify_ordinal api prev line ir q n = Ok (ir', q', n') →
  reify_touches q q'
  ∧ (source <$> sources ir') = (source <$> sources ir).
Proof.
  unfold reify_ordinal. intros Hr.
  destruct (last (sources ir)) as [src|] eqn:Hlast.
  2: { apply bind_Ok in Hr as (err & _ & [= <- <- <-]).
       split; [apply push_error_touches | done]. }
  apply bind_Ok in Hr as ([varId selectedId] & _ & Hr).
  match type of Hr with
  | context [getVariable api ?a ?i ?v ?s ?m] =>
      pose proof (getVariable_sources api a i v s m) as Hsources;
      destruct (getVariable api a i v s m) as [[varId' ir1] n1]
  end.
  simpl in Hsources.
  apply bind_Ok in Hr as (cs & _ & Hr).
  apply bind_Ok in Hr as ([[[sorted unsorted] k] q1] & Hsort & [= <- <- <-]).
  apply reify_sort_fields_touches in Hsort. split; [done|].
  simpl. rewrite Hsources.
  rewrite (last_snoc_removelast _ _ Hlast) at 2.
  by rewrite !fmap_app.
Qed.

(** The line loop only appends to the identifiers of the sources, as long
    as it records no error. *)
Lemma reify_lines_spec prev lines : ∀ ir q n ir' q' n',
  reify_lines api prev lines ir q n = Ok (ir', q', n') →
  reify_touches q q'
  ∧ (errors q' = [] →
     ∃ extra, (source <$> sources ir') = (source <$> sources ir) ++ extra).
Proof.
  induction lines as [|line lines IH]; intros ir q n ir' q' n' Hr;
    simpl in Hr.
  { injection Hr as <- <- <-. split; [apply reify_touches_refl|].
    exists []. by rewrite app_nil_r. }
  pose proof (set_q_lineIx_touches (lineIx line) q) as Hq0.
  destruct (tokenIsSource line).
  { apply bind_Ok in Hr as (r & Hsrc & Hr).
    apply reify_source_spec in Hsrc.
    destruct r as [[[ir1 q1] n1]|[[ir1 q1] n1]].
    - apply IH in Hr as [Htouch Hids].
      destruct Hsrc as [(Hsame & Ht & Hne)|(-> & fp & view & src & _ & _ & Happ & _)].
      + split.
        { exact (reify_touches_trans _ _ _ Hq0
                   (reify_touches_trans _ _ _ Ht Htouch)). }
        intros Hnone. destruct (touches_nonempty _ _ Htouch Hne Hnone).
      + split; [by eapply reify_touches_trans|].
        intros Hnone. destruct (Hids Hnone) as [extra Hextra].
        exists (source src :: extra).
        rewrite Hextra, Happ, fmap_app. simpl. by rewrite <- app_assoc.
    - injection Hr as <- <- <-. destruct Hsrc as [Ht Hne].
      split; [by eapply reify_touches_trans | done]. }
  destruct (tokenIsOrdinal line).
  { apply bind_Ok in Hr as ([[ir1 q1] n1] & Hord & Hr).
    apply reify_ordinal_spec in Hord as [Ht Hsame].
    apply IH in Hr as [Htouch Hids].
    split; [|by rewrite <- Hsame].
    exact (reify_touches_trans _ _ _ Hq0
             (reify_touches_trans _ _ _ Ht Htouch)). }
  destruct (tokenIsAction line).
  { apply bind_Ok in Hr as (err & _ & Hr).
    apply IH in Hr as [Htouch Hids].
    split; [|done].
    eapply reify_touches_trans; [done|].
    eapply reify_touches_trans; [apply push_error_touches | done]. }
  apply IH in Hr as [Htouch Hids].
  split; [by eapply reify_touches_trans | done].
Qed.
Lemma Query_parse_reset_fields (q : Query) (raw' : string) :
  let q0 := Query_parse_reset q raw' in
  reified q0 = None
  ∧ prev q0 = match reified q with Some r => Some r | None => prev q end.
Proof. done. Qed.

(** C1: a parse that ends with a reified IR, of a text whose first line is a
    source line of the view that the source at position 0 of the previously
    reified IR is bound to, gives the source at position 0 the identifier it
    had in that IR; the previously reified IR being the one in [reified] or,
    when a parse has failed since or the instance was made with it, the one
    in [prev]. *)
Theorem source_id_is_stable (q q' : Query) (raw' : string) (n n' : nat)
    (r : Returned) (prevIR ir : QueryIR) (s0 : SourceIR) (a line0 : Token)
    (rest : list Token) (fp : string) :
  previous_ir q = Some prevIR →
  sources prevIR !! 0 = Some s0 →
  Query_parse api q raw' n = Ok (q', n', r) →
  reified q' = Some ir →
  ast q' = Some a → chunks a = Some (line0 :: rest) →
  tokenIsSource line0 = true →
  fingerprintSource line0 = Ok fp →
  ixer_view_fingerprint api fp = Some (sourceView s0) →
  ∃ s, sources ir !! 0 = Some s ∧ source s = source s0.
Proof.
  intros Hprev Hs0 Hparse Hir Hast Hcs Hsource Hfp Hview.
  unfold Query_parse in Hparse.
  destruct (bool_decide (raw q = Some raw')).
  { injection Hparse as <- <- <-. unfold previous_ir in Hprev.
    rewrite Hir in Hprev. injection Hprev as ->. by exists s0. }
  apply bind_Ok in Hparse as (q1 & Hlines & Hparse).
  apply bind_Ok in Hparse as ([q2 n2] & Hreify & [= <- <- <-]).
  apply Query_parse_lines_frame in Hlines as (_ & Hreified1 & _ & _ & Hprev1).
  destruct (Query_parse_reset_fields q raw') as [Hreified0 Hprev0].
  rewrite Hreified0 in Hreified1. fold (previous_ir q) in Hprev0.
  rewrite Hprev0, Hprev in Hprev1.
  destruct (errors q1); [|injection Hreify as <- <-; congruence].
  unfold Query_reify in Hreify.
  destruct (ast q1) as [a1|] eqn:Hast1; [|injection Hreify as <- <-; congruence].
  rewrite Hreified1 in Hreify.
  destruct (or_uuid _ _ _) as [id n1].
  apply bind_Ok in Hreify as (cs & Hcs1 & Hreify).
  apply bind_Ok in Hreify as ([[irf qf] nf] & Hloop & Hreify).
  assert (ast qf = ast q1 ∧ errors qf = [] ∧ irf = ir ∧ ast q2 = ast qf)
    as (Hastf & Hnone & -> & Hast2).
  { pose proof (reify_lines_spec _ _ _ _ _ _ _ _ Hloop)
      as [(_ & Ht & _) _].
    split; [exact Ht|].
    destruct (errors qf); injection Hreify as <- <-; simpl in Hir;
      [|done]. split; [done|]. split; [congruence | done]. }
  rewrite Hast2, Hastf, Hast1 in Hast. injection Hast as ->.
  unfold chunks_of in Hcs1. rewrite Hcs in Hcs1. injection Hcs1 as <-.
  assert (tokenIsCalculation line0 = false) as Hcalc.
  { unfold tokenIsSource in Hsource. apply String.eqb_eq in Hsource.
    unfold tokenIsCalculation. by rewrite Hsource. }
  unfold reify_chunks in Hloop. simpl in Hloop. rewrite Hcalc in Hloop.
  simpl in Hloop. rewrite Hsource in Hloop.
  apply bind_Ok in Hloop as (r0 & Hsrc & Hloop).
  apply reify_source_spec in Hsrc.
  destruct r0 as [[[ir1 q3] n3]|[[ir1 q3] n3]].
  - apply reify_lines_spec in Hloop as [Htouch Hids].
    destruct Hsrc as [(_ & _ & Hne)|(-> & fp' & view & src & Hfp' & Hview'
                                      & Happ & _ & Hid)].
    { destruct (touches_nonempty _ _ Htouch Hne Hnone). }
    destruct (Hids Hnone) as [extra Hextra].
    rewrite Happ in Hextra. simpl in Hextra, Hid.
    rewrite Hprev1 in Hid. simpl in Hid.
    assert (view = sourceView s0) as -> by congruence.
    specialize (Hid s0 Hs0 eq_refl).
    destruct (sources ir) as [|s ss]; [done|].
    injection Hextra as Hs _. exists s. split; [done | congruence].
  - injection Hloop as <- <- <-. by destruct Hsrc as [_ ?].
Qed.

End SourceIds.

Lemma source_id_is_stable_witness :
  (∃ q' n' r prevIR ir s0 s,
     reified parsed_once = Some prevIR
     ∧ sources prevIR !! 0 = Some s0
     ∧ Query_parse (H := lexeme_numbers) demo_api parsed_once
         (text_of ["age ?x"; "# ?r by ?x ascending"]) 4 = Ok (q', n', r)
     ∧ reified q' = Some ir
     ∧ sources ir !! 0 = Some s ∧ source s = source s0)
  ∧ (∃ q' n' r prevIR ir s0 s,
       reified parsed_once = Some prevIR
       ∧ sources prevIR !! 0 = Some s0
       ∧ Query_parse (H := lexeme_numbers) demo_api
           (new_Query (Some prevIR)) "age ?x" 4 = Ok (q', n', r)
       ∧ reified q' = Some ir
       ∧ sources ir !! 0 = Some s ∧ source s = source s0).
Proof.
  destruct (reified parsed_once) as [prevIR|] eqn:Hprev;
    [|by vm_compute in Hprev].
  destruct (sources prevIR !! 0) as [s0|] eqn:Hs0.
  2: { vm_compute in Hprev. injection Hprev as <-. by vm_compute in Hs0. }
  split.
  - destruct (Query_parse (H := lexeme_numbers) demo_api parsed_once
                (text_of ["age ?x"; "# ?r by ?x ascending"]) 4)
      as [[[q' n'] r]|e|] eqn:Hp.
    2, 3: vm_compute in Hp; discriminate Hp.
    destruct (reified q') as [ir|] eqn:Hir.
    2: { vm_compute in Hp. injection Hp as <- <- <-. by vm_compute in Hir. }
    destruct (ast q') as [a|] eqn:Hast.
    2: { vm_compute in Hp. injection Hp as <- <- <-. by vm_compute in Hast. }
    destruct (chunks a) as [[|line0 rest]|] eqn:Hcs.
    1, 3: vm_compute in Hp; injection Hp as <- <- <-; vm_compute in Hast;
      injection Hast as <-; by vm_compute in Hcs.
    destruct (source_id_is_stable (H := lexeme_numbers) demo_api parsed_once q'
                (text_of ["age ?x"; "# ?r by ?x ascending"]) 4 n' r prevIR ir
                s0 a line0 rest "age ?") as (s & Hs & Hid);
      [by unfold previous_ir; rewrite Hprev | exact Hs0 | exact Hp | exact Hir
      | exact Hast | exact Hcs | | | |].
    + vm_compute in Hp. injection Hp as <- <- <-. vm_compute in Hast.
      injection Hast as <-. vm_compute in Hcs. by injection Hcs as <- <-.
    + vm_compute in Hp. injection Hp as <- <- <-. vm_compute in Hast.
      injection Hast as <-. vm_compute in Hcs. by injection Hcs as <- <-.
    + vm_compute in Hprev. injection Hprev as <-. vm_compute in Hs0.
      by injection Hs0 as <-.
    + exists q', n', r, prevIR, ir, s0, s. by repeat split.
  - destruct (Query_parse (H := lexeme_numbers) demo_api
                (new_Query (Some prevIR)) "age ?x" 4)
      as [[[q' n'] r]|e|] eqn:Hp.
    2, 3: vm_compute in Hprev; injection Hprev as <-; vm_compute in Hp;
      discriminate Hp.
    destruct (reified q') as [ir|] eqn:Hir.
    2: { vm_compute in Hprev. injection Hprev as <-. vm_compute in Hp.
         injection Hp as <- <- <-. by vm_compute in Hir. }
    destruct (ast q') as [a|] eqn:Hast.
    2: { vm_compute in Hprev. injection Hprev as <-. vm_compute in Hp.
         injection Hp as <- <- <-. by vm_compute in Hast. }
    destruct (chunks a) as [[|line0 rest]|] eqn:Hcs.
    1, 3: vm_compute in Hprev; injection Hprev as <-; vm_compute in Hp;
      injection Hp as <- <- <-; vm_compute in Hast;
      injection Hast as <-; by vm_compute in Hcs.
    destruct (source_id_is_stable (H := lexeme_numbers) demo_api
                (new_Query (Some prevIR)) q' "age ?x" 4 n' r prevIR ir
                s0 a line0 rest "age ?") as (s & Hs & Hid);
      [reflexivity | exact Hs0 | exact Hp | exact Hir
      | exact Hast | exact Hcs | | | |].
    + vm_compute in Hprev. injection Hprev as <-. vm_compute in Hp.
      injection Hp as <- <- <-. vm_compute in Hast.
      injection Hast as <-. vm_compute in Hcs. by injection Hcs as <- <-.
    + vm_compute in Hprev. injection Hprev as <-. vm_compute in Hp.
      injection Hp as <- <- <-. vm_compute in Hast.
      injection Hast as <-. vm_compute in Hcs. by injection Hcs as <- <-.
    + vm_compute in Hprev. injection Hprev as <-. vm_compute in Hs0.
      by injection Hs0 as <-.
    + exists q', n', r, prevIR, ir, s0, s. by repeat split.
Defined.

(* ------------------------------------------------------------------------- *)
(** ** Errors of lines are accumulated; exceptions are not caught *)
(* ------------------------------------------------------------------------- *)

Section Accumulation.
Context `{JsNumber}.

(** A turn of the line loop of [Query.parse] that completes pushes one
    chunk or one error. *)
Lemma Query_parse_line_adds_one (q q' : Query) k line cs :
  ast_chunks q = Ok cs →
  Query_parse_line q k line = Ok q' →
  (∃ c, ast_chunks q' = Ok (cs ++ [c]) ∧ errors q' = errors q)
  ∨ (∃ e, ast_chunks q' = Ok cs ∧ errors q' = errors q ++ [e]).
Proof.
  unfold Query_parse_line. intros Hcs Hp.
  apply bind_Ok in Hp as ([q1 o] & Ho & Hp).
  apply Query_line_outcome_instance in Ho.
  assert (ast_chunks q1 = Ok cs ∧ errors q1 = errors q) as [Hcs1 Herr1]
    by (by destruct Ho as [->| ->]).
  destruct o as [c|e].
  - left. exists c. apply push_chunk_frame in Hp as (_ & -> & ->).
    by rewrite Hcs1.
  - right. exists e. injection Hp as <-. simpl.
    split; [exact Hcs1 | by rewrite Herr1].
Qed.

Lemma Query_parse_lines_accumulate lines : ∀ (q q' : Query) k cs,
  ast_chunks q = Ok cs →
  Query_parse_lines q k lines = Ok q' →
  ∃ cs' es, ast_chunks q' = Ok (cs ++ cs') ∧ errors q' = errors q ++ es
            ∧ length cs' + length es = length lines.
Proof.
  induction lines as [|line lines IH]; intros q q' k cs Hcs Hp; simpl in Hp.
  { injection Hp as <-. exists [], []. by rewrite !app_nil_r. }
  apply bind_Ok in Hp as (q1 & H1 & Hp).
  destruct (Query_parse_line_adds_one _ _ _ _ _ Hcs H1)
    as [(c & Hcs1 & Herr1)|(e & Hcs1 & Herr1)];
    destruct (IH _ _ _ _ Hcs1 Hp) as (cs' & es & Hcs' & Herr' & Hlen).
  - exists (c :: cs'), es. rewrite Hcs', Herr', Herr1, <- app_assoc.
    split; [done|]. split; [done|]. simpl. lia.
  - exists cs', (e :: es). rewrite Hcs', Herr', Herr1, <- app_assoc.
    split; [done|]. split; [done|]. simpl. lia.
Qed.

Lemma adds_none (ui ui' : Ui) :
  u_errors ui' = u_errors ui → adds_an_error_at_most ui ui'.
Proof. intros Heq. exists []. rewrite app_nil_r. split; [done | simpl; lia]. Qed.

Lemma ui_push_error_adds (e : Error) (ui : Ui) :
  adds_an_error_at_most ui (ui_push_error e ui).
Proof. by exists [e]. Qed.

Lemma set_ui_chunks_adds (cs : list Token) (ui ui' : Ui) :
  set_ui_chunks cs ui = Ok ui' → adds_an_error_at_most ui ui'.
Proof.
  unfold set_ui_chunks. destruct (u_ast ui); [|done].
  intros [= <-]. by apply adds_none.
Qed.

Lemma ui_push_chunk_adds (c : Token) (ui ui' : Ui) :
  ui_push_chunk c ui = Ok ui' → adds_an_error_at_most ui ui'.
Proof.
  unfold ui_push_chunk. intros Hp.
  apply bind_Ok in Hp as (cs & _ & Hp). by eapply set_ui_chunks_adds.
Qed.

Lemma ui_fail_adds (ui ui' : Ui) msg token :
  ui_fail ui msg token = Ok ui' → adds_an_error_at_most ui ui'.
Proof.
  unfold ui_fail. intros Hp. apply bind_Ok in Hp as (e & _ & [= <-]).
  apply ui_push_error_adds.
Qed.

Create HintDb ui_errors.
Hint Resolve ui_push_error_adds : ui_errors.
Hint Extern 1 (adds_an_error_at_most _ _) =>
  (eapply ui_fail_adds; eassumption) : ui_errors.
Hint Extern 1 (adds_an_error_at_most _ _) =>
  (eapply ui_push_chunk_adds; eassumption) : ui_errors.
Hint Extern 1 (adds_an_error_at_most _ _) =>
  (eapply set_ui_chunks_adds; eassumption) : ui_errors.

Lemma Ui_parse_line_adds (ui ui' : Ui) k rawLine :
  Ui_parse_line ui k rawLine = Ok ui' → adds_an_error_at_most ui ui'.
Proof.
  unfold Ui_parse_line. intros Hp.
  apply bind_Ok in Hp as (tokens & _ & Hp).
  apply bind_Ok in Hp as ([consumed rest] & _ & Hp).
  assert (∀ u, adds_an_error_at_most (set_u_lineIx (Some (Z.of_nat k)) ui) u →
              adds_an_error_at_most ui u) as Hline by done.
  apply Hline. clear Hline.
  destruct rest as [|head rest]; [eauto with ui_errors|].
  unfold Ui_parse_attribute, Ui_parse_binding, Ui_parse_event,
    Ui_parse_element in Hp.
  invert_result; eauto with ui_errors.
Qed.

Lemma Ui_parse_lines_accumulate lines : ∀ (ui ui' : Ui) k,
  Ui_parse_lines ui k lines = Ok ui' →
  ∃ es, u_errors ui' = u_errors ui ++ es ∧ length es ≤ length lines.
Proof.
  induction lines as [|line lines IH]; intros ui ui' k Hp; simpl in Hp.
  { injection Hp as <-. exists []. by rewrite app_nil_r. }
  apply bind_Ok in Hp as (u1 & H1 & Hp).
  apply Ui_parse_line_adds in H1 as (es1 & He1 & Hlen1).
  apply IH in Hp as (es & He & Hlen).
  exists (es1 ++ es). rewrite He, He1, app_assoc, length_app.
  split; [done|]. simpl. lia.
Qed.

End Accumulation.

(* ------------------------------------------------------------------------- *)
(** ** The pieces of the tokenizer *)
(* ------------------------------------------------------------------------- *)

Section TokenizerPieces.

Lemma startsWith_length (t s : string) :
  JsString.startsWith t s = true → String.length t ≤ String.length s.
Proof.
  revert s; induction t as [|a t IH]; intros [|b s] Hp; simpl in *;
    try done; try lia.
  destruct (decide (a = b)); [|done]. apply IH in Hp. lia.
Qed.

Lemma indexOf_bound (s t : string) (i : nat) :
  JsString.indexOf s t = Some i → i + String.length t ≤ String.length s.
Proof.
  revert i; induction s as [|c s IH]; intros i; simpl.
  - destruct (JsString.startsWith t "") eqn:Hp; [|done].
    intros [= <-]. by apply startsWith_length in Hp.
  - destruct (JsString.startsWith t (String c s)) eqn:Hp.
    + intros [= <-]. by apply startsWith_length in Hp.
    + destruct (JsString.indexOf s t) as [j|]; [|done].
      intros [= <-]. specialize (IH j eq_refl). simpl. lia.
Qed.

Lemma startsWith_take (t s : string) (n : nat) :
  JsString.startsWith t (JsString.take n s) = true →
  JsString.startsWith t s = true.
Proof.
  revert s n; induction t as [|a t IH]; intros [|b s] [|n] Hp; simpl in *;
    try done.
  destruct (decide (a = b)); [|done]. by eapply IH.
Qed.

(** An occurrence in a prefix is an occurrence in the whole, no later. *)
Lemma indexOf_take (s t : string) (n i : nat) :
  JsString.indexOf (JsString.take n s) t = Some i →
  ∃ j, JsString.indexOf s t = Some j ∧ j ≤ i.
Proof.
  revert n i; induction s as [|c s IH]; intros n i Hi.
  - destruct n; simpl in *; exists i; done.
  - destruct n as [|n]; simpl in Hi.
    + destruct (JsString.startsWith t "") eqn:Hp; [|done].
      injection Hi as <-. exists 0. split; [|done].
      destruct t; [|done]. done.
    + destruct (JsString.startsWith t (String c (JsString.take n s))) eqn:Hp.
      * injection Hi as <-. exists 0. split; [|done].
        apply (startsWith_take t (String c s) (S n)) in Hp.
        simpl. by rewrite Hp.
      * destruct (JsString.indexOf (JsString.take n s) t) as [i'|] eqn:Hi';
          [|done].
        injection Hi as <-. destruct (IH n i' Hi') as (j & Hj & Hle).
        simpl. destruct (JsString.startsWith t (String c s)).
        -- exists 0. split; [done | lia].
        -- exists (S j). rewrite Hj. split; [done | lia].
Qed.

(** The scan ends with the least index at which a token of the alphabet
    occurs. *)
Lemma tokenizer_scan_least (tokens : list string) (raw : string) :
  ∀ t ix, t ∈ tokens → JsString.indexOf raw t = Some ix →
    (foldl (tokenizer_pick raw) (String.length raw, raw) tokens).1 ≤ ix.
Proof.
  induction tokens as [|t' tokens IH] using rev_ind; intros t ix Hin Hix.
  { by apply elem_of_nil in Hin. }
  rewrite foldl_app. simpl.
  set (acc := foldl (tokenizer_pick raw) (String.length raw, raw) tokens) in *.
  assert ((tokenizer_pick raw acc t').1 ≤ acc.1) as Hstep.
  { unfold tokenizer_pick. destruct (JsString.indexOf raw t') as [j|]; [|done].
    destruct (j <? acc.1) eqn:Hlt; [|done]. apply Nat.ltb_lt in Hlt.
    simpl. lia. }
  apply elem_of_app in Hin as [Hin|Hin%list_elem_of_singleton].
  - specialize (IH t ix Hin Hix). lia.
  - subst t'. unfold tokenizer_pick. rewrite Hix.
    destruct (ix <? acc.1) eqn:Hlt; simpl; [done|].
    apply Nat.ltb_ge in Hlt. lia.
Qed.

Lemma take_length (n : nat) (s : string) :
  n ≤ String.length s → String.length (JsString.take n s) = n.
Proof.
  revert s; induction n as [|n IH]; intros [|c s] Hle; simpl in *;
    try done; try lia.
  rewrite IH; lia.
Qed.

Lemma tokenizer_step_pieces (tokens : list string) (raw : string) :
  Forall (λ t, t ≠ "") tokens → raw ≠ "" →
  Forall (piece_ok tokens) (tokenizer_step tokens raw).1.
Proof.
  intros Hall Hraw. unfold tokenizer_step.
  pose proof (tokenizer_scan tokens raw) as Hscan.
  pose proof (tokenizer_scan_least tokens raw) as Hleast.
  simpl in Hscan.
  destruct (foldl (tokenizer_pick raw) (String.length raw, raw) tokens)
    as [minIx minToken].
  rewrite Forall_forall in Hall. simpl in *.
  assert (∀ n s, n ≤ minIx → n ≤ String.length raw → s = JsString.take n raw →
            ∀ t, t ∈ tokens → JsString.indexOf s t = None) as Hfree.
  { intros n s Hn Hlen -> t Ht.
    destruct (JsString.indexOf (JsString.take n raw) t) as [i|] eqn:Hi; [|done].
    pose proof (indexOf_bound _ _ _ Hi) as Hb. rewrite take_length in Hb by done.
    apply indexOf_take in Hi as (j & Hj & Hle).
    specialize (Hleast t j Ht Hj). specialize (Hall t Ht).
    destruct t; [done|]. simpl in Hb. lia. }
  destruct Hscan as [[= -> ->]|(Hin & Hix & Hlt)].
  - rewrite Nat.ltb_irrefl, andb_false_r. simpl.
    constructor; [|constructor]. split; [done|]. right.
    apply (Hfree (String.length raw)); [done..|].
    clear. induction raw as [|c s IH]; simpl; [done | by rewrite <- IH].
  - apply Nat.ltb_lt in Hlt as Hlt'. rewrite Hlt', andb_true_r.
    assert (piece_ok tokens minToken) as Htok.
    { split; [by apply Hall | by left]. }
    destruct (0 <? minIx) eqn:H0; simpl; [|by constructor; [|constructor]].
    constructor; [|by constructor; [|constructor]].
    apply Nat.ltb_lt in H0. split.
    + intros Hempty.
      pose proof (take_length minIx raw ltac:(lia)) as Hlen.
      rewrite Hempty in Hlen. simpl in Hlen. lia.
    + right. apply (Hfree minIx); [done | lia | done].
Qed.

Lemma tokenizer_loop_pieces (tokens : list string) :
  Forall (λ t, t ≠ "") tokens →
  ∀ fuel raw results pieces,
    Forall (piece_ok tokens) results →
    tokenizer_loop tokens fuel raw results = Some pieces →
    Forall (piece_ok tokens) pieces.
Proof.
  intros Hall fuel; induction fuel as [|fuel IH];
    intros raw results pieces Hres Hloop.
  - destruct raw; [by injection Hloop as <- | done].
  - destruct raw as [|c raw]; [by injection Hloop as <-|].
    simpl in Hloop.
    pose proof (tokenizer_step_pieces tokens (String c raw) Hall ltac:(done))
      as Hstep.
    destruct (tokenizer_step tokens (String c raw)) as [pushed rest].
    eapply IH; [|exact Hloop]. apply Forall_app. by split.
Qed.

End TokenizerPieces.



(* ------------------------------------------------------------------------- *)
(** ** The token consumers *)
(* ------------------------------------------------------------------------- *)

Section Consumers.
Context `{JsNumber}.

Lemma consumeWhile_from_spec needles err tokens : ∀ res,
  ∃ consumed rest,
    tokens = consumed ++ rest
    ∧ Forall (λ t, t ∈ needles) consumed
    ∧ (∀ t, head rest = Some t → t ∉ needles)
    ∧ consumeWhile_from res needles tokens err
      = match rest, err with
        | [], Some e => Throw e
        | _, _ => Ok (res +:+ JsString.join consumed, rest)
        end.
Proof.
  induction tokens as [|t tokens IH]; intros res.
  - exists [], []. simpl. rewrite string_app_nil_r.
    split; [done|]. split; [constructor|]. split; [done|]. by destruct err.
  - simpl. unfold among. destruct (bool_decide (t ∈ needles)) eqn:Hin.
    + apply bool_decide_eq_true in Hin.
      destruct (IH (res +:+ t)) as (consumed & rest & -> & Hall & Hhead & Heq).
      exists (t :: consumed), rest. split; [done|].
      split; [by constructor|]. split; [done|].
      rewrite Heq. unfold JsString.join. simpl.
      by rewrite string_app_assoc.
    + apply bool_decide_eq_false in Hin.
      exists [], (t :: tokens). simpl. rewrite string_app_nil_r.
      split; [done|]. split; [constructor|]. split; [by intros ? [= <-] | done].
Qed.

Lemma consumeUntil_from_spec needles err tokens : ∀ res,
  ∃ consumed rest,
    tokens = consumed ++ rest
    ∧ Forall (λ t, t ∉ needles) consumed
    ∧ (∀ t, head rest = Some t → t ∈ needles)
    ∧ consumeUntil_from res needles tokens err
      = match rest, err with
        | [], Some e => Throw e
        | _, _ => Ok (res +:+ JsString.join consumed, rest)
        end.
Proof.
  induction tokens as [|t tokens IH]; intros res.
  - exists [], []. simpl. rewrite string_app_nil_r.
    split; [done|]. split; [constructor|]. split; [done|]. by destruct err.
  - simpl. unfold among. destruct (bool_decide (t ∈ needles)) eqn:Hin.
    + apply bool_decide_eq_true in Hin.
      exists [], (t :: tokens). simpl. rewrite string_app_nil_r.
      split; [done|]. split; [constructor|]. split; [by intros ? [= <-] | done].
    + apply bool_decide_eq_false in Hin.
      destruct (IH (res +:+ t)) as (consumed & rest & -> & Hall & Hhead & Heq).
      exists (t :: consumed), rest. split; [done|].
      split; [by constructor|]. split; [done|].
      rewrite Heq. unfold JsString.join. simpl.
      by rewrite string_app_assoc.
Qed.

(** [consumeWhile] takes the longest run of needles off the front of the
    tokens and returns it joined; what is left starts with a token that is
    no needle.  Given an error to throw, it throws it exactly when the
    tokens are needles to the last. *)
Theorem consumeWhile_longest_run (needles tokens : list string)
    (err : option Error) :
  ∃ consumed rest,
    tokens = consumed ++ rest
    ∧ Forall (λ t, t ∈ needles) consumed
    ∧ (∀ t, head rest = Some t → t ∉ needles)
    ∧ consumeWhile needles tokens err
      = match rest, err with
        | [], Some e => Throw e
        | _, _ => Ok (JsString.join consumed, rest)
        end.
Proof. apply (consumeWhile_from_spec needles err tokens ""). Qed.

(** [consumeUntil] takes the tokens before the first needle off the front and
    returns them joined; what is left starts with that needle.  Given an
    error to throw, it throws it exactly when there is no needle. *)
Theorem consumeUntil_first_needle (needles tokens : list string)
    (err : option Error) :
  ∃ consumed rest,
    tokens = consumed ++ rest
    ∧ Forall (λ t, t ∉ needles) consumed
    ∧ (∀ t, head rest = Some t → t ∈ needles)
    ∧ consumeUntil needles tokens err
      = match rest, err with
        | [], Some e => Throw e
        | _, _ => Ok (JsString.join consumed, rest)
        end.
Proof. apply (consumeUntil_from_spec needles err tokens ""). Qed.

End Consumers.

(* ------------------------------------------------------------------------- *)
(** ** Fingerprints and variables *)
(* ------------------------------------------------------------------------- *)

Section Fingerprints.
Context `{JsNumber}.

Lemma bare_field_cases (t : Token) :
  (tokenIsField t = true ∧ bare_field t = obj "field")
  ∨ (tokenIsField t = false ∧ bare_field t = t).
Proof. unfold bare_field. destruct (tokenIsField t); [by left | by right]. Qed.

Lemma fingerprint_from_bare cs : ∀ fp,
  fingerprint_from fp (bare_field <$> cs) = fingerprint_from fp cs.
Proof.
  induction cs as [|t cs IH]; intros fp; [done|].
  rewrite fmap_cons. cbn [fingerprint_from].
  destruct (bare_field_cases t) as [[Hf ->]|[Hf ->]]; rewrite Hf.
  - change (tokenIsField (obj "field")) with true. simpl. apply IH.
  - destruct (tokenToString t); simpl; [apply IH | done..].
Qed.

(** The fingerprint of a source line does not depend on the aliases, the
    grouping or the values of its fields, only on where they stand. *)
Theorem fingerprintSource_ignores_fields (ast : Token) (cs : list Token) :
  fingerprintSource (set_chunks (Some (bare_field <$> cs)) ast)
  = fingerprintSource (set_chunks (Some cs) ast).
Proof.
  unfold fingerprintSource, chunks_of. simpl.
  destruct cs as [|head rest]; [done|].
  pose proof (fingerprint_from_bare (head :: rest)) as Hall.
  rewrite fmap_cons in *.
  destruct (bare_field_cases head) as [[Hf Hb]|[Hf Hb]]; rewrite Hb in *.
  - assert (tokenIsText head = false) as ->.
    { unfold tokenIsField in Hf. apply String.eqb_eq in Hf.
      unfold tokenIsText. by rewrite Hf. }
    change (tokenIsText (obj "field")) with false. cbn iota. apply Hall.
  - destruct (tokenIsText head); [|apply Hall].
    destruct (text head) as [t|]; [|done].
    repeat case_match; first [apply Hall | apply fingerprint_from_bare].
Qed.

End Fingerprints.

Section Variables.
Context `{JsNumber}.
Context (api : Api).









Lemma ordinary_empty : ordinary "".
Proof. done. Qed.






End Variables.

(* ------------------------------------------------------------------------- *)
(** ** Parsing the same text again *)
(* ------------------------------------------------------------------------- *)

Section ParseTwice.
Context `{JsNumber}.
Context (api : Api).

(** [Query.reify] keeps the text, the AST and, on an instance whose
    [reified] is unset, [prev]. *)
Lemma Query_reify_frame (q q' : Query) (n n' : nat) :
  Query_reify api q n = Ok (q', n') →
  raw q' = raw q ∧ ast q' = ast q
  ∧ (reified q = None → prev q' = prev q).
Proof.
  unfold Query_reify. intros Hr.
  destruct (ast q) as [a|] eqn:Ha; [|by injection Hr as <- <-].
  destruct (or_uuid _ _ _) as [id n1].
  apply bind_Ok in Hr as (cs & _ & Hr).
  apply bind_Ok in Hr as ([[ir qf] nf] & Hloop & Hr).
  apply reify_lines_spec in Hloop as [(Hraw & Hast & _ & _ & Hprev & _) _].
  simpl in *.
  assert (raw q' = raw qf ∧ ast q' = ast qf ∧ prev q' = prev qf)
    as (-> & -> & ->) by (destruct (errors qf); by injection Hr as <- <-).
  rewrite Hraw, Hast, Hprev. destruct (reified q); simpl; [|done].
  rewrite Ha. by repeat split.
Qed.

Lemma Query_parse_sets_raw (q q' : Query) raw' n n' r :
  Query_parse api q raw' n = Ok (q', n', r) → raw q' = Some raw'.
Proof.
  unfold Query_parse. intros Hp.
  destruct (bool_decide (raw q = Some raw')) eqn:Hmemo.
  { apply bool_decide_eq_true in Hmemo. by injection Hp as <- <- <-. }
  apply bind_Ok in Hp as (q1 & Hlines & Hp).
  apply bind_Ok in Hp as ([q2 n2] & Hreify & [= <- <- <-]).
  apply Query_parse_lines_frame in Hlines as (Hraw1 & _).
  destruct (errors q1); [|by injection Hreify as <- <-].
  apply Query_reify_frame in Hreify as (-> & _). by rewrite Hraw1.
Qed.

Lemma Ui_parse_sets_raw (ui ui' : Ui) raw' n n' r :
  Ui_parse api ui raw' n = Ok (ui', n', r) → u_raw ui' = Some raw'.
Proof.
  unfold Ui_parse. intros Hp.
  destruct (bool_decide (u_raw ui = Some raw')) eqn:Hmemo.
  { apply bool_decide_eq_true in Hmemo. by injection Hp as <- <- <-. }
  apply bind_Ok in Hp as (u1 & Hlines & Hp).
  apply bind_Ok in Hp as ([u2 n2] & Hreify & [= <- <- <-]).
  apply Ui_parse_lines_frame in Hlines as (Hraw1 & Hreified1 & _ & _ & _ & Hast1).
  destruct (u_errors u1); [|by injection Hreify as <- <-].
  apply Ui_reify_frame in Hreify as (-> & _); [by rewrite Hraw1 | done |].
  by apply Hast1.
Qed.

(** Parsing is idempotent: after a call of [parse] that completes, a second
    call on the same text returns the instance at once, changes nothing of
    it and draws no identifier; for a [Query] and for a [Ui]. *)
Theorem parse_twice :
  (∀ (q q' : Query) raw' n n' r,
     Query_parse api q raw' n = Ok (q', n', r) →
     Query_parse api q' raw' n' = Ok (q', n', ReturnsThis))
  ∧ (∀ (ui ui' : Ui) raw' n n' r,
       Ui_parse api ui raw' n = Ok (ui', n', r) →
       Ui_parse api ui' raw' n' = Ok (ui', n', ReturnsThis)).
Proof.
  split.
  - intros q q' raw' n n' r Hp. apply Query_parse_sets_raw in Hp.
    unfold Query_parse. by rewrite bool_decide_eq_true_2.
  - intros ui ui' raw' n n' r Hp. apply Ui_parse_sets_raw in Hp.
    unfold Ui_parse. by rewrite bool_decide_eq_true_2.
Qed.

(** After a parse of new text that completes, [prev] holds the IR that was
    reified before the call, or what it held if there was none: an IR that
    failed to reify never becomes [prev]. *)
Theorem prev_is_the_last_reified (q q' : Query) raw' n n' r :
  raw q ≠ Some raw' →
  Query_parse api q raw' n = Ok (q', n', r) →
  prev q' = match reified q with Some ir => Some ir | None => prev q end.
Proof.
  unfold Query_parse. intros Hnew Hp.
  rewrite bool_decide_eq_false_2 in Hp by done.
  apply bind_Ok in Hp as (q1 & Hlines & Hp).
  apply bind_Ok in Hp as ([q2 n2] & Hreify & [= <- <- <-]).
  apply Query_parse_lines_frame in Hlines as (_ & Hreified1 & _ & _ & Hprev1).
  destruct (errors q1); [|by injection Hreify as <- <-].
  apply Query_reify_frame in Hreify as (_ & _ & Hprev); [|done..].
  by rewrite Hprev.
Qed.

End ParseTwice.

(* ------------------------------------------------------------------------- *)
(** ** The identifier of a query across parses *)
(* ------------------------------------------------------------------------- *)

Section QueryId.
Context `{JsNumber}.
Context (api : Api).







End QueryId.

(* ------------------------------------------------------------------------- *)
(** ** The identifiers of elements across parses *)
(* ------------------------------------------------------------------------- *)

Section ElementIds.
Context `{JsNumber}.
Context (api : Api).





End ElementIds.

(* ------------------------------------------------------------------------- *)
(** ** Termination *)
(* ------------------------------------------------------------------------- *)

Section Termination.
Context `{JsNumber}.

Lemma halts_Ok {A : Type} (a : A) : halts (Ok a).
Proof. done. Qed.
Lemma halts_Throw {A : Type} (e : Error) : halts (Throw (A:=A) e).
Proof. done. Qed.
Lemma halts_bind {A B : Type} (m : Res A) (f : A → Res B) :
  halts m → (∀ a, m = Ok a → halts (f a)) → halts (m ≫= f).
Proof. destruct m; simpl; [eauto | done..]. Qed.

Lemma tokenToString_halts : ∀ t : Token, halts (tokenToString t).
Proof.
  fix IH 1. intros [ty tix lix ind cs txt grp al val ng dirs pix tg cl nm prop
                    av st ev ky].
  simpl. destruct (String.eqb ty "calculation" && truthy_opt txt); [done|].
  destruct cs as [cs|].
  - generalize (@None (option nat)).
    generalize (match ind with Some n => JsText.spaces n | None => "" end).
    induction cs as [|chunk cs IHcs]; intros res prev; [done|].
    apply halts_bind; [apply IH|]. intros s _. apply IHcs.
  - repeat case_match; try done.
    all: repeat (apply halts_bind; [|intros ? ?]); try done; try apply IH.
Qed.

Create HintDb halts.
Hint Resolve halts_Ok halts_Throw tokenToString_halts : halts.

(** One step of a proof that a call halts: through a bind, a branch or a
    call known to halt. *)
Ltac halts_step :=
  match goal with
  | |- halts (Ok _) => apply halts_Ok
  | |- halts (Throw _) => apply halts_Throw
  | |- halts (_ ≫= _) => apply halts_bind; [|intros ? ?]
  | |- halts (match ?x with _ => _ end) =>
      lazymatch type of x with
      | Res _ =>
          let Hx := fresh in
          assert (halts x) as Hx by eauto with halts;
          destruct x eqn:?; [| |exfalso; by apply Hx]
      | _ => destruct x eqn:?
      end
  | |- halts (if ?x then _ else _) => destruct x eqn:?
  | |- halts (let '(_, _) := ?x in _) => destruct x eqn:?
  | |- halts _ => solve [eauto with halts]
  end.
Ltac halts := repeat halts_step.

Lemma ParseError_halts msg token : halts (ParseError msg token).
Proof. unfold ParseError. halts. Qed.
Hint Resolve ParseError_halts : halts.

Lemma Query_parseError_halts (q : Query) msg token :
  halts (Query_parseError q msg token).
Proof. unfold Query_parseError. halts. Qed.
Lemma Ui_parseError_halts (ui : Ui) msg token :
  halts (Ui_parseError ui msg token).
Proof. unfold Ui_parseError. halts. Qed.
Hint Resolve Query_parseError_halts Ui_parseError_halts : halts.

Lemma consume_halts needles tokens err : halts (consume needles tokens err).
Proof. unfold consume. halts. Qed.
Lemma consumeWhile_from_halts needles err tokens : ∀ res,
  halts (consumeWhile_from res needles tokens err).
Proof. induction tokens; intros res; simpl; halts. Qed.
Lemma consumeUntil_from_halts needles err tokens : ∀ res,
  halts (consumeUntil_from res needles tokens err).
Proof. induction tokens; intros res; simpl; halts. Qed.
Lemma consumeWhile_halts needles tokens err :
  halts (consumeWhile needles tokens err).
Proof. apply consumeWhile_from_halts. Qed.
Lemma consumeUntil_halts needles tokens err :
  halts (consumeUntil needles tokens err).
Proof. apply consumeUntil_from_halts. Qed.
Hint Resolve consume_halts consumeWhile_halts consumeUntil_halts : halts.

Lemma parseField_halts parseError tokens tokenIx :
  (∀ msg token, halts (parseError msg token)) →
  halts (parseField parseError tokens tokenIx).
Proof.
  intros Hpe. unfold parseField. halts.
Qed.
Hint Resolve parseField_halts : halts.

Lemma tokenize_halts (alphabet : list string) (line : string) :
  Forall (λ t, t ≠ "") alphabet → halts (tokenize alphabet line).
Proof.
  intros Hall. unfold tokenize, makeTokenizer.
  destruct (tokenizer_loop_total alphabet Hall (String.length line) line)
    as (pieces & _ & Hfuel); [done|].
  by rewrite (Hfuel (String.length line) []).
Qed.

Lemma Query_tokenize_halts line : halts (Query_tokenize line).
Proof. apply tokenize_halts. repeat constructor; discriminate. Qed.
Lemma Ui_tokenize_halts line : halts (Ui_tokenize line).
Proof. apply tokenize_halts. repeat constructor; discriminate. Qed.
Hint Resolve Query_tokenize_halts Ui_tokenize_halts : halts.

Lemma consume_length needles tokens r rest :
  consume needles tokens None = Ok (r, rest) →
  length rest ≤ length tokens
  ∧ (truthy_opt r = true → length rest < length tokens).
Proof.
  unfold consume. destruct tokens as [|head tokens]; [by intros [= <- <-]|].
  destruct (among needles head); intros [= <- <-]; simpl; split; try done;
    lia.
Qed.

Lemma consumeUntil_length needles err tokens text rest :
  consumeUntil needles tokens err = Ok (text, rest) →
  length rest ≤ length tokens
  ∧ (JsString.truthy text = true → length rest < length tokens).
Proof.
  destruct (consumeUntil_from_spec needles err tokens "")
    as (consumed & rest' & -> & _ & _ & Heq).
  unfold consumeUntil. rewrite Heq. intros Hr.
  assert (text = JsString.join consumed ∧ rest = rest') as [-> ->].
  { by destruct rest', err; simplify_eq/=. }
  rewrite length_app. split; [lia|].
  destruct consumed; [done | simpl; lia].
Qed.

Lemma parseField_progress parseError tokens tokenIx r :
  parseField parseError tokens tokenIx = Ok r → makes_progress tokens r.
Proof.
  unfold parseField, makes_progress. intros Hp.
  apply bind_Ok in Hp as ([q1 t1] & H1 & Hp).
  apply consume_length in H1 as [Hle1 Hlt1].
  destruct (truthy_opt q1).
  - apply bind_Ok in Hp as ([q2 t2] & H2 & Hp).
    apply consume_length in H2 as [Hle2 _]. specialize (Hlt1 eq_refl).
    repeat case_match; simplify_eq/=; lia.
  - apply bind_Ok in Hp as ([bq t2] & H2 & Hp).
    apply consume_length in H2 as [Hle2 Hlt2].
    destruct (truthy_opt bq); [|injection Hp as <-; simpl; lia].
    specialize (Hlt2 eq_refl).
    destruct (parseError _ _) as [err| |]; [|by injection Hp as <-|done].
    destruct (consumeUntil _ _ _) as [[literal t3]| |] eqn:H3;
      [|by injection Hp as <-|done].
    apply consumeUntil_length in H3 as [Hle3 _].
    injection Hp as <-. simpl. destruct t3; simpl in *; lia.
Qed.

Lemma Query_parseKeyword_progress tokens tokenIx :
  makes_progress tokens (Query_parseKeyword tokens tokenIx).
Proof.
  unfold Query_parseKeyword, makes_progress.
  repeat case_match; simplify_eq/=; try done; lia.
Qed.

Lemma Query_parseStructure_progress tokens tokenIx r :
  Query_parseStructure tokens tokenIx = Ok r → makes_progress tokens r.
Proof.
  unfold Query_parseStructure, makes_progress. intros Hp.
  apply bind_Ok in Hp as ([text rest] & Hc & Hp).
  apply consumeUntil_length in Hc as [Hle Hlt].
  destruct (JsString.truthy text); injection Hp as <-; simpl; [|done].
  by apply Hlt.
Qed.

Lemma Query_parseStructure_halts tokens tokenIx :
  halts (Query_parseStructure tokens tokenIx).
Proof. unfold Query_parseStructure. halts. Qed.
Hint Resolve Query_parseStructure_halts : halts.

(** The loop of [Query.parseLine] ends within one turn per token. *)
Lemma Query_parseLine_loop_halts (q : Query) tokensLength lineIx :
  ∀ fuel tokens chunks, length tokens ≤ fuel →
    halts (Query_parseLine_loop q fuel tokensLength lineIx tokens chunks).
Proof.
  induction fuel as [|fuel IH]; intros tokens chunks Hlen.
  { destruct tokens; [done | simpl in Hlen; lia]. }
  destruct tokens as [|t tokens]; [done|].
  cbn [Query_parseLine_loop].
  set (tokenIx := tokensLength - length (t :: tokens) + 1).
  apply halts_bind; [eauto with halts|]. intros [token rest] Hfield.
  apply parseField_progress in Hfield. unfold makes_progress in Hfield.
  simpl in Hfield.
  apply halts_bind.
  { destruct token; [|done..].
    destruct (Query_parseKeyword rest tokenIx) as [[| |] ?]; halts. }
  intros [token' rest'] Hnext.
  assert (match token' with
          | Node _ => length rest' < length (t :: tokens)
          | _ => True
          end) as Hprogress.
  { destruct token' as [|t'|]; [done| |done].
    destruct token as [|t0|e0]; [|by injection Hnext as <- <-|done].
    pose proof (Query_parseKeyword_progress rest tokenIx) as Hkw.
    unfold makes_progress in Hkw.
    destruct (Query_parseKeyword rest tokenIx) as [[| |] rest1] eqn:Hk;
      simpl in Hkw.
    - apply Query_parseStructure_progress in Hnext.
      unfold makes_progress in Hnext. simpl in *. lia.
    - injection Hnext as <- <-. simpl in *. lia.
    - by injection Hnext. }
  destruct token' as [|t'|e']; [halts | | halts].
  apply IH. simpl in *. lia.
Qed.

Lemma Query_parseLine_halts (q : Query) tokens lineIx :
  halts (Query_parseLine q tokens lineIx).
Proof.
  unfold Query_parseLine.
  apply halts_bind; [eauto with halts|]. intros [padding rest] _.
  apply halts_bind; [by apply Query_parseLine_loop_halts|].
  intros r _. halts.
Qed.
Hint Resolve Query_parseLine_halts : halts.

Lemma stringify_all_halts cs : halts (stringify_all cs).
Proof. induction cs; simpl; halts. Qed.
Lemma chunks_of_halts line : halts (chunks_of line).
Proof. unfold chunks_of. halts. Qed.
Lemma ast_chunks_halts (q : Query) : halts (ast_chunks q).
Proof. unfold ast_chunks, chunks_of. halts. Qed.
Hint Resolve stringify_all_halts chunks_of_halts ast_chunks_halts : halts.

Lemma Query_processAction_halts (q : Query) line :
  halts (Query_processAction q line).
Proof. unfold Query_processAction. halts. Qed.

Lemma calc_loop_halts (q : Query) line resultAlias tokens :
  ∀ cur below nextIx lines,
    halts (calc_loop q line resultAlias tokens cur below nextIx lines).
Proof. induction tokens; intros; simpl; halts. Qed.
Hint Resolve calc_loop_halts : halts.

Lemma Query_processCalculation_halts (q : Query) line :
  halts (Query_processCalculation q line).
Proof. unfold Query_processCalculation. halts. Qed.

Lemma ordinal_loop_halts cs : ∀ k directions,
  halts (ordinal_loop cs k directions).
Proof. induction cs; intros; simpl; halts. Qed.
Hint Resolve ordinal_loop_halts : halts.

Lemma Query_processOrdinal_halts (q : Query) line :
  halts (Query_processOrdinal q line).
Proof. unfold Query_processOrdinal. halts. Qed.

Lemma Query_processSource_halts line : halts (Query_processSource line).
Proof. unfold Query_processSource. halts. Qed.
Hint Resolve Query_processAction_halts Query_processCalculation_halts
  Query_processOrdinal_halts Query_processSource_halts : halts.

Lemma Query_classify_halts (q : Query) parsed :
  halts (Query_classify q parsed).
Proof. unfold Query_classify. halts. Qed.
Hint Resolve Query_classify_halts : halts.

Lemma Query_line_outcome_halts (q : Query) k line :
  halts (Query_line_outcome q k line).
Proof. unfold Query_line_outcome. halts. Qed.
Hint Resolve Query_line_outcome_halts : halts.

Lemma push_chunk_halts c (q : Query) : halts (push_chunk c q).
Proof. unfold push_chunk. halts. Qed.
Hint Resolve push_chunk_halts : halts.

Lemma Query_parse_line_halts (q : Query) k line :
  halts (Query_parse_line q k line).
Proof. unfold Query_parse_line. halts. Qed.
Hint Resolve Query_parse_line_halts : halts.

Lemma Query_parse_lines_halts lines : ∀ (q : Query) k,
  halts (Query_parse_lines q k lines).
Proof. induction lines; intros; simpl; halts. Qed.
Hint Resolve Query_parse_lines_halts : halts.

Section Reify.
Context (api : Api).

Lemma fingerprint_from_halts cs : ∀ fp, halts (fingerprint_from fp cs).
Proof. induction cs; intros; simpl; halts. Qed.
Hint Resolve fingerprint_from_halts : halts.

Lemma fingerprintSource_halts ast : halts (fingerprintSource ast).
Proof. unfold fingerprintSource. halts. Qed.
Hint Resolve fingerprintSource_halts : halts.

Lemma selected_of_halts ir varId : halts (selected_of ir varId).
Proof. unfold selected_of. halts. Qed.
Hint Resolve selected_of_halts : halts.

Lemma previous_variable_halts prev alias :
  halts (previous_variable prev alias).
Proof. unfold previous_variable. halts. Qed.
Hint Resolve previous_variable_halts : halts.

Lemma reify_fields_halts prev fingerprint cs : ∀ src fieldIxes ir q n,
  halts (reify_fields api prev fingerprint cs src fieldIxes ir q n).
Proof. induction cs; intros; simpl; halts. Qed.
Hint Resolve reify_fields_halts : halts.

Lemma reify_source_halts prev line ir q n :
  halts (reify_source api prev line ir q n).
Proof. unfold reify_source. halts. Qed.

Lemma direction_at_halts line i : halts (direction_at line i).
Proof. unfold direction_at. halts. Qed.
Hint Resolve direction_at_halts reify_source_halts : halts.

Lemma reify_sort_fields_halts line src cs : ∀ sorted unsorted k q,
  halts (reify_sort_fields line src cs sorted unsorted k q).
Proof. induction cs; intros; simpl; halts. Qed.
Hint Resolve reify_sort_fields_halts : halts.

Lemma reify_ordinal_halts prev line ir q n :
  halts (reify_ordinal api prev line ir q n).
Proof. unfold reify_ordinal. halts. Qed.
Hint Resolve reify_ordinal_halts : halts.

Lemma reify_lines_halts prev lines : ∀ ir q n,
  halts (reify_lines api prev lines ir q n).
Proof. induction lines; intros; simpl; halts. Qed.
Hint Resolve reify_lines_halts : halts.

Lemma Query_reify_halts (q : Query) n : halts (Query_reify api q n).
Proof. unfold Query_reify. halts. Qed.
Hint Resolve Query_reify_halts : halts.

Lemma Query_parse_halts (q : Query) raw' n : halts (Query_parse api q raw' n).
Proof. unfold Query_parse. halts. Qed.
Hint Resolve Query_parse_halts : halts.

Lemma ui_ast_chunks_halts (ui : Ui) : halts (ui_ast_chunks ui).
Proof. unfold ui_ast_chunks. halts. Qed.
Lemma set_ui_chunks_halts cs (ui : Ui) : halts (set_ui_chunks cs ui).
Proof. unfold set_ui_chunks. halts. Qed.
Hint Resolve ui_ast_chunks_halts set_ui_chunks_halts : halts.
Lemma ui_push_chunk_halts c (ui : Ui) : halts (ui_push_chunk c ui).
Proof. unfold ui_push_chunk. halts. Qed.
Lemma ui_fail_halts (ui : Ui) msg token : halts (ui_fail ui msg token).
Proof. unfold ui_fail. halts. Qed.
Hint Resolve ui_push_chunk_halts ui_fail_halts : halts.

Lemma Ui_parse_attribute_halts (ui : Ui) line tokens len :
  halts (Ui_parse_attribute ui line tokens len).
Proof.
  unfold Ui_parse_attribute.
  apply halts_bind; [eauto with halts|]. intros [? tokens1] _.
  assert (halts (err ← Ui_parseError ui
                   "Attributes are formatted as '- <property>: <value or field>'."
                   None;
                 consumeUntil [":"] tokens1 (Some err))) as Hh by halts.
  destruct (_ ≫= _) as [[property tokens2]| |]; [|done..].
  halts.
Qed.
Lemma Ui_parse_binding_halts (ui : Ui) line tokens :
  halts (Ui_parse_binding ui line tokens).
Proof. unfold Ui_parse_binding. halts. Qed.
Lemma Ui_parse_event_halts (ui : Ui) line tokens len :
  halts (Ui_parse_event ui line tokens len).
Proof. unfold Ui_parse_event. halts. Qed.
Lemma Ui_parse_element_halts (ui : Ui) line head tokens :
  halts (Ui_parse_element ui line head tokens).
Proof. unfold Ui_parse_element. halts. Qed.
Hint Resolve Ui_parse_attribute_halts Ui_parse_binding_halts
  Ui_parse_event_halts Ui_parse_element_halts : halts.

Lemma Ui_parse_line_halts (ui : Ui) k rawLine :
  halts (Ui_parse_line ui k rawLine).
Proof. unfold Ui_parse_line. halts. Qed.
Hint Resolve Ui_parse_line_halts : halts.

Lemma Ui_parse_lines_halts lines : ∀ (ui : Ui) k,
  halts (Ui_parse_lines ui k lines).
Proof. induction lines; intros; simpl; halts. Qed.
Hint Resolve Ui_parse_lines_halts : halts.

Lemma get_halts ir r : halts (get ir r).
Proof. unfold get. halts. Qed.
Hint Resolve get_halts : halts.

Lemma pop_ancestors_halts ir indent lineIndent ancestors : ∀ parentElem,
  halts (pop_ancestors ir indent lineIndent parentElem ancestors).
Proof. induction ancestors; intros; simpl; halts. Qed.

Lemma selected_binding_halts scope varId : halts (selected_binding scope varId).
Proof. unfold selected_binding. halts. Qed.
Hint Resolve selected_binding_halts : halts.

Lemma getScopedBinding_halts ir alias ancestors boundViews :
  halts (getScopedBinding ir alias ancestors boundViews).
Proof. induction ancestors; simpl; halts. Qed.
Hint Resolve pop_ancestors_halts getScopedBinding_halts : halts.

Lemma rs_fail_halts st msg token : halts (rs_fail st msg token).
Proof. unfold rs_fail. halts. Qed.
Hint Resolve rs_fail_halts : halts.

Lemma join_scopes_halts query outer keys : ∀ joined flag st,
  halts (join_scopes query outer keys joined flag st).
Proof. induction keys; intros; simpl; halts. Qed.
Hint Resolve join_scopes_halts : halts.

Lemma reify_element_halts prev line parentElem st :
  halts (reify_element api prev line parentElem st).
Proof. unfold reify_element. halts. Qed.
Lemma reify_binding_halts line parentElem st :
  halts (reify_binding api line parentElem st).
Proof. unfold reify_binding. halts. Qed.
Lemma attr_field_halts line : halts (attr_field line).
Proof. unfold attr_field. halts. Qed.
Hint Resolve attr_field_halts : halts.
Lemma reify_attribute_halts line parentElem st :
  halts (reify_attribute line parentElem st).
Proof. unfold reify_attribute. halts. Qed.
Lemma reify_event_halts line parentElem st :
  halts (reify_event line parentElem st).
Proof. unfold reify_event. halts. Qed.
Hint Resolve reify_element_halts reify_binding_halts reify_attribute_halts
  reify_event_halts : halts.

Lemma Ui_reify_line_halts prev line st :
  halts (Ui_reify_line api prev line st).
Proof. unfold Ui_reify_line. halts. Qed.
Hint Resolve Ui_reify_line_halts : halts.

Lemma Ui_reify_lines_halts prev lines : ∀ st,
  halts (Ui_reify_lines api prev lines st).
Proof. induction lines; intros; simpl; halts. Qed.
Hint Resolve Ui_reify_lines_halts : halts.

Lemma Ui_reify_halts (ui : Ui) n : halts (Ui_reify api ui n).
Proof. unfold Ui_reify. halts. Qed.
Hint Resolve Ui_reify_halts : halts.

Lemma Ui_parse_halts (ui : Ui) raw' n : halts (Ui_parse api ui raw' n).
Proof. unfold Ui_parse. halts. Qed.

End Reify.

End Termination.

(** [Query.parse] comes to an end on every text, whatever the state of the
    instance and of the store: the tokenizer and the loop of [parseLine]
    end within the turns the lengths of their inputs allow, and every other
    loop walks a list.  The call returns or throws. *)
Theorem Query_parse_terminates `{JsNumber} (api : Api) (q : Query)
    (raw' : string) (n : nat) :
  Query_parse api q raw' n ≠ Diverge.
Proof. apply Query_parse_halts. Qed.

(** [Ui.parse] comes to an end on every text, with the queries of its
    binding lines. *)
Theorem Ui_parse_terminates `{JsNumber} (api : Api) (ui : Ui)
    (raw' : string) (n : nat) :
  Ui_parse api ui raw' n ≠ Diverge.
Proof. apply Ui_parse_halts. Qed.

(* ------------------------------------------------------------------------- *)
(** ** repeat and underline *)
(* ------------------------------------------------------------------------- *)

Section Repeat.

Lemma copies_length (k : nat) (str : string) :
  String.length (copies k str) = k * String.length str.
Proof.
  induction k as [|k IH]; [done|].
  unfold copies in *. simpl. rewrite string_app_length, IH. lia.
Qed.

Lemma repeat_goes_on_nonempty (ix : nat) (length : Z) (str : string) :
  str ≠ "" →
  repeat_goes_on ix length str
  = (Z.of_nat (ix * String.length str) <? length)%Z.
Proof. unfold repeat_goes_on. by destruct str. Qed.

(** The loop of [repeat] stops at the first count of copies that reaches
    [length], within [length] more turns. *)
Lemma repeat_loop_spec (length : Z) (str : string) :
  str ≠ "" →
  ∀ (gap ix fuel : nat),
    (length - Z.of_nat (ix * String.length str) ≤ Z.of_nat gap)%Z →
    gap ≤ fuel →
    ∃ k, repeat_loop fuel length str ix (copies ix str) = Some (copies k str)
      ∧ ix ≤ k
      ∧ (length ≤ Z.of_nat (k * String.length str))%Z
      ∧ (ix < k → (Z.of_nat ((k - 1) * String.length str) < length)%Z).
Proof.
  intros Hne. assert (0 < String.length str) as Hpos
    by (destruct str; [done | simpl; lia]).
  induction gap as [|gap IH]; intros ix fuel Hgap Hfuel.
  - exists ix.
    assert (repeat_goes_on ix length str = false) as Hstop.
    { rewrite repeat_goes_on_nonempty by done. apply Z.ltb_ge. lia. }
    destruct fuel; simpl; rewrite Hstop; (split; [done|]);
      (split; [done|]); split; lia.
  - destruct fuel as [|fuel]; [lia|].
    cbn [repeat_loop]. rewrite repeat_goes_on_nonempty by done.
    destruct (Z.of_nat (ix * String.length str) <? length)%Z eqn:Hlt.
    + apply Z.ltb_lt in Hlt.
      destruct (IH (S ix) fuel) as (k & Hk & Hle & Hreach & Hmin);
        [lia | lia |].
      exists k. change (copies ix str +:+ str) with (copies (S ix) str).
      rewrite Hk. split; [done|]. split; [lia|]. split; [done|].
      intros _. destruct (decide (S ix = k)) as [<-|Hne'].
      * simpl. rewrite Nat.sub_0_r. lia.
      * apply Hmin. lia.
    + apply Z.ltb_ge in Hlt. exists ix.
      split; [done|]. split; [done|]. split; [lia | lia].
Qed.

Lemma take_app_length (s t : string) :
  JsString.take (String.length s) (s +:+ t) = s.
Proof. induction s as [|c s IH]; simpl; [by destruct t | by rewrite IH]. Qed.

Lemma take_all (n : nat) (s : string) :
  String.length s ≤ n → JsString.take n s = s.
Proof.
  revert s; induction n as [|n IH]; intros [|c s] Hle; simpl in *;
    try done; try lia.
  rewrite IH; [done | lia].
Qed.

Lemma take_take_length (n : nat) (s : string) :
  String.length (JsString.take n s) = n `min` String.length s.
Proof.
  revert s; induction n as [|n IH]; intros [|c s]; simpl; try done.
  by rewrite IH.
Qed.

(** [repeat(length, str)] for a [str] that is not empty: the first [length]
    characters of as many copies of [str] as it takes, and nothing when
    [length] is not positive; a [fuel] of [length] suffices. *)
Lemma repeat_spec (length : Z) (str : string) (fuel : nat) :
  str ≠ "" → Z.to_nat length ≤ fuel →
  ∃ k, repeat fuel length str
       = Some (JsString.take (Z.to_nat length) (copies k str))
    ∧ (length ≤ Z.of_nat (String.length (copies k str)))%Z.
Proof.
  intros Hne Hfuel.
  destruct (repeat_loop_spec length str Hne (Z.to_nat length) 0 fuel)
    as (k & Hk & _ & Hreach & Hmin); [simpl; lia | done |].
  exists k. unfold repeat. change "" with (copies 0 str) at 1.
  rewrite Hk. simpl. rewrite copies_length. split; [|done].
  f_equal. destruct (length <? Z.of_nat (k * String.length str))%Z eqn:Hlt.
  - apply Z.ltb_lt in Hlt. unfold slice_to.
    destruct (0 <=? length)%Z eqn:H0; [done|].
    apply Z.leb_gt in H0. rewrite copies_length.
    destruct (decide (0 < k)) as [Hk0|Hk0].
    + specialize (Hmin Hk0). lia.
    + assert (k = 0) as -> by lia. simpl.
      by destruct (Z.to_nat (Z.of_nat 0 + length)), (Z.to_nat length).
  - apply Z.ltb_ge in Hlt. symmetry. apply take_all.
    rewrite copies_length. lia.
Qed.

Lemma repeat_empty (length : Z) (fuel : nat) :
  repeat fuel length "" = if (0 <? length)%Z then None else Some "".
Proof.
  unfold repeat. destruct (0 <? length)%Z eqn:Hpos.
  - assert (∀ ix res, repeat_loop fuel length "" ix res = None) as ->; [|done].
    induction fuel as [|fuel IH]; intros ix res; simpl;
      unfold repeat_goes_on; simpl; rewrite Hpos; [done | apply IH].
  - assert (repeat_loop fuel length "" 0 "" = Some "") as ->.
    { destruct fuel; simpl; unfold repeat_goes_on; simpl; by rewrite Hpos. }
    simpl. unfold slice_to.
    f_equal. destruct (length <? Z.of_nat 0)%Z; [|done].
    destruct (0 <=? length)%Z.
    + by destruct (Z.to_nat length).
    + by destruct (Z.to_nat _).
Qed.

Lemma copies_front (k : nat) (str : string) :
  copies (S k) str = str +:+ copies k str.
Proof.
  induction k as [|k IH]; [by rewrite string_app_nil_r|].
  change (copies (S (S k)) str) with (copies (S k) str +:+ str).
  rewrite IH at 1. by rewrite string_app_assoc.
Qed.

Lemma take_copies_char (n k : nat) (c : ascii) :
  n ≤ k →
  JsString.take n (copies k (String c "")) = copies n (String c "").
Proof.
  revert k; induction n as [|n IH]; intros k Hle.
  { by destruct (copies k _). }
  destruct k as [|k]; [lia|].
  rewrite !copies_front. simpl. rewrite IH; [done | lia].
Qed.

End Repeat.

(** [repeat(length, str)], for integers: with a [str] that is not empty it
    returns the first [length] characters of copies of [str] laid end to end,
    which are [length] characters (none when [length] is not positive); with
    the empty [str] it never returns when [length] is positive, and returns
    the empty string otherwise. *)
Theorem repeat_cuts_copies (length : Z) (str : string) (fuel : nat) :
  (str ≠ "" → Z.to_nat length ≤ fuel →
   ∃ k res, repeat fuel length str = Some res
     ∧ res = JsString.take (Z.to_nat length) (copies k str)
     ∧ String.length res = Z.to_nat length)
  ∧ (str = "" → (0 < length)%Z → repeat fuel length str = None)
  ∧ (str = "" → (length ≤ 0)%Z → repeat fuel length str = Some "").
Proof.
  split; [|split].
  - intros Hne Hfuel.
    destruct (repeat_spec length str fuel Hne Hfuel) as (k & Hk & Hlen).
    exists k, (JsString.take (Z.to_nat length) (copies k str)).
    split; [done|]. split; [done|]. rewrite take_take_length. lia.
  - intros -> Hpos. rewrite repeat_empty.
    by apply Z.ltb_lt in Hpos as ->.
  - intros -> Hneg. rewrite repeat_empty.
    by apply Z.ltb_ge in Hneg as ->.
Qed.

(** [underline(startIx, length)], for integers: [startIx] spaces, a caret,
    and [length - 1] tildes; so at least the caret. *)
Theorem underline_shape (startIx length : Z) (fuel : nat) :
  Z.to_nat startIx ≤ fuel → Z.to_nat (length - 1) ≤ fuel →
  underline fuel startIx length
  = Some (copies (Z.to_nat startIx) " " +:+ "^"
          +:+ copies (Z.to_nat (length - 1)) "~").
Proof.
  intros Hpad Htildes. unfold underline.
  destruct (repeat_spec startIx " " fuel ltac:(done) Hpad) as (k & -> & Hk).
  destruct (repeat_spec (length - 1) "~" fuel ltac:(done) Htildes)
    as (k' & -> & Hk').
  simpl. rewrite copies_length in Hk, Hk'. simpl in Hk, Hk'.
  rewrite !take_copies_char by lia. done.
Qed.

Lemma underline_shape_witness : underline 3 2 3 = Some "  ^~~".
Proof. apply (underline_shape 2 3 3); simpl; lia. Defined.

(* ------------------------------------------------------------------------- *)
(** ** Token offsets and unravel *)
(* ------------------------------------------------------------------------- *)

Section TokenOffsets.
Context `{JsNumber}.

Lemma tokenize_lossless (alphabet : list string) (line : string) :
  Forall (λ t, t ≠ "") alphabet →
  ∃ pieces, tokenize alphabet line = Ok pieces ∧ JsString.join pieces = line.
Proof.
  intros Hall. unfold tokenize, makeTokenizer.
  destruct (tokenizer_loop_total alphabet Hall (String.length line) line)
    as (pieces & Hjoin & Hfuel); [done|].
  exists pieces. by rewrite (Hfuel (String.length line) []).
Qed.

Lemma join_take_length (pieces : list string) (k : nat) :
  String.length (JsString.join (take k pieces))
  ≤ String.length (JsString.join pieces).
Proof.
  rewrite <- (firstn_skipn k pieces) at 2. rewrite join_app, string_app_length.
  lia.
Qed.

Lemma take_pred_removelast {A : Type} (l : list A) :
  take (length l - 1) l = removelast l.
Proof.
  induction l as [|x [|y l] IH]; [done..|].
  change (removelast (x :: y :: l)) with (x :: removelast (y :: l)).
  rewrite <- IH. simpl. by rewrite Nat.sub_0_r.
Qed.

(** [tokenToChar] gives the offset at which the piece that the token was
    read from starts in its line: the pieces are counted from 1, so the
    offset is the length of the [tokenIx - 1] pieces before it.  It is
    within the line.  A [tokenIx] of 0 leaves out the last piece instead, and
    a token without [tokenIx] is at 0. *)
Lemma tokenToChar_spec (alphabet : list string) (token : Token)
    (line : string) :
  Forall (λ t, t ≠ "") alphabet →
  ∃ pieces c,
    tokenize alphabet line = Ok pieces
    ∧ tokenToChar (tokenize alphabet) token line = Ok c
    ∧ c ≤ String.length line
    ∧ match tokenIx token with
      | None => c = 0
      | Some 0 => c = String.length (JsString.join (removelast pieces))
      | Some (S k) => c = String.length (JsString.join (take k pieces))
      end.
Proof.
  intros Hall. destruct (tokenize_lossless alphabet line Hall)
    as (pieces & Htok & Hjoin).
  unfold tokenToChar. rewrite Htok. simpl.
  destruct (tokenIx token) as [[|k]|]; simpl.
  - exists pieces, (String.length (JsString.join (removelast pieces))).
    split; [done|].
    assert (slice_front pieces (Z.of_nat 0 - 1) = removelast pieces) as ->.
    { unfold slice_front. change (0 <=? Z.of_nat 0 - 1)%Z with false.
      cbn iota.
      assert (Z.to_nat (Z.of_nat (length pieces) + (Z.of_nat 0 - 1))
              = length pieces - 1) as -> by lia.
      apply take_pred_removelast. }
    split; [done|]. split; [|done].
    rewrite <- Hjoin.
    destruct (decide (pieces = [])) as [->|Hne]; [done|].
    destruct (exists_last Hne) as (front & x & ->).
    rewrite removelast_last, join_app, string_app_length. lia.
  - exists pieces, (String.length (JsString.join (take k pieces))).
    split; [done|]. unfold slice_front.
    replace (Z.of_nat (S k) - 1)%Z with (Z.of_nat k) by lia.
    assert ((0 <=? Z.of_nat k)%Z = true) as -> by (apply Z.leb_le; lia).
    rewrite Nat2Z.id. split; [done|]. split; [|done].
    rewrite <- Hjoin. apply join_take_length.
  - exists pieces, 0. split; [done|]. split; [done|]. split; [lia | done].
Qed.

End TokenOffsets.

(** [Query.tokenToChar] and [Ui.tokenToChar] return on every token and line
    an offset within the line: the length of the [tokenIx - 1] pieces of the
    line that come before the token, whose pieces are counted from 1; a
    [tokenIx] of 0 gives the length of all pieces but the last, and a token
    without [tokenIx] the offset 0. *)
Theorem tokenToChar_is_an_offset `{JsNumber} (token : Token) (line : string) :
  (∃ pieces c,
     Query_tokenize line = Ok pieces
     ∧ Query_tokenToChar token line = Ok c
     ∧ c ≤ String.length line
     ∧ match tokenIx token with
       | None => c = 0
       | Some 0 => c = String.length (JsString.join (removelast pieces))
       | Some (S k) => c = String.length (JsString.join (take k pieces))
       end)
  ∧ (∃ pieces c,
       Ui_tokenize line = Ok pieces
       ∧ Ui_tokenToChar token line = Ok c
       ∧ c ≤ String.length line
       ∧ match tokenIx token with
         | None => c = 0
         | Some 0 => c = String.length (JsString.join (removelast pieces))
         | Some (S k) => c = String.length (JsString.join (take k pieces))
         end).
Proof.
  split; apply tokenToChar_spec; repeat constructor; discriminate.
Qed.

Section Unravel.
Context `{JsNumber}.

Lemma unravel_unfold (fuel : nat) cur tangle unraveled :
  unravel (S fuel) cur tangle unraveled
  = match tangle !! cur with
    | None => Throw (TypeError "tangle[cur] is not iterable")
    | Some children => unravel_each fuel tangle children (unraveled ++ [cur])
    end.
Proof.
  simpl. destruct (tangle !! cur) as [children|]; [|done].
  generalize (unraveled ++ [cur]).
  induction children as [|c cs IH]; intros u; simpl; [done|].
  destruct (unravel fuel c tangle []); simpl; [apply IH | done..].
Qed.


Lemma unravel_each_keys fuel tangle :
  (∀ cur u l, unravel fuel cur tangle u = Ok l →
     ∃ l', l = u ++ cur :: l' ∧ Forall (λ x, is_Some (tangle !! x)) (cur :: l')) →
  ∀ children u l, unravel_each fuel tangle children u = Ok l →
    ∃ l', l = u ++ l' ∧ Forall (λ x, is_Some (tangle !! x)) l'.
Proof.
  intros Hone children. induction children as [|c cs IH]; intros u l Hl;
    simpl in Hl.
  { injection Hl as <-. exists []. by rewrite app_nil_r. }
  apply bind_Ok in Hl as (sub & Hsub & Hl).
  apply Hone in Hsub as (l1 & -> & Hall1). simpl in Hl.
  apply IH in Hl as (l2 & -> & Hall2).
  exists (c :: l1 ++ l2). rewrite <- app_assoc. split; [done|].
  rewrite app_comm_cons. apply Forall_app. by split.
Qed.

Lemma unravel_keys fuel tangle : ∀ cur u l,
  unravel fuel cur tangle u = Ok l →
  ∃ l', l = u ++ cur :: l' ∧ Forall (λ x, is_Some (tangle !! x)) (cur :: l').
Proof.
  induction fuel as [|fuel IH]; intros cur u l Hl; [done|].
  rewrite unravel_unfold in Hl.
  destruct (tangle !! cur) as [children|] eqn:Hcur; [|done].
  apply (unravel_each_keys fuel tangle IH) in Hl as (l' & -> & Hall).
  exists l'. rewrite <- app_assoc. split; [done|].
  constructor; [by eexists | done].
Qed.

Lemma unravel_each_returns tangle (r : nat) children :
  (∀ c, c ∈ children →
     ∃ l, ∀ fuel u, r ≤ fuel → unravel fuel c tangle u = Ok (u ++ c :: l)) →
  ∃ l, ∀ fuel u, r ≤ fuel → unravel_each fuel tangle children u = Ok (u ++ l).
Proof.
  induction children as [|c cs IH]; intros Hall.
  { exists []. intros fuel u _. simpl. by rewrite app_nil_r. }
  destruct (Hall c) as [l1 Hl1]; [by left|].
  destruct IH as [l2 Hl2]; [intros c' Hc'; apply Hall; by right|].
  exists (c :: l1 ++ l2). intros fuel u Hfuel. simpl.
  rewrite Hl1 by done. simpl. rewrite Hl2 by done. by rewrite <- app_assoc.
Qed.



End Unravel.

(** [unravel] lists [cur] and then, child by child, what it unravels from
    each: whatever it returns starts with what was given and [cur], and
    names only keys of the tangle.  On a tangle whose nodes can be ranked so
    that every child is a key of lower rank than its parent it returns, with
    the same list at every depth allowed above the rank of [cur]. *)
Theorem unravel_lists_keys `{JsNumber} (tangle : gmap string (list string))
    (rank : string → nat) (cur : string) :
  (∀ fuel unraveled l, unravel fuel cur tangle unraveled = Ok l →
     ∃ l', l = unraveled ++ cur :: l'
       ∧ Forall (λ x, is_Some (tangle !! x)) (cur :: l'))
  ∧ ((∀ k children c, tangle !! k = Some children → c ∈ children →
        is_Some (tangle !! c) ∧ rank c < rank k) →
     is_Some (tangle !! cur) →
     ∃ l', ∀ fuel unraveled, rank cur < fuel →
       unravel fuel cur tangle unraveled = Ok (unraveled ++ cur :: l')).
Proof.
  split; [intros fuel u l; apply unravel_keys|].
  intros Hranked.
  assert (∀ bound cur, rank cur < bound → is_Some (tangle !! cur) →
            ∃ l', ∀ fuel u, rank cur < fuel →
              unravel fuel cur tangle u = Ok (u ++ cur :: l')) as Hall.
  2: { intros Hcur. by apply (Hall (S (rank cur))); [lia|]. }
  clear cur. induction bound as [|bound IH]; intros cur Hrank [children Hcur];
    [lia|].
  destruct (unravel_each_returns tangle (rank cur) children) as [l Hl].
  { intros c Hc. destruct (Hranked cur children c Hcur Hc) as [Hkey Hlt].
    destruct (IH c) as [lc Hlc]; [lia | done |].
    exists lc. intros fuel u Hfuel. apply Hlc. lia. }
  exists l. intros [|fuel] u Hfuel; [lia|].
  rewrite unravel_unfold, Hcur, Hl by lia. by rewrite <- app_assoc.
Qed.



(* ------------------------------------------------------------------------- *)
(** ** The sources of the lines *)
(* ------------------------------------------------------------------------- *)

Section SourcesOfLines.
Context `{JsNumber}.
Context (api : Api).

Lemma reify_fields_origin prev fingerprint cs : ∀ src fieldIxes ir q n r,
  reify_fields api prev fingerprint cs src fieldIxes ir q n = Ok r →
  match r with
  | Next (src', _, _, _) => origin src' = origin src
  | Break _ => True
  end.
Proof.
  induction cs as [|token cs IH]; intros src fieldIxes ir q n r Hr;
    simpl in Hr.
  { by injection Hr as <-. }
  destruct (tokenIsField token); [|by apply IH in Hr].
  destruct (negb (truthy_opt (snd <$> head fieldIxes))).
  { by apply bind_Ok in Hr as (err & _ & [= <-]). }
  apply bind_Ok in Hr as ([varId selectedId] & _ & Hr).
  destruct (getVariable _ _ _ _ _ _) as [[varId' ir1] n1].
  apply IH in Hr. destruct r as [[[[src' ?] ?] ?]|]; [|done].
  rewrite Hr. by destruct (default false _).
Qed.

Lemma touches_none (q q' : Query) :
  reify_touches q q' → errors q' = [] → errors q = [].
Proof.
  intros (_ & _ & _ & _ & _ & es & Hes) Hnone. rewrite Hes in Hnone.
  by apply app_eq_nil in Hnone as [? _].
Qed.

Lemma reify_source_origin prev line ir q n ir' q' n' :
  reify_source api prev line ir q n = Ok (Next (ir', q', n')) →
  errors q' = [] →
  ∃ src, sources ir' = sources ir ++ [src] ∧ source_of_line api line src.
Proof.
  unfold reify_source. intros Hr Herr.
  apply bind_Ok in Hr as (fp & Hfp & Hr).
  destruct (ixer_view_fingerprint api fp) as [view|] eqn:Hview; simpl in Hr.
  2: { apply bind_Ok in Hr as (err & _ & [= <- <- <-]).
       by destruct (push_error_nonempty err q). }
  destruct (negb (JsString.truthy view)) eqn:Htruthy.
  { apply bind_Ok in Hr as (err & _ & [= <- <- <-]).
    by destruct (push_error_nonempty err q). }
  apply bind_Ok in Hr as (cs & _ & Hr).
  apply bind_Ok in Hr as (rf & Hfields & Hr).
  pose proof Hfields as Hspec. apply reify_fields_spec in Hspec.
  apply reify_fields_origin in Hfields.
  destruct rf as [[[[src' ir1] q1] n1]|[[[? ?] ?] ?]]; [|done].
  injection Hr as <- <- <-. destruct Hspec as (_ & _ & Hsources & _).
  exists src'. simpl. rewrite Hsources. split; [done|].
  injection Hfields as Hv Hl. split; [|done].
  exists fp. split; [done|]. by rewrite Hv.
Qed.


Lemma reify_lines_origins prev lines : ∀ ir q n ir' q' n',
  reify_lines api prev lines ir q n = Ok (ir', q', n') →
  errors q' = [] →
  ∃ origins, (origin <$> sources ir') = (origin <$> sources ir) ++ origins
             ∧ sources_of_lines api lines origins.
Proof.
  induction lines as [|line lines IH]; intros ir q n ir' q' n' Hr Herr;
    simpl in Hr.
  { injection Hr as <- <- <-. exists []. rewrite app_nil_r.
    split; [done | constructor]. }
  destruct (tokenIsSource line) eqn:Hsource.
  { apply bind_Ok in Hr as (r & Hsrc & Hr).
    destruct r as [[[ir1 q1] n1]|[[ir1 q1] n1]].
    - pose proof Hr as Htouch. apply reify_lines_spec in Htouch as [Htouch _].
      apply reify_source_origin in Hsrc as (src & Happ & Hof);
        [|by eapply touches_none].
      apply IH in Hr as (origins & Heq & Hlines); [|done].
      exists (origin src :: origins). rewrite Heq, Happ, fmap_app.
      simpl. rewrite <- app_assoc. split; [done|]. by constructor.
    - injection Hr as <- <- <-. apply reify_source_spec in Hsrc as [_ Hne].
      done. }
  destruct (tokenIsOrdinal line).
  { apply bind_Ok in Hr as ([[ir1 q1] n1] & Hord & Hr).
    apply reify_ordinal_origin in Hord.
    apply IH in Hr as (origins & Heq & Hlines); [|done].
    exists origins. rewrite Heq, Hord. split; [done|]. by constructor. }
  destruct (tokenIsAction line).
  { apply bind_Ok in Hr as (err & _ & Hr).
    apply reify_lines_spec in Hr as [Htouch _].
    apply touches_none in Htouch; [|done].
    by destruct (push_error_nonempty err (set_q_lineIx (lineIx line) q)). }
  apply IH in Hr as (origins & Heq & Hlines); [|done].
  exists origins. split; [done|]. by constructor.
Qed.

Lemma Query_parse_sources_of_lines (q q' : Query) raw' n n' r
    (ir : QueryIR) (a : Token) (cs : list Token) :
  raw q ≠ Some raw' →
  Query_parse api q raw' n = Ok (q', n', r) →
  reified q' = Some ir →
  ast q' = Some a → chunks a = Some cs →
  sources_of_lines api (reify_chunks cs) (origin <$> sources ir).
Proof.
  unfold Query_parse. intros Hnew Hp Hir Hast Hcs.
  rewrite bool_decide_eq_false_2 in Hp by done.
  apply bind_Ok in Hp as (q1 & Hlines & Hp).
  apply bind_Ok in Hp as ([q2 n2] & Hreify & [= <- <- <-]).
  apply Query_parse_lines_frame in Hlines as (_ & Hreified1 & _).
  simpl in Hreified1.
  destruct (errors q1); [|injection Hreify as <- <-; congruence].
  unfold Query_reify in Hreify.
  destruct (ast q1) as [a1|] eqn:Hast1; [|injection Hreify as <- <-; congruence].
  destruct (or_uuid _ _ _) as [id n1].
  apply bind_Ok in Hreify as (cs1 & Hcs1 & Hreify).
  apply bind_Ok in Hreify as ([[irf qf] nf] & Hloop & Hreify).
  pose proof Hloop as Htouch.
  apply reify_lines_spec in Htouch as [(_ & Hastf & _) _].
  destruct (errors qf) eqn:Hnone; injection Hreify as <- <-; simpl in *;
    [|done].
  injection Hir as <-.
  rewrite Hastf in Hast. destruct (reified q1); simpl in Hast;
    rewrite Hast1 in Hast; injection Hast as ->;
    unfold chunks_of in Hcs1; rewrite Hcs in Hcs1; injection Hcs1 as <-;
    apply reify_lines_origins in Hloop as (origins & Heq & Hsrc); try done;
    simpl in Heq; by rewrite Heq.
Qed.

(** A parse that reifies makes one source per source line, in the order of
    the lines (a calculation standing for its parts), each bound to the view
    that the fingerprint of its line resolves to and carrying the index of
    its line. *)
Theorem one_source_per_source_line (q q' : Query) raw' n n' r
    (ir : QueryIR) (a : Token) (cs : list Token) :
  raw q ≠ Some raw' →
  Query_parse api q raw' n = Ok (q', n', r) →
  reified q' = Some ir →
  ast q' = Some a → chunks a = Some cs →
  sources_of_lines api (reify_chunks cs) (origin <$> sources ir).
Proof. apply Query_parse_sources_of_lines. Qed.

End SourcesOfLines.

(* ------------------------------------------------------------------------- *)
(** ** Lines print as they were written *)
(* ------------------------------------------------------------------------- *)

Section RoundTrip.
Context `{JsNumber}.

Lemma tokenToString_line (line : Token) (cs : list Token) :
  chunks line = Some cs →
  (tokenIsCalculation line && truthy_opt (text line)) = false →
  tokenToString line
  = chunks_string cs None
      (match indent line with Some n => JsText.spaces n | None => "" end).
Proof.
  destruct line as [ty tix lix ind cs' txt grp al val ng dirs pix tg cl nm
                    prop av st ev ky].
  simpl. intros -> Hcalc. unfold tokenIsCalculation in Hcalc. simpl in Hcalc.
  rewrite Hcalc.
  generalize (@None (option nat)).
  generalize (match ind with Some n => JsText.spaces n | None => "" end).
  induction cs as [|c cs IH]; intros res prev; [done|].
  simpl. destruct (tokenToString c); simpl; [apply IH | done..].
Qed.

Lemma chunks_string_prints cs strings : ∀ res,
  Forall2 chunk_prints cs strings → Forall reads_back cs →
  chunks_string cs (Some None) res = Ok (res +:+ JsString.join strings).
Proof.
  intros res Hall. revert res.
  induction Hall as [|c s cs strings [Hl Hs] Hall IH]; intros res Hback;
    simpl.
  { by rewrite string_app_nil_r. }
  apply Forall_cons in Hback as [Hc Hback].
  rewrite Hl, (Hs Hc). simpl. rewrite IH by done.
  unfold JsString.join. simpl. by rewrite string_app_assoc.
Qed.

Lemma chunks_string_first cs strings res :
  Forall2 chunk_prints cs strings → Forall reads_back cs →
  chunks_string cs None res = Ok (res +:+ JsString.join strings).
Proof.
  intros Hall Hback. destruct Hall as [|c s cs strings [Hl Hs] Hall]; simpl.
  { by rewrite string_app_nil_r. }
  apply Forall_cons in Hback as [Hc Hback].
  rewrite (Hs Hc), Hl. simpl. rewrite (chunks_string_prints _ _ _ Hall Hback).
  unfold JsString.join. simpl. by rewrite string_app_assoc.
Qed.

Lemma consume_one needle tokens r rest :
  consume [needle] tokens None = Ok (r, rest) →
  (r = Some needle ∧ tokens = needle :: rest) ∨ (r = None ∧ rest = tokens).
Proof.
  unfold consume. destruct tokens as [|head tokens].
  { intros [= <- <-]. by right. }
  unfold among. destruct (bool_decide (head ∈ [needle])) eqn:Hin.
  - apply bool_decide_eq_true in Hin. apply list_elem_of_singleton in Hin as ->.
    intros [= <- <-]. by left.
  - intros [= <- <-]. by right.
Qed.

Ltac consumed_are l :=
  exists l; split; [done|]; split; [done|]; intros _; simpl;
  unfold JsString.join; simpl; by rewrite ?string_app_nil_r.

Lemma parseField_prints parseError tokens tokenIx r :
  parseField parseError tokens tokenIx = Ok r → prints_consumed tokens r.
Proof.
  unfold parseField, prints_consumed. intros Hp.
  apply bind_Ok in Hp as ([q1 t1] & H1 & Hp).
  apply consume_one in H1 as [[-> ->]|[-> ->]]; simpl in Hp.
  - apply bind_Ok in Hp as ([q2 t2] & H2 & Hp).
    apply consume_one in H2 as [[-> ->]|[-> ->]]; simpl in Hp.
    + destruct t2 as [|head rest]; [injection Hp as <-; consumed_are (["?"; "?"])|].
      destruct (JsString.truthy head && negb (head =? " ")%string
                && negb (among PUNCTUATION head));
        injection Hp as <-; simpl.
      * consumed_are (["?"; "?"; head]).
      * consumed_are (["?"; "?"]).
    + destruct t1 as [|head rest]; [injection Hp as <-; consumed_are (["?"])|].
      destruct (JsString.truthy head && negb (head =? " ")%string
                && negb (among PUNCTUATION head));
        injection Hp as <-; simpl.
      * consumed_are (["?"; head]).
      * consumed_are (["?"]).
  - apply bind_Ok in Hp as ([bq t2] & H2 & Hp).
    apply consume_one in H2 as [[-> ->]|[-> ->]]; simpl in Hp;
      [|by injection Hp as <-].
    destruct (parseError _ _) as [err| |]; [|by injection Hp as <-|done].
    destruct (consumeUntil_from_spec ["`"] (Some err) t2 "")
      as (consumed & rest & -> & _ & Hhead & Heq).
    unfold consumeUntil in Hp. rewrite Heq in Hp.
    destruct rest as [|bq rest]; [by injection Hp as <-|].
    injection Hp as <-. simpl.
    assert (bq = "`") as ->.
    { specialize (Hhead bq eq_refl). by apply list_elem_of_singleton in Hhead. }
    exists ("`" :: consumed ++ ["`"]).
    split; [simpl; by rewrite <- app_assoc|].
    split; [done|]. unfold reads_back. simpl.
    destruct (coerceInput (JsString.join consumed)) as [| |s] eqn:Hc;
      [done..|].
    intros _. f_equal.
    assert (s = JsString.join consumed) as ->.
    { unfold coerceInput in Hc. by repeat case_match; simplify_eq. }
    unfold JsString.join. simpl. rewrite foldr_app. simpl.
    fold (JsString.join consumed).
    assert (∀ l t, foldr String.append t l = JsString.join l +:+ t) as ->.
    { clear. induction l as [|x l IH]; intros t; simpl; [done|].
      unfold JsString.join in *. simpl. by rewrite IH, string_app_assoc. }
    by destruct (JsString.join consumed).
Qed.

Lemma Query_parseKeyword_prints tokens tokenIx :
  prints_consumed tokens (Query_parseKeyword tokens tokenIx).
Proof.
  unfold Query_parseKeyword, prints_consumed.
  destruct tokens as [|head rest]; [done|].
  destruct (among Q_KEYWORD_TOKENS head); [|done]. simpl.
  consumed_are ([head]).
Qed.

Lemma Query_parseStructure_prints tokens tokenIx r :
  Query_parseStructure tokens tokenIx = Ok r → prints_consumed tokens r.
Proof.
  unfold Query_parseStructure, prints_consumed. intros Hp.
  destruct (consumeUntil_from_spec Q_KEYWORD_TOKENS None tokens "")
    as (consumed & rest & -> & _ & _ & Heq).
  unfold consumeUntil in Hp. rewrite Heq in Hp.
  assert ((λ '(text, tokens),
             if JsString.truthy text
             then Ok (Node (set_tokenIx (Some tokenIx) (text_token text)),
                      tokens)
             else Ok (Nothing, tokens))
            (JsString.join consumed, rest) = Ok r) as Hr
    by (by destruct rest).
  simpl in Hr. destruct (JsString.truthy (JsString.join consumed));
    injection Hr as <-; simpl; [|done].
  exists consumed. by repeat split.
Qed.

Lemma parseField_nothing parseError tokens tokenIx rest :
  parseField parseError tokens tokenIx = Ok (Nothing, rest) → rest = tokens.
Proof.
  unfold parseField. intros Hp.
  apply bind_Ok in Hp as ([q1 t1] & H1 & Hp).
  apply consume_one in H1 as [[-> ->]|[-> ->]]; simpl in Hp.
  { apply bind_Ok in Hp as ([q2 t2] & _ & Hp). by repeat case_match. }
  apply bind_Ok in Hp as ([bq t2] & H2 & Hp).
  apply consume_one in H2 as [[-> ->]|[-> ->]]; simpl in Hp;
    [|by injection Hp].
  by repeat case_match.
Qed.

(** The loop of [parseLine]: the chunks it adds print as the tokens it
    takes. *)
Lemma Query_parseLine_loop_prints (q : Query) tokensLength lineIx :
  ∀ fuel tokens chunks cs,
    Query_parseLine_loop q fuel tokensLength lineIx tokens chunks
      = Ok (Node cs) →
    ∃ more strings, cs = chunks ++ more
      ∧ Forall2 chunk_prints more strings
      ∧ JsString.join strings = JsString.join tokens.
Proof.
  induction fuel as [|fuel IH]; intros tokens chunks cs Hl.
  { destruct tokens; [|done]. injection Hl as <-. exists [], [].
    rewrite app_nil_r. split; [done|]. split; [constructor | done]. }
  destruct tokens as [|t tokens].
  { injection Hl as <-. exists [], [].
    rewrite app_nil_r. split; [done|]. split; [constructor | done]. }
  cbn [Query_parseLine_loop] in Hl.
  set (tokenIx := tokensLength - length (t :: tokens) + 1) in *.
  apply bind_Ok in Hl as ([token rest] & Hfield & Hl).
  pose proof Hfield as Hprints0. apply parseField_prints in Hprints0.
  apply bind_Ok in Hl as ([token' rest'] & Hnext & Hl).
  assert (prints_consumed (t :: tokens) (token', rest')) as Hprints.
  { destruct token as [|f|e]; [|by injection Hnext as <- <-..].
    apply parseField_nothing in Hfield as ->.
    pose proof (Query_parseKeyword_prints (t :: tokens) tokenIx) as Hkw.
    destruct (Query_parseKeyword (t :: tokens) tokenIx) as [[|kw|e] rest1]
      eqn:Hk.
    - apply Query_parseStructure_prints in Hnext.
      unfold Query_parseKeyword in Hk.
      assert (rest1 = t :: tokens) as -> by (by repeat case_match; simplify_eq).
      done.
    - by injection Hnext as <- <-.
    - by injection Hnext as <- <-. }
  clear Hprints0 Hnext Hfield.
  destruct token' as [|c|e]; [|simpl in Hl|by injection Hl].
  { by apply bind_Ok in Hl as (err & _ & ?). }
  destruct Hprints as (consumed & Htokens & Hline & Hstring).
  simpl in Htokens, Hline, Hstring.
  apply IH in Hl as (more & strings & -> & Hmore & Hjoin).
  exists (c :: more), (JsString.join consumed :: strings).
  rewrite <- app_assoc. split; [done|]. split; [by constructor|].
  rewrite Htokens, join_app, <- Hjoin. done.
Qed.

(** A line read by [parseLine] prints as it was written: [tokenToString]
    gives back the tokens of the line joined, with one space for each
    character of its indentation, provided no literal of the line was
    coerced to a number or a boolean. *)
Theorem parseLine_prints_back (q q' : Query) tokens lineIx line cs :
  Query_parseLine q tokens lineIx = Ok (q', Node line) →
  chunks line = Some cs → Forall reads_back cs →
  ∃ padding rest,
    tokens = padding ++ rest
    ∧ Forall (λ t, t ∈ [" "; TAB]) padding
    ∧ tokenToString line
      = Ok (JsText.spaces (String.length (JsString.join padding))
            +:+ JsString.join rest).
Proof.
  unfold Query_parseLine. intros Hp Hcs Hback.
  destruct (consumeWhile_from_spec [" "; TAB] None tokens "")
    as (padding & rest & -> & Hpad & _ & Heq).
  assert (consumeWhile [" "; TAB] (padding ++ rest) None
          = Ok (JsString.join padding, rest)) as Hc
    by (unfold consumeWhile; rewrite Heq; by destruct rest).
  rewrite Hc in Hp. simpl in Hp.
  apply bind_Ok in Hp as (r & Hloop & Hp).
  destruct r as [|cs0|e]; [by injection Hp| |by injection Hp].
  apply Query_parseLine_loop_prints in Hloop
    as (more & strings & -> & Hmore & Hjoin).
  rewrite app_nil_l in Hp.
  destruct more as [|c more]; [by injection Hp|].
  injection Hp as <- <-. simpl in Hcs. injection Hcs as <-.
  exists padding, rest. split; [done|]. split; [done|].
  rewrite (tokenToString_line _ (c :: more)) by done.
  cbn [indent set_indent].
  rewrite (chunks_string_first _ _ _ Hmore Hback). by rewrite Hjoin.
Qed.

End RoundTrip.

Lemma parseLine_prints_back_witness :
  ∃ q' line,
    Query_parseLine (H := lexeme_numbers) (new_Query None)
      [" "; " "; "age"; " "; "?"; "x"] 0 = Ok (q', Node line)
    ∧ ∃ padding rest,
        [" "; " "; "age"; " "; "?"; "x"] = padding ++ rest
        ∧ Forall (λ t, t ∈ [" "; TAB]) padding
        ∧ tokenToString line
          = Ok (JsText.spaces (String.length (JsString.join padding))
                +:+ JsString.join rest).
Proof.
  destruct (Query_parseLine (H := lexeme_numbers) (new_Query None)
              [" "; " "; "age"; " "; "?"; "x"] 0)
    as [[q' [|line|e]]|e|] eqn:Hp.
  1, 3, 4, 5: vm_compute in Hp; discriminate Hp.
  destruct (chunks line) as [cs|] eqn:Hcs.
  2: { vm_compute in Hp. injection Hp as <- <-. by vm_compute in Hcs. }
  exists q', line. split; [reflexivity|].
  apply (parseLine_prints_back (H := lexeme_numbers) (new_Query None) q'
           [" "; " "; "age"; " "; "?"; "x"] 0 line cs Hp Hcs).
  vm_compute in Hp. injection Hp as <- <-. vm_compute in Hcs.
  injection Hcs as <-. repeat constructor.
Defined.

(* ------------------------------------------------------------------------- *)
(** ** Finding a source and its line again *)
(* ------------------------------------------------------------------------- *)

Section SourceLines.
Context `{JsNumber}.

Lemma push_chunks_lineIx new part : lineIx (push_chunks new part) = lineIx part.
Proof. done. Qed.

Lemma calc_loop_lineIx (q : Query) line resultAlias k tokens :
  lineIx line = Some k →
  ∀ cur below nextIx lines bottom below' lines',
    lineIx cur = Some k → Forall (λ p, lineIx p = Some k) below →
    Forall (λ p, lineIx p = Some k) lines →
    calc_loop q line resultAlias tokens cur below nextIx lines
      = Ok (Node (bottom, below', lines')) →
    lineIx bottom = Some k ∧ Forall (λ p, lineIx p = Some k) lines'.
Proof.
  intros Hline. induction tokens as [|token rest IH];
    intros cur below nextIx lines bottom below' lines' Hcur Hbelow Hlines Hl;
    simpl in Hl.
  { by injection Hl as <- <- <-. }
  destruct (tokenIsKeyword token && text_is "(" token).
  { eapply IH; [| | |exact Hl]; [by simpl | by constructor | done]. }
  destruct (tokenIsKeyword token && text_is ")" token).
  { destruct below as [|prev below0].
    - by apply bind_Ok in Hl as (err & _ & ?).
    - apply Forall_cons in Hbelow as [Hprev Hbelow].
      eapply IH; [| | |exact Hl]; [done | done |].
      apply Forall_app. split; [done|]. by constructor. }
  eapply IH; [| | |exact Hl]; done.
Qed.

Lemma Query_processCalculation_lineIx (q : Query) line k c :
  lineIx line = Some k →
  Query_processCalculation q line = Ok (Node c) →
  tokenIsSource c = false
  ∧ Forall (λ part, lineIx part = Some k) (default [] (chunks c)).
Proof.
  unfold Query_processCalculation. intros Hline Hp.
  apply bind_Ok in Hp as (cs & _ & Hp).
  destruct (cs !! 2) as [kw|]; [|done].
  destruct (negb (tokenIsKeyword kw) || negb (text_is "$=" kw)); [done|].
  apply bind_Ok in Hp as (text & _ & Hp).
  destruct cs as [|resultField cs']; [done|].
  destruct (negb (tokenIsField resultField)).
  { by apply bind_Ok in Hp as (err & _ & ?). }
  apply bind_Ok in Hp as (r & Hloop & Hp).
  destruct r as [|[[bottom below] lines]|e]; [done| |done].
  destruct below; [|by apply bind_Ok in Hp as (err & _ & ?)].
  injection Hp as <-. split; [done|]. simpl.
  apply calc_loop_lineIx with (k := k) in Hloop as [Hb Hl];
    [|done|by rewrite <- Hline|constructor|constructor].
  apply Forall_app. split; [done|]. by constructor.
Qed.

Lemma Query_processAction_type (q : Query) line c :
  Query_processAction q line = Ok (Node c) → type c = "action".
Proof.
  unfold Query_processAction. intros Hp.
  apply bind_Ok in Hp as (cs & _ & Hp).
  destruct cs as [|kw cs']; [done|].
  destruct (negb (tokenIsKeyword kw) || negb (text_among Q_ACTION_TOKENS kw));
    [done|].
  destruct (first_unaliased_field _).
  - by apply bind_Ok in Hp as (err & _ & ?).
  - by injection Hp as <-.
Qed.

Lemma Query_processOrdinal_type (q : Query) line c :
  Query_processOrdinal q line = Ok (Node c) → type c = "ordinal".
Proof.
  unfold Query_processOrdinal. intros Hp.
  apply bind_Ok in Hp as (cs & _ & Hp).
  destruct cs as [|kw cs']; [done|].
  destruct (negb (tokenIsKeyword kw) || negb (text_is "#" kw)); [done|].
  apply bind_Ok in Hp as (prior & _ & Hp).
  destruct (match last prior with Some _ => _ | None => _ end).
  { apply bind_Ok in Hp as (text & _ & Hp).
    by apply bind_Ok in Hp as (err & _ & ?). }
  destruct (match (kw :: cs') !! 2 with Some _ => _ | None => _ end).
  { by apply bind_Ok in Hp as (err & _ & ?). }
  apply bind_Ok in Hp as (misformatted & _ & Hp).
  destruct misformatted.
  { by apply bind_Ok in Hp as (err & _ & ?). }
  apply bind_Ok in Hp as (r & _ & Hp).
  destruct r as [token|[directions count]].
  { by apply bind_Ok in Hp as (err & _ & ?). }
  destruct (count =? 0).
  - apply bind_Ok in Hp as (text & _ & Hp).
    by apply bind_Ok in Hp as (err & _ & ?).
  - by injection Hp as <-.
Qed.

Lemma Query_processSource_line line c :
  Query_processSource line = Ok c →
  type c = "source" ∧ lineIx c = lineIx line.
Proof.
  unfold Query_processSource. intros Hp.
  apply bind_Ok in Hp as (cs & _ & Hp).
  destruct cs as [|kw cs']; [done|].
  injection Hp as <-. by destruct (tokenIsText kw && text_is "!" kw).
Qed.

Lemma Query_classify_at_line (q : Query) parsed k c :
  lineIx parsed = Some k →
  Query_classify q parsed = Ok (inl c) → at_line k c.
Proof.
  unfold Query_classify. intros Hline Hc.
  apply bind_Ok in Hc as (r1 & H1 & Hc).
  apply bind_Ok in Hc as (r2 & H2 & Hc).
  apply bind_Ok in Hc as (r3 & H3 & Hc).
  assert (∀ (t : Token) (s : string), type t = s →
            s ≠ "source" → s ≠ "calculation" → at_line k t) as Hother.
  { intros t s Ht Hs Hcalc. unfold at_line, tokenIsSource, tokenIsCalculation.
    rewrite Ht. split; intros Heq%String.eqb_eq; done. }
  destruct r1 as [|c1|e1].
  - destruct r2 as [|c2|e2].
    + destruct r3 as [|c3|e3].
      * apply bind_Ok in Hc as (l & Hl & [= <-]).
        apply Query_processSource_line in Hl as [Hty Hlx].
        split; [by rewrite Hlx|]. unfold tokenIsCalculation. by rewrite Hty.
      * injection Hc as <-. apply Query_processOrdinal_type in H3.
        by apply (Hother _ _ H3).
      * done.
    + injection H3 as <-. injection Hc as <-.
      apply (Query_processCalculation_lineIx _ _ k) in H2 as [Hns Hparts];
        [|done].
      split; [by rewrite Hns | done].
    + injection H3 as <-. done.
  - injection H2 as <-. injection H3 as <-. injection Hc as <-.
    apply Query_processAction_type in H1. by apply (Hother _ _ H1).
  - injection H2 as <-. injection H3 as <-. done.
Qed.

Lemma Query_parseLine_lineIx (q q' : Query) tokens k parsed :
  Query_parseLine q tokens k = Ok (q', Node parsed) → lineIx parsed = Some k.
Proof.
  unfold Query_parseLine. intros Hp.
  apply bind_Ok in Hp as ([padding rest] & _ & Hp).
  apply bind_Ok in Hp as (r & _ & Hp).
  destruct r as [|[|c cs]|e]; try done. by injection Hp as <- <-.
Qed.

Lemma Query_line_outcome_at_line (q q' : Query) k line c :
  Query_line_outcome q k line = Ok (q', inl c) → at_line k c.
Proof.
  unfold Query_line_outcome. intros Hp.
  assert (∀ (t : Token) (s : string), type t = s →
            s ≠ "source" → s ≠ "calculation" → at_line k t) as Hother.
  { intros t s Ht Hs Hcalc. unfold at_line, tokenIsSource, tokenIsCalculation.
    rewrite Ht. split; intros Heq%String.eqb_eq; done. }
  apply bind_Ok in Hp as (tokens & _ & Hp).
  destruct tokens as [|t tokens].
  { simplify_eq. by apply (Hother _ "text"). }
  apply bind_Ok in Hp as ([q1 maybe] & Hline & Hp).
  destruct maybe as [|parsed|e]; [done| |by injection Hp].
  apply Query_parseLine_lineIx in Hline.
  apply bind_Ok in Hp as (cs & _ & Hp).
  destruct cs as [|kw cs']; [done|].
  destruct (tokenIsKeyword kw && text_is ";" kw).
  - apply bind_Ok in Hp as (text & _ & Hp). simplify_eq.
    by apply (Hother _ "comment").
  - apply bind_Ok in Hp as (maybe & Hclass & Hp). simplify_eq.
    by eapply Query_classify_at_line.
Qed.

(** The chunks of the AST stand at the indices of their lines, as long as no
    line failed. *)
Lemma Query_parse_lines_at_lines lines : ∀ (q q' : Query) k cs,
  ast_chunks q = Ok cs → length cs = k →
  (∀ i c, cs !! i = Some c → at_line i c) →
  Query_parse_lines q k lines = Ok q' →
  errors q' = errors q →
  ∃ cs', ast_chunks q' = Ok cs' ∧ ∀ i c, cs' !! i = Some c → at_line i c.
Proof.
  induction lines as [|line lines IH]; intros q q' k cs Hcs Hlen Hinv Hp Herr;
    simpl in Hp.
  { injection Hp as <-. by exists cs. }
  apply bind_Ok in Hp as (q1 & H1 & Hp).
  unfold Query_parse_line in H1.
  apply bind_Ok in H1 as ([q0 o] & Ho & H1).
  pose proof (Query_line_outcome_instance _ _ _ _ _ Ho) as Hq0.
  assert (ast_chunks q0 = Ok cs ∧ errors q0 = errors q) as [Hcs0 Herr0]
    by (by destruct Hq0 as [->| ->]).
  destruct o as [c|e].
  - apply Query_line_outcome_at_line in Ho.
    apply push_chunk_frame in H1 as (_ & Herr1 & Hcs1).
    rewrite Hcs0 in Hcs1. simpl in Hcs1.
    apply (IH q1 q' (S k) (cs ++ [c])); [done | | | done | congruence].
    + rewrite length_app. simpl. lia.
    + intros i c' Hi. apply lookup_app_Some in Hi as [Hi|[Hge Hi]];
        [by apply Hinv|].
      destruct (i - length cs) as [|d] eqn:Hd; [|done].
      injection Hi as <-. assert (i = k) as -> by lia. done.
  - injection H1 as <-.
    destruct (Query_parse_lines_accumulate lines (push_error e q0) q' (S k) cs)
      as (cs' & es & _ & Hes & _); [done | done |].
    simpl in Hes. rewrite Herr0, Herr in Hes.
    apply (f_equal length) in Hes. rewrite !length_app in Hes.
    simpl in Hes. lia.
Qed.

End SourceLines.

Section SourceAST.
Context `{JsNumber}.
Context (api : Api).

Lemma sources_of_lines_elem lines origins :
  sources_of_lines api lines origins →
  ∀ o, o ∈ origins →
    ∃ line s, line ∈ lines ∧ tokenIsSource line = true
              ∧ source_of_line api line s ∧ origin s = o.
Proof.
  induction 1 as [|line lines s origins Hsrc Hof Hrest IH
                  |line lines origins Hsrc Hrest IH]; intros o Ho.
  - by apply elem_of_nil in Ho.
  - apply elem_of_cons in Ho as [->|Ho].
    + exists line, s. split; [by left | done].
    + destruct (IH o Ho) as (l & s' & Hin & ?). exists l, s'.
      split; [by right | done].
  - destruct (IH o Ho) as (l & s' & Hin & ?). exists l, s'.
    split; [by right | done].
Qed.

(** [getSourceIR] and [getSourceAST] find a source and its line: for every
    source of the IR that a parse has reified, [getSourceIR] returns, for
    its identifier, a source with that identifier, and [getSourceAST]
    returns the chunk of the AST at the index of the line that the source
    was made from, which is that line, or the calculation of which that
    line is a part. *)
Theorem getSourceAST_finds_the_line (q q' : Query) raw' n n' r
    (ir : QueryIR) (s : SourceIR) :
  raw q ≠ Some raw' →
  Query_parse api q raw' n = Ok (q', n', r) →
  reified q' = Some ir → s ∈ sources ir →
  (∃ s1, Query_getSourceIR q' (source s) = Ok (Some s1)
         ∧ s1 ∈ sources ir ∧ source s1 = source s)
  ∧ ∃ c line,
      Query_getSourceAST q' s = Ok (Some c)
      ∧ line ∈ reify_chunks [c]
      ∧ tokenIsSource line = true
      ∧ s_lineIx s = lineIx line
      ∧ ∃ fp, fingerprintSource line = Ok fp
              ∧ ixer_view_fingerprint api fp = Some (sourceView s).
Proof.
  intros Hnew Hp Hir Hs. split.
  { unfold Query_getSourceIR. rewrite Hir.
    destruct (List.find _ (sources ir)) as [s1|] eqn:Hfind.
    - apply find_some in Hfind as [Hin Heq%String.eqb_eq].
      exists s1. split; [done|]. split; [|done]. by apply list_elem_of_In.
    - apply list_elem_of_In in Hs.
      apply (find_none _ _ Hfind s) in Hs.
      by rewrite String.eqb_refl in Hs. }
  pose proof Hp as Hparse.
  unfold Query_parse in Hp. rewrite bool_decide_eq_false_2 in Hp by done.
  apply bind_Ok in Hp as (q1 & Hlines & Hp).
  apply bind_Ok in Hp as ([q2 n2] & Hreify & [= <- <- <-]).
  pose proof (Query_parse_lines_frame _ _ _ _ Hlines) as (_ & Hreified1 & _).
  simpl in Hreified1.
  destruct (errors q1) eqn:Herr1; [|injection Hreify as <- <-; congruence].
  destruct (Query_parse_lines_at_lines (JsText.split_lines raw')
              (Query_parse_reset q raw') q1 0 []) as (cs & Hcs & Hat);
    [done | done | by intros ? ? ? | done | by rewrite Herr1 |].
  pose proof (Query_reify_frame api _ _ _ _ Hreify) as (_ & Hast & _).
  assert (ast_chunks q2 = Ok cs) as Hcs2
    by (unfold ast_chunks in *; by rewrite Hast).
  unfold ast_chunks, chunks_of in Hcs2.
  destruct (ast q2) as [a|] eqn:Ha; [|done].
  destruct (chunks a) as [cs0|] eqn:Hcs0; [|done]. injection Hcs2 as ->.
  pose proof (Query_parse_sources_of_lines api q q2 raw' n n2 ReturnsThis
                ir a cs Hnew Hparse Hir Ha Hcs0) as Hsources.
  destruct (sources_of_lines_elem _ _ Hsources (origin s))
    as (line & s' & Hin & Hsrc & [Hfp Hlx] & Ho);
    [by apply list_elem_of_fmap_2|].
  injection Ho as Hv Hl. rewrite Hv in Hfp. rewrite Hl in Hlx.
  unfold reify_chunks in Hin. apply list_elem_of_bind in Hin
    as (c & Hline & [i Hc]%list_elem_of_lookup_1).
  destruct (Hat i c Hc) as [Hsource Hcalc].
  assert (lineIx line = Some i) as Hi.
  { destruct (tokenIsCalculation c) eqn:Hcc.
    - specialize (Hcalc eq_refl). rewrite Forall_forall in Hcalc.
      by apply Hcalc.
    - apply list_elem_of_singleton in Hline as ->. by apply Hsource. }
  exists c, line. split.
  { unfold Query_getSourceAST. rewrite Hlx, Hi. unfold ast_chunks, chunks_of.
    rewrite Ha. simpl. rewrite Hcs0. simpl. by rewrite Hc. }
  split; [unfold reify_chunks; simpl; by rewrite app_nil_r|].
  split; [done|]. split; [done | done].
Qed.

End SourceAST.

(* ------------------------------------------------------------------------- *)
(** ** The line loop of [Ui.parse] returns *)
(* ------------------------------------------------------------------------- *)

Section UiLines.
Context `{JsNumber}.

Lemma returns_Ok {A : Type} (a : A) : returns (Ok a).
Proof. by exists a. Qed.

Lemma returns_bind {A B : Type} (m : Res A) (f : A → Res B) :
  returns m → (∀ a, m = Ok a → returns (f a)) → returns (m ≫= f).
Proof. intros [a ->] Hf. simpl. by apply Hf. Qed.

Lemma consumeWhile_returns needles tokens :
  returns (consumeWhile needles tokens None).
Proof.
  destruct (consumeWhile_from_spec needles None tokens "")
    as (consumed & rest & _ & _ & _ & Heq).
  unfold consumeWhile. rewrite Heq. by destruct rest; eexists.
Qed.

Lemma consumeUntil_returns needles tokens :
  returns (consumeUntil needles tokens None).
Proof.
  destruct (consumeUntil_from_spec needles None tokens "")
    as (consumed & rest & _ & _ & _ & Heq).
  unfold consumeUntil. rewrite Heq. by destruct rest; eexists.
Qed.

Lemma consume_returns needles tokens : returns (consume needles tokens None).
Proof. unfold consume. repeat case_match; by eexists. Qed.

Lemma Ui_tokenize_returns line : returns (Ui_tokenize line).
Proof.
  destruct (tokenize_lossless U_TOKENS line) as (pieces & Htok & _).
  { repeat constructor; discriminate. }
  by exists pieces.
Qed.

(** A field token prints, whatever it carries. *)
Lemma tokenToString_field (t : Token) :
  tokenIsField t = true → chunks t = None → returns (tokenToString t).
Proof.
  destruct t as [ty tix lix ind cs txt grp al val ng dirs pix tg cl nm
                 prop av st ev ky].
  unfold tokenIsField. simpl. intros ->%String.eqb_eq ->. simpl.
  destruct val; by eexists.
Qed.

(** A text token prints. *)
Lemma tokenToString_text (t : Token) :
  tokenIsText t = true → chunks t = None → returns (tokenToString t).
Proof.
  destruct t as [ty tix lix ind cs txt grp al val ng dirs pix tg cl nm
                 prop av st ev ky].
  unfold tokenIsText. simpl. intros ->%String.eqb_eq ->. simpl.
  by eexists.
Qed.

(** A binding line prints when it has a text. *)
Lemma tokenToString_binding (t : Token) :
  tokenIsBinding t = true → chunks t = None → is_Some (text t) →
  returns (tokenToString t).
Proof.
  destruct t as [ty tix lix ind cs txt grp al val ng dirs pix tg cl nm
                 prop av st ev ky].
  unfold tokenIsBinding. simpl. intros ->%String.eqb_eq -> [s ->]. simpl.
  by eexists.
Qed.

Lemma Ui_parseError_returns (ui : Ui) msg token raw :
  u_raw ui = Some raw → reportable token →
  returns (Ui_parseError ui msg token).
Proof.
  unfold Ui_parseError, ParseError. intros -> Hrep.
  destruct token as [t|].
  - destruct Hrep as [Hcs [Hf|[Ht|[Hb Htxt]]]].
    + destruct (tokenToString_field t Hf Hcs) as [s ->]. by eexists.
    + destruct (tokenToString_text t Ht Hcs) as [s ->]. by eexists.
    + destruct (tokenToString_binding t Hb Hcs Htxt) as [s ->]. by eexists.
  - simpl. by eexists.
Qed.

Lemma ui_fail_returns (ui : Ui) msg token raw :
  u_raw ui = Some raw → reportable token → returns (ui_fail ui msg token).
Proof.
  intros Hraw Hrep. unfold ui_fail.
  destruct (Ui_parseError_returns ui msg token raw Hraw Hrep) as [e ->].
  by eexists.
Qed.

Lemma ui_push_chunk_returns (c : Token) (ui : Ui) cs :
  ui_ast_chunks ui = Ok cs → returns (ui_push_chunk c ui).
Proof.
  unfold ui_push_chunk, set_ui_chunks, ui_ast_chunks.
  destruct (u_ast ui); [|done]. intros ->. by eexists.
Qed.

Lemma set_ui_chunks_returns (cs cs' : list Token) (ui : Ui) :
  ui_ast_chunks ui = Ok cs → returns (set_ui_chunks cs' ui).
Proof.
  unfold set_ui_chunks, ui_ast_chunks.
  destruct (u_ast ui); [|done]. intros _. by eexists.
Qed.

(** What [parseField] hands back is a field token without chunks. *)
Lemma parseField_returns parseError tokens tokenIx :
  (∀ msg token, halts (parseError msg token)) →
  ∃ r rest, parseField parseError tokens tokenIx = Ok (r, rest)
    ∧ match r with
      | Node f => tokenIsField f = true ∧ chunks f = None
      | _ => True
      end.
Proof.
  intros Hpe. unfold parseField.
  destruct (consume_returns ["?"] tokens) as [[q1 t1] ->]. simpl.
  destruct (truthy_opt q1).
  - destruct (consume_returns ["?"] t1) as [[q2 t2] ->]. simpl.
    repeat case_match; eexists _, _; (split; [done|]); by simpl.
  - destruct (consume_returns ["`"] t1) as [[bq t2] ->]. simpl.
    destruct (truthy_opt bq); [|by eexists _, _].
    pose proof (Hpe "Unterminated quoted literal."
                  (Some (set_tokenIx (Some tokenIx) (obj "field")))) as Hh.
    destruct (parseError _ _) as [err|e|]; [| by eexists _, _ | done].
    pose proof (consumeUntil_halts ["`"] t2 (Some err)) as Hu.
    destruct (consumeUntil _ _ _) as [[literal t3]|e|];
      [| by eexists _, _ | done].
    eexists _, _. split; [done|]. by simpl.
Qed.


Lemma ui_push_chunk_done raw (ui : Ui) cs merge k ind c :
  u_raw ui = Some raw → ui_ast_chunks ui = Ok cs →
  lineIx c = Some k → indent c = Some ind →
  line_done raw ui cs merge k ind (ui_push_chunk c ui).
Proof.
  unfold ui_push_chunk, set_ui_chunks, ui_ast_chunks, chunks_of.
  intros Hraw Hcs Hk Hi. destruct (u_ast ui) as [a|]; [|done].
  destruct (chunks a) as [cs0|] eqn:Ha; [|done]. injection Hcs as ->.
  simpl. eexists. split; [done|]. split; [done|]. left. by exists c.
Qed.

Lemma ui_push_error_done raw (ui : Ui) cs merge k ind e :
  u_raw ui = Some raw → ui_ast_chunks ui = Ok cs →
  line_done raw ui cs merge k ind (Ok (ui_push_error e ui)).
Proof.
  intros Hraw Hcs. eexists. split; [done|]. split; [done|].
  right; left. by exists e.
Qed.

Lemma ui_fail_done raw (ui : Ui) cs merge k ind msg token :
  u_raw ui = Some raw → ui_ast_chunks ui = Ok cs → reportable token →
  line_done raw ui cs merge k ind (ui_fail ui msg token).
Proof.
  intros Hraw Hcs Hrep. unfold ui_fail.
  destruct (Ui_parseError_returns ui msg token raw Hraw Hrep) as [e ->].
  by apply ui_push_error_done.
Qed.

Lemma rest_token_reportable tokens len :
  reportable (Some (rest_token tokens len)).
Proof. split; [done|]. right; by left. Qed.

Lemma Ui_parse_attribute_done raw (ui : Ui) cs merge k ind line tokens len :
  u_raw ui = Some raw → ui_ast_chunks ui = Ok cs →
  lineIx line = Some k → indent line = Some ind →
  line_done raw ui cs merge k ind (Ui_parse_attribute ui line tokens len).
Proof.
  intros Hraw Hcs Hk Hi. unfold Ui_parse_attribute.
  destruct (consumeWhile_returns WHITE tokens) as [[w t1] ->]. simpl.
  destruct (Ui_parseError_returns ui
              "Attributes are formatted as '- <property>: <value or field>'."
              None raw Hraw I) as [err ->]. simpl.
  destruct (consumeUntil_from_spec [":"] (Some err) t1 "")
    as (consumed & rest & _ & _ & _ & Heq).
  unfold consumeUntil. rewrite Heq.
  destruct rest as [|colon rest]; [by apply ui_push_error_done|].
  simpl.
  destruct (consumeWhile_returns WHITE rest) as [[w2 t2] ->]. simpl.
  destruct (parseField_returns (Ui_parseError ui) t2 (len - length t2))
    as (r & t3 & -> & Hr); [apply Ui_parseError_halts|].
  simpl. destruct r as [|f|e].
  - apply ui_fail_done; [done..|apply rest_token_reportable].
  - destruct t3; [by apply ui_push_chunk_done|].
    apply ui_fail_done; [done..|apply rest_token_reportable].
  - by apply ui_push_error_done.
Qed.

Lemma Ui_parse_event_done raw (ui : Ui) cs merge k ind line tokens len :
  u_raw ui = Some raw → ui_ast_chunks ui = Ok cs →
  lineIx line = Some k → indent line = Some ind →
  line_done raw ui cs merge k ind (Ui_parse_event ui line tokens len).
Proof.
  intros Hraw Hcs Hk Hi. unfold Ui_parse_event.
  destruct (consumeWhile_returns WHITE tokens) as [[w t1] ->]. simpl.
  destruct (consumeUntil_returns [":"] t1) as [[ev t2] ->]. simpl.
  destruct (consumeWhile_returns WHITE (tail t2)) as [[w2 t3] ->]. simpl.
  destruct t3 as [|t t3]; [by apply ui_push_chunk_done|].
  destruct (parseField_returns (Ui_parseError ui) (t :: t3)
              (len - length (t :: t3)))
    as (r & t4 & -> & Hr); [apply Ui_parseError_halts|].
  simpl. destruct r as [|f|e].
  - apply ui_fail_done; [done..|apply rest_token_reportable].
  - destruct Hr as [Hf Hc].
    destruct (negb (truthy_opt (alias f))).
    + apply ui_fail_done; [done..|]. split; [done|]. by left.
    + destruct t4; [by apply ui_push_chunk_done|].
      apply ui_fail_done; [done..|apply rest_token_reportable].
  - by apply ui_push_error_done.
Qed.

Lemma Ui_parse_element_done raw (ui : Ui) cs merge k ind line head tokens :
  u_raw ui = Some raw → ui_ast_chunks ui = Ok cs →
  lineIx line = Some k → indent line = Some ind →
  line_done raw ui cs merge k ind (Ui_parse_element ui line head tokens).
Proof.
  intros Hraw Hcs Hk Hi. unfold Ui_parse_element.
  destruct (consumeUntil_returns [";"] tokens) as [[cl t1] ->]. simpl.
  apply ui_push_chunk_done; [done..| |];
    by repeat case_match.
Qed.

Lemma Ui_parse_binding_done raw (ui : Ui) cs k ind tokens :
  u_raw ui = Some raw → ui_ast_chunks ui = Ok cs →
  line_done raw ui cs true k ind
    (Ui_parse_binding ui
       (set_type "binding"
          (set_indent (Some ind) (set_lineIx (Some k) (obj ""))))
       tokens).
Proof.
  intros Hraw Hcs. unfold Ui_parse_binding. rewrite Hcs. simpl.
  destruct (consumeWhile_returns WHITE tokens) as [[w t1] Hw].
  destruct (last cs) as [prevLine|] eqn:Hlast.
  2: { rewrite Hw. simpl. by apply ui_push_chunk_done. }
  destruct (tokenIsElement prevLine).
  { rewrite Hw. simpl. by apply ui_push_chunk_done. }
  destruct (tokenIsBinding prevLine).
  - rewrite Hw. simpl.
    destruct (set_ui_chunks_returns cs
                (removelast cs
                 ++ [set_text
                       (Some (printed (text prevLine) +:+ NL
                              +:+ JsString.join t1)) prevLine])
                ui Hcs) as [ui' Hset].
    exists ui'. split; [done|].
    unfold set_ui_chunks in Hset. destruct (u_ast ui) as [a|] eqn:Ha; [|done].
    injection Hset as <-. simpl. split; [done|]. right; right.
    split; [done|].
    apply last_Some in Hlast as [front ->].
    rewrite removelast_last.
    eexists front, prevLine, _. by split_and!.
  - apply ui_fail_done; [done..|]. split; [done|]. right; right. by split.
Qed.

(** A turn of the line loop of [Ui.parse], on an instance that has its text
    and its AST: it returns. *)
Lemma Ui_parse_line_done raw (ui : Ui) cs k rawLine :
  u_raw ui = Some raw → ui_ast_chunks ui = Ok cs →
  line_done raw ui cs (binding_line rawLine) k (line_indent rawLine)
    (Ui_parse_line ui k rawLine).
Proof.
  intros Hraw Hcs. unfold Ui_parse_line, binding_line, line_indent.
  destruct (Ui_tokenize_returns rawLine) as [tokens ->]. simpl.
  destruct (consumeWhile_returns WHITE tokens) as [[w rest] ->]. simpl.
  set (u := set_u_lineIx (Some (Z.of_nat k)) ui).
  assert (u_raw u = Some raw) as Hraw' by done.
  assert (ui_ast_chunks u = Ok cs) as Hcs' by done.
  assert (∀ merge i r, line_done raw u cs merge k i r →
            line_done raw ui cs merge k i r) as Hback by done.
  apply Hback. clearbody u. clear Hback.
  destruct rest as [|head rest]; [by apply ui_push_chunk_done|].
  destruct (String.eqb head ";"); [by apply ui_push_chunk_done|].
  destruct (String.eqb head "-"); [by apply Ui_parse_attribute_done|].
  destruct (String.eqb head "~"); [by apply Ui_parse_binding_done|].
  destruct (String.eqb head "@"); [by apply Ui_parse_event_done|].
  by apply Ui_parse_element_done.
Qed.


End UiLines.

(* ------------------------------------------------------------------------- *)
(** ** The errors of the lines, and the exceptions *)
(* ------------------------------------------------------------------------- *)



(* ------------------------------------------------------------------------- *)
(** ** The lines of a Ui AST carry their place *)
(* ------------------------------------------------------------------------- *)

Section PlacedLines.
Context `{JsNumber}.

Lemma leading_blanks_app (s t : string) :
  Forall (λ c, is_blank c = true) (String.list_ascii_of_string s) →
  leading_blanks (s +:+ t) = String.length s + leading_blanks t.
Proof.
  induction s as [|c s IH]; simpl; [done|].
  intros [Hc Hs]%Forall_cons. rewrite Hc. by rewrite IH.
Qed.

Lemma join_blanks (consumed : list string) :
  Forall (λ t, t ∈ WHITE) consumed →
  Forall (λ c, is_blank c = true) (String.list_ascii_of_string (JsString.join consumed))
  ∧ String.length (JsString.join consumed) = length consumed.
Proof.
  induction 1 as [|t ts Ht _ [IH1 IH2]]; simpl; [by split|].
  unfold WHITE in Ht.
  apply elem_of_cons in Ht as [->|Ht%list_elem_of_singleton]; [|subst t];
    simpl; rewrite IH2; split; try done; by constructor.
Qed.

(** A piece of the tokenizer of [Ui] that is no blank token does not start
    with a blank. *)
Lemma piece_starts_black (p rest : string) :
  piece_ok U_TOKENS p → p ∉ WHITE → leading_blanks (p +:+ rest) = 0.
Proof.
  intros [Hne Hp] Hw. destruct p as [|c p]; [done|]. simpl.
  destruct (is_blank c) eqn:Hc; [exfalso|done].
  destruct Hp as [Hin|Hfree].
  - unfold U_TOKENS in Hin. unfold WHITE in Hw.
    repeat (apply elem_of_cons in Hin as [Hin|Hin];
            [first [by injection Hin as -> -> | (apply Hw; rewrite Hin;
                                                   set_solver)]|]).
    by apply elem_of_nil in Hin.
  - unfold is_blank in Hc. apply orb_true_iff in Hc as [Hc|Hc];
      apply bool_decide_eq_true in Hc; subst c.
    + specialize (Hfree " " ltac:(unfold U_TOKENS; set_solver)).
      by simpl in Hfree.
    + specialize (Hfree TAB ltac:(unfold U_TOKENS; set_solver)).
      by simpl in Hfree.
Qed.

(** The indentation that [Ui.parse] measures in tokens is the number of
    blanks the line starts with. *)
Lemma line_indent_blanks (rawLine : string) :
  line_indent rawLine = leading_blanks rawLine.
Proof.
  unfold line_indent, Ui_tokenize.
  assert (Forall (λ t, t ≠ "") U_TOKENS) as Hall
    by (unfold U_TOKENS; repeat constructor; done).
  destruct (tokenize_lossless U_TOKENS rawLine Hall) as (pieces & Ht & Hjoin).
  rewrite Ht. simpl.
  assert (Forall (piece_ok U_TOKENS) pieces) as Hpieces.
  { unfold tokenize, makeTokenizer in Ht.
    destruct (tokenizer_loop U_TOKENS (String.length rawLine) rawLine [])
      as [ps|] eqn:Hloop; [|done]. injection Ht as ->.
    eapply tokenizer_loop_pieces; [exact Hall| |exact Hloop]. constructor. }
  destruct (consumeWhile_from_spec WHITE None pieces "")
    as (consumed & rest & -> & Hwhite & Hhead & Heq).
  unfold consumeWhile. rewrite Heq.
  assert (match rest with
          | [] | _ => Ok ("" +:+ JsString.join consumed, rest)
          end = Ok ("" +:+ JsString.join consumed, rest)) as -> by by destruct rest.
  simpl. rewrite length_app.
  replace (length consumed + length rest - length rest) with (length consumed)
    by lia.
  rewrite <- Hjoin, join_app.
  destruct (join_blanks consumed Hwhite) as [Hb Hlen].
  rewrite leading_blanks_app by done. rewrite Hlen.
  apply Forall_app in Hpieces as [_ Hrest].
  destruct rest as [|p rest]; simpl; [done|].
  rewrite piece_starts_black; [lia|by apply Forall_inv in Hrest|].
  by apply Hhead.
Qed.

Lemma stands_at_sorted_snoc (L : list string) cs ks c k :
  Forall2 (stands_at L) cs ks → StronglySorted lt ks → Forall (λ i, i < k) ks →
  stands_at L c k →
  Forall2 (stands_at L) (cs ++ [c]) (ks ++ [k])
  ∧ StronglySorted lt (ks ++ [k]) ∧ Forall (λ i, i < S k) (ks ++ [k]).
Proof.
  intros Hcs Hsorted Hlt Hc. split; [|split].
  - apply Forall2_app; [done|]. by constructor.
  - clear Hcs. induction Hsorted as [|i ks Hs IH Hi]; simpl.
    + repeat constructor.
    + apply Forall_cons in Hlt as [Hik Hlt]. constructor; [by apply IH|].
      apply Forall_app. split; [done|]. by constructor.
  - apply Forall_app. split; [|constructor; [lia|constructor]].
    eapply Forall_impl; [exact Hlt|]. simpl. lia.
Qed.

(** The line loop of [Ui.parse] keeps the chunks of the AST at the lines
    they were read from, in the order of the text. *)
Lemma Ui_parse_lines_stand (L : list string) lines : ∀ raw (ui ui' : Ui) cs ks k,
  drop k L = lines →
  u_raw ui = Some raw → ui_ast_chunks ui = Ok cs →
  Forall2 (stands_at L) cs ks → StronglySorted lt ks → Forall (λ i, i < k) ks →
  Ui_parse_lines ui k lines = Ok ui' →
  ∃ cs' ks', ui_ast_chunks ui' = Ok cs'
    ∧ Forall2 (stands_at L) cs' ks' ∧ StronglySorted lt ks'.
Proof.
  induction lines as [|line lines IH];
    intros raw ui ui' cs ks k Hdrop Hraw Hcs Hall Hsorted Hlt Hp; simpl in Hp.
  { injection Hp as <-. by exists cs, ks. }
  assert (L !! k = Some line) as Hline.
  { rewrite <- (Nat.add_0_r k), <- lookup_drop, Hdrop. done. }
  assert (drop (S k) L = lines) as Hdrop'.
  { replace (S k) with (k + 1) by lia. by rewrite <- drop_drop, Hdrop. }
  destruct (Ui_parse_line_done raw ui cs k line Hraw Hcs)
    as (u1 & Hu1 & Hraw1 & Hstep).
  rewrite Hu1 in Hp. simpl in Hp.
  destruct Hstep as [(c & Hcs1 & _ & Hk & Hi)|[(e & Hcs1 & _)
       |(_ & front & b & b' & -> & Hcs1 & Hk & Hi & _)]].
  - destruct (stands_at_sorted_snoc L cs ks c k Hall Hsorted Hlt)
      as (Hall' & Hsorted' & Hlt').
    { split; [done|]. exists line. by rewrite <- line_indent_blanks. }
    by eapply (IH raw u1 ui' _ _ (S k)).
  - eapply (IH raw u1 ui' cs ks (S k)); try done.
    eapply Forall_impl; [exact Hlt|]. simpl. lia.
  - eapply (IH raw u1 ui' _ ks (S k)); try done.
    + apply Forall2_app_inv_l in Hall as (ks1 & ks2 & Hfront & Hb & ->).
      apply Forall2_app; [done|].
      apply Forall2_cons_inv_l in Hb as (i & ks3 & [Hbk Hbi] & Hnil & ->).
      apply Forall2_nil_inv_l in Hnil as ->.
      constructor; [|constructor]. split; [congruence|].
      destruct Hbi as (l & Hl & Hind). exists l. split; [done|congruence].
    + eapply Forall_impl; [exact Hlt|]. simpl. lia.
Qed.

(** Every chunk of the AST that [Ui.parse] builds from new text stands for a
    line of that text: it carries the index of the line, and as its indent the
    number of blanks the line starts with; and the chunks are in the order of
    their lines. *)
Theorem Ui_parse_places_lines (api : Api) (ui ui' : Ui) raw' n n' r cs :
  u_raw ui ≠ Some raw' →
  Ui_parse api ui raw' n = Ok (ui', n', r) →
  ui_ast_chunks ui' = Ok cs →
  ∃ ks, Forall2 (stands_at (JsText.split_lines raw')) cs ks
        ∧ StronglySorted lt ks.
Proof.
  unfold Ui_parse. intros Hnew Hp Hcs.
  rewrite bool_decide_eq_false_2 in Hp by done.
  apply bind_Ok in Hp as (u1 & Hlines & Hp).
  apply bind_Ok in Hp as ([u2 n2] & Hreify & [= <- <- <-]).
  pose proof (Ui_parse_lines_frame _ _ _ _ Hlines)
    as (_ & Hreified1 & _ & _ & _ & Hast1).
  eapply (Ui_parse_lines_stand (JsText.split_lines raw') _ raw' _ _ [] [] 0)
    in Hlines as (cs1 & ks & Hcs1 & Hall & Hsorted);
    [|done|done|done|constructor|constructor|constructor].
  exists ks. split; [|done].
  destruct (u_errors u1).
  - apply Ui_reify_frame in Hreify as (_ & Hast2 & _); [|done|by apply Hast1].
    unfold ui_ast_chunks in *. rewrite Hast2, Hcs1 in Hcs.
    by injection Hcs as <-.
  - injection Hreify as <- <-. rewrite Hcs1 in Hcs. by injection Hcs as <-.
Qed.

End PlacedLines.

(* ------------------------------------------------------------------------- *)
(** ** Instances *)
(* ------------------------------------------------------------------------- *)



Lemma prev_is_the_last_reified_witness :
  ∃ q' n' r,
    Query_parse (H := lexeme_numbers) demo_api parsed_once "zzz" 4
      = Ok (q', n', r)
    ∧ reified q' = None
    ∧ prev q' = reified parsed_once
    ∧ is_Some (reified parsed_once).
Proof.
  destruct (Query_parse (H := lexeme_numbers) demo_api parsed_once "zzz" 4)
    as [[[q' n'] r]|e|] eqn:Hp.
  2, 3: vm_compute in Hp; discriminate Hp.
  exists q', n', r. split; [reflexivity|].
  split; [vm_compute in Hp; injection Hp as <- <- <-; reflexivity|].
  pose proof (prev_is_the_last_reified (H := lexeme_numbers) demo_api
                parsed_once q' "zzz" 4 n' r ltac:(vm_compute; discriminate) Hp)
    as Hprev.
  destruct (reified parsed_once) as [ir|] eqn:Hir; [|by vm_compute in Hir].
  split; [exact Hprev | by eexists].
Defined.



Lemma Ui_parse_places_lines_witness :
  ∃ ui' n' r cs ks,
    Ui_parse (H := lexeme_numbers) demo_api (new_Ui None)
      (text_of ["div"; "  - a: `1`"; "; note"]) 0 = Ok (ui', n', r)
    ∧ ui_ast_chunks ui' = Ok cs
    ∧ length cs = 3
    ∧ Forall2 (stands_at ["div"; "  - a: `1`"; "; note"]) cs ks
    ∧ StronglySorted lt ks.
Proof.
  destruct (Ui_parse (H := lexeme_numbers) demo_api (new_Ui None)
              (text_of ["div"; "  - a: `1`"; "; note"]) 0)
    as [[[ui' n'] r]|e|] eqn:Hp.
  2, 3: vm_compute in Hp; discriminate Hp.
  destruct (ui_ast_chunks ui') as [cs| |] eqn:Hcs.
  2, 3: vm_compute in Hp; injection Hp as <- <- <-; by vm_compute in Hcs.
  destruct (Ui_parse_places_lines (H := lexeme_numbers) demo_api (new_Ui None)
              ui' (text_of ["div"; "  - a: `1`"; "; note"]) 0 n' r cs)
    as (ks & Hall & Hsorted); [discriminate | exact Hp | exact Hcs |].
  exists ui', n', r, cs, ks. split; [reflexivity|]. split; [exact Hcs|].
  split; [|split; [exact Hall | exact Hsorted]].
  vm_compute in Hp. injection Hp as <- <- <-. vm_compute in Hcs.
  by injection Hcs as <-.
Defined.
Lemma one_source_per_source_line_witness :
  ∃ q' n' r ir a cs,
    Query_parse (H := lexeme_numbers) demo_api (new_Query None)
      (text_of ["; a note"; "age ?x"; "# ?r by ?x ascending"]) 0
      = Ok (q', n', r)
    ∧ reified q' = Some ir
    ∧ ast q' = Some a ∧ chunks a = Some cs
    ∧ length (sources ir) = 1
    ∧ sources_of_lines (H := lexeme_numbers) demo_api (reify_chunks cs)
        (origin <$> sources ir).
Proof.
  destruct (Query_parse (H := lexeme_numbers) demo_api (new_Query None)
              (text_of ["; a note"; "age ?x"; "# ?r by ?x ascending"]) 0)
    as [[[q' n'] r]|e|] eqn:Hp.
  2, 3: vm_compute in Hp; discriminate Hp.
  destruct (reified q') as [ir|] eqn:Hir.
  2: { vm_compute in Hp. injection Hp as <- <- <-. by vm_compute in Hir. }
  destruct (ast q') as [a|] eqn:Hast.
  2: { vm_compute in Hp. injection Hp as <- <- <-. by vm_compute in Hast. }
  destruct (chunks a) as [cs|] eqn:Hcs.
  2: { vm_compute in Hp. injection Hp as <- <- <-. vm_compute in Hast.
       injection Hast as <-. by vm_compute in Hcs. }
  exists q', n', r, ir, a, cs. split; [reflexivity|].
  split; [exact Hir|]. split; [exact Hast|]. split; [exact Hcs|].
  split.
  - vm_compute in Hp. injection Hp as <- <- <-. vm_compute in Hir.
    by injection Hir as <-.
  - apply (one_source_per_source_line (H := lexeme_numbers) demo_api
             (new_Query None) q'
             (text_of ["; a note"; "age ?x"; "# ?r by ?x ascending"]) 0 n' r
             ir a cs); [discriminate | exact Hp | exact Hir | exact Hast
                       | exact Hcs].
Defined.

Lemma getSourceAST_finds_the_line_witness :
  ∃ q' n' r ir s c,
    Query_parse (H := lexeme_numbers) demo_api (new_Query None)
      (text_of ["; a note"; "age ?x"]) 0 = Ok (q', n', r)
    ∧ reified q' = Some ir ∧ sources ir = [s]
    ∧ Query_getSourceAST q' s = Ok (Some c)
    ∧ lineIx c = Some 1.
Proof.
  destruct (Query_parse (H := lexeme_numbers) demo_api (new_Query None)
              (text_of ["; a note"; "age ?x"]) 0)
    as [[[q' n'] r]|e|] eqn:Hp.
  2, 3: vm_compute in Hp; discriminate Hp.
  destruct (reified q') as [ir|] eqn:Hir.
  2: { vm_compute in Hp. injection Hp as <- <- <-. by vm_compute in Hir. }
  destruct (sources ir) as [|s [|s2 ss]] eqn:Hsources.
  1, 3: vm_compute in Hp; injection Hp as <- <- <-; vm_compute in Hir;
    injection Hir as <-; by vm_compute in Hsources.
  destruct (getSourceAST_finds_the_line (H := lexeme_numbers) demo_api
              (new_Query None) q' (text_of ["; a note"; "age ?x"]) 0 n' r ir
              s ltac:(discriminate) Hp Hir)
    as [_ (c & line & Hget & _)]; [rewrite Hsources; by left|].
  exists q', n', r, ir, s, c. split; [reflexivity|]. split; [exact Hir|].
  split; [exact Hsources|]. split; [exact Hget|].
  vm_compute in Hp. injection Hp as <- <- <-. vm_compute in Hir.
  injection Hir as <-. vm_compute in Hsources. injection Hsources as <-.
  vm_compute in Hget. by injection Hget as <-.
Defined.
